(** * gprof2dot: the profile model and its derived metrics

    A shallow embedding of the model part of [gprof2dot.py]: the [ratio]
    helper, the [Event] kinds, the [Object]/[Call]/[Function]/[Cycle]/
    [Profile] classes and the [Profile] passes [validate], [call_ratios],
    [integrate] and [prune].

    Conventions of the embedding.
    - Numbers.  The model of the whole profile embeds Python numbers
      (ints and floats) as exact rationals [Q]; rounding, infinities and
      NaN are outside of it.  A Python comparison [a < b] is [Qltb a b];
      [x == 0] is [Qeq_bool x 0].  What is stated of the bounds of ratios
      and of thresholds depends on the floats themselves; for that the
      module [Binary64] has [ratio], [Profile.ratio], [call_ratios] and
      [prune] over Python's own numbers, ints of any size and IEEE 754
      binary64 floats.
    - Objects.  A [Function] object is identified with the key under which
      the profile's [functions] dict stores it, a [Call] object with the key
      of its owner followed by its key in the owner's [calls] dict, a
      [Cycle] object with its key in the store [cycle_store].  A Python
      reference to an object is such a key, and a field is read from the
      store at the moment the source reads it.
    - Dicts and sets are [gmap]s and [gset]s.  Python iterates a dict in
      insertion order and a set of objects in address order; the model
      iterates in the order of [map_to_list] and [elements].
    - Effects.  A method is a computation in the monad [M] of state and
      exceptions; the text written to [sys.stderr] is the list [stderr]. *)

From Stdlib Require Import QArith Qabs Lqa.
From Stdlib Require Floats.
From stdpp Require Import gmap strings list fin_maps.

Local Open Scope Q_scope.

#[local] Set Warnings "-clear-no-such-hyp".

(** ** Rational comparisons *)

Definition Qltb (x y : Q) : bool := negb (Qle_bool y x).

(** ** Events *)

(** The module-level [Event] objects.  An event is a dict key compared by
    identity, so [SAMPLES], [SAMPLES2] and [TOTAL_SAMPLES] are different
    keys although they carry the same name. *)
Inductive Event :=
  | CALLS | SAMPLES | SAMPLES2 | TOTAL_SAMPLES
  | TIME | TIME_RATIO | TOTAL_TIME | TOTAL_TIME_RATIO.

#[global] Instance Event_eq_dec : EqDecision Event.
Proof. solve_decision. Defined.

Definition Event_code (e : Event) : nat :=
  match e with
  | CALLS => 0 | SAMPLES => 1 | SAMPLES2 => 2 | TOTAL_SAMPLES => 3
  | TIME => 4 | TIME_RATIO => 5 | TOTAL_TIME => 6 | TOTAL_TIME_RATIO => 7
  end%nat.

Definition Event_of_code (n : nat) : Event :=
  match n with
  | 0 => CALLS | 1 => SAMPLES | 2 => SAMPLES2 | 3 => TOTAL_SAMPLES
  | 4 => TIME | 5 => TIME_RATIO | 6 => TOTAL_TIME | _ => TOTAL_TIME_RATIO
  end%nat.

#[global] Instance Event_countable : Countable Event.
Proof.
  apply (inj_countable' Event_code Event_of_code). intros []; reflexivity.
Defined.

(** The exceptions the modelled code raises.  [BadReference] and
    [OutOfFuel] have no Python counterpart: the first is a key that does
    not resolve in a store (a Python reference cannot dangle), the second
    is the bound on recursion depth and on loop iterations. *)
Inductive exn :=
  | AssertionError | KeyError | UndefinedEvent (e : Event)
  | TypeError | ValueError | BadReference | OutOfFuel.

(** The lines written to [sys.stderr], by kind and arguments. *)
Inductive Warning :=
  | NegativeRatio (numerator denominator : Q)
  | RatioGreaterThanOne (numerator denominator : Q)
  | UndefinedFunction (callee_id : nat) (caller : string)
  | NoData (caller callee : string).

(** ** The object model *)

Record Call := mkCall {
  callee_id : nat;
  call_events : gmap Event Q;
  call_ratio : option Q;
  call_weight : option Q
}.

Record Function := mkFunction {
  id : nat;
  name : string;
  module : option string;
  process : option string;
  calls : gmap nat Call;
  called : option Q;
  weight : option Q;
  cycle : option nat;
  filename : option string;
  function_events : gmap Event Q
}.

Record Cycle := mkCycle {
  cycle_events : gmap Event Q;
  cycle_functions : gset nat
}.

(** The profile together with the stores its references point into. *)
Record Profile := mkProfile {
  events : gmap Event Q;
  functions : gmap nat Function;
  cycles : list nat;
  cycle_store : gmap nat Cycle;
  stderr : list Warning
}.

(** ** The monad of state and exceptions *)

Inductive result (A : Type) :=
  | Ok (a : A) (s : Profile)
  | Raise (e : exn).
Arguments Ok {A} a s.
Arguments Raise {A} e.

Definition M (A : Type) : Type := Profile → result A.

#[global] Instance M_ret : MRet M := λ A a s, Ok a s.
#[global] Instance M_bind : MBind M := λ A B k m s,
  match m s with
  | Ok a s' => k a s'
  | Raise e => Raise e
  end.

Definition raise {A} (e : exn) : M A := λ _, Raise e.
Definition get : M Profile := λ s, Ok s s.
Definition put (s : Profile) : M unit := λ _, Ok tt s.
Definition assert (b : bool) : M unit :=
  if b then mret tt else raise AssertionError.
Definition set_stderr (err : list Warning) (s : Profile) : Profile :=
  mkProfile (events s) (functions s) (cycles s) (cycle_store s) err.
Definition write_stderr (w : Warning) : M unit := λ s,
  Ok tt (set_stderr (stderr s ++ [w]) s).

(** [for x in l: body x] *)
Fixpoint for_ {A} (l : list A) (body : A → M unit) : M unit :=
  match l with
  | [] => mret tt
  | x :: l' => body x ;; for_ l' body
  end.

(** A [for] loop that updates local variables, gathered in [acc]. *)
Fixpoint for_acc {A B} (l : list A) (acc : B) (body : B → A → M B) : M B :=
  match l with
  | [] => mret acc
  | x :: l' => acc' ← body acc x; for_acc l' acc' body
  end.

(** ** [ratio] *)

Definition tol : Q := 1 # (2 ^ 23).

Definition ratio (numerator denominator : Q) : M Q :=
  if Qeq_bool denominator 0 then
    (* 0/0 is undefined, but 1.0 yields more useful results *)
    mret 1
  else
    let ratio := numerator / denominator in
    if Qltb ratio 0 then
      (if Qltb ratio (- tol)
       then write_stderr (NegativeRatio numerator denominator)
       else mret tt) ;;
      mret 0
    else if Qltb 1 ratio then
      (if Qltb (1 + tol) ratio
       then write_stderr (RatioGreaterThanOne numerator denominator)
       else mret tt) ;;
      mret 1
    else mret ratio.

(** The quotient clamped into [0,1]. *)
Definition clamp01 (q : Q) : Q :=
  if Qltb q 0 then 0 else if Qltb 1 q then 1 else q.

(** ** Field updates *)

Definition set_call_events (ev : gmap Event Q) (c : Call) : Call :=
  mkCall (callee_id c) ev (call_ratio c) (call_weight c).
Definition set_call_ratio (r : option Q) (c : Call) : Call :=
  mkCall (callee_id c) (call_events c) r (call_weight c).
Definition set_call_weight (w : option Q) (c : Call) : Call :=
  mkCall (callee_id c) (call_events c) (call_ratio c) w.

Definition set_calls (cs : gmap nat Call) (f : Function) : Function :=
  mkFunction (id f) (name f) (module f) (process f) cs (called f)
             (weight f) (cycle f) (filename f) (function_events f).
Definition set_weight (w : option Q) (f : Function) : Function :=
  mkFunction (id f) (name f) (module f) (process f) (calls f) (called f)
             w (cycle f) (filename f) (function_events f).
Definition set_cycle (c : option nat) (f : Function) : Function :=
  mkFunction (id f) (name f) (module f) (process f) (calls f) (called f)
             (weight f) c (filename f) (function_events f).
Definition set_function_events (ev : gmap Event Q) (f : Function) : Function :=
  mkFunction (id f) (name f) (module f) (process f) (calls f) (called f)
             (weight f) (cycle f) (filename f) ev.

Definition set_cycle_events (ev : gmap Event Q) (c : Cycle) : Cycle :=
  mkCycle ev (cycle_functions c).
Definition set_cycle_functions (fs : gset nat) (c : Cycle) : Cycle :=
  mkCycle (cycle_events c) fs.

Definition set_events (ev : gmap Event Q) (s : Profile) : Profile :=
  mkProfile ev (functions s) (cycles s) (cycle_store s) (stderr s).
Definition set_functions (fs : gmap nat Function) (s : Profile) : Profile :=
  mkProfile (events s) fs (cycles s) (cycle_store s) (stderr s).
Definition set_cycle_store (cs : gmap nat Cycle) (s : Profile) : Profile :=
  mkProfile (events s) (functions s) (cycles s) cs (stderr s).

(** ** [Object]: the sparse map from events to values *)

(** [Object.__setitem__]: storing [None] removes the key. *)
Definition setitem (event : Event) (value : option Q)
    (ev : gmap Event Q) : gmap Event Q :=
  match value with
  | None => delete event ev
  | Some v => <[event := v]> ev
  end.

(** [Object.__getitem__] on a dict of events. *)
Definition getitem (event : Event) (ev : gmap Event Q) : M Q :=
  match ev !! event with
  | Some v => mret v
  | None => raise (UndefinedEvent event)
  end.

(** ** References *)

(** The keys of a dict, in iteration order. *)
Definition keys {A} (m : gmap nat A) : list nat := (map_to_list m).*1.

(** Reading through a reference to a [Function], [Call] or [Cycle]. *)
Definition the_function (function : nat) : M Function := λ s,
  match functions s !! function with
  | Some f => Ok f s
  | None => Raise BadReference
  end.

Definition the_call (function call : nat) : M Call :=
  f ← the_function function;
  match calls f !! call with
  | Some c => mret c
  | None => raise BadReference
  end.

Definition the_cycle (cycle : nat) : M Cycle := λ s,
  match cycle_store s !! cycle with
  | Some c => Ok c s
  | None => Raise BadReference
  end.

(** Writing through a reference. *)
Definition update_function (function : nat) (g : Function → Function)
    : M unit := λ s,
  match functions s !! function with
  | Some f => Ok tt (set_functions (<[function := g f]> (functions s)) s)
  | None => Raise BadReference
  end.

Definition update_call (function call : nat) (g : Call → Call) : M unit :=
  f ← the_function function;
  match calls f !! call with
  | Some c => update_function function (set_calls (<[call := g c]> (calls f)))
  | None => raise BadReference
  end.

Definition update_cycle (cycle : nat) (g : Cycle → Cycle) : M unit := λ s,
  match cycle_store s !! cycle with
  | Some c => Ok tt (set_cycle_store (<[cycle := g c]> (cycle_store s)) s)
  | None => Raise BadReference
  end.

(** [self.functions[key]] on the profile: the reference stored under
    [key], [KeyError] when there is none. *)
Definition functions_getitem (key : nat) : M nat := λ s,
  match functions s !! key with
  | Some _ => Ok key s
  | None => Raise KeyError
  end.

(** [d[key]] on a local dict. *)
Definition dict_getitem {A} (d : gmap nat A) (key : nat) : M A :=
  match d !! key with
  | Some v => mret v
  | None => raise KeyError
  end.

(** ** [Cycle.add_function] *)

Fixpoint Cycle_add_function (fuel : nat) (self function : nat) : M unit :=
  match fuel with
  | O => raise OutOfFuel
  | S fuel =>
    c ← the_cycle self;
    assert (bool_decide (function ∉ cycle_functions c)) ;;
    update_cycle self
      (λ c, set_cycle_functions ({[function]} ∪ cycle_functions c) c) ;;
    f ← the_function function;
    match cycle f with
    | Some old =>
      oc ← the_cycle old;
      for_ (elements (cycle_functions oc)) (λ other,
        c ← the_cycle self;
        if bool_decide (function ∉ cycle_functions c)
        then Cycle_add_function fuel self other
        else mret tt)
    | None => mret tt
    end ;;
    update_function function (set_cycle (Some self))
  end.

(** ** [Profile.validate] *)

(** One turn of the inner loop, on the call stored under [callee_id']
    in the calls of [function]. *)
Definition validate_call (function callee_id' : nat) : M unit :=
  call ← the_call function callee_id';
  assert (bool_decide (callee_id call = callee_id')) ;;
  s ← get;
  if bool_decide (functions s !! callee_id' = None) then
    f ← the_function function;
    write_stderr (UndefinedFunction callee_id' (name f)) ;;
    update_function function
      (λ f, set_calls (delete callee_id' (calls f)) f)
  else mret tt.

Definition validate_function (function : nat) : M unit :=
  f ← the_function function;
  for_ (keys (calls f)) (validate_call function).

(** Validate the edges. *)
Definition validate : M unit :=
  s ← get;
  for_ (keys (functions s)) validate_function.

(** The calls that [validate] keeps, [fs] being the registered
    functions. *)
Definition registered_calls (fs : gmap nat Function) (cs : gmap nat Call)
    : gmap nat Call :=
  filter (λ kv, is_Some (fs !! kv.1)) cs.

(** ** [Profile.call_ratios] *)

(** [callee.cycle is not None and callee.cycle is not function.cycle]:
    the cycle the call enters from outside, if any. *)
Definition entered_cycle (function callee : Function) : option nat :=
  match cycle callee with
  | Some cy => if bool_decide (cycle function = Some cy) then None else Some cy
  | None => None
  end.

(** Pass 1, the two dicts of totals being the loop's local variables. *)
Definition call_ratios_pass1 (event : Event)
    (totals : gmap nat Q * gmap nat Q) : M (gmap nat Q * gmap nat Q) :=
  s ← get;
  for_acc (keys (functions s)) totals (λ totals function,
    f ← the_function function;
    for_acc (keys (calls f)) totals (λ '(function_totals, cycle_totals) c,
      call ← the_call function c;
      f ← the_function function;
      if bool_decide (callee_id call ≠ id f) then
        callee ← functions_getitem (callee_id call);
        cf ← the_function callee;
        match call_events call !! event with
        | Some v =>
          ft ← dict_getitem function_totals callee;
          let function_totals := <[callee := ft + v]> function_totals in
          match entered_cycle f cf with
          | Some cy =>
            ct ← dict_getitem cycle_totals cy;
            mret (function_totals, <[cy := ct + v]> cycle_totals)
          | None => mret (function_totals, cycle_totals)
          end
        | None =>
          write_stderr (NoData (name f) (name cf)) ;;
          mret (function_totals, cycle_totals)
        end
      else mret (function_totals, cycle_totals))).

Definition call_ratios_pass2 (event : Event)
    (function_totals cycle_totals : gmap nat Q) : M unit :=
  s ← get;
  for_ (keys (functions s)) (λ function,
    f ← the_function function;
    for_ (keys (calls f)) (λ c,
      call ← the_call function c;
      f ← the_function function;
      assert (bool_decide (call_ratio call = None)) ;;
      if bool_decide (callee_id call ≠ id f) then
        callee ← functions_getitem (callee_id call);
        cf ← the_function callee;
        match call_events call !! event with
        | Some v =>
          total ← match entered_cycle f cf with
                  | Some cy => dict_getitem cycle_totals cy
                  | None => dict_getitem function_totals callee
                  end;
          r ← ratio v total;
          update_call function c (set_call_ratio (Some r))
        | None =>
          (* Warnings here would only repeat those issued above. *)
          update_call function c (set_call_ratio (Some 0))
        end
      else mret tt)).

Definition call_ratios (event : Event) : M unit :=
  s ← get;
  (* Aggregate for incoming calls *)
  let cycle_totals : gmap nat Q :=
    foldl (λ d cycle, <[cycle := 0]> d) ∅ (cycles s) in
  let function_totals : gmap nat Q :=
    foldl (λ d function, <[function := 0]> d) ∅ (keys (functions s)) in
  '(function_totals, cycle_totals) ←
    call_ratios_pass1 event (function_totals, cycle_totals);
  call_ratios_pass2 event function_totals cycle_totals.

(** ** [Profile.prune] *)

(** Python's [min(a, b)]. *)
Definition py_min (a b : Q) : Q := if Qltb b a then b else a.

(** Python's [max] of a non-empty list, given by head and tail. *)
Definition py_max (x : Q) (l : list Q) : Q :=
  foldl (λ m y, if Qltb m y then y else m) x l.

(** [s.find(sub) > -1] *)
Definition contains (s sub : string) : bool :=
  match String.index 0 sub s with Some _ => true | None => false end.

(** Truth value of an optional string: neither [None] nor empty. *)
Definition truthy (o : option string) : bool :=
  match o with
  | Some EmptyString | None => false
  | Some _ => true
  end.

Definition prune_weights : M unit :=
  s ← get;
  for_ (keys (functions s)) (λ function,
    f ← the_function function;
    match function_events f !! TOTAL_TIME_RATIO with
    | Some v => update_function function (set_weight (Some v))
    | None => mret tt
    end ;;
    f ← the_function function;
    for_ (keys (calls f)) (λ c,
      call ← the_call function c;
      callee ← functions_getitem (callee_id call);
      match call_events call !! TOTAL_TIME_RATIO with
      | Some v =>
        (* handle exact cases first *)
        update_call function c (set_call_weight (Some v))
      | None =>
        (* make a safe estimate *)
        f ← the_function function;
        cf ← the_function callee;
        match function_events f !! TOTAL_TIME_RATIO,
              function_events cf !! TOTAL_TIME_RATIO with
        | Some a, Some b =>
          update_call function c (set_call_weight (Some (py_min a b)))
        | _, _ => mret tt
        end
      end)).

Definition delete_function (function_id : nat) : M unit := λ s,
  Ok tt (set_functions (delete function_id (functions s)) s).

Definition prune_nodes (node_thres : Q) : M unit :=
  s ← get;
  for_ (keys (functions s)) (λ function_id,
    function ← functions_getitem function_id;
    f ← the_function function;
    match weight f with
    | Some w =>
      if Qltb w node_thres then delete_function function_id else mret tt
    | None => mret tt
    end).

Definition prune_paths (paths : list string) : M unit :=
  s ← get;
  for_ (keys (functions s)) (λ function_id,
    function ← functions_getitem function_id;
    f ← the_function function;
    if bool_decide (paths ≠ []) && truthy (filename f)
       && negb (existsb (λ path, String.prefix path (default ""%string (filename f))) paths)
    then delete_function function_id
    else if bool_decide (paths ≠ []) && truthy (module f)
       && negb (existsb (λ path, contains (default ""%string (module f)) path) paths)
    then delete_function function_id
    else mret tt).

(** One turn of the inner loop that prunes the edges. *)
Definition prune_edge (edge_thres : Q) (function callee_id' : nat)
    : M unit :=
  call ← the_call function callee_id';
  s ← get;
  if bool_decide (functions s !! callee_id' = None)
     || match call_weight call with
        | Some w => Qltb w edge_thres
        | None => false
        end
  then update_function function
         (λ f, set_calls (delete callee_id' (calls f)) f)
  else mret tt.

Definition prune_edges (edge_thres : Q) : M unit :=
  s ← get;
  for_ (keys (functions s)) (λ function,
    f ← the_function function;
    for_ (keys (calls f)) (prune_edge edge_thres function)).

Definition prune_recolor : M unit :=
  s ← get;
  weights ← for_acc (keys (functions s)) [] (λ weights function,
    f ← the_function function;
    match function_events f !! TIME_RATIO with
    | Some v => mret (weights ++ [v])
    | None => mret weights
    end);
  let max_ratio := match weights with
                   | [] => 1
                   | w :: ws => py_max w ws
                   end in
  (* apply rescaled weights for colouring *)
  for_ (keys (functions s)) (λ function,
    f ← the_function function;
    match function_events f !! TIME_RATIO with
    | Some v =>
      if Qeq_bool max_ratio 0 then mret tt
      else update_function function (set_weight (Some (v / max_ratio)))
    | None => mret tt
    end).

Definition prune (node_thres edge_thres : Q) (paths : list string)
    (color_nodes_by_selftime : bool) : M unit :=
  (* compute the prune ratios *)
  prune_weights ;;
  (* prune the nodes *)
  prune_nodes node_thres ;;
  (* prune file paths *)
  prune_paths paths ;;
  (* prune the edges *)
  prune_edges edge_thres ;;
  if color_nodes_by_selftime then prune_recolor else mret tt.

(** ** [Event] methods *)

Inductive aggregator := add | fail.

Definition Event_aggregator (e : Event) : aggregator :=
  match e with
  | TOTAL_TIME | TOTAL_TIME_RATIO => fail
  | _ => add
  end.

Definition null (e : Event) : Q := 0.

Definition aggregate (e : Event) (val1 val2 : Q) : M Q :=
  match Event_aggregator e with
  | add => mret (val1 + val2)
  | fail => raise AssertionError
  end.

(** ** Events of the objects in the store *)

Definition profile_setitem (event : Event) (value : Q) : M unit := λ s,
  Ok tt (set_events (setitem event (Some value) (events s)) s).

Definition function_getitem (function : nat) (event : Event) : M Q :=
  f ← the_function function; getitem event (function_events f).

Definition function_setitem (function : nat) (event : Event) (value : Q)
    : M unit :=
  update_function function
    (λ f, set_function_events (setitem event (Some value) (function_events f)) f).

Definition call_getitem (function call : nat) (event : Event) : M Q :=
  c ← the_call function call; getitem event (call_events c).

Definition call_setitem (function call : nat) (event : Event) (value : Q)
    : M unit :=
  update_call function call
    (λ c, set_call_events (setitem event (Some value) (call_events c)) c).

Definition cycle_getitem (cycle : nat) (event : Event) : M Q :=
  c ← the_cycle cycle; getitem event (cycle_events c).

Definition cycle_setitem (cycle : nat) (event : Event) (value : Q) : M unit :=
  update_cycle cycle
    (λ c, set_cycle_events (setitem event (Some value) (cycle_events c)) c).

(** [x[event] += value], with [x[event] = value] when the event is
    undefined ([except UndefinedEvent]). *)
Definition iadd (event : Event) (value : Q) (ev : gmap Event Q)
    : gmap Event Q :=
  match ev !! event with
  | Some v => <[event := v + value]> ev
  | None => <[event := value]> ev
  end.

(** Arithmetic on a value that may be [None]. *)
Definition number (o : option Q) : M Q :=
  match o with
  | Some q => mret q
  | None => raise TypeError
  end.

(** ** The heap of [_rank_cycle_function] *)

(** A heap item [[rank, parent, member]].  Python orders the items as
    lists, the two [Function] objects by address ([Object.__lt__]); the
    model takes the store key for the address. *)
Definition item : Type := nat * nat * nat.

Definition item_lt (a b : item) : bool :=
  let '(r1, p1, m1) := a in
  let '(r2, p2, m2) := b in
  if bool_decide (r1 = r2) then
    if bool_decide (p1 = p2) then bool_decide (m1 < m2)%nat
    else bool_decide (p1 < p2)%nat
  else bool_decide (r1 < r2)%nat.

#[global] Instance item_eq_dec : EqDecision item.
Proof. solve_decision. Defined.

Fixpoint remove_first (x : item) (l : list item) : list item :=
  match l with
  | [] => []
  | y :: l' => if bool_decide (x = y) then l' else y :: remove_first x l'
  end.

Fixpoint replace_first (x x' : item) (l : list item) : list item :=
  match l with
  | [] => []
  | y :: l' =>
    if bool_decide (x = y) then x' :: l' else y :: replace_first x x' l'
  end.

Definition heappush (Q : list item) (x : item) : list item := Q ++ [x].

(** [heapq.heappop]: the least item leaves the heap. *)
Definition heappop (Q : list item) : option (item * list item) :=
  match Q with
  | [] => None
  | x :: l =>
    let m := foldl (λ m y, if item_lt y m then y else m) x l in
    Some (m, remove_first m Q)
  end.

(** [Qd_callee[0] = rank; Qd_callee[1] = member;
     heapq._siftdown(Q, 0, Q.index(Qd_callee))]: the item is changed in
    place, and [Q.index] raises [ValueError] when it has left the heap. *)
Definition decrease_key (Q : list item) (old new : item)
    : M (list item) :=
  if bool_decide (old ∈ Q) then mret (replace_first old new Q)
  else if bool_decide (new ∈ Q) then mret Q
  else raise ValueError.

(** ** [Profile._rank_cycle_function] *)

(** The locals of the search: [ranks], the heap [Q] and the index [Qd]
    from a member to its heap item.  ([p] is written and never read.) *)
Definition rank_state : Type := gmap nat nat * list item * gmap nat item.

(** The [while Q] loop. *)
Fixpoint rank_loop (fuel : nat) (cy : nat) (visited : gset nat)
    (st : rank_state) : M (gmap nat nat) :=
  match fuel with
  | O => raise OutOfFuel
  | S fuel =>
    let '(ranks, Q, Qd) := st in
    match heappop Q with
    | None => mret ranks
    | Some ((cost, parent, member), Q) =>
      if bool_decide (member ∉ visited) then
        let visited := {[member]} ∪ visited in
        m ← the_function member;
        st ← for_acc (keys (calls m)) (ranks, Q, Qd) (λ '(ranks, Q, Qd) c,
          call ← the_call member c;
          m ← the_function member;
          if bool_decide (callee_id call ≠ id m) then
            callee ← functions_getitem (callee_id call);
            cf ← the_function callee;
            if bool_decide (cycle cf = Some cy) then
              member_rank ← dict_getitem ranks member;
              match ranks !! callee with
              | Some rank =>
                if bool_decide (1 + member_rank < rank)%nat then
                  let rank := (1 + member_rank)%nat in
                  let ranks := <[callee := rank]> ranks in
                  Qd_callee ← dict_getitem Qd callee;
                  let new := (rank, member, Qd_callee.2) in
                  Q ← decrease_key Q Qd_callee new;
                  mret (ranks, Q, <[callee := new]> Qd)
                else mret (ranks, Q, Qd)
              | None =>
                let rank := (1 + member_rank)%nat in
                let ranks := <[callee := rank]> ranks in
                let item := (rank, member, callee) in
                mret (ranks, heappush Q item, <[callee := item]> Qd)
              end
            else mret (ranks, Q, Qd)
          else mret (ranks, Q, Qd));
        rank_loop fuel cy visited st
      else rank_loop fuel cy visited (ranks, Q, Qd)
    end
  end.

(** Dijkstra's shortest paths algorithm. *)
Definition _rank_cycle_function (fuel : nat) (cy function : nat)
    (ranks : gmap nat nat) : M (gmap nat nat) :=
  let visited : gset nat := {[function]} in
  let ranks := <[function := 0%nat]> ranks in
  f ← the_function function;
  st ← for_acc (keys (calls f)) (ranks, [], ∅) (λ '(ranks, Q, Qd) c,
    call ← the_call function c;
    f ← the_function function;
    if bool_decide (callee_id call ≠ id f) then
      callee ← functions_getitem (callee_id call);
      cf ← the_function callee;
      if bool_decide (cycle cf = Some cy) then
        let ranks := <[callee := 1%nat]> ranks in
        let item := (1%nat, function, callee) in
        mret (ranks, heappush Q item, <[callee := item]> Qd)
      else mret (ranks, Q, Qd)
    else mret (ranks, Q, Qd));
  rank_loop fuel cy visited st.

(** ** [Profile._call_ratios_cycle] *)

Fixpoint _call_ratios_cycle (fuel : nat) (cy function : nat)
    (ranks : gmap nat nat) (st : gmap nat Q * gset nat)
    : M (gmap nat Q * gset nat) :=
  match fuel with
  | O => raise OutOfFuel
  | S fuel =>
    let '(call_ratios, visited) := st in
    if bool_decide (function ∉ visited) then
      let visited := {[function]} ∪ visited in
      f ← the_function function;
      for_acc (keys (calls f)) (call_ratios, visited)
        (λ '(call_ratios, visited) c,
          call ← the_call function c;
          f ← the_function function;
          if bool_decide (callee_id call ≠ id f) then
            callee ← functions_getitem (callee_id call);
            cf ← the_function callee;
            if bool_decide (cycle cf = Some cy) then
              rc ← dict_getitem ranks callee;
              rf ← dict_getitem ranks function;
              if bool_decide (rf < rc)%nat then
                r ← number (call_ratio call);
                let call_ratios :=
                  <[callee := default 0 (call_ratios !! callee) + r]>
                    call_ratios in
                _call_ratios_cycle fuel cy callee ranks
                                   (call_ratios, visited)
              else mret (call_ratios, visited)
            else mret (call_ratios, visited)
          else mret (call_ratios, visited))
    else mret (call_ratios, visited)
  end.

(** ** [Profile._integrate_cycle_function] *)

Fixpoint _integrate_cycle_function (fuel : nat) (cy function : nat)
    (partial_ratio : option Q) (partials : gmap nat Q)
    (ranks : gmap nat nat) (call_ratios : gmap nat Q)
    (outevent inevent : Event) : M (Q * gmap nat Q) :=
  match fuel with
  | O => raise OutOfFuel
  | S fuel =>
    partials ←
      (if bool_decide (partials !! function = None) then
        v ← function_getitem function inevent;
        pr ← number partial_ratio;
        f ← the_function function;
        '(partial, partials) ←
          for_acc (keys (calls f)) (pr * v, partials)
            (λ '(partial, partials) c,
              call ← the_call function c;
              f ← the_function function;
              if bool_decide (callee_id call ≠ id f) then
                callee ← functions_getitem (callee_id call);
                cf ← the_function callee;
                if bool_decide (cycle cf ≠ Some cy) then
                  assert (bool_decide (is_Some (call_events call !! outevent))) ;;
                  v ← call_getitem function c outevent;
                  mret (partial + pr * v, partials)
                else
                  rc ← dict_getitem ranks callee;
                  rf ← dict_getitem ranks function;
                  if bool_decide (rf < rc)%nat then
                    '(callee_partial, partials) ←
                      _integrate_cycle_function fuel cy callee
                        partial_ratio partials ranks call_ratios
                        outevent inevent;
                    call ← the_call function c;
                    total ← dict_getitem call_ratios callee;
                    r ← number (call_ratio call);
                    call_ratio' ← ratio r total;
                    let call_partial := call_ratio' * callee_partial in
                    update_call function c
                      (λ c, set_call_events
                              (iadd outevent call_partial (call_events c)) c) ;;
                    mret (partial + call_partial, partials)
                  else mret (partial, partials)
              else mret (partial, partials));
        update_function function
          (λ f, set_function_events
                  (iadd outevent partial (function_events f)) f) ;;
        mret (<[function := partial]> partials)
      else mret partials);
    partial ← dict_getitem partials function;
    mret (partial, partials)
  end.

(** ** [Profile._integrate_function], [_integrate_call], [_integrate_cycle] *)

(** [callees[callee] += call.ratio], with [callees[callee] = call.ratio]
    on [KeyError].  The ratio stored first may be [None]. *)
Definition callees_add (callees : gmap nat (option Q)) (callee : nat)
    (r : option Q) : M (gmap nat (option Q)) :=
  match callees !! callee with
  | Some v =>
    a ← number v; b ← number r; mret (<[callee := Some (a + b)]> callees)
  | None => mret (<[callee := r]> callees)
  end.

(** The callers of the cycle outside it, with the sum of the ratios of
    their calls into each member. *)
Definition cycle_callees (cy : nat) : M (gmap nat (option Q)) :=
  s ← get;
  for_acc (keys (functions s)) ∅ (λ callees function,
    f ← the_function function;
    if bool_decide (cycle f ≠ Some cy) then
      for_acc (keys (calls f)) callees (λ callees c,
        call ← the_call function c;
        callee ← functions_getitem (callee_id call);
        cf ← the_function callee;
        if bool_decide (cycle cf = Some cy)
        then callees_add callees callee (call_ratio call)
        else mret callees)
    else mret callees).

(** The two assertions that close the propagation from one entry. *)
Definition check_partials (partial : Q) (partials : gmap nat Q)
    (call_ratio total : Q) : M unit :=
  match (map_to_list partials).*2 with
  | [] => raise ValueError
  | x :: l =>
    (* Ensure [partial == max(partials.values())], with round-off tolerance *)
    let max_partial := py_max x l in
    assert (Qle_bool (Qabs (partial - max_partial))
                     ((1 # 10 ^ 7) * max_partial)) ;;
    assert (Qle_bool (Qabs (call_ratio * total - partial))
                     ((1 # 1000) * call_ratio * total))
  end.

Fixpoint _integrate_function (fuel : nat) (function : nat)
    (outevent inevent : Event) {struct fuel} : M Q :=
  match fuel with
  | O => raise OutOfFuel
  | S fuel =>
    f ← the_function function;
    match cycle f with
    | Some cy => _integrate_cycle fuel cy outevent inevent
    | None =>
      (if bool_decide (function_events f !! outevent = None) then
         total ← function_getitem function inevent;
         total ← for_acc (keys (calls f)) total (λ total c,
           call ← the_call function c;
           f ← the_function function;
           if bool_decide (callee_id call ≠ id f) then
             subtotal ← _integrate_call fuel function c outevent inevent;
             mret (total + subtotal)
           else mret total);
         function_setitem function outevent total
       else mret tt) ;;
      function_getitem function outevent
    end
  end

with _integrate_call (fuel : nat) (function c : nat)
    (outevent inevent : Event) {struct fuel} : M Q :=
  match fuel with
  | O => raise OutOfFuel
  | S fuel =>
    call ← the_call function c;
    assert (bool_decide (call_events call !! outevent = None)) ;;
    assert (bool_decide (is_Some (call_ratio call))) ;;
    callee ← functions_getitem (callee_id call);
    r ← number (call_ratio call);
    v ← _integrate_function fuel callee outevent inevent;
    let subtotal := r * v in
    call_setitem function c outevent subtotal ;;
    mret subtotal
  end

with _integrate_cycle (fuel : nat) (cy : nat)
    (outevent inevent : Event) {struct fuel} : M Q :=
  match fuel with
  | O => raise OutOfFuel
  | S fuel =>
    c ← the_cycle cy;
    (if bool_decide (cycle_events c !! outevent = None) then
       (* Compute the outevent for the whole cycle *)
       total ← for_acc (elements (cycle_functions c)) (null inevent)
         (λ total member,
           subtotal ← function_getitem member inevent;
           m ← the_function member;
           subtotal ← for_acc (keys (calls m)) subtotal (λ subtotal c,
             call ← the_call member c;
             callee ← functions_getitem (callee_id call);
             cf ← the_function callee;
             if bool_decide (cycle cf ≠ Some cy) then
               v ← _integrate_call fuel member c outevent inevent;
               mret (subtotal + v)
             else mret subtotal);
           mret (total + subtotal));
       cycle_setitem cy outevent total ;;
       (* Compute the time propagated to callers of this cycle *)
       callees ← cycle_callees cy;
       for_ (elements (cycle_functions c)) (λ member,
         function_setitem member outevent (null outevent)) ;;
       for_ (map_to_list callees) (λ '(callee, call_ratio),
         ranks ← _rank_cycle_function fuel cy callee ∅;
         '(call_ratios, _) ← _call_ratios_cycle fuel cy callee ranks (∅, ∅);
         '(partial, partials) ←
           _integrate_cycle_function fuel cy callee call_ratio ∅ ranks
             call_ratios outevent inevent;
         call_ratio ← number call_ratio;
         check_partials partial partials call_ratio total)
     else mret tt) ;;
    cycle_getitem cy outevent
  end.

(** ** [Profile.integrate] *)

(** Sanity checking *)
Definition integrate_sanity (outevent inevent : Event) : M unit :=
  s ← get;
  assert (bool_decide (events s !! outevent = None)) ;;
  for_ (keys (functions s)) (λ function,
    f ← the_function function;
    assert (bool_decide (function_events f !! outevent = None)) ;;
    assert (bool_decide (is_Some (function_events f !! inevent))) ;;
    for_ (keys (calls f)) (λ c,
      call ← the_call function c;
      assert (bool_decide (call_events call !! outevent = None)) ;;
      if bool_decide (callee_id call ≠ id f)
      then assert (bool_decide (is_Some (call_ratio call)))
      else mret tt)).

(** Propagate function time ratio along the function calls. *)
Definition integrate (fuel : nat) (outevent inevent : Event) : M unit :=
  integrate_sanity outevent inevent ;;
  (* Aggregate the input for each cycle *)
  s ← get;
  for_ (cycles s) (λ cycle,
    total ← for_acc (keys (functions s)) (null inevent) (λ total function,
      v ← function_getitem function inevent;
      aggregate inevent total v);
    profile_setitem inevent total) ;;
  (* Integrate along the edges *)
  total ← for_acc (keys (functions s)) (null inevent) (λ total function,
    v ← function_getitem function inevent;
    total ← aggregate inevent total v;
    _integrate_function fuel function outevent inevent ;;
    mret total);
  profile_setitem outevent total.

(** * Example profiles *)

Definition example_function (i : nat) (ev : gmap Event Q)
    (cs : gmap nat Call) (cy : option nat) : Function :=
  mkFunction i "f" None None cs None None cy None ev.

Definition empty_profile : Profile := mkProfile ∅ ∅ [] ∅ [].

(** Functions 1 and 2 form the cycle 0; the cycle 1 is new and empty. *)
Definition merge_input : Profile :=
  mkProfile ∅
    (list_to_map [(1%nat, example_function 1 ∅ ∅ (Some 0%nat));
                  (2%nat, example_function 2 ∅ ∅ (Some 0%nat))])
    []
    (list_to_map [(0%nat, mkCycle ∅ {[1%nat; 2%nat]});
                  (1%nat, mkCycle ∅ ∅)])
    [].

(** * Well-formed profiles *)

(** Every call is stored under its callee id ([Function.add_call]). *)
Definition calls_keyed (s : Profile) : Prop :=
  ∀ k f c call, functions s !! k = Some f → calls f !! c = Some call →
                callee_id call = c.

(** Every function is stored under its id ([Profile.add_function]). *)
Definition functions_keyed (s : Profile) : Prop :=
  ∀ k f, functions s !! k = Some f → id f = k.


(** What [prune] leaves of the edges: the target of a call is a
    function of the profile, and a defined weight is not below the
    threshold. *)
Definition edge_kept (edge_thres : Q) (s : Profile) (c : nat) (call : Call)
    : Prop :=
  is_Some (functions s !! c) ∧
  ∀ w, call_weight call = Some w → edge_thres <= w.

(** [s'] has the functions of [s], with some of their calls removed. *)
Definition calls_removed (s s' : Profile) : Prop :=
  (∀ k, is_Some (functions s' !! k) ↔ is_Some (functions s !! k)) ∧
  ∀ k f' c call, functions s' !! k = Some f' → calls f' !! c = Some call →
    ∃ f, functions s !! k = Some f ∧ calls f !! c = Some call.

(** [s'] has the functions of [s] with the calls they had. *)
Definition same_calls (s s' : Profile) : Prop :=
  ∀ k, calls <$> functions s' !! k = calls <$> functions s !! k.

(** Three functions; function 2 and the call to it weigh less than the
    thresholds 0.5% and 0.1%. *)
Definition prune_input : Profile :=
  mkProfile {[TOTAL_TIME_RATIO := 1]}
    (list_to_map
       [(0%nat, example_function 0 {[TOTAL_TIME_RATIO := 1]}
                  (list_to_map
                     [(1%nat, mkCall 1 {[TOTAL_TIME_RATIO := 6 # 10]} (Some 1) None);
                      (2%nat, mkCall 2 {[TOTAL_TIME_RATIO := 1 # 2000]} (Some 1) None)])
                  None);
        (1%nat, example_function 1 {[TOTAL_TIME_RATIO := 6 # 10]} ∅ None);
        (2%nat, example_function 2 {[TOTAL_TIME_RATIO := 1 # 1000]} ∅ None)])
    [] ∅ [].

Definition run {A} (r : result A) : Profile :=
  match r with
  | Ok _ s => s
  | Raise _ => empty_profile
  end.

Definition prune_output : Profile :=
  Eval vm_compute in run (prune (5 # 1000) (1 # 1000) [] false prune_input).

(** A profile as an ingestion adapter leaves it: function 0 calls
    function 1, itself, and the unknown function 5; functions 1 and 2
    call each other and form the cycle 0. *)
Definition raw_input : Profile :=
  mkProfile ∅
    (list_to_map
       [(0%nat, example_function 0 {[TIME := 7]}
                  (list_to_map
                     [(1%nat, mkCall 1 {[CALLS := 3]} None None);
                      (0%nat, mkCall 0 {[CALLS := 3]} None None);
                      (5%nat, mkCall 5 {[CALLS := 3]} None None)])
                  None);
        (1%nat, example_function 1 {[TIME := 10]}
                  {[2%nat := mkCall 2 {[CALLS := 4]} None None]} (Some 0%nat));
        (2%nat, example_function 2 {[TIME := 5]}
                  {[1%nat := mkCall 1 {[CALLS := 1]} None None]} (Some 0%nat))])
    [0%nat] {[0%nat := mkCycle ∅ {[1%nat; 2%nat]}]} [].

Definition validated : Profile := Eval vm_compute in run (validate raw_input).

(** The precondition that [integrate] asserts: the output event is
    defined nowhere, the input event on every function, and every call
    to another function has a ratio. *)
Definition sanity_ok (outevent inevent : Event) (s : Profile) : Prop :=
  events s !! outevent = None ∧
  ∀ k f, functions s !! k = Some f →
    function_events f !! outevent = None ∧
    is_Some (function_events f !! inevent) ∧
    ∀ c call, calls f !! c = Some call →
      call_events call !! outevent = None ∧
      (callee_id call ≠ id f → is_Some (call_ratio call)).

(** The chain A -> B -> C, as functions 0, 1 and 2, with exclusive
    times 1, 2 and 3 and all ratios 1. *)
Definition chain_input : Profile :=
  mkProfile ∅
    (list_to_map
       [(0%nat, example_function 0 {[TIME := 1]}
                  {[1%nat := mkCall 1 ∅ (Some 1) None]} None);
        (1%nat, example_function 1 {[TIME := 2]}
                  {[2%nat := mkCall 2 ∅ (Some 1) None]} None);
        (2%nat, example_function 2 {[TIME := 3]} ∅ None)])
    [] ∅ [].

Definition chain_output : Profile :=
  Eval vm_compute in run (integrate 10 TOTAL_TIME TIME chain_input).

(** What [call_ratios] leaves on a call to another function: a ratio in
    [0,1], which is 0 when the call lacks the event. *)
Definition good_ratio (event : Event) (call : Call) : Prop :=
  ∃ r, call_ratio call = Some r ∧ 0 <= r <= 1 ∧
       (call_events call !! event = None → r = 0).

(** [s'] has the calls of [s], each with the ratio it had or, for a call
    to another function, with a good one. *)
Definition ratios_set (event : Event) (s s' : Profile) : Prop :=
  ∀ k f' c call', functions s' !! k = Some f' → calls f' !! c = Some call' →
    ∃ f call, functions s !! k = Some f ∧ calls f !! c = Some call ∧
      id f' = id f ∧ callee_id call' = callee_id call ∧
      call_events call' = call_events call ∧
      (call_ratio call' = call_ratio call ∨
       callee_id call ≠ id f ∧ good_ratio event call').

Definition with_ratios : Profile :=
  Eval vm_compute in run (call_ratios CALLS validated).

Definition integrated : Profile :=
  Eval vm_compute in run (integrate 10 TOTAL_TIME TIME with_ratios).

(** * The frame of [integrate] *)

(** A profile with the event [e] removed from its functions, calls and
    cycles, and without its [stderr]. *)
Definition erase_call (e : Event) (c : Call) : Call :=
  set_call_events (delete e (call_events c)) c.

Definition erase_function (e : Event) (f : Function) : Function :=
  set_function_events (delete e (function_events f))
    (set_calls (erase_call e <$> calls f) f).

Definition erase_cycle (e : Event) (c : Cycle) : Cycle :=
  set_cycle_events (delete e (cycle_events c)) c.

Definition erase (e : Event) (s : Profile) : Profile :=
  mkProfile (events s) (erase_function e <$> functions s) (cycles s)
            (erase_cycle e <$> cycle_store s) [].

(** A computation that changes, of the state, at most the event [e] of
    functions, calls and cycles, and [stderr]. *)
Definition preserves (e : Event) {A} (m : M A) : Prop :=
  ∀ s a s', m s = Ok a s' → erase e s' = erase e s.

(** The sum of the event over all functions. *)
Definition event_total (e : Event) (s : Profile) : Q :=
  foldl Qplus (null e)
    (omap (λ f, function_events f !! e) (map_to_list (functions s)).*2).

(** The value of an event on the function stored under [k], 0 when
    there is none. *)
Definition event_value (e : Event) (s : Profile) (k : nat) : Q :=
  default 0 (functions s !! k ≫= λ f, function_events f !! e).

(** The sum of the event over the functions stored under the keys [l]. *)
Definition sum_keys (e : Event) (s : Profile) (l : list nat) (acc : Q) : Q :=
  foldl (λ acc k, acc + event_value e s k) acc l.

(** The profile after the loop of [integrate] over the cycles, which
    writes the sum of the input event on the profile once per cycle. *)
Definition cycles_written (inevent : Event) (s : Profile) : Profile :=
  match cycles s with
  | [] => s
  | _ :: _ =>
    set_events (<[inevent := event_total inevent s]> (events s)) s
  end.

(** * Calls of a function to itself *)

(** The cycles are consistent: a member of the cycle of a function
    belongs to that cycle. *)
Definition cycles_consistent (s : Profile) : Prop :=
  ∀ k f cy c m fm, functions s !! k = Some f → cycle f = Some cy →
    cycle_store s !! cy = Some c → m ∈ cycle_functions c →
    functions s !! m = Some fm → cycle fm = Some cy.

Definition well_formed (s : Profile) : Prop :=
  functions_keyed s ∧ calls_keyed s ∧ cycles_consistent s.

(** The skeleton of a profile: what no pass changes. *)
Definition skel_call (c : Call) : Call := mkCall (callee_id c) ∅ None None.

Definition skel_function (f : Function) : Function :=
  mkFunction (id f) (name f) (module f) (process f) (skel_call <$> calls f)
             None None (cycle f) (filename f) ∅.

Definition skel_cycle (c : Cycle) : Cycle := mkCycle ∅ (cycle_functions c).

Definition skel (s : Profile) : Profile :=
  mkProfile ∅ (skel_function <$> functions s) (cycles s)
            (skel_cycle <$> cycle_store s) [].

(** A profile with [blank] applied to every call of a function to
    itself, that is every call whose callee id is the id of its owner. *)
Definition mask_call (blank : Call → Call) (owner : nat) (c : Call) : Call :=
  if decide (callee_id c = owner) then blank c else c.

Definition mask_function (blank : Call → Call) (f : Function) : Function :=
  set_calls (mask_call blank (id f) <$> calls f) f.

Definition mask (blank : Call → Call) (s : Profile) : Profile :=
  set_functions (mask_function blank <$> functions s) s.

(** What [call_ratios] may read of a call of a function to itself: its
    callee id and its ratio. *)
Definition blank_weights (c : Call) : Call :=
  mkCall (callee_id c) ∅ (call_ratio c) None.

(** What [integrate] may read of a call of a function to itself: its
    callee id and its output event. *)
Definition blank_ratio (outevent : Event) (c : Call) : Call :=
  mkCall (callee_id c) (filter (λ kv, kv.1 = outevent) (call_events c))
         None None.

(** Two runs that differ only under the mask: when the first returns, the
    second returns the same value, and the states still differ only
    under the mask; [K] is the skeleton of the states. *)
Definition sim (blank : Call → Call) (K : Profile) {A} (m1 m2 : M A) : Prop :=
  ∀ s1 s2 a s1', skel s1 = K → mask blank s1 = mask blank s2 →
    m1 s1 = Ok a s1' →
    ∃ s2', m2 s2 = Ok a s2' ∧ skel s1' = K ∧ mask blank s1' = mask blank s2'.

(** The function stored under [k], in the two runs. *)
Definition related_functions (blank : Call → Call) (K : Profile) (k : nat)
    (f1 f2 : Function) : Prop :=
  functions K !! k = Some (skel_function f1) ∧
  mask_function blank f1 = mask_function blank f2.

(** The call stored under [c] in the function stored under [k], in the
    two runs. *)
Definition related_calls (blank : Call → Call) (K : Profile) (k c : nat)
    (c1 c2 : Call) : Prop :=
  (∃ f, functions K !! k = Some f ∧ calls f !! c = Some (skel_call c1)) ∧
  mask_call blank k c1 = mask_call blank k c2.

(** [well_formed], as a property that can be decided on a given
    profile. *)
Definition well_formed_check (s : Profile) : Prop :=
  map_Forall (λ k f,
    id f = k ∧
    map_Forall (λ c call, callee_id call = c) (calls f) ∧
    match cycle f with
    | Some cy =>
      match cycle_store s !! cy with
      | Some c =>
        set_Forall (λ m,
          match functions s !! m with
          | Some fm => cycle fm = Some cy
          | None => True
          end) (cycle_functions c)
      | None => True
      end
    | None => True
    end) (functions s).

#[global] Instance well_formed_check_dec s : Decision (well_formed_check s).
Proof.
  unfold well_formed_check. apply map_Forall_dec. intros k f.
  apply and_dec; [apply _|]. apply and_dec; [apply _|].
  destruct (cycle f) as [cy|]; [|apply _].
  destruct (cycle_store s !! cy) as [c|]; [|apply _].
  apply set_Forall_dec. intros m. destruct (functions s !! m); apply _.
Defined.

(** [validated] with other data on the call of function 0 to itself. *)
Definition self_call_changed : Profile :=
  Eval vm_compute in
    run (update_call 0 0
           (λ c, mkCall (callee_id c) {[CALLS := 100]} (call_ratio c) (Some 1))
           validated).

(** [with_ratios] with a ratio and other data on the call of function 0
    to itself. *)
Definition self_ratio_changed : Profile :=
  Eval vm_compute in
    run (update_call 0 0
           (λ c, mkCall (callee_id c) {[CALLS := 100]} (Some (1 # 2)) (Some 1))
           with_ratios).

(** * More of the profile model *)

(** ** [Function.get_call] *)

(** [Call(callee_id)] *)
Definition Call_init (callee_id' : nat) : Call := mkCall callee_id' ∅ None None.

(** The call stored under [callee_id'], created with no samples and no
    calls when there is none. *)
Definition get_call (function callee_id' : nat) : M Call :=
  f ← the_function function;
  (if bool_decide (calls f !! callee_id' = None) then
     let call := Call_init callee_id' in
     let call := set_call_events (setitem SAMPLES (Some 0) (call_events call)) call in
     let call := set_call_events (setitem SAMPLES2 (Some 0) (call_events call)) call in
     let call := set_call_events (setitem CALLS (Some 0) (call_events call)) call in
     update_function function
       (λ f, set_calls (<[callee_id' := call]> (calls f)) f)
   else mret tt) ;;
  the_call function callee_id'.

(** ** [Profile.getFunctionId] *)

(** The loop returns the first key whose function has the name;
    [None] stands for the [False] returned after the loop. *)
Fixpoint getFunctionId_loop (funcName : string) (l : list nat)
    : M (option nat) :=
  match l with
  | [] => mret None
  | f :: l =>
    function ← functions_getitem f;
    fn ← the_function function;
    if bool_decide (name fn = funcName) then mret (Some f)
    else getFunctionId_loop funcName l
  end.

Definition getFunctionId (funcName : string) : M (option nat) :=
  s ← get;
  getFunctionId_loop funcName (keys (functions s)).

(** ** [Profile.aggregate] *)

(** The loop over the functions; [None] is the [return] taken when a
    function lacks the event. *)
Fixpoint Profile_aggregate_loop (event : Event) (l : list nat) (total : Q)
    : M (option Q) :=
  match l with
  | [] => mret (Some total)
  | function :: l =>
    f ← the_function function;
    match function_events f !! event with
    | Some v =>
      total ← aggregate event total v;
      Profile_aggregate_loop event l total
    | None => mret None
    end
  end.

(** Aggregate an event for the whole profile. *)
Definition Profile_aggregate (event : Event) : M unit :=
  s ← get;
  total ← Profile_aggregate_loop event (keys (functions s)) (null event);
  match total with
  | Some total => profile_setitem event total
  | None => mret tt
  end.

(** ** [Profile.ratio] *)

Definition profile_getitem (event : Event) : M Q :=
  s ← get; getitem event (events s).

Definition Profile_ratio (outevent inevent : Event) : M unit :=
  s ← get;
  assert (bool_decide (events s !! outevent = None)) ;;
  assert (bool_decide (is_Some (events s !! inevent))) ;;
  for_ (keys (functions s)) (λ function,
    f ← the_function function;
    assert (bool_decide (function_events f !! outevent = None)) ;;
    assert (bool_decide (is_Some (function_events f !! inevent))) ;;
    n ← function_getitem function inevent;
    d ← profile_getitem inevent;
    r ← ratio n d;
    function_setitem function outevent r ;;
    for_ (keys (calls f)) (λ c,
      call ← the_call function c;
      assert (bool_decide (call_events call !! outevent = None)) ;;
      if bool_decide (is_Some (call_events call !! inevent)) then
        n ← call_getitem function c inevent;
        d ← profile_getitem inevent;
        r ← ratio n d;
        call_setitem function c outevent r
      else mret tt)) ;;
  profile_setitem outevent 1.

(** ** [Profile.prune_root] and [Profile.prune_leaf] *)

(** [frontier.pop()]: [pop] picks the element, which Python leaves
    unspecified; on the empty set it raises [KeyError]. *)
Definition set_pop (pop : gset (nat * Z) → option (nat * Z))
    (frontier : gset (nat * Z)) : M (nat * Z) :=
  match pop frontier with
  | Some x => mret x
  | None => raise KeyError
  end.

(** The [while len(frontier) > 0] loop of both functions; [next node]
    is the set from which [visited] is subtracted to give [newNodes]. *)
Fixpoint frontier_loop (pop : gset (nat * Z) → option (nat * Z))
    (next : nat → M (gset nat)) (fuel : nat)
    (visited : gset nat) (frontier : gset (nat * Z)) : M (gset nat) :=
  match fuel with
  | O => raise OutOfFuel
  | S fuel =>
    if bool_decide (0 < size frontier)%nat then
      '(node, node_depth) ← set_pop pop frontier;
      let frontier := frontier ∖ {[(node, node_depth)]} in
      let visited := {[node]} ∪ visited in
      if bool_decide (node_depth = 0%Z) then
        frontier_loop pop next fuel visited frontier
      else
        nodes ← next node;
        let newNodes := nodes ∖ visited in
        let frontier :=
          frontier ∪ set_map (λ new_node, (new_node, (node_depth - 1)%Z))
                             newNodes in
        frontier_loop pop next fuel visited frontier
    else mret visited
  end.

(** The calls of [f] whose key is in [kept], as the loop over
    [f.calls.keys()] builds them. *)
Definition newCalls (kept : gset nat) (cs : gmap nat Call) : gmap nat Call :=
  foldl (λ newCalls c,
           if bool_decide (c ∈ kept) then
             match cs !! c with
             | Some call => <[c := call]> newCalls
             | None => newCalls
             end
           else newCalls)
        ∅ (keys cs).

(** The loop that builds the new function dict from the nodes kept, and
    the assignment of that dict to [self.functions]. *)
Definition keep_functions (kept : gset nat) : M unit :=
  subtreeFunctions ← for_acc (elements kept) (∅ : gmap nat nat)
    (λ subtreeFunctions n,
      f ← functions_getitem n;
      fn ← the_function f;
      update_function f (set_calls (newCalls kept (calls fn))) ;;
      mret (<[n := f]> subtreeFunctions));
  s ← get;
  put (set_functions (omap (λ f, functions s !! f) subtreeFunctions) s).

Definition prune_root (pop : gset (nat * Z) → option (nat * Z))
    (fuel : nat) (roots : list nat) (depth : Z) : M unit :=
  let frontier : gset (nat * Z) :=
    list_to_set ((λ root_node, (root_node, depth)) <$> roots) in
  visited ← frontier_loop pop
    (λ node,
      f ← functions_getitem node;
      fn ← the_function f;
      mret (list_to_set (keys (calls fn))))
    fuel ∅ frontier;
  keep_functions visited.

(** [edgesUp[n].add(f)] on the [defaultdict] of sets. *)
Definition edgesUp_add (edgesUp : gmap nat (gset nat)) (n f : nat)
    : gmap nat (gset nat) :=
  <[n := {[f]} ∪ default ∅ (edgesUp !! n)]> edgesUp.

Definition prune_leaf (pop : gset (nat * Z) → option (nat * Z))
    (fuel : nat) (leafs : list nat) (depth : Z) : M unit :=
  s ← get;
  edgesUp ← for_acc (keys (functions s)) (∅ : gmap nat (gset nat))
    (λ edgesUp f,
      function ← functions_getitem f;
      fn ← the_function function;
      mret (foldl (λ edgesUp n, edgesUp_add edgesUp n f) edgesUp
                  (keys (calls fn))));
  (* build the tree up *)
  let frontier : gset (nat * Z) :=
    list_to_set ((λ leaf_node, (leaf_node, depth)) <$> leafs) in
  visited ← frontier_loop pop
    (λ node, mret (default ∅ (edgesUp !! node)))
    fuel ∅ frontier;
  s ← get;
  let downTree : gset nat := list_to_set (keys (functions s)) in
  let upTree := visited in
  let path := downTree ∩ upTree in
  keep_functions path.

(** A [pop] that can be run: the first element in the order of
    [elements]. *)
Definition pop_first (X : gset (nat * Z)) : option (nat * Z) :=
  head (elements X).

(** ** What [Profile.ratio] computes *)

(** The value of [ratio], without its warnings. *)
Definition ratio_value (numerator denominator : Q) : Q :=
  if Qeq_bool denominator 0 then 1 else clamp01 (numerator / denominator).

(** A call with its input event, if it has one, divided by [total] and
    stored as its output event. *)
Definition ratio_call (total : Q) (outevent inevent : Event) (call : Call)
    : Call :=
  match call_events call !! inevent with
  | Some n =>
    set_call_events (<[outevent := ratio_value n total]> (call_events call)) call
  | None => call
  end.

(** The same for a function and its calls. *)
Definition ratio_function (total : Q) (outevent inevent : Event)
    (f : Function) : Function :=
  match function_events f !! inevent with
  | Some n =>
    set_function_events
      (<[outevent := ratio_value n total]> (function_events f))
      (set_calls (ratio_call total outevent inevent <$> calls f) f)
  | None => f
  end.

(** ** What [prune_root] and [prune_leaf] keep *)

(** The function stored under [k] has a call stored under [c]. *)
Definition edge (s : Profile) (k c : nat) : Prop :=
  ∃ f, functions s !! k = Some f ∧ is_Some (calls f !! c).

(** The nodes that at most [n] steps along [E] reach from [roots]. *)
Inductive reach_within (E : nat → nat → Prop) (roots : list nat)
    : nat → nat → Prop :=
  | reach_root n r : r ∈ roots → reach_within E roots n r
  | reach_step n k c :
      reach_within E roots n k → E k c → reach_within E roots (S n) c.

(** The frontier that the loop starts from. *)
Definition frontier0 (roots : list nat) (depth : Z) : gset (nat * Z) :=
  list_to_set ((λ root_node, (root_node, depth)) <$> roots).

(** A function with only those of its calls whose key is in [kept]. *)
Definition restrict_calls (kept : gset nat) (f : Function) : Function :=
  set_calls (filter (λ kv, kv.1 ∈ kept) (calls f)) f.

(** The functions whose key is in [kept], each with only those of its
    calls whose key is in [kept]. *)
Definition restrict_functions (kept : gset nat) (fs : gmap nat Function)
    : gmap nat Function :=
  restrict_calls kept <$> filter (λ kv, kv.1 ∈ kept) fs.

(** The chain of [chain_input] with a call from function 2 back to
    function 1 and a function 3 that nothing calls. *)
Definition graph_input : Profile :=
  mkProfile ∅
    (list_to_map
       [(0%nat, example_function 0 ∅ {[1%nat := mkCall 1 ∅ None None]} None);
        (1%nat, example_function 1 ∅ {[2%nat := mkCall 2 ∅ None None]} None);
        (2%nat, example_function 2 ∅ {[1%nat := mkCall 1 ∅ None None]} None);
        (3%nat, example_function 3 ∅ {[0%nat := mkCall 0 ∅ None None]} None)])
    [] ∅ [].


Definition prune_root_output : Profile :=
  Eval vm_compute in run (prune_root pop_first 10 [1%nat] (-1) graph_input).

Definition prune_root_output1 : Profile :=
  Eval vm_compute in run (prune_root pop_first 10 [0%nat] 1 graph_input).

Definition prune_leaf_output : Profile :=
  Eval vm_compute in run (prune_leaf pop_first 10 [0%nat] (-1) graph_input).

(** ** What [prune] keeps of the functions *)

(** The weight that [prune] gives a function before it prunes the
    nodes: its [TOTAL_TIME_RATIO], or the weight it had when it has
    none. *)
Definition prune_weight (f : Function) : option Q :=
  match function_events f !! TOTAL_TIME_RATIO with
  | Some v => Some v
  | None => weight f
  end.

(** The function weighs less than the threshold. *)
Definition below (node_thres : Q) (f : Function) : Prop :=
  ∃ w, prune_weight f = Some w ∧ w < node_thres.

(** [f'] is [f] but for its calls and its weight. *)
Definition same_node (f f' : Function) : Prop :=
  id f' = id f ∧ name f' = name f ∧ module f' = module f ∧
  process f' = process f ∧ called f' = called f ∧ cycle f' = cycle f ∧
  filename f' = filename f ∧ function_events f' = function_events f.

(** The functions of [s'] are functions of [s], but for their calls and
    weights. *)
Definition nodes_kept (s s' : Profile) : Prop :=
  ∀ k f', functions s' !! k = Some f' →
    ∃ f, functions s !! k = Some f ∧ same_node f f'.

(** [s'] has the functions of [s], but for their calls and for weights
    that became the one [prune] gives. *)
Definition weights_set (s s' : Profile) : Prop :=
  ∀ k, match functions s !! k, functions s' !! k with
       | Some f, Some f' =>
         same_node f f' ∧ (weight f' = weight f ∨ weight f' = prune_weight f)
       | None, None => True
       | _, _ => False
       end.

(** ** Events that a pass keeps *)

(** The functions and calls of [s'] are functions and calls of [s] with
    the same events, and the profile has the same events. *)
Definition events_kept (s s' : Profile) : Prop :=
  events s' = events s ∧
  ∀ k f', functions s' !! k = Some f' →
    ∃ f, functions s !! k = Some f ∧ id f' = id f ∧
      function_events f' = function_events f ∧
      ∀ c call', calls f' !! c = Some call' →
        ∃ call, calls f !! c = Some call ∧
          callee_id call' = callee_id call ∧
          call_events call' = call_events call.

(** The weight of the function stored under [k] is its
    [TOTAL_TIME_RATIO], if it has one. *)
Definition weighed (k : nat) (s : Profile) : Prop :=
  ∀ f v, functions s !! k = Some f →
    function_events f !! TOTAL_TIME_RATIO = Some v → weight f = Some v.

Definition pipeline_input : Profile :=
  Eval vm_compute in
    run (Profile_aggregate TIME
           (set_functions
              ((λ f, set_calls
                       ((λ c, set_call_events {[CALLS := 1]}
                                (set_call_ratio None c)) <$> calls f) f)
                 <$> functions chain_input) chain_input)).

Definition pipeline_ratio : Profile :=
  Eval vm_compute in run (Profile_ratio TIME_RATIO TIME pipeline_input).

Definition pipeline_call_ratios : Profile :=
  Eval vm_compute in run (call_ratios CALLS pipeline_ratio).

(** ** What [integrate] computes when no function is in a cycle *)


(** [acc] plus the output events of the calls of [f] stored under the
    keys [l], in that order. *)
Definition integrated_total (T : nat → Q) (f : Function) (acc : Q)
    (l : list nat) : Q :=
  foldl (λ total c,
           match calls f !! c with
           | Some call =>
             if bool_decide (callee_id call ≠ id f)
             then total + default 0 (call_ratio call) * T (callee_id call)
             else total
           | None => total
           end) acc l.




(** The calls to other functions go to functions of the profile, down
    along [rank]: the call graph has no cycle but for the calls of
    functions to themselves. *)
Definition dag (rank : nat → nat) (s : Profile) : Prop :=
  ∀ k f, functions s !! k = Some f →
    ∀ c call, calls f !! c = Some call → callee_id call ≠ id f →
      is_Some (functions s !! callee_id call) ∧
      (rank (callee_id call) < rank k)%nat.






(** A diamond: function 0 calls 1 and 2, which both call 3; function 1
    also calls itself. *)
Definition diamond_input : Profile :=
  mkProfile ∅
    (list_to_map
       [(0%nat, example_function 0 {[TIME := 1]}
                  (list_to_map [(1%nat, mkCall 1 ∅ (Some 1) None);
                                (2%nat, mkCall 2 ∅ (Some 1) None)]) None);
        (1%nat, example_function 1 {[TIME := 2]}
                  (list_to_map [(1%nat, mkCall 1 ∅ None None);
                                (3%nat, mkCall 3 ∅ (Some (1 # 4)) None)]) None);
        (2%nat, example_function 2 {[TIME := 3]}
                  {[3%nat := mkCall 3 ∅ (Some (3 # 4)) None]} None);
        (3%nat, example_function 3 {[TIME := 8]} ∅ None)])
    [] ∅ [].


(** The rank of the functions of [diamond_input]. *)
Definition diamond_rank (k : nat) : nat :=
  match k with
  | 0 => 2
  | 1 | 2 => 1
  | _ => 0
  end%nat.

(** ** [Profile.find_cycles] and [Profile._tarjan] *)

(** [Profile._TarjanData] *)
Record TarjanData := mkTarjanData {
  order : nat;
  lowlink : nat;
  onstack : bool
}.

Definition set_lowlink (l : nat) (d : TarjanData) : TarjanData :=
  mkTarjanData (order d) l (onstack d).
Definition set_onstack (b : bool) (d : TarjanData) : TarjanData :=
  mkTarjanData (order d) (lowlink d) b.

Definition set_cycles (cs : list nat) (s : Profile) : Profile :=
  mkProfile (events s) (functions s) cs (cycle_store s) (stderr s).

(** [Cycle()]: a new cycle, under a key that the store does not have. *)
Definition new_cycle : M nat := λ s,
  let cy := fresh (dom (cycle_store s)) in
  Ok cy (set_cycle_store (<[cy := mkCycle ∅ ∅]> (cycle_store s)) s).

(** Reading through the reference [func_data], which is [data[key]]. *)
Definition the_data (data : gmap nat TarjanData) (key : nat) : M TarjanData :=
  match data !! key with
  | Some d => mret d
  | None => raise BadReference
  end.

(** [data[member.id].onstack = False] *)
Definition off_stack (data : gmap nat TarjanData) (member : nat)
    : M (gmap nat TarjanData) :=
  m ← the_function member;
  d ← dict_getitem data (id m);
  mret (<[id m := set_onstack false d]> data).

(** The list [stack] and the dict [data] are shared by all the calls;
    they are passed on with [order], which the source returns. *)
Fixpoint _tarjan (fuel : nat) (function : nat) (order' : nat)
    (stack : list nat) (data : gmap nat TarjanData) {struct fuel}
    : M (nat * list nat * gmap nat TarjanData) :=
  match fuel with
  | O => raise OutOfFuel
  | S fuel =>
    f ← the_function function;
    match data !! id f with
    | Some func_data => mret (order', stack, data)
    | None =>
      let data := <[id f := mkTarjanData order' order' false]> data in
      let order' := S order' in
      let pos := length stack in
      let stack := stack ++ [function] in
      func_data ← the_data data (id f);
      let data := <[id f := set_onstack true func_data]> data in
      '(order', stack, data) ←
        for_acc (keys (calls f)) (order', stack, data)
          (λ '(order', stack, data) c,
             call ← the_call function c;
             match data !! callee_id call with
             | Some callee_data =>
               if onstack callee_data then
                 func_data ← the_data data (id f);
                 mret (order', stack,
                       <[id f := set_lowlink (Nat.min (lowlink func_data)
                                                (order callee_data))
                                   func_data]> data)
               else mret (order', stack, data)
             | None =>
               callee ← functions_getitem (callee_id call);
               '(order', stack, data) ←
                 _tarjan fuel callee order' stack data;
               callee_data ← dict_getitem data (callee_id call);
               func_data ← the_data data (id f);
               mret (order', stack,
                     <[id f := set_lowlink (Nat.min (lowlink func_data)
                                              (lowlink callee_data))
                                 func_data]> data)
             end);
      func_data ← the_data data (id f);
      if (lowlink func_data =? order func_data)%nat then
        (* Strongly connected component found *)
        let members := drop pos stack in
        let stack := take pos stack in
        if (1 <? length members)%nat then
          cycle ← new_cycle;
          data ← for_acc members data (λ data member,
            Cycle_add_function fuel cycle member ;;
            off_stack data member);
          mret (order', stack, data)
        else
          data ← for_acc members data off_stack;
          mret (order', stack, data)
      else mret (order', stack, data)
    end
  end.

(** Find cycles using Tarjan's strongly connected components algorithm. *)
Definition find_cycles (fuel : nat) : M unit :=
  (* Apply the Tarjan's algorithm successively until all functions are
     visited *)
  s ← get;
  for_acc (keys (functions s)) (0%nat, [], ∅)
    (λ '(order', stack, data) function,
       _tarjan fuel function order' stack data) ;;
  s ← get;
  cycles ← for_acc (keys (functions s)) [] (λ cycles function,
    f ← the_function function;
    match cycle f with
    | Some cy =>
      if bool_decide (cy ∉ cycles) then mret (cycles ++ [cy])
      else mret cycles
    | None => mret cycles
    end);
  s ← get;
  put (set_cycles cycles s).

(** Functions 0 and 3 outside the cycle of the functions 1 and 2, which
    call each other. *)
Definition loop_input : Profile :=
  mkProfile ∅
    (list_to_map
       [(0%nat, example_function 0 ∅
                  {[1%nat := mkCall 1 ∅ None None]} None);
        (1%nat, example_function 1 ∅
                  (list_to_map [(2%nat, mkCall 2 ∅ None None);
                                (3%nat, mkCall 3 ∅ None None)]) None);
        (2%nat, example_function 2 ∅
                  {[1%nat := mkCall 1 ∅ None None]} None);
        (3%nat, example_function 3 ∅ ∅ None)])
    [] ∅ [].

Definition loop_output : Profile :=
  Eval vm_compute in run (find_cycles 10 loop_input).

(** The entries of [data] are as [_tarjan] leaves them where no function
    calls back: with the lowlink they were created with, and on the stack
    only for functions in [stack]. *)
Definition tarjan_settled (stack : list nat) (data : gmap nat TarjanData)
    : Prop :=
  ∀ j d, data !! j = Some d →
    lowlink d = order d ∧ (onstack d = true → j ∈ stack).

(** What [_tarjan] does, with [fuel], on a function of lower rank than
    the functions in [stack]: it gives the function, and functions of
    lower rank, an entry in [data], and leaves the stack and the profile
    as they are. *)
Definition tarjan_contract (rank : nat → nat) (s : Profile) (fuel : nat)
    : Prop :=
  ∀ k f order' stack data,
    functions s !! k = Some f → (rank k < fuel)%nat →
    (∀ j, j ∈ stack → (rank k < rank j)%nat) →
    tarjan_settled stack data →
    ∃ order'' data',
      _tarjan fuel k order' stack data s = Ok (order'', stack, data') s ∧
      (order' ≤ order'')%nat ∧
      tarjan_settled stack data' ∧
      data ⊆ data' ∧
      ∃ d, data' !! k = Some d ∧ (data !! k = None → (order' ≤ order d)%nat).
(** ** The cycles that [find_cycles] makes *)

(** The functions point to cycles of the store, and each cycle of the
    store holds exactly the functions that point to it. *)
Definition cycles_exact (s : Profile) : Prop :=
  (∀ k f cy, functions s !! k = Some f → cycle f = Some cy →
     is_Some (cycle_store s !! cy)) ∧
  ∀ cy c, cycle_store s !! cy = Some c →
    ∀ m, m ∈ cycle_functions c ↔
         ∃ f, functions s !! m = Some f ∧ cycle f = Some cy.

(** What [_tarjan] keeps: the cycles are exact, the functions in
    [stack] are distinct, in no cycle and have an entry in [data], and
    the functions without an entry are in no cycle. *)
Definition tarjan_inv (s : Profile) (stack : list nat)
    (data : gmap nat TarjanData) : Prop :=
  cycles_exact s ∧ NoDup stack ∧
  (∀ m, m ∈ stack → ∃ f, functions s !! m = Some f ∧ cycle f = None ∧
                          is_Some (data !! id f)) ∧
  (∀ k f, functions s !! k = Some f → data !! id f = None → cycle f = None).

(** * The passes that compare and divide, on Python's numbers *)

(** [ratio], [Profile.ratio], [Profile.call_ratios] and [Profile.prune]
    once more, with the numbers as Python has them: an int is an integer
    of any size, a float an IEEE 754 binary64 number, with its rounding,
    its infinities and NaN.  The objects, the references and the monad are
    those of the model above, with these numbers as values. *)
Module Binary64.

Import SpecFloat PrimFloat FloatOps.

(** ** Numbers *)

Inductive number := Int (z : Z) | Float (x : float).

Inductive exn :=
  | AssertionError | KeyError | UndefinedEvent (e : Event)
  | OverflowError | BadReference.

Inductive Warning :=
  | NegativeRatio (numerator denominator : number)
  | RatioGreaterThanOne (numerator denominator : number)
  | UndefinedFunction (callee_id : nat) (caller : string)
  | NoData (caller callee : string).

(** ** The object model *)

Record Call := mkCall {
  callee_id : nat;
  call_events : gmap Event number;
  call_ratio : option number;
  call_weight : option number
}.

Record Function := mkFunction {
  id : nat;
  name : string;
  module : option string;
  process : option string;
  calls : gmap nat Call;
  called : option number;
  weight : option number;
  cycle : option nat;
  filename : option string;
  function_events : gmap Event number
}.

Record Cycle := mkCycle {
  cycle_events : gmap Event number;
  cycle_functions : gset nat
}.

Record Profile := mkProfile {
  events : gmap Event number;
  functions : gmap nat Function;
  cycles : list nat;
  cycle_store : gmap nat Cycle;
  stderr : list Warning
}.

(** ** The monad of state and exceptions *)

Inductive result (A : Type) :=
  | Ok (a : A) (s : Profile)
  | Raise (e : exn).
Arguments Ok {A} a s.
Arguments Raise {A} e.

Definition M (A : Type) : Type := Profile → result A.

#[global] Instance M_ret : MRet M := λ A a s, Ok a s.
#[global] Instance M_bind : MBind M := λ A B k m s,
  match m s with
  | Ok a s' => k a s'
  | Raise e => Raise e
  end.

Definition raise {A} (e : exn) : M A := λ _, Raise e.
Definition get : M Profile := λ s, Ok s s.
Definition assert (b : bool) : M unit :=
  if b then mret tt else raise AssertionError.
Definition set_stderr (err : list Warning) (s : Profile) : Profile :=
  mkProfile (events s) (functions s) (cycles s) (cycle_store s) err.
Definition write_stderr (w : Warning) : M unit := λ s,
  Ok tt (set_stderr (stderr s ++ [w]) s).

Fixpoint for_ {A} (l : list A) (body : A → M unit) : M unit :=
  match l with
  | [] => mret tt
  | x :: l' => body x ;; for_ l' body
  end.

Fixpoint for_acc {A B} (l : list A) (acc : B) (body : B → A → M B) : M B :=
  match l with
  | [] => mret acc
  | x :: l' => acc' ← body acc x; for_acc l' acc' body
  end.

(** ** Arithmetic *)

(** The float nearest to an int, ties going to the even one; infinite
    when the int is out of range. *)
Definition nearest (z : Z) : float :=
  SF2Prim (binary_normalize prec emax z 0 false).

(** [float(x)]: [OverflowError] for an int too large for a float. *)
Definition to_float (x : number) : option PrimFloat.float :=
  match x with
  | Int z => if is_infinity (nearest z) then None else Some (nearest z)
  | Float x => Some x
  end.

Definition float (x : number) : M PrimFloat.float :=
  match to_float x with
  | Some y => mret y
  | None => raise OverflowError
  end.

(** [a + b]: exact on ints, otherwise the sum of the operands as
    floats. *)
Definition add (a b : number) : M number :=
  match a, b with
  | Int x, Int y => mret (Int (x + y))
  | _, _ => x ← float a; y ← float b; mret (Float (x + y))
  end.

(** The order of an int and a float, which Python decides exactly,
    without rounding the int; [None] for NaN. *)
Definition compare_int_float (z : Z) (x : PrimFloat.float)
    : option comparison :=
  match Prim2SF x with
  | S754_nan => None
  | S754_infinity s => Some (if s then Gt else Lt)
  | S754_zero _ => Some (z ?= 0)%Z
  | S754_finite s m e =>
    let m' := if s then Z.neg m else Z.pos m in
    Some (if (0 <=? e)%Z then (z ?= m' * 2 ^ e)%Z
          else (z * 2 ^ (- e) ?= m')%Z)
  end.

(** [a < b] *)
Definition lt (a b : number) : bool :=
  match a, b with
  | Int x, Int y => (x <? y)%Z
  | Float x, Float y => (x <? y)%float
  | Int x, Float y =>
    match compare_int_float x y with Some Lt => true | _ => false end
  | Float x, Int y =>
    match compare_int_float y x with Some Gt => true | _ => false end
  end.

(** An int as an unbounded binary number. *)
Definition Z2SF (z : Z) : spec_float :=
  match z with
  | Z0 => S754_zero false
  | Zpos p => S754_finite false p 0
  | Zneg p => S754_finite true p 0
  end.

(** The quotient of two ints, rounded once to the nearest float. *)
Definition nearest_quotient (x y : Z) : PrimFloat.float :=
  SF2Prim (SFdiv prec emax (Z2SF x) (Z2SF y)).

(** [a / b]; [None] stands for [ZeroDivisionError], which the callers
    catch. *)
Definition truediv (a b : number) : M (option number) :=
  match a, b with
  | Int x, Int y =>
    if (y =? 0)%Z then mret None
    else if is_infinity (nearest_quotient x y) then raise OverflowError
    else mret (Some (Float (nearest_quotient x y)))
  | _, _ =>
    x ← float a;
    y ← float b;
    if (y =? 0)%float then mret None else mret (Some (Float (x / y)))
  end.

(** ** [ratio] *)

Definition tol : PrimFloat.float := 0x1p-23%float.

Definition ratio (numerator denominator : number) : M number :=
  x ← float numerator;
  y ← float denominator;
  if (y =? 0)%float then
    (* 0/0 is undefined, but 1.0 yields more useful results *)
    mret (Float 1)
  else
    let ratio := (x / y)%float in
    if (ratio <? 0)%float then
      (if (ratio <? - tol)%float
       then write_stderr (NegativeRatio numerator denominator)
       else mret tt) ;;
      mret (Float 0)
    else if (1 <? ratio)%float then
      (if (1 + tol <? ratio)%float
       then write_stderr (RatioGreaterThanOne numerator denominator)
       else mret tt) ;;
      mret (Float 1)
    else mret (Float ratio).

(** The quotient clamped into [0,1]; NaN passes through. *)
Definition clamp01 (q : PrimFloat.float) : PrimFloat.float :=
  if (q <? 0)%float then 0%float else if (1 <? q)%float then 1%float else q.

(** ** Field updates *)

Definition set_call_events (ev : gmap Event number) (c : Call) : Call :=
  mkCall (callee_id c) ev (call_ratio c) (call_weight c).
Definition set_call_ratio (r : option number) (c : Call) : Call :=
  mkCall (callee_id c) (call_events c) r (call_weight c).
Definition set_call_weight (w : option number) (c : Call) : Call :=
  mkCall (callee_id c) (call_events c) (call_ratio c) w.

Definition set_calls (cs : gmap nat Call) (f : Function) : Function :=
  mkFunction (id f) (name f) (module f) (process f) cs (called f)
             (weight f) (cycle f) (filename f) (function_events f).
Definition set_weight (w : option number) (f : Function) : Function :=
  mkFunction (id f) (name f) (module f) (process f) (calls f) (called f)
             w (cycle f) (filename f) (function_events f).
Definition set_function_events (ev : gmap Event number) (f : Function)
    : Function :=
  mkFunction (id f) (name f) (module f) (process f) (calls f) (called f)
             (weight f) (cycle f) (filename f) ev.

Definition set_events (ev : gmap Event number) (s : Profile) : Profile :=
  mkProfile ev (functions s) (cycles s) (cycle_store s) (stderr s).
Definition set_functions (fs : gmap nat Function) (s : Profile) : Profile :=
  mkProfile (events s) fs (cycles s) (cycle_store s) (stderr s).

(** ** [Object]: the sparse map from events to values *)

Definition setitem (event : Event) (value : option number)
    (ev : gmap Event number) : gmap Event number :=
  match value with
  | None => delete event ev
  | Some v => <[event := v]> ev
  end.

Definition getitem (event : Event) (ev : gmap Event number) : M number :=
  match ev !! event with
  | Some v => mret v
  | None => raise (UndefinedEvent event)
  end.

(** ** References *)

Definition the_function (function : nat) : M Function := λ s,
  match functions s !! function with
  | Some f => Ok f s
  | None => Raise BadReference
  end.

Definition the_call (function call : nat) : M Call :=
  f ← the_function function;
  match calls f !! call with
  | Some c => mret c
  | None => raise BadReference
  end.

Definition update_function (function : nat) (g : Function → Function)
    : M unit := λ s,
  match functions s !! function with
  | Some f => Ok tt (set_functions (<[function := g f]> (functions s)) s)
  | None => Raise BadReference
  end.

Definition update_call (function call : nat) (g : Call → Call) : M unit :=
  f ← the_function function;
  match calls f !! call with
  | Some c => update_function function (set_calls (<[call := g c]> (calls f)))
  | None => raise BadReference
  end.

Definition functions_getitem (key : nat) : M nat := λ s,
  match functions s !! key with
  | Some _ => Ok key s
  | None => Raise KeyError
  end.

Definition dict_getitem {A} (d : gmap nat A) (key : nat) : M A :=
  match d !! key with
  | Some v => mret v
  | None => raise KeyError
  end.

(** ** [Profile.call_ratios] *)

Definition entered_cycle (function callee : Function) : option nat :=
  match cycle callee with
  | Some cy => if bool_decide (cycle function = Some cy) then None else Some cy
  | None => None
  end.

Definition call_ratios_pass1 (event : Event)
    (totals : gmap nat number * gmap nat number)
    : M (gmap nat number * gmap nat number) :=
  s ← get;
  for_acc (keys (functions s)) totals (λ totals function,
    f ← the_function function;
    for_acc (keys (calls f)) totals (λ '(function_totals, cycle_totals) c,
      call ← the_call function c;
      f ← the_function function;
      if bool_decide (callee_id call ≠ id f) then
        callee ← functions_getitem (callee_id call);
        cf ← the_function callee;
        match call_events call !! event with
        | Some v =>
          ft ← dict_getitem function_totals callee;
          ft ← add ft v;
          let function_totals := <[callee := ft]> function_totals in
          match entered_cycle f cf with
          | Some cy =>
            ct ← dict_getitem cycle_totals cy;
            ct ← add ct v;
            mret (function_totals, <[cy := ct]> cycle_totals)
          | None => mret (function_totals, cycle_totals)
          end
        | None =>
          write_stderr (NoData (name f) (name cf)) ;;
          mret (function_totals, cycle_totals)
        end
      else mret (function_totals, cycle_totals))).

Definition call_ratios_pass2 (event : Event)
    (function_totals cycle_totals : gmap nat number) : M unit :=
  s ← get;
  for_ (keys (functions s)) (λ function,
    f ← the_function function;
    for_ (keys (calls f)) (λ c,
      call ← the_call function c;
      f ← the_function function;
      assert (bool_decide (call_ratio call = None)) ;;
      if bool_decide (callee_id call ≠ id f) then
        callee ← functions_getitem (callee_id call);
        cf ← the_function callee;
        match call_events call !! event with
        | Some v =>
          total ← match entered_cycle f cf with
                  | Some cy => dict_getitem cycle_totals cy
                  | None => dict_getitem function_totals callee
                  end;
          r ← ratio v total;
          update_call function c (set_call_ratio (Some r))
        | None =>
          (* Warnings here would only repeat those issued above. *)
          update_call function c (set_call_ratio (Some (Float 0)))
        end
      else mret tt)).

Definition call_ratios (event : Event) : M unit :=
  s ← get;
  (* Aggregate for incoming calls *)
  let cycle_totals : gmap nat number :=
    foldl (λ d cycle, <[cycle := Float 0]> d) ∅ (cycles s) in
  let function_totals : gmap nat number :=
    foldl (λ d function, <[function := Float 0]> d) ∅ (keys (functions s)) in
  '(function_totals, cycle_totals) ←
    call_ratios_pass1 event (function_totals, cycle_totals);
  call_ratios_pass2 event function_totals cycle_totals.

(** ** Events of the objects in the store *)

Definition profile_getitem (event : Event) : M number :=
  s ← get; getitem event (events s).

Definition profile_setitem (event : Event) (value : number) : M unit := λ s,
  Ok tt (set_events (setitem event (Some value) (events s)) s).

Definition function_getitem (function : nat) (event : Event) : M number :=
  f ← the_function function; getitem event (function_events f).

Definition function_setitem (function : nat) (event : Event) (value : number)
    : M unit :=
  update_function function
    (λ f, set_function_events (setitem event (Some value) (function_events f)) f).

Definition call_getitem (function call : nat) (event : Event) : M number :=
  c ← the_call function call; getitem event (call_events c).

Definition call_setitem (function call : nat) (event : Event) (value : number)
    : M unit :=
  update_call function call
    (λ c, set_call_events (setitem event (Some value) (call_events c)) c).

(** ** [Profile.ratio] *)

Definition Profile_ratio (outevent inevent : Event) : M unit :=
  s ← get;
  assert (bool_decide (events s !! outevent = None)) ;;
  assert (bool_decide (is_Some (events s !! inevent))) ;;
  for_ (keys (functions s)) (λ function,
    f ← the_function function;
    assert (bool_decide (function_events f !! outevent = None)) ;;
    assert (bool_decide (is_Some (function_events f !! inevent))) ;;
    n ← function_getitem function inevent;
    d ← profile_getitem inevent;
    r ← ratio n d;
    function_setitem function outevent r ;;
    for_ (keys (calls f)) (λ c,
      call ← the_call function c;
      assert (bool_decide (call_events call !! outevent = None)) ;;
      if bool_decide (is_Some (call_events call !! inevent)) then
        n ← call_getitem function c inevent;
        d ← profile_getitem inevent;
        r ← ratio n d;
        call_setitem function c outevent r
      else mret tt)) ;;
  profile_setitem outevent (Float 1).

(** ** What [Profile.ratio] computes *)

(** The value that [ratio] returns, when [float] accepts the operands. *)
Definition ratio_value (numerator denominator : number) : option number :=
  x ← to_float numerator;
  y ← to_float denominator;
  Some (Float (if (y =? 0)%float then 1%float else clamp01 (x / y))).

(** [ratio] returns for the value of [inevent], if there is one, and
    [total]. *)
Definition ratio_defined (total : number) (inevent : Event)
    (ev : gmap Event number) : Prop :=
  ∀ n, ev !! inevent = Some n → is_Some (ratio_value n total).

(** A call with its input event, if it has one, divided by [total] and
    stored as its output event. *)
Definition ratio_call (total : number) (outevent inevent : Event)
    (call : Call) : Call :=
  match call_events call !! inevent ≫= λ n, ratio_value n total with
  | Some r => set_call_events (<[outevent := r]> (call_events call)) call
  | None => call
  end.

(** The same for a function and its calls. *)
Definition ratio_function (total : number) (outevent inevent : Event)
    (f : Function) : Function :=
  match function_events f !! inevent ≫= λ n, ratio_value n total with
  | Some r =>
    set_function_events (<[outevent := r]> (function_events f))
      (set_calls (ratio_call total outevent inevent <$> calls f) f)
  | None => f
  end.

(** ** [Profile.prune] *)

(** Whether a number is NaN. *)
Definition isnan (a : number) : bool :=
  match a with
  | Int _ => false
  | Float x => is_nan x
  end.

(** [a <= b] *)
Definition le (a b : number) : bool :=
  match a, b with
  | Int x, Int y => (x <=? y)%Z
  | Float x, Float y => (x <=? y)%float
  | Int x, Float y =>
    match compare_int_float x y with Some (Lt | Eq) => true | _ => false end
  | Float x, Int y =>
    match compare_int_float y x with Some (Gt | Eq) => true | _ => false end
  end.

(** Python's [min(a, b)]. *)
Definition py_min (a b : number) : number := if lt b a then b else a.

(** Python's [max] of a non-empty list, given by head and tail. *)
Definition py_max (x : number) (l : list number) : number :=
  foldl (λ m y, if lt m y then y else m) x l.

Definition prune_weights : M unit :=
  s ← get;
  for_ (keys (functions s)) (λ function,
    f ← the_function function;
    match function_events f !! TOTAL_TIME_RATIO with
    | Some v => update_function function (set_weight (Some v))
    | None => mret tt
    end ;;
    f ← the_function function;
    for_ (keys (calls f)) (λ c,
      call ← the_call function c;
      callee ← functions_getitem (callee_id call);
      match call_events call !! TOTAL_TIME_RATIO with
      | Some v =>
        (* handle exact cases first *)
        update_call function c (set_call_weight (Some v))
      | None =>
        (* make a safe estimate *)
        f ← the_function function;
        cf ← the_function callee;
        match function_events f !! TOTAL_TIME_RATIO,
              function_events cf !! TOTAL_TIME_RATIO with
        | Some a, Some b =>
          update_call function c (set_call_weight (Some (py_min a b)))
        | _, _ => mret tt
        end
      end)).

Definition delete_function (function_id : nat) : M unit := λ s,
  Ok tt (set_functions (delete function_id (functions s)) s).

Definition prune_nodes (node_thres : number) : M unit :=
  s ← get;
  for_ (keys (functions s)) (λ function_id,
    function ← functions_getitem function_id;
    f ← the_function function;
    match weight f with
    | Some w =>
      if lt w node_thres then delete_function function_id else mret tt
    | None => mret tt
    end).

Definition prune_paths (paths : list string) : M unit :=
  s ← get;
  for_ (keys (functions s)) (λ function_id,
    function ← functions_getitem function_id;
    f ← the_function function;
    if bool_decide (paths ≠ []) && truthy (filename f)
       && negb (existsb (λ path, String.prefix path (default EmptyString (filename f))) paths)
    then delete_function function_id
    else if bool_decide (paths ≠ []) && truthy (module f)
       && negb (existsb (λ path, contains (default EmptyString (module f)) path) paths)
    then delete_function function_id
    else mret tt).

(** One turn of the inner loop that prunes the edges. *)
Definition prune_edge (edge_thres : number) (function callee_id' : nat)
    : M unit :=
  call ← the_call function callee_id';
  s ← get;
  if bool_decide (functions s !! callee_id' = None)
     || match call_weight call with
        | Some w => lt w edge_thres
        | None => false
        end
  then update_function function
         (λ f, set_calls (delete callee_id' (calls f)) f)
  else mret tt.

Definition prune_edges (edge_thres : number) : M unit :=
  s ← get;
  for_ (keys (functions s)) (λ function,
    f ← the_function function;
    for_ (keys (calls f)) (prune_edge edge_thres function)).

Definition prune_recolor : M unit :=
  s ← get;
  weights ← for_acc (keys (functions s)) [] (λ weights function,
    f ← the_function function;
    match function_events f !! TIME_RATIO with
    | Some v => mret (weights ++ [v])
    | None => mret weights
    end);
  let max_ratio := match weights with
                   | [] => Int 1
                   | w :: ws => py_max w ws
                   end in
  (* apply rescaled weights for colouring *)
  for_ (keys (functions s)) (λ function,
    f ← the_function function;
    match function_events f !! TIME_RATIO with
    | Some v =>
      q ← truediv v max_ratio;
      match q with
      | Some w => update_function function (set_weight (Some w))
      | None => mret tt
      end
    | None => mret tt
    end).

Definition prune (node_thres edge_thres : number) (paths : list string)
    (color_nodes_by_selftime : bool) : M unit :=
  (* compute the prune ratios *)
  prune_weights ;;
  (* prune the nodes *)
  prune_nodes node_thres ;;
  (* prune file paths *)
  prune_paths paths ;;
  (* prune the edges *)
  prune_edges edge_thres ;;
  if color_nodes_by_selftime then prune_recolor else mret tt.

(** ** Well-formed profiles *)

(** Every call is stored under its callee id ([Function.add_call]). *)
Definition calls_keyed (s : Profile) : Prop :=
  ∀ k f c call, functions s !! k = Some f → calls f !! c = Some call →
                callee_id call = c.

(** [s'] has no call that [s] has not, and the calls kept have the callee
    id they had. *)
Definition shrinks (s s' : Profile) : Prop :=
  ∀ k f' c call', functions s' !! k = Some f' → calls f' !! c = Some call' →
    ∃ f call, functions s !! k = Some f ∧ calls f !! c = Some call ∧
              callee_id call' = callee_id call.

(** What [prune] leaves of the edges: the target of a call is a
    function of the profile, and a defined weight is not below the
    threshold. *)
Definition edge_kept (edge_thres : number) (s : Profile) (c : nat)
    (call : Call) : Prop :=
  is_Some (functions s !! c) ∧
  ∀ w, call_weight call = Some w → lt w edge_thres = false.

(** [s'] has the functions of [s], with some of their calls removed. *)
Definition calls_removed (s s' : Profile) : Prop :=
  (∀ k, is_Some (functions s' !! k) ↔ is_Some (functions s !! k)) ∧
  ∀ k f' c call, functions s' !! k = Some f' → calls f' !! c = Some call →
    ∃ f, functions s !! k = Some f ∧ calls f !! c = Some call.

(** [s'] has the functions of [s] with the calls they had. *)
Definition same_calls (s s' : Profile) : Prop :=
  ∀ k, calls <$> functions s' !! k = calls <$> functions s !! k.

(** ** What [call_ratios] leaves *)

(** Whether a number is, as a float, neither NaN nor infinite. *)
Definition finite (v : number) : bool :=
  match to_float v with
  | Some x => is_finite x
  | None => false
  end.

(** The value of the event of every call that has the event is
    finite. *)
Definition finite_events (event : Event) (s : Profile) : Prop :=
  ∀ k f, functions s !! k = Some f →
  ∀ c call, calls f !! c = Some call →
    from_option finite true (call_events call !! event) = true.

(** The totals of pass 1 are floats, and none is NaN. *)
Definition totals_not_nan (d : gmap nat number) : Prop :=
  ∀ k t, d !! k = Some t → ∃ x, t = Float x ∧ is_nan x = false.

(** What [call_ratios] leaves on a call to another function: a ratio
    that is a float in [0,1] or NaN, not NaN under the condition [P],
    and 0.0 when the call lacks the event. *)
Definition good_ratio (P : Prop) (event : Event) (call : Call) : Prop :=
  ∃ r, call_ratio call = Some (Float r) ∧
       (is_nan r = false → (0 <=? r)%float = true ∧ (r <=? 1)%float = true) ∧
       (P → is_nan r = false) ∧
       (call_events call !! event = None → r = 0%float).

(** [s'] has the calls of [s], each with the ratio it had or, for a call
    to another function, with a good one. *)
Definition ratios_set (P : Prop) (event : Event) (s s' : Profile) : Prop :=
  ∀ k f' c call', functions s' !! k = Some f' → calls f' !! c = Some call' →
    ∃ f call, functions s !! k = Some f ∧ calls f !! c = Some call ∧
      id f' = id f ∧ callee_id call' = callee_id call ∧
      call_events call' = call_events call ∧
      (call_ratio call' = call_ratio call ∨
       callee_id call ≠ id f ∧ good_ratio P event call').

(** ** Example profiles *)

Definition empty_profile : Profile := mkProfile ∅ ∅ [] ∅ [].

Definition example_function (i : nat) (ev : gmap Event number)
    (cs : gmap nat Call) (cy : option nat) : Function :=
  mkFunction i "f" None None cs None None cy None ev.

Definition run {A} (r : result A) : Profile :=
  match r with
  | Ok _ s => s
  | Raise _ => empty_profile
  end.

(** Three functions; function 2 and the call to it weigh less than the
    thresholds 2^-7 and 2^-10, and the weight of the call to function 1
    is NaN. *)
Definition prune_input : Profile :=
  mkProfile {[TOTAL_TIME_RATIO := Float 1]}
    (list_to_map
       [(0%nat, example_function 0 {[TOTAL_TIME_RATIO := Float 1]}
                  (list_to_map
                     [(1%nat, mkCall 1 {[TOTAL_TIME_RATIO := Float nan]}
                                (Some (Float 1)) None);
                      (2%nat, mkCall 2 {[TOTAL_TIME_RATIO := Float 0.00048828125]}
                                (Some (Float 1)) None)])
                  None);
        (1%nat, example_function 1 {[TOTAL_TIME_RATIO := Float 0.625]} ∅ None);
        (2%nat, example_function 2 {[TOTAL_TIME_RATIO := Float 0.0009765625]}
                  ∅ None)])
    [] ∅ [].

(** Function 0 calls function 1 three times and itself; functions 1 and
    2 call each other and form the cycle 0. *)
Definition validated : Profile :=
  mkProfile ∅
    (list_to_map
       [(0%nat, example_function 0 {[TIME := Float 7]}
                  (list_to_map
                     [(1%nat, mkCall 1 {[CALLS := Int 3]} None None);
                      (0%nat, mkCall 0 {[CALLS := Int 3]} None None)])
                  None);
        (1%nat, example_function 1 {[TIME := Float 10]}
                  {[2%nat := mkCall 2 {[CALLS := Int 4]} None None]} (Some 0%nat));
        (2%nat, example_function 2 {[TIME := Float 5]}
                  {[1%nat := mkCall 1 {[CALLS := Int 1]} None None]} (Some 0%nat))])
    [0%nat] {[0%nat := mkCycle ∅ {[1%nat; 2%nat]}]} [].

Definition with_ratios : Profile :=
  Eval vm_compute in run (call_ratios CALLS validated).

(** Function 0 calls function 1, the sample count of the call being NaN,
    and function 2, the sample count being infinite. *)
Definition nan_input : Profile :=
  mkProfile ∅
    (list_to_map
       [(0%nat, example_function 0 ∅
                  (list_to_map
                     [(1%nat, mkCall 1 {[SAMPLES2 := Float nan]} None None);
                      (2%nat, mkCall 2 {[SAMPLES2 := Float infinity]} None None)])
                  None);
        (1%nat, example_function 1 ∅ ∅ None);
        (2%nat, example_function 2 ∅ ∅ None)])
    [] ∅ [].

Definition nan_output : Profile :=
  Eval vm_compute in run (call_ratios SAMPLES2 nan_input).

(** The chain A -> B -> C, as functions 0, 1 and 2, with exclusive
    times 1, 2 and 3, of which the profile has the sum. *)
Definition chain_input : Profile :=
  mkProfile {[TIME := Int 6]}
    (list_to_map
       [(0%nat, example_function 0 {[TIME := Int 1]}
                  {[1%nat := mkCall 1 {[TIME := Float nan]} None None]} None);
        (1%nat, example_function 1 {[TIME := Int 2]}
                  {[2%nat := mkCall 2 ∅ None None]} None);
        (2%nat, example_function 2 {[TIME := Int 3]} ∅ None)])
    [] ∅ [].

Definition ratio_output : Profile :=
  Eval vm_compute in run (Profile_ratio TIME_RATIO TIME chain_input).

Definition prune_output : Profile :=
  Eval vm_compute in
    run (prune (Float 0.0078125) (Float 0.0009765625) [] false prune_input).

End Binary64.

(** * Properties *)

(** ** Rationals *)

Lemma Qltb_lt x y : Qltb x y = true ↔ x < y.
Proof.
  unfold Qltb. rewrite negb_true_iff, <- not_true_iff_false, Qle_bool_iff.
  split; [apply Qnot_le_lt | apply Qlt_not_le].
Qed.

Lemma Qltb_ge x y : Qltb x y = false ↔ y <= x.
Proof.
  unfold Qltb. rewrite negb_false_iff. apply Qle_bool_iff.
Qed.

Lemma clamp01_range q : 0 <= clamp01 q <= 1.
Proof.
  unfold clamp01. destruct (Qltb q 0) eqn:H0.
  - split; [apply Qle_refl | discriminate].
  - destruct (Qltb 1 q) eqn:H1.
    + split; [discriminate | apply Qle_refl].
    + split; by apply Qltb_ge.
Qed.

(** ** Running a computation: inversion of successful runs *)

Lemma bind_Ok {A B} (m : M A) (k : A → M B) s b s' :
  (m ≫= k) s = Ok b s' ↔ ∃ a s1, m s = Ok a s1 ∧ k a s1 = Ok b s'.
Proof.
  unfold mbind, M_bind. destruct (m s) as [a s1|e]; split.
  - eauto.
  - by intros (? & ? & [= -> ->] & ?).
  - discriminate.
  - by intros (? & ? & ? & ?).
Qed.

Lemma ret_Ok {A} (a b : A) s s' :
  (mret a : M A) s = Ok b s' ↔ a = b ∧ s = s'.
Proof. unfold mret, M_ret. split; [by intros [= -> ->] | by intros [-> ->]]. Qed.

Lemma assert_Ok b u s s' : assert b s = Ok u s' ↔ b = true ∧ s = s'.
Proof.
  destruct b, u; simpl; [rewrite ret_Ok|]; split; try done.
  - by intros [_ ->].
  - by intros [_ ->].
  - by intros [? _].
Qed.

Lemma get_Ok s0 s s' : get s = Ok s0 s' ↔ s0 = s ∧ s' = s.
Proof. unfold get. split; [by intros [= -> ->] | by intros [-> ->]]. Qed.

Lemma the_function_Ok k f s s' :
  the_function k s = Ok f s' ↔ functions s !! k = Some f ∧ s' = s.
Proof.
  unfold the_function. destruct (functions s !! k); split;
    try done; try (by intros [= -> ->]); by intros [[= ->] ->].
Qed.

Lemma the_cycle_Ok k c s s' :
  the_cycle k s = Ok c s' ↔ cycle_store s !! k = Some c ∧ s' = s.
Proof.
  unfold the_cycle. destruct (cycle_store s !! k); split;
    try done; try (by intros [= -> ->]); by intros [[= ->] ->].
Qed.

Lemma the_call_Ok k c call s s' :
  the_call k c s = Ok call s' ↔
  (∃ f, functions s !! k = Some f ∧ calls f !! c = Some call) ∧ s' = s.
Proof.
  unfold the_call. rewrite bind_Ok. split.
  - intros (f & s1 & [Hf ->]%the_function_Ok & H).
    destruct (calls f !! c) eqn:Hc; [|done].
    apply ret_Ok in H as [-> ->]. eauto.
  - intros [(f & Hf & Hc) ->]. exists f, s. rewrite the_function_Ok, Hc. done.
Qed.

Lemma functions_getitem_Ok k r s s' :
  functions_getitem k s = Ok r s' ↔
  is_Some (functions s !! k) ∧ r = k ∧ s' = s.
Proof.
  unfold functions_getitem. destruct (functions s !! k); split.
  - by intros [= -> ->].
  - by intros (_ & -> & ->).
  - done.
  - by intros ([? ?] & _).
Qed.

Lemma dict_getitem_Ok {A} (d : gmap nat A) k v s s' :
  dict_getitem d k s = Ok v s' ↔ d !! k = Some v ∧ s' = s.
Proof.
  unfold dict_getitem. destruct (d !! k); split;
    try done; try (by intros [= -> ->]); by intros [[= ->] ->].
Qed.

Lemma getitem_Ok e ev v s s' :
  getitem e ev s = Ok v s' ↔ ev !! e = Some v ∧ s' = s.
Proof.
  unfold getitem. destruct (ev !! e); split;
    try done; try (by intros [= -> ->]); by intros [[= ->] ->].
Qed.

Lemma number_Ok o v s s' : number o s = Ok v s' ↔ o = Some v ∧ s' = s.
Proof.
  unfold number. destruct o; split;
    try done; try (by intros [= -> ->]); by intros [[= ->] ->].
Qed.

Lemma update_function_Ok k g u s s' :
  update_function k g s = Ok u s' ↔
  ∃ f, functions s !! k = Some f ∧
       s' = set_functions (<[k := g f]> (functions s)) s.
Proof.
  unfold update_function. destruct (functions s !! k) as [f|]; split.
  - intros [= <-]. eauto.
  - intros (? & [= <-] & ->). by destruct u.
  - done.
  - by intros (? & ? & ?).
Qed.

Lemma update_call_Ok k c g u s s' :
  update_call k c g s = Ok u s' ↔
  ∃ f call, functions s !! k = Some f ∧ calls f !! c = Some call ∧
    s' = set_functions
           (<[k := set_calls (<[c := g call]> (calls f)) f]> (functions s)) s.
Proof.
  unfold update_call. rewrite bind_Ok. split.
  - intros (f & s1 & [Hf ->]%the_function_Ok & H).
    destruct (calls f !! c) as [call|] eqn:Hc; [|done].
    apply update_function_Ok in H as (f' & Hf' & ->).
    exists f, call. by simplify_eq.
  - intros (f & call & Hf & Hc & ->). exists f, s.
    rewrite the_function_Ok, Hc, update_function_Ok. eauto.
Qed.

Lemma update_cycle_Ok k g u s s' :
  update_cycle k g s = Ok u s' ↔
  ∃ c, cycle_store s !! k = Some c ∧
       s' = set_cycle_store (<[k := g c]> (cycle_store s)) s.
Proof.
  unfold update_cycle. destruct (cycle_store s !! k) as [c|]; split.
  - intros [= <-]. eauto.
  - intros (? & [= <-] & ->). by destruct u.
  - done.
  - by intros (? & ? & ?).
Qed.

Lemma write_stderr_Ok w u s s' :
  write_stderr w s = Ok u s' ↔ s' = set_stderr (stderr s ++ [w]) s.
Proof.
  unfold write_stderr. destruct u. split; [by intros [= <-] | by intros ->].
Qed.

(** Symbolic execution of a successful run, one statement at a time. *)
Ltac inv_step :=
  match goal with
  | H : (_ ≫= _) _ = Ok _ _ |- _ =>
      apply bind_Ok in H as (? & ? & ? & H)
  | H : @mret M _ _ _ _ = Ok _ _ |- _ => apply ret_Ok in H as [? ?]
  | H : raise _ _ = Ok _ _ |- _ => discriminate H
  | H : Raise _ = Ok _ _ |- _ => discriminate H
  | H : get _ = Ok _ _ |- _ => apply get_Ok in H as [? ?]
  | H : assert _ _ = Ok _ _ |- _ => apply assert_Ok in H as [? ?]
  | H : the_function _ _ = Ok _ _ |- _ => apply the_function_Ok in H as [? ?]
  | H : the_cycle _ _ = Ok _ _ |- _ => apply the_cycle_Ok in H as [? ?]
  | H : the_call _ _ _ = Ok _ _ |- _ =>
      apply the_call_Ok in H as [(? & ? & ?) ?]
  | H : functions_getitem _ _ = Ok _ _ |- _ =>
      apply functions_getitem_Ok in H as (? & ? & ?)
  | H : dict_getitem _ _ _ = Ok _ _ |- _ =>
      apply dict_getitem_Ok in H as [? ?]
  | H : getitem _ _ _ = Ok _ _ |- _ => apply getitem_Ok in H as [? ?]
  | H : number _ _ = Ok _ _ |- _ => apply number_Ok in H as [? ?]
  | H : update_function _ _ _ = Ok _ _ |- _ =>
      apply update_function_Ok in H as (? & ? & ?)
  | H : update_call _ _ _ _ = Ok _ _ |- _ =>
      apply update_call_Ok in H as (? & ? & ? & ? & ?)
  | H : update_cycle _ _ _ = Ok _ _ |- _ =>
      apply update_cycle_Ok in H as (? & ? & ?)
  | H : write_stderr _ _ = Ok _ _ |- _ => apply write_stderr_Ok in H
  | H : bool_decide _ = true |- _ => apply bool_decide_eq_true_1 in H
  | H : bool_decide _ = false |- _ => apply bool_decide_eq_false_1 in H
  end.

Ltac inv_M := repeat (inv_step; simplify_eq/=).

(** ** Loops *)

(** A loop invariant indexed by the elements already visited. *)
Lemma for_inv {A} (l : list A) (body : A → M unit)
    (I : list A → Profile → Prop) :
  (∀ done x s s', (done ++ [x]) `prefix_of` l →
     I done s → body x s = Ok tt s' → I (done ++ [x]) s') →
  ∀ s s', I [] s → for_ l body s = Ok tt s' → I l s'.
Proof.
  intros Hbody.
  cut (∀ rest done s s', done ++ rest = l → I done s →
         for_ rest body s = Ok tt s' → I l s').
  { intros H s s'. by apply (H l []). }
  induction rest as [|x rest IH]; intros done s s' Hl HI Hrun; simpl in Hrun.
  - apply ret_Ok in Hrun as [_ <-]. by rewrite app_nil_r in Hl; subst.
  - apply bind_Ok in Hrun as ([] & s1 & Hx & Hrest).
    apply (IH (done ++ [x]) s1 s'); [by rewrite <- app_assoc | | done].
    apply (Hbody done x s s1); [|done..].
    exists rest. by rewrite <- app_assoc.
Qed.

Lemma for_acc_inv {A B} (l : list A) (body : B → A → M B)
    (I : list A → B → Profile → Prop) :
  (∀ done x acc s acc' s', (done ++ [x]) `prefix_of` l →
     I done acc s → body acc x s = Ok acc' s' → I (done ++ [x]) acc' s') →
  ∀ acc s acc' s', I [] acc s → for_acc l acc body s = Ok acc' s' →
    I l acc' s'.
Proof.
  intros Hbody.
  cut (∀ rest done acc s acc' s', done ++ rest = l → I done acc s →
         for_acc rest acc body s = Ok acc' s' → I l acc' s').
  { intros H acc s acc' s'. by apply (H l []). }
  induction rest as [|x rest IH]; intros done acc s acc' s' Hl HI Hrun;
    simpl in Hrun.
  - apply ret_Ok in Hrun as [<- <-]. by rewrite app_nil_r in Hl; subst.
  - apply bind_Ok in Hrun as (acc1 & s1 & Hx & Hrest).
    apply (IH (done ++ [x]) acc1 s1 acc' s'); [by rewrite <- app_assoc | | done].
    apply (Hbody done x acc s acc1 s1); [|done..].
    exists rest. by rewrite <- app_assoc.
Qed.

(** ** [ratio] *)

Lemma set_stderr_nil s : set_stderr (stderr s ++ []) s = s.
Proof. destruct s. unfold set_stderr. simpl. by rewrite app_nil_r. Qed.

Lemma tol_pos : 0 < tol.
Proof. reflexivity. Qed.

(** What [ratio] returns and writes, for a denominator other than zero. *)
Lemma ratio_nonzero n d s :
  Qeq_bool d 0 = false →
  ∃ w, ratio n d s = Ok (clamp01 (n / d)) (set_stderr (stderr s ++ w) s) ∧
       (w ≠ [] ↔ n / d < - tol ∨ 1 + tol < n / d).
Proof.
  intros Hd. unfold ratio, clamp01. rewrite Hd. pose proof tol_pos as Htol.
  destruct (Qltb (n / d) 0) eqn:H0.
  - apply Qltb_lt in H0. destruct (Qltb (n / d) (- tol)) eqn:H1.
    + apply Qltb_lt in H1. eexists [_]. split; [done|]. split; [auto|done].
    + apply Qltb_ge in H1. exists []. rewrite set_stderr_nil. split; [done|].
      split; [done|]. intros [?|?]; lra.
  - apply Qltb_ge in H0. destruct (Qltb 1 (n / d)) eqn:H1.
    + apply Qltb_lt in H1. destruct (Qltb (1 + tol) (n / d)) eqn:H2.
      * apply Qltb_lt in H2. eexists [_]. split; [done|]. split; [auto|done].
      * apply Qltb_ge in H2. exists []. rewrite set_stderr_nil.
        split; [done|]. split; [done|]. intros [?|?]; lra.
    + apply Qltb_ge in H1. exists []. rewrite set_stderr_nil. split; [done|].
      split; [done|]. intros [?|?]; lra.
Qed.




(** ** [Cycle.add_function] *)

(** Once [function] is a member of [self], the loop over the members of
    its former cycle does nothing: its guard tests [function], which has
    just been added, and not [other]. *)
Lemma add_function_loop_skips fuel self function c l s :
  cycle_store s !! self = Some c → function ∈ cycle_functions c →
  for_ l (λ other,
    c ← the_cycle self;
    if bool_decide (function ∉ cycle_functions c)
    then Cycle_add_function fuel self other
    else mret tt) s = Ok tt s.
Proof.
  intros Hc Hin. induction l as [|other l IH]; simpl; [done|].
  unfold mbind, M_bind at 1. unfold mbind, M_bind at 1.
  unfold the_cycle at 1. rewrite Hc.
  rewrite bool_decide_eq_false_2 by (intros Hn; by apply Hn). apply IH.
Qed.

(** The whole effect of [add_function]: the function joins [self] and is
    repointed; no other member of its former cycle is touched. *)
Lemma Cycle_add_function_run fuel self function s c f :
  cycle_store s !! self = Some c →
  function ∉ cycle_functions c →
  functions s !! function = Some f →
  (∀ old, cycle f = Some old → old ≠ self →
          is_Some (cycle_store s !! old)) →
  Cycle_add_function (S fuel) self function s =
  Ok tt (set_functions (<[function := set_cycle (Some self) f]> (functions s))
          (set_cycle_store
             (<[self := set_cycle_functions
                          ({[function]} ∪ cycle_functions c) c]>
                (cycle_store s)) s)).
Proof.
  intros Hc Hnin Hf Hold. simpl.
  unfold mbind, M_bind at 1. unfold the_cycle at 1. rewrite Hc.
  rewrite bool_decide_eq_true_2 by done.
  unfold mbind, M_bind at 1. unfold assert at 1. simpl.
  unfold mbind, M_bind at 1. unfold update_cycle at 1. rewrite Hc.
  set (s1 := set_cycle_store _ s).
  unfold mbind, M_bind at 1. unfold the_function at 1.
  change (functions s1) with (functions s). rewrite Hf.
  assert (cycle_store s1 !! self =
          Some (set_cycle_functions ({[function]} ∪ cycle_functions c) c))
    as Hself by (subst s1; simpl; apply lookup_insert_eq).
  assert (function ∈ cycle_functions
            (set_cycle_functions ({[function]} ∪ cycle_functions c) c))
    as Hin by (simpl; set_solver).
  unfold mbind, M_bind at 1.
  destruct (cycle f) as [old|] eqn:Hcy.
  - unfold mbind, M_bind at 1. unfold the_cycle at 1.
    destruct (decide (old = self)) as [->|Hne].
    + rewrite Hself.
      rewrite (add_function_loop_skips _ _ _ _ _ _ Hself Hin).
      unfold update_function. change (functions s1) with (functions s).
      by rewrite Hf.
    + destruct (Hold old eq_refl Hne) as [oc Hoc].
      assert (cycle_store s1 !! old = Some oc) as ->.
      { subst s1. simpl. by rewrite lookup_insert_ne. }
      rewrite (add_function_loop_skips _ _ _ _ _ _ Hself Hin).
      unfold update_function. change (functions s1) with (functions s).
      by rewrite Hf.
  - unfold mret, M_ret at 1.
    unfold update_function. change (functions s1) with (functions s).
    by rewrite Hf.
Qed.

(** C2: on [merge_input], where function 1 belongs to the cycle 0 with
    function 2, adding function 1 to the cycle 1 returns, but function 2
    does not become a member of the cycle 1 and still points to cycle 0:
    the members of the former cycle are not merged. *)
Theorem Cycle_add_function_no_merge :
  ∃ s', Cycle_add_function 2 1 1 merge_input = Ok tt s' ∧
    cycle_functions <$> cycle_store s' !! 1%nat = Some {[1%nat]} ∧
    cycle_functions <$> cycle_store s' !! 0%nat = Some {[1%nat; 2%nat]} ∧
    cycle <$> functions s' !! 1%nat = Some (Some 1%nat) ∧
    cycle <$> functions s' !! 2%nat = Some (Some 0%nat).
Proof.
  eexists. split; [vm_compute; reflexivity|]. by vm_compute.
Qed.

(** ** Keys of a dict *)

Lemma elem_of_keys {A} (m : gmap nat A) k : k ∈ keys m ↔ is_Some (m !! k).
Proof.
  unfold keys. rewrite list_elem_of_fmap. split.
  - intros ([k' v] & -> & H%elem_of_map_to_list). eauto.
  - intros [v Hv]. exists (k, v). by rewrite elem_of_map_to_list.
Qed.

Lemma NoDup_keys {A} (m : gmap nat A) : NoDup (keys m).
Proof. apply NoDup_fst_map_to_list. Qed.

(** ** [Profile.validate] *)

Lemma validate_call_Ok k c s s' :
  validate_call k c s = Ok tt s' →
  ∃ f call, functions s !! k = Some f ∧ calls f !! c = Some call ∧
    callee_id call = c ∧
    ((functions s !! c = None ∧
      s' = set_functions (<[k := set_calls (delete c (calls f)) f]> (functions s))
             (set_stderr (stderr s ++ [UndefinedFunction c (name f)]) s)) ∨
     (is_Some (functions s !! c) ∧ s' = s)).
Proof.
  unfold validate_call. intros Hrun. inv_M.
  match goal with H : (if bool_decide ?P then _ else _) _ = Ok _ _ |- _ =>
    destruct (bool_decide P) eqn:Hreg; inv_M end.
  - eexists _, _. split_and!; [done..|]. left. split; [done|].
    simpl in *. by simplify_eq.
  - eexists _, _. split_and!; [done..|]. right. split; [|done].
    by apply not_eq_None_Some.
Qed.

Lemma validate_calls_run k l : ∀ s s' f,
  functions s !! k = Some f →
  for_ l (validate_call k) s = Ok tt s' →
  functions s' =
    <[k := set_calls (filter (λ kv, kv.1 ∉ l ∨ is_Some (functions s !! kv.1))
                             (calls f)) f]> (functions s) ∧
  (∀ c call, c ∈ l → calls f !! c = Some call → callee_id call = c) ∧
  (∀ c, c ∈ l → is_Some (calls f !! c) → functions s !! c = None →
        UndefinedFunction c (name f) ∈ stderr s') ∧
  (∀ w, w ∈ stderr s → w ∈ stderr s') ∧
  events s' = events s ∧ cycles s' = cycles s ∧
  cycle_store s' = cycle_store s.
Proof.
  induction l as [|x l IH]; intros s s' f Hf Hrun; simpl in Hrun.
  - apply ret_Ok in Hrun as [_ <-]. split_and!; try done.
    + rewrite (map_filter_id _ (calls f))
        by (intros; left; apply not_elem_of_nil).
      destruct f; by rewrite insert_id.
    + intros c call Hc; by apply elem_of_nil in Hc.
    + intros c Hc; by apply elem_of_nil in Hc.
  - apply bind_Ok in Hrun as ([] & s1 & Hstep & Hrest).
    apply validate_call_Ok in Hstep
      as (f0 & call & Hf0 & Hcall & Hid & [[Hreg ->]|[Hreg ->]]).
    + (* dangling: the call is deleted *)
      assert (f0 = f) as -> by congruence. clear Hf0.
      apply (IH _ _ (set_calls (delete x (calls f)) f)) in Hrest
        as (Hfs & Hids & Hwarn & Herr & Hev & Hcy & Hcs);
        [|simpl; apply lookup_insert_eq].
      simpl in *.
      assert (∀ c, is_Some ((<[k := set_calls (delete x (calls f)) f]> (functions s)) !! c)
                   ↔ is_Some (functions s !! c)) as Hdom.
      { intros c. rewrite lookup_insert_is_Some'. 
        split; [intros [->|?]; eauto | eauto]. }
      split_and!; try done.
      * rewrite Hfs, insert_insert_eq. f_equal. unfold set_calls. simpl. f_equal.
        apply map_eq. intros c. rewrite !map_lookup_filter.
        destruct (decide (c = x)) as [->|Hne].
        -- rewrite lookup_delete_eq, Hcall. simpl.
           rewrite option_guard_False; [done|]. simpl.
           intros [Hn|[? Hs]]; [apply Hn; left|]. congruence.
        -- rewrite lookup_delete_ne by done.
           destruct (calls f !! c) as [call'|]; [simpl|done].
           apply option_guard_iff. simpl. rewrite Hdom.
           rewrite elem_of_cons. naive_solver.
      * intros c call' [->|Hc]%elem_of_cons Hcc; [congruence|].
        destruct (decide (c = x)) as [->|Hne]; [congruence|].
        apply (Hids c call' Hc). by rewrite lookup_delete_ne.
      * intros c [->|Hc]%elem_of_cons Hcc Hnone.
        -- apply Herr. apply elem_of_app. right. by left.
        -- destruct (decide (c = x)) as [->|Hne].
           ++ apply Herr. apply elem_of_app. right. by left.
           ++ apply Hwarn; [done|by rewrite lookup_delete_ne|].
              apply eq_None_not_Some. rewrite Hdom. by apply eq_None_not_Some.
      * intros w Hw. apply Herr. apply elem_of_app. by left.
    + (* registered: nothing changes *)
      assert (f0 = f) as -> by congruence. clear Hf0.
      apply (IH _ _ f Hf) in Hrest
        as (Hfs & Hids & Hwarn & Herr & Hev & Hcy & Hcs).
      split_and!; try done.
      * rewrite Hfs. f_equal. f_equal.
        apply map_eq. intros c. rewrite !map_lookup_filter.
        destruct (calls f !! c) as [call'|]; [simpl|done].
        apply option_guard_iff. simpl. rewrite elem_of_cons.
        destruct (decide (c = x)) as [->|Hne]; naive_solver.
      * intros c call' [->|Hc]%elem_of_cons Hcc; [congruence|]. eauto.
      * intros c [->|Hc]%elem_of_cons Hcc Hnone.
        -- rewrite Hnone in Hreg. by destruct Hreg.
        -- eauto.
Qed.

Lemma registered_calls_lookup fs cs c :
  registered_calls fs cs !! c =
  if decide (is_Some (fs !! c)) then cs !! c else None.
Proof.
  unfold registered_calls. rewrite map_lookup_filter.
  destruct (cs !! c) as [call|]; simpl; [|by case_decide].
  case_decide; [by rewrite option_guard_True | by rewrite option_guard_False].
Qed.

Lemma validate_function_Ok fs0 k s s' :
  (∀ c, is_Some (functions s !! c) ↔ is_Some (fs0 !! c)) →
  validate_function k s = Ok tt s' →
  ∃ f, functions s !! k = Some f ∧
    functions s' =
      <[k := set_calls (registered_calls fs0 (calls f)) f]> (functions s) ∧
    (∀ c call, calls f !! c = Some call → callee_id call = c) ∧
    (∀ c, is_Some (calls f !! c) → fs0 !! c = None →
          UndefinedFunction c (name f) ∈ stderr s') ∧
    (∀ w, w ∈ stderr s → w ∈ stderr s') ∧
    events s' = events s ∧ cycles s' = cycles s ∧
    cycle_store s' = cycle_store s.
Proof.
  intros Hdom Hrun. unfold validate_function in Hrun.
  apply bind_Ok in Hrun as (f & s1 & [Hf ->]%the_function_Ok & Hrun).
  apply (validate_calls_run _ _ _ _ f Hf) in Hrun
    as (Hfs & Hids & Hwarn & Herr & Hev & Hcy & Hcs).
  exists f. split_and!; try done.
  - rewrite Hfs. f_equal. f_equal. apply map_eq. intros c.
    rewrite registered_calls_lookup, map_lookup_filter.
    destruct (calls f !! c) as [call|] eqn:Hc; simpl; [|by case_decide].
    case_decide as Hreg.
    + rewrite option_guard_True; [done|]. right. by apply Hdom.
    + rewrite option_guard_False; [done|]. simpl. intros [Hn|Hs].
      * apply Hn, elem_of_keys. eauto.
      * by apply Hreg, Hdom.
  - intros c call Hc. apply Hids; [|done]. apply elem_of_keys. eauto.
  - intros c Hc Hnone. apply Hwarn; [by apply elem_of_keys|done|].
    apply eq_None_not_Some. rewrite Hdom. by apply eq_None_not_Some.
Qed.

Lemma validate_functions_run fs0 l : ∀ s s',
  NoDup l →
  (∀ c, is_Some (functions s !! c) ↔ is_Some (fs0 !! c)) →
  for_ l validate_function s = Ok tt s' →
  (∀ k, functions s' !! k =
        (λ f, if bool_decide (k ∈ l)
              then set_calls (registered_calls fs0 (calls f)) f else f)
          <$> functions s !! k) ∧
  (∀ k f c call, k ∈ l → functions s !! k = Some f →
     calls f !! c = Some call → callee_id call = c) ∧
  (∀ k f c, k ∈ l → functions s !! k = Some f → is_Some (calls f !! c) →
     fs0 !! c = None → UndefinedFunction c (name f) ∈ stderr s') ∧
  (∀ w, w ∈ stderr s → w ∈ stderr s') ∧
  events s' = events s ∧ cycles s' = cycles s ∧
  cycle_store s' = cycle_store s.
Proof.
  induction l as [|x l IH]; intros s s' Hnd Hdom Hrun; simpl in Hrun.
  - apply ret_Ok in Hrun as [_ <-]. split_and!; try done.
    + intros k. rewrite bool_decide_eq_false_2 by apply not_elem_of_nil.
      by destruct (functions s !! k).
    + intros k f c call Hk; by apply elem_of_nil in Hk.
    + intros k f c Hk; by apply elem_of_nil in Hk.
  - apply bind_Ok in Hrun as ([] & s1 & Hstep & Hrest).
    apply NoDup_cons in Hnd as [Hx Hnd].
    apply (validate_function_Ok fs0) in Hstep
      as (f & Hf & Hfs & Hids & Hwarn & Herr & Hev & Hcy & Hcs); [|done].
    assert (∀ c, is_Some (functions s1 !! c) ↔ is_Some (fs0 !! c)) as Hdom1.
    { intros c. rewrite Hfs, lookup_insert_is_Some', <- Hdom.
      split; [intros [->|?]; eauto | eauto]. }
    apply IH in Hrest
      as (Hfs' & Hids' & Hwarn' & Herr' & Hev' & Hcy' & Hcs'); [|done..].
    split_and!; try congruence.
    + intros k. rewrite Hfs', Hfs.
      destruct (decide (k = x)) as [->|Hne].
      * rewrite lookup_insert_eq, Hf. simpl.
        rewrite bool_decide_eq_false_2 by done.
        rewrite bool_decide_eq_true_2 by left. done.
      * rewrite lookup_insert_ne by done.
        destruct (functions s !! k) as [g|]; [simpl|done].
        rewrite (bool_decide_ext (k ∈ x :: l) (k ∈ l)); [done|].
        rewrite elem_of_cons. naive_solver.
    + intros k g c call [->|Hk]%elem_of_cons Hg Hc.
      * assert (g = f) as -> by congruence. eauto.
      * apply (Hids' k g c call Hk); [|done].
        rewrite Hfs, lookup_insert_ne; [done|]. by intros ->.
    + intros k g c [->|Hk]%elem_of_cons Hg Hc Hnone.
      * assert (g = f) as -> by congruence. eauto.
      * apply (Hwarn' k g c Hk); [|done..].
        rewrite Hfs, lookup_insert_ne; [done|]. by intros ->.
    + eauto.
Qed.

(** C6: when [validate] returns, every remaining call is stored under
    its callee id and that id is a key of the function map; a call whose
    callee id is registered is left as it was, a dangling call is dropped
    and a warning names it; the function map has the same keys. *)
Theorem validate_spec (s s' : Profile) :
  validate s = Ok tt s' →
  (∀ k f' c call, functions s' !! k = Some f' → calls f' !! c = Some call →
     callee_id call = c ∧ is_Some (functions s' !! callee_id call)) ∧
  (∀ k f c call, functions s !! k = Some f → calls f !! c = Some call →
     ∃ f', functions s' !! k = Some f' ∧
       (is_Some (functions s !! c) → calls f' !! c = Some call) ∧
       (functions s !! c = None →
        calls f' !! c = None ∧ UndefinedFunction c (name f) ∈ stderr s')) ∧
  (∀ k, is_Some (functions s' !! k) ↔ is_Some (functions s !! k)).
Proof.
  unfold validate. intros Hrun.
  apply bind_Ok in Hrun as (s0 & s1 & [-> ->]%get_Ok & Hrun).
  apply (validate_functions_run (functions s)) in Hrun
    as (Hfs & Hids & Hwarn & _); [|apply NoDup_keys|done].
  assert (∀ k, is_Some (functions s' !! k) ↔ is_Some (functions s !! k)) as Hdom.
  { intros k. rewrite Hfs. by rewrite fmap_is_Some. }
  split_and!; [| |done].
  - intros k f' c call Hf' Hc. rewrite Hfs in Hf'.
    destruct (functions s !! k) as [f|] eqn:Hf; [|done].
    simpl in Hf'. rewrite bool_decide_eq_true_2 in Hf'
      by (apply elem_of_keys; eauto).
    simplify_eq. simpl in Hc. rewrite registered_calls_lookup in Hc.
    case_decide as Hreg; [|done].
    assert (callee_id call = c) as ->.
    { apply (Hids k f c call); [apply elem_of_keys; eauto|done..]. }
    split; [done|]. by apply Hdom.
  - intros k f c call Hf Hc. rewrite Hfs, Hf. simpl.
    rewrite bool_decide_eq_true_2 by (apply elem_of_keys; eauto).
    eexists. split; [done|]. simpl. rewrite registered_calls_lookup. split.
    + intros Hreg. by rewrite decide_True.
    + intros Hnone. rewrite decide_False by (rewrite Hnone; by intros [? ?]).
      split; [done|]. apply (Hwarn k f c); [apply elem_of_keys|..]; eauto.
Qed.

(** ** Loops that keep a property of the state *)

Lemma for_preserves {A} (P : Profile → Prop) (l : list A) (body : A → M unit) :
  (∀ x s s', x ∈ l → P s → body x s = Ok tt s' → P s') →
  ∀ s s', P s → for_ l body s = Ok tt s' → P s'.
Proof.
  intros Hbody s s' HP Hrun.
  apply (for_inv l body (λ _, P)) in Hrun; [done| |done].
  intros done x s1 s2 [rest ->] HP1 Hx. apply (Hbody x s1 s2); [|done..].
  rewrite !elem_of_app, list_elem_of_singleton. auto.
Qed.

Lemma for_acc_preserves {A B} (P : Profile → Prop) (l : list A)
    (body : B → A → M B) :
  (∀ x acc s acc' s', x ∈ l → P s → body acc x s = Ok acc' s' → P s') →
  ∀ acc s acc' s', P s → for_acc l acc body s = Ok acc' s' → P s'.
Proof.
  intros Hbody acc s acc' s' HP Hrun.
  apply (for_acc_inv l body (λ _ _, P)) in Hrun; [done| |done].
  intros done x a1 s1 a2 s2 [rest ->] HP1 Hx.
  apply (Hbody x a1 s1 a2 s2); [|done..].
  rewrite !elem_of_app, list_elem_of_singleton. auto.
Qed.

Ltac inv_case :=
  match goal with
  | H : (if ?b then _ else _) _ = Ok _ _ |- _ => destruct b eqn:?
  | H : (match ?x with _ => _ end) _ = Ok _ _ |- _ => destruct x eqn:?
  end.

Ltac inv_all := repeat (inv_M; try inv_case).

(** ** [Profile.prune] *)


(** A loop whose turns each establish a property of their element, under
    a relation between states that keeps the property. *)
Lemma for_establish {A} (R : Profile → Profile → Prop)
    (G : A → Profile → Prop) (l : list A) (body : A → M unit) :
  (∀ s, R s s) → (∀ s1 s2 s3, R s1 s2 → R s2 s3 → R s1 s3) →
  (∀ x s s', R s s' → G x s → G x s') →
  (∀ x s s', x ∈ l → body x s = Ok tt s' → R s s' ∧ G x s') →
  ∀ s s', for_ l body s = Ok tt s' → R s s' ∧ ∀ x, x ∈ l → G x s'.
Proof.
  intros Hrefl Htrans Hmono. induction l as [|x l IH]; intros Hbody s s' Hrun;
    simpl in Hrun.
  - apply ret_Ok in Hrun as [_ <-]. split; [done|].
    intros x Hx. by apply elem_of_nil in Hx.
  - apply bind_Ok in Hrun as ([] & s1 & Hx & Hrest).
    apply Hbody in Hx as [HR HG]; [|left].
    apply IH in Hrest as [HR' HG'].
    + split; [eauto|]. intros y [->|Hy]%elem_of_cons; eauto.
    + intros y s2 s3 Hy. apply Hbody. by right.
Qed.

Lemma calls_removed_refl s : calls_removed s s.
Proof. split; [done|]. intros k f c call Hf Hc. eauto. Qed.

Lemma calls_removed_trans s1 s2 s3 :
  calls_removed s1 s2 → calls_removed s2 s3 → calls_removed s1 s3.
Proof.
  intros [Hd12 H12] [Hd23 H23]. split.
  - intros k. by rewrite Hd23.
  - intros k f3 c call Hf3 Hc3.
    destruct (H23 k f3 c call Hf3 Hc3) as (f2 & Hf2 & Hc2). eauto.
Qed.


Lemma prune_edge_Ok t k c s s' :
  prune_edge t k c s = Ok tt s' →
  calls_removed s s' ∧
  ∀ f' call, functions s' !! k = Some f' → calls f' !! c = Some call →
             edge_kept t s' c call.
Proof.
  unfold prune_edge. intros Hrun. inv_all.
  - split.
    + split.
      * intros k'. simpl. rewrite lookup_insert_is_Some'.
        split; [intros [->|?]; eauto | eauto].
      * intros k' f' c' call'. simpl.
        destruct (decide (k' = k)) as [->|Hne].
        -- rewrite lookup_insert_eq. intros [= <-]. simpl.
           intros Hc%lookup_delete_Some. naive_solver.
        -- rewrite lookup_insert_ne by done. eauto.
    + intros f' call'. simpl. rewrite lookup_insert_eq. intros [= <-]. simpl.
      by rewrite lookup_delete_eq.
  - split; [apply calls_removed_refl|].
    intros f' call' Hf' Hc'. simplify_eq.
    match goal with H : _ || _ = false |- _ =>
      apply orb_false_iff in H as [Hreg Hw] end.
    apply bool_decide_eq_false_1 in Hreg. split.
    + by apply not_eq_None_Some.
    + intros w Hcw. rewrite Hcw in Hw. by apply Qltb_ge.
Qed.

Lemma edge_kept_mono t k c s s' :
  calls_removed s s' →
  (∀ f call, functions s !! k = Some f → calls f !! c = Some call →
             edge_kept t s c call) →
  (∀ f call, functions s' !! k = Some f → calls f !! c = Some call →
             edge_kept t s' c call).
Proof.
  intros [Hdom Hrm] Hgood f' call Hf' Hc'.
  destruct (Hrm k f' c call Hf' Hc') as (f & Hf & Hc).
  destruct (Hgood f call Hf Hc) as [Hreg Hw]. split; [by apply Hdom|done].
Qed.

Lemma prune_edges_Ok t s s' :
  prune_edges t s = Ok tt s' →
  calls_removed s s' ∧
  ∀ k f c call, functions s' !! k = Some f → calls f !! c = Some call →
                edge_kept t s' c call.
Proof.
  unfold prune_edges. intros Hrun.
  apply bind_Ok in Hrun as (s0 & s1 & [-> ->]%get_Ok & Hrun).
  apply (for_establish calls_removed
           (λ k s, ∀ f c call, functions s !! k = Some f →
                     calls f !! c = Some call → edge_kept t s c call))
    in Hrun as [Hrm Hgood].
  - split; [done|]. intros k f c call Hf Hc.
    refine (Hgood k _ f c call Hf Hc). apply elem_of_keys, Hrm. eauto.
  - apply calls_removed_refl.
  - apply calls_removed_trans.
  - intros k s1 s2 Hrm Hgood f c call. by apply (edge_kept_mono t k c s1 s2); eauto.
  - intros k s1 s2 _ Hk.
    apply bind_Ok in Hk as (f & s3 & [Hf ->]%the_function_Ok & Hk).
    apply (for_establish calls_removed
             (λ c s, ∀ f call, functions s !! k = Some f →
                       calls f !! c = Some call → edge_kept t s c call))
      in Hk as [Hrm Hgood].
    + split; [done|]. intros f' c call Hf' Hc'.
      refine (Hgood c _ f' call Hf' Hc').
      destruct Hrm as [_ Hrm].
      destruct (Hrm k f' c call Hf' Hc') as (f0 & Hf0 & Hc0).
      apply elem_of_keys. assert (f0 = f) as -> by congruence. eauto.
    + apply calls_removed_refl.
    + apply calls_removed_trans.
    + intros c s3 s4 Hrm. by apply (edge_kept_mono t k c s3 s4).
    + intros c s3 s4 _. apply prune_edge_Ok.
Qed.


Lemma same_calls_trans s1 s2 s3 :
  same_calls s1 s2 → same_calls s2 s3 → same_calls s1 s3.
Proof. intros H12 H23 k. by rewrite H23. Qed.


Lemma same_calls_is_Some s s' k :
  same_calls s s' → is_Some (functions s' !! k) ↔ is_Some (functions s !! k).
Proof. intros H. by rewrite <- !(fmap_is_Some calls), H. Qed.

Lemma prune_recolor_same_calls s s' :
  prune_recolor s = Ok tt s' → same_calls s s'.
Proof.
  unfold prune_recolor. intros Hrun.
  apply bind_Ok in Hrun as (s0 & s1 & [-> ->]%get_Ok & Hrun).
  apply bind_Ok in Hrun as (weights & s1 & Hw & Hrun).
  assert (same_calls s s1) as Hs1.
  { revert Hw. apply for_acc_preserves; [|done].
    intros k acc s2 acc' s3 _ Hs2 Hk. by inv_all. }
  revert Hrun. apply for_preserves; [|done].
  intros k s2 s3 _ Hs2 Hk. inv_all; try done.
  eapply same_calls_trans; [done|]. intros k'. simpl.
  destruct (decide (k' = k)) as [->|Hne].
  - rewrite lookup_insert_eq. by match goal with H : functions _ !! k = _ |- _ =>
      rewrite H end.
  - by rewrite lookup_insert_ne.
Qed.


Lemma validate_spec_witness :
  validate raw_input = Ok tt validated ∧
  (∀ k f' c call,
     functions validated !! k = Some f' → calls f' !! c = Some call →
     callee_id call = c ∧ is_Some (functions validated !! callee_id call)) ∧
  (∀ k f c call, functions raw_input !! k = Some f → calls f !! c = Some call →
     ∃ f', functions validated !! k = Some f' ∧
       (is_Some (functions raw_input !! c) → calls f' !! c = Some call) ∧
       (functions raw_input !! c = None →
        calls f' !! c = None ∧
        UndefinedFunction c (name f) ∈ stderr validated)) ∧
  (∀ k, is_Some (functions validated !! k) ↔
        is_Some (functions raw_input !! k)).
Proof.
  assert (validate raw_input = Ok tt validated) as Hrun
    by (vm_compute; reflexivity).
  split; [exact Hrun|]. exact (validate_spec _ _ Hrun).
Defined.

(** ** [Profile.integrate]: the sanity checks *)

Lemma bind_run_Ok {A B} (m : M A) (k : A → M B) s a s1 :
  m s = Ok a s1 → (m ≫= k) s = k a s1.
Proof. intros H. unfold mbind, M_bind. by rewrite H. Qed.

Lemma bind_run_Raise {A B} (m : M A) (k : A → M B) s e :
  m s = Raise e → (m ≫= k) s = Raise e.
Proof. intros H. unfold mbind, M_bind. by rewrite H. Qed.

Lemma for_checks {A} (l : list A) (body : A → M unit) s :
  (∀ x, x ∈ l → body x s = Ok tt s ∨ body x s = Raise AssertionError) →
  for_ l body s = Ok tt s ∨ for_ l body s = Raise AssertionError.
Proof.
  induction l as [|x l IH]; intros Hbody; simpl; [by left|].
  destruct (Hbody x ltac:(left)) as [Hx | Hx].
  - rewrite (bind_run_Ok _ _ _ _ _ Hx). apply IH.
    intros y Hy. apply Hbody. by right.
  - right. by apply bind_run_Raise.
Qed.

Lemma assert_cases b s :
  assert b s = Ok tt s ∨ assert b s = Raise AssertionError.
Proof. destruct b; [by left|by right]. Qed.

(** A check followed by the rest of the checks. *)
Lemma assert_then_cases b (m : M unit) s :
  (m s = Ok tt s ∨ m s = Raise AssertionError) →
  (assert b ;; m) s = Ok tt s ∨ (assert b ;; m) s = Raise AssertionError.
Proof.
  intros Hm. destruct b; simpl.
  - by rewrite (bind_run_Ok _ _ s tt s).
  - right. by apply bind_run_Raise.
Qed.

Lemma integrate_sanity_cases outevent inevent s :
  integrate_sanity outevent inevent s = Ok tt s ∨
  integrate_sanity outevent inevent s = Raise AssertionError.
Proof.
  unfold integrate_sanity. rewrite (bind_run_Ok _ _ s s s) by done.
  apply assert_then_cases.
  apply for_checks. intros k [f Hf]%elem_of_keys.
  rewrite (bind_run_Ok _ _ s f s) by (by apply the_function_Ok).
  do 2 apply assert_then_cases.
  apply for_checks. intros c [call Hc]%elem_of_keys.
  rewrite (bind_run_Ok _ _ s call s) by (apply the_call_Ok; eauto).
  apply assert_then_cases.
  case_bool_decide; [apply assert_cases|by left].
Qed.

(** A loop of checks: no turn changes the state. *)
Lemma for_pure {A} (G : A → Prop) (l : list A) (body : A → M unit) s s' :
  (∀ x s', x ∈ l → body x s = Ok tt s' → s' = s ∧ G x) →
  for_ l body s = Ok tt s' → s' = s ∧ ∀ x, x ∈ l → G x.
Proof.
  induction l as [|x l IH]; intros Hbody Hrun; simpl in Hrun.
  - apply ret_Ok in Hrun as [_ <-]. split; [done|].
    intros x Hx. by apply elem_of_nil in Hx.
  - apply bind_Ok in Hrun as ([] & s1 & Hx & Hrest).
    apply Hbody in Hx as [-> HG]; [|left].
    apply IH in Hrest as [-> HG'].
    + split; [done|]. intros y [->|Hy]%elem_of_cons; eauto.
    + intros y s2 Hy. apply Hbody. by right.
Qed.

Lemma integrate_sanity_Ok outevent inevent u s s' :
  integrate_sanity outevent inevent s = Ok u s' →
  s' = s ∧ sanity_ok outevent inevent s.
Proof.
  unfold integrate_sanity. intros Hrun. destruct u.
  apply bind_Ok in Hrun as (s0 & s1 & [-> ->]%get_Ok & Hrun).
  apply bind_Ok in Hrun as ([] & s1 & [Hp <-]%assert_Ok & Hrun).
  apply bool_decide_eq_true_1 in Hp.
  apply (for_pure
           (λ k, ∀ f, functions s !! k = Some f →
              function_events f !! outevent = None ∧
              is_Some (function_events f !! inevent) ∧
              ∀ c call, calls f !! c = Some call →
                call_events call !! outevent = None ∧
                (callee_id call ≠ id f → is_Some (call_ratio call))))
    in Hrun as [-> Hgood].
  - split; [done|]. split; [done|]. intros k f Hf.
    apply (Hgood k); [|done]. apply elem_of_keys. eauto.
  - intros k s2 _ Hk. inv_M.
    match goal with H : for_ _ _ _ = Ok _ _ |- _ => rename H into Hin end.
    match goal with H : functions s !! k = Some ?f |- _ =>
      rename H into Hf;
      apply (for_pure
             (λ c, ∀ call, calls f !! c = Some call →
                  call_events call !! outevent = None ∧
                  (callee_id call ≠ id f → is_Some (call_ratio call))))
        in Hin as [-> Hgood] end.
    + split; [done|]. intros f Hf'. simplify_eq. split_and!; [done..|].
      intros c call Hc. apply (Hgood c); [|done].
      apply elem_of_keys. eauto.
    + intros c s3 _ Hc. inv_all; (split; [done|]);
        intros call' Hc'; simplify_eq; split; done.
Qed.

(** C7: [integrate] raises [AssertionError] when the output event is
    already defined on the profile, on a function or on a call, and when
    the input event is undefined on a function. *)
Theorem integrate_aborts (fuel : nat) (outevent inevent : Event)
    (s : Profile) :
  (is_Some (events s !! outevent) ∨
   ∃ k f, functions s !! k = Some f ∧
     (is_Some (function_events f !! outevent) ∨
      function_events f !! inevent = None ∨
      ∃ c call, calls f !! c = Some call ∧
                is_Some (call_events call !! outevent))) →
  integrate fuel outevent inevent s = Raise AssertionError.
Proof.
  intros Hviol. unfold integrate. unfold mbind, M_bind at 1.
  destruct (integrate_sanity_cases outevent inevent s) as [Hok | ->]; [|done].
  exfalso. apply integrate_sanity_Ok in Hok as [_ [Hp Hf]].
  destruct Hviol as [[v Hv] | (k & f & Hk & Hviol)]; [congruence|].
  destruct (Hf k f Hk) as (Hout & [v Hin] & Hcalls).
  destruct Hviol as [[v' Hv] | [Hnone | (c & call & Hc & [v' Hv])]];
    [congruence..|].
  destruct (Hcalls c call Hc) as [Hcout _]. congruence.
Qed.

Lemma integrate_aborts_witness :
  is_Some (events chain_output !! TOTAL_TIME) ∧
  integrate 10 TOTAL_TIME TIME chain_output = Raise AssertionError.
Proof.
  assert (is_Some (events chain_output !! TOTAL_TIME)) as H
    by (by eexists).
  split; [exact H|].
  apply (integrate_aborts 10 TOTAL_TIME TIME chain_output). left. exact H.
Defined.

(** ** [Profile.call_ratios] *)

Lemma ratio_Ok n d r s s' :
  ratio n d s = Ok r s' →
  0 <= r <= 1 ∧ ∃ w, s' = set_stderr (stderr s ++ w) s.
Proof.
  intros Hrun. destruct (Qeq_bool d 0) eqn:Hd.
  - unfold ratio in Hrun. rewrite Hd in Hrun. apply ret_Ok in Hrun as [<- <-].
    split; [done|]. exists []. by rewrite set_stderr_nil.
  - destruct (ratio_nonzero n d s Hd) as (w & Hw & _).
    rewrite Hw in Hrun. injection Hrun as <- <-.
    split; [apply clamp01_range|eauto].
Qed.

Lemma ratios_set_refl event s : ratios_set event s s.
Proof. intros k f c call Hf Hc. exists f, call. split_and!; auto. Qed.

Lemma ratios_set_trans event s1 s2 s3 :
  ratios_set event s1 s2 → ratios_set event s2 s3 → ratios_set event s1 s3.
Proof.
  intros H12 H23 k f3 c call3 Hf3 Hc3.
  destruct (H23 k f3 c call3 Hf3 Hc3)
    as (f2 & call2 & Hf2 & Hc2 & Hid2 & Hcid2 & Hev2 & Hr2).
  destruct (H12 k f2 c call2 Hf2 Hc2)
    as (f1 & call1 & Hf1 & Hc1 & Hid1 & Hcid1 & Hev1 & Hr1).
  exists f1, call1. split_and!; try congruence.
  destruct Hr2 as [Hr2|[? ?]]; [|right; split; [congruence|done]].
  destruct Hr1 as [Hr1|(? & r & Hr & Hrange & Hnone)]; [left; congruence|].
  right. split; [done|].
  exists r. split_and!; [congruence|apply Hrange..|by rewrite Hev2].
Qed.

Lemma ratios_set_stderr event w s : ratios_set event s (set_stderr w s).
Proof. intros k f c call Hf Hc. exists f, call. split_and!; auto. Qed.

Lemma ratios_set_update event k c f call r s :
  functions s !! k = Some f → calls f !! c = Some call →
  callee_id call ≠ id f →
  good_ratio event (set_call_ratio (Some r) call) →
  ratios_set event s
    (set_functions
       (<[k := set_calls (<[c := set_call_ratio (Some r) call]> (calls f)) f]>
          (functions s)) s).
Proof.
  intros Hf Hc Hself Hgood k' f' c' call'. simpl.
  destruct (decide (k' = k)) as [->|Hk].
  - rewrite lookup_insert_eq. intros [= <-]. simpl.
    destruct (decide (c' = c)) as [->|Hne].
    + rewrite lookup_insert_eq. intros [= <-].
      exists f, call. split_and!; auto.
    + rewrite lookup_insert_ne by done. intros Hc'.
      exists f, call'. split_and!; auto.
  - rewrite lookup_insert_ne by done. intros Hf' Hc'.
    exists f', call'. split_and!; auto.
Qed.

(** A good ratio stays good. *)
Lemma good_ratio_mono event k c s s' :
  ratios_set event s s' →
  (∀ f call, functions s !! k = Some f → calls f !! c = Some call →
             callee_id call ≠ id f → good_ratio event call) →
  (∀ f call, functions s' !! k = Some f → calls f !! c = Some call →
             callee_id call ≠ id f → good_ratio event call).
Proof.
  intros Hset Hgood f' call' Hf' Hc' Hne.
  destruct (Hset k f' c call' Hf' Hc')
    as (f & call & Hf & Hc & Hid & Hcid & Hev & [Hr|[_ ?]]); [|done].
  destruct (Hgood f call Hf Hc) as (r & Hrr & Hrange & Hnone); [congruence|].
  exists r. split_and!; [congruence|apply Hrange..|by rewrite Hev].
Qed.

(** A call of a function to itself keeps its ratio. *)
Lemma self_ratio_mono event k c s s' :
  ratios_set event s s' →
  (∀ f call, functions s !! k = Some f → calls f !! c = Some call →
             callee_id call = id f → call_ratio call = None) →
  (∀ f call, functions s' !! k = Some f → calls f !! c = Some call →
             callee_id call = id f → call_ratio call = None).
Proof.
  intros Hset Hnone f' call' Hf' Hc' Heq.
  destruct (Hset k f' c call' Hf' Hc')
    as (f & call & Hf & Hc & Hid & Hcid & Hev & [Hr|[Hne _]]);
    [|congruence].
  rewrite Hr. apply (Hnone f call Hf Hc). congruence.
Qed.


Lemma call_ratios_pass2_Ok event function_totals cycle_totals s s' :
  call_ratios_pass2 event function_totals cycle_totals s = Ok tt s' →
  ∀ k f c call, functions s' !! k = Some f → calls f !! c = Some call →
    (callee_id call ≠ id f → good_ratio event call) ∧
    (callee_id call = id f → call_ratio call = None).
Proof.
  unfold call_ratios_pass2. intros Hrun.
  apply bind_Ok in Hrun as (s0 & s1 & [-> ->]%get_Ok & Hrun).
  apply (for_establish (ratios_set event)
           (λ k s, ∀ f c call, functions s !! k = Some f →
              calls f !! c = Some call →
              (callee_id call ≠ id f → good_ratio event call) ∧
              (callee_id call = id f → call_ratio call = None)))
    in Hrun as [Hset Hgood].
  - intros k f c call Hf Hc. eapply (Hgood k); [|done..].
    destruct (Hset k f c call Hf Hc) as (f0 & ? & Hf0 & _).
    apply elem_of_keys. eauto.
  - apply ratios_set_refl.
  - apply ratios_set_trans.
  - intros k s1 s2 Hset Hgood f c call Hf Hc. split.
    + apply (good_ratio_mono event k c s1 s2 Hset); [|done..].
      intros f0 call0 Hf0 Hc0. by apply (Hgood f0 c call0).
    + apply (self_ratio_mono event k c s1 s2 Hset); [|done..].
      intros f0 call0 Hf0 Hc0. by apply (Hgood f0 c call0).
  - intros k s1 s2 _ Hk.
    apply bind_Ok in Hk as (f & s3 & [Hf ->]%the_function_Ok & Hk).
    apply (for_establish (ratios_set event)
             (λ c s, ∀ f call, functions s !! k = Some f →
                calls f !! c = Some call →
                (callee_id call ≠ id f → good_ratio event call) ∧
                (callee_id call = id f → call_ratio call = None)))
      in Hk as [Hset Hgood].
    + split; [done|]. intros f' c call Hf' Hc'. eapply (Hgood c); [|done..].
      destruct (Hset k f' c call Hf' Hc') as (f0 & ? & Hf0 & Hc0 & _).
      apply elem_of_keys. assert (f0 = f) as -> by congruence. eauto.
    + apply ratios_set_refl.
    + apply ratios_set_trans.
    + intros c s3 s4 Hset Hgood f0 call Hf0 Hc0. split.
      * apply (good_ratio_mono event k c s3 s4 Hset); [|done..].
        intros f1 call1 Hf1 Hc1. by apply (Hgood f1 call1).
      * apply (self_ratio_mono event k c s3 s4 Hset); [|done..].
        intros f1 call1 Hf1 Hc1. by apply (Hgood f1 call1).
    + intros c s3 s4 _ Hc. clear Hrun Hk Hf. inv_all.
      * (* the call has the event *)
        match goal with H : ratio _ _ _ = Ok _ _ |- _ =>
          apply ratio_Ok in H as [Hrange [w ->]] end.
        inv_M. simpl in *. simplify_eq. split.
        -- eapply ratios_set_trans;
             [apply (ratios_set_stderr _ (stderr s3 ++ w))|].
           apply (ratios_set_update event k c _ _ _ (set_stderr _ s3));
             [done..|].
           eexists. split_and!; [done|apply Hrange..|].
           simpl. congruence.
        -- intros f' call'. simpl. rewrite lookup_insert_eq. intros [= <-].
           simpl. rewrite lookup_insert_eq. intros [= <-]. split; [|done].
           intros _. eexists. split_and!; [done|apply Hrange..|].
           simpl. congruence.
      * match goal with H : ratio _ _ _ = Ok _ _ |- _ =>
          apply ratio_Ok in H as [Hrange [w ->]] end.
        inv_M. simpl in *. simplify_eq. split.
        -- eapply ratios_set_trans;
             [apply (ratios_set_stderr _ (stderr s3 ++ w))|].
           apply (ratios_set_update event k c _ _ _ (set_stderr _ s3));
             [done..|].
           eexists. split_and!; [done|apply Hrange..|].
           simpl. congruence.
        -- intros f' call'. simpl. rewrite lookup_insert_eq. intros [= <-].
           simpl. rewrite lookup_insert_eq. intros [= <-]. split; [|done].
           intros _. eexists. split_and!; [done|apply Hrange..|].
           simpl. congruence.
      * (* the call lacks the event *)
        split.
        -- apply ratios_set_update; [done..|].
           eexists. split_and!; done.
        -- intros f' call'. simpl. rewrite lookup_insert_eq. intros [= <-].
           simpl. rewrite lookup_insert_eq. intros [= <-]. split; [|done].
           intros _. eexists. split_and!; done.
      * (* a call of the function to itself *)
        split; [apply ratios_set_refl|].
        intros f' call' Hf' Hc'. simplify_eq. split; [tauto|done].
Qed.


(** ** The frame of [integrate] *)

Section preserves.
Context (e : Event).

Lemma preserves_ret {A} (a : A) : preserves e (mret a : M A).
Proof. intros s b s' H. by inv_M. Qed.

Lemma preserves_raise {A} x : preserves e (raise x : M A).
Proof. intros s b s' H. by inv_M. Qed.

Lemma preserves_bind {A B} (m : M A) (k : A → M B) :
  preserves e m → (∀ a, preserves e (k a)) → preserves e (m ≫= k).
Proof.
  intros Hm Hk s b s' (a & s1 & H1 & H2)%bind_Ok.
  rewrite (Hk a _ _ _ H2). exact (Hm _ _ _ H1).
Qed.

Lemma preserves_for {A} (l : list A) (body : A → M unit) :
  (∀ x, preserves e (body x)) → preserves e (for_ l body).
Proof.
  intros Hbody s [] s' Hrun. revert Hrun.
  apply (for_preserves (λ s', erase e s' = erase e s)); [|done].
  intros x s1 s2 _ Hs1 Hx. rewrite <- Hs1. exact (Hbody x _ _ _ Hx).
Qed.

Lemma preserves_for_acc {A B} (l : list A) (acc : B) (body : B → A → M B) :
  (∀ acc x, preserves e (body acc x)) → preserves e (for_acc l acc body).
Proof.
  intros Hbody s acc' s' Hrun. revert Hrun.
  apply (for_acc_preserves (λ s', erase e s' = erase e s)); [|done].
  intros x a1 s1 a2 s2 _ Hs1 Hx. rewrite <- Hs1. exact (Hbody _ x _ _ _ Hx).
Qed.

Lemma preserves_get : preserves e get.
Proof. intros s a s' H. by inv_M. Qed.

Lemma preserves_assert b : preserves e (assert b).
Proof. intros s a s' H. by inv_M. Qed.

Lemma preserves_the_function k : preserves e (the_function k).
Proof. intros s a s' H. by inv_M. Qed.

Lemma preserves_the_call k c : preserves e (the_call k c).
Proof. intros s a s' H. by inv_M. Qed.

Lemma preserves_the_cycle k : preserves e (the_cycle k).
Proof. intros s a s' H. by inv_M. Qed.

Lemma preserves_functions_getitem k : preserves e (functions_getitem k).
Proof. intros s a s' H. by inv_M. Qed.

Lemma preserves_dict_getitem {A} (d : gmap nat A) k :
  preserves e (dict_getitem d k).
Proof. intros s a s' H. by inv_M. Qed.

Lemma preserves_getitem x ev : preserves e (getitem x ev).
Proof. intros s a s' H. by inv_M. Qed.

Lemma preserves_number o : preserves e (number o).
Proof. intros s a s' H. by inv_M. Qed.

Lemma preserves_aggregate x a b : preserves e (aggregate x a b).
Proof.
  intros s r s' H. unfold aggregate in H.
  destruct (Event_aggregator x); by inv_M.
Qed.

Lemma erase_set_stderr w s : erase e (set_stderr w s) = erase e s.
Proof. done. Qed.

Lemma preserves_write_stderr w : preserves e (write_stderr w).
Proof. intros s a s' H. by inv_M. Qed.

Lemma preserves_ratio n d : preserves e (ratio n d).
Proof. intros s a s' H. apply ratio_Ok in H as [_ [w ->]]. done. Qed.

Lemma preserves_update_function k g :
  (∀ f, erase_function e (g f) = erase_function e f) →
  preserves e (update_function k g).
Proof.
  intros Hg s a s' H. inv_M. unfold erase. simpl. f_equal.
  rewrite fmap_insert, Hg. apply insert_id. rewrite lookup_fmap.
  by match goal with H : functions _ !! k = _ |- _ => rewrite H end.
Qed.

Lemma preserves_update_call k c g :
  (∀ call, erase_call e (g call) = erase_call e call) →
  preserves e (update_call k c g).
Proof.
  intros Hg s a s' H. inv_M. unfold erase. simpl. f_equal.
  rewrite fmap_insert. apply insert_id. rewrite lookup_fmap.
  match goal with H : functions _ !! k = _ |- _ => rewrite H end.
  simpl. f_equal. unfold erase_function, set_function_events, set_calls.
  simpl. f_equal.
  rewrite fmap_insert, Hg. symmetry. apply insert_id. rewrite lookup_fmap.
  by match goal with H : calls _ !! c = _ |- _ => rewrite H end.
Qed.

Lemma preserves_update_cycle k g :
  (∀ c, erase_cycle e (g c) = erase_cycle e c) →
  preserves e (update_cycle k g).
Proof.
  intros Hg s a s' H. inv_M. unfold erase. simpl. f_equal.
  rewrite fmap_insert, Hg. apply insert_id. rewrite lookup_fmap.
  by match goal with H : cycle_store _ !! k = _ |- _ => rewrite H end.
Qed.

Lemma delete_iadd v (ev : gmap Event Q) : delete e (iadd e v ev) = delete e ev.
Proof. unfold iadd. destruct (ev !! e); apply delete_insert_eq. Qed.

Lemma preserves_function_setitem k v : preserves e (function_setitem k e v).
Proof.
  apply preserves_update_function. intros f. unfold erase_function. simpl.
  by rewrite delete_insert_eq.
Qed.

Lemma preserves_function_iadd k v :
  preserves e (update_function k
    (λ f, set_function_events (iadd e v (function_events f)) f)).
Proof.
  apply preserves_update_function. intros f. unfold erase_function. simpl.
  by rewrite delete_iadd.
Qed.

Lemma preserves_call_setitem k c v : preserves e (call_setitem k c e v).
Proof.
  apply preserves_update_call. intros call. unfold erase_call. simpl.
  by rewrite delete_insert_eq.
Qed.

Lemma preserves_call_iadd k c v :
  preserves e (update_call k c
    (λ c, set_call_events (iadd e v (call_events c)) c)).
Proof.
  apply preserves_update_call. intros call. unfold erase_call. simpl.
  by rewrite delete_iadd.
Qed.

Lemma preserves_cycle_setitem k v : preserves e (cycle_setitem k e v).
Proof.
  apply preserves_update_cycle. intros c. unfold erase_cycle. simpl.
  by rewrite delete_insert_eq.
Qed.

Lemma preserves_function_getitem k x : preserves e (function_getitem k x).
Proof.
  apply preserves_bind; [apply preserves_the_function|].
  intros f. apply preserves_getitem.
Qed.

Lemma preserves_call_getitem k c x : preserves e (call_getitem k c x).
Proof.
  apply preserves_bind; [apply preserves_the_call|].
  intros f. apply preserves_getitem.
Qed.

Lemma preserves_cycle_getitem k x : preserves e (cycle_getitem k x).
Proof.
  apply preserves_bind; [apply preserves_the_cycle|].
  intros f. apply preserves_getitem.
Qed.
End preserves.

Create HintDb preserves.

#[local] Hint Resolve preserves_ret preserves_raise preserves_get
  preserves_assert preserves_the_function preserves_the_call
  preserves_the_cycle preserves_functions_getitem preserves_dict_getitem
  preserves_getitem preserves_number preserves_aggregate
  preserves_write_stderr preserves_ratio preserves_function_setitem
  preserves_function_iadd preserves_call_setitem preserves_call_iadd
  preserves_cycle_setitem preserves_function_getitem preserves_call_getitem
  preserves_cycle_getitem : preserves.

(** The frame of a computation follows its structure. *)
Ltac preserves_step :=
  match goal with
  | |- preserves _ (_ ≫= _) => apply preserves_bind; [|intros ?]
  | |- preserves _ (for_ _ _) => apply preserves_for; intros ?
  | |- preserves _ (for_acc _ _ _) => apply preserves_for_acc; intros ? ?
  | |- preserves _ (if ?b then _ else _) => destruct b
  | |- preserves _ (match ?x with _ => _ end) => destruct x
  | |- preserves _ ((match ?x with _ => _ end) _) => destruct x; cbv beta
  | |- preserves _ _ => solve [auto with preserves]
  end.

Ltac preserves_tac := repeat preserves_step.

Lemma preserves_decrease_key e Q old new :
  preserves e (decrease_key Q old new).
Proof. unfold decrease_key. preserves_tac. Qed.

Lemma preserves_callees_add e callees callee r :
  preserves e (callees_add callees callee r).
Proof. unfold callees_add. preserves_tac. Qed.

Lemma preserves_cycle_callees e cy : preserves e (cycle_callees cy).
Proof.
  unfold cycle_callees. preserves_tac. apply preserves_callees_add.
Qed.

Lemma preserves_check_partials e partial partials call_ratio total :
  preserves e (check_partials partial partials call_ratio total).
Proof. unfold check_partials. preserves_tac. Qed.

Lemma preserves_rank_loop e fuel : ∀ cy visited st,
  preserves e (rank_loop fuel cy visited st).
Proof.
  induction fuel as [|fuel IH]; intros cy visited st; simpl;
    [apply preserves_raise|].
  preserves_tac; try apply IH; try apply preserves_decrease_key.
Qed.

Lemma preserves_rank_cycle_function e fuel cy function ranks :
  preserves e (_rank_cycle_function fuel cy function ranks).
Proof.
  unfold _rank_cycle_function. preserves_tac. apply preserves_rank_loop.
Qed.

Lemma preserves_call_ratios_cycle e fuel : ∀ cy function ranks st,
  preserves e (_call_ratios_cycle fuel cy function ranks st).
Proof.
  induction fuel as [|fuel IH]; intros cy function ranks st; simpl;
    [apply preserves_raise|].
  preserves_tac; try apply IH.
Qed.

Lemma preserves_integrate_cycle_function e fuel :
  ∀ cy function partial_ratio partials ranks call_ratios inevent,
  preserves e (_integrate_cycle_function fuel cy function partial_ratio
                 partials ranks call_ratios e inevent).
Proof.
  induction fuel as [|fuel IH]; intros; simpl; [apply preserves_raise|].
  preserves_tac; try apply IH.
Qed.

Lemma preserves_integrate_rec e inevent fuel :
  (∀ function, preserves e (_integrate_function fuel function e inevent)) ∧
  (∀ function c, preserves e (_integrate_call fuel function c e inevent)) ∧
  (∀ cy, preserves e (_integrate_cycle fuel cy e inevent)).
Proof.
  induction fuel as [|fuel (IHf & IHc & IHy)]; simpl.
  - split_and!; intros; apply preserves_raise.
  - split_and!; intros; preserves_tac;
      auto using preserves_cycle_callees, preserves_rank_cycle_function,
        preserves_call_ratios_cycle, preserves_integrate_cycle_function,
        preserves_check_partials.
Qed.

(** ** What the frame keeps *)

Lemma erase_function_lookup e s s' k f :
  erase e s' = erase e s → functions s !! k = Some f →
  ∃ f', functions s' !! k = Some f' ∧
        erase_function e f' = erase_function e f.
Proof.
  intros He Hf.
  assert (erase_function e <$> functions s' !! k =
          erase_function e <$> functions s !! k) as Hk.
  { rewrite <- !lookup_fmap. apply (f_equal functions) in He. simpl in He.
    by rewrite He. }
  rewrite Hf in Hk. destruct (functions s' !! k) as [f'|]; [|done].
  exists f'. split; [done|]. simpl in Hk. congruence.
Qed.

Lemma erase_function_events e x f f' :
  erase_function e f' = erase_function e f → x ≠ e →
  function_events f' !! x = function_events f !! x.
Proof.
  intros He Hx.
  assert (delete e (function_events f') = delete e (function_events f)) as Hd
    by (by apply (f_equal function_events) in He).
  rewrite <- (lookup_delete_ne (function_events f') e x) by done.
  rewrite <- (lookup_delete_ne (function_events f) e x) by done.
  by rewrite Hd.
Qed.

Lemma erase_function_call e c f f' call :
  erase_function e f' = erase_function e f → calls f !! c = Some call →
  ∃ call', calls f' !! c = Some call' ∧
           erase_call e call' = erase_call e call.
Proof.
  intros He Hc.
  assert (erase_call e <$> calls f' !! c = erase_call e <$> calls f !! c) as Hk.
  { rewrite <- !lookup_fmap. apply (f_equal calls) in He. simpl in He.
    by rewrite He. }
  rewrite Hc in Hk. destruct (calls f' !! c) as [call'|]; [|done].
  exists call'. split; [done|]. simpl in Hk. congruence.
Qed.

Lemma erase_call_events e x call call' :
  erase_call e call' = erase_call e call → x ≠ e →
  call_events call' !! x = call_events call !! x.
Proof.
  intros He Hx.
  assert (delete e (call_events call') = delete e (call_events call)) as Hd
    by (by apply (f_equal call_events) in He).
  rewrite <- (lookup_delete_ne (call_events call') e x) by done.
  rewrite <- (lookup_delete_ne (call_events call) e x) by done.
  by rewrite Hd.
Qed.

Lemma erase_events e s s' : erase e s' = erase e s → events s' = events s.
Proof. intros He. by apply (f_equal events) in He. Qed.

(** ** The sum of an event over the functions *)

Lemma sum_keys_app e s l1 l2 acc :
  sum_keys e s (l1 ++ l2) acc = sum_keys e s l2 (sum_keys e s l1 acc).
Proof. apply foldl_app. Qed.

Lemma foldl_Qplus_omap {A} (g : A → option Q) (h : A → Q) (l : list A) acc :
  (∀ x, x ∈ l → g x = Some (h x)) →
  foldl Qplus acc (omap g l) = foldl (λ acc x, acc + h x) acc l.
Proof.
  revert acc. induction l as [|x l IH]; intros acc Hl; [done|].
  simpl. rewrite (Hl x) by left. simpl. apply IH.
  intros y Hy. apply Hl. by right.
Qed.

Lemma sum_keys_values e s (l : list (nat * Function)) acc :
  (∀ kf, kf ∈ l → functions s !! kf.1 = Some kf.2) →
  sum_keys e s l.*1 acc =
  foldl (λ acc f, acc + default 0 (function_events f !! e)) acc l.*2.
Proof.
  revert acc. induction l as [|[k f] l IH]; intros acc Hl; [done|].
  simpl. rewrite <- IH by (intros kf Hkf; apply Hl; by right).
  unfold sum_keys. f_equal. f_equal. unfold event_value.
  specialize (Hl (k, f) ltac:(left)). simpl in Hl. by rewrite Hl.
Qed.

(** On a profile whose functions all have the event, the sum along the
    keys is the sum over the functions. *)
Lemma sum_keys_event_total e s :
  (∀ k f, functions s !! k = Some f → is_Some (function_events f !! e)) →
  sum_keys e s (keys (functions s)) (null e) = event_total e s.
Proof.
  intros Hdef. unfold event_total, keys.
  rewrite (foldl_Qplus_omap _ (λ f, default 0 (function_events f !! e))).
  - apply sum_keys_values. intros [k f]. apply elem_of_map_to_list.
  - intros f [[k f'] [-> Hkf%elem_of_map_to_list]]%list_elem_of_fmap.
    simpl. by destruct (Hdef k f' Hkf) as [v ->].
Qed.

(** The loop that aggregates the event over the functions. *)
Lemma aggregate_loop e l : ∀ acc total s s',
  for_acc l acc (λ total function,
    v ← function_getitem function e; aggregate e total v) s = Ok total s' →
  s' = s ∧ total = sum_keys e s l acc.
Proof.
  induction l as [|k l IH]; intros acc total s s' Hrun; simpl in Hrun.
  - by inv_M.
  - apply bind_Ok in Hrun as (acc1 & s1 & Hk & Hrest).
    unfold function_getitem, aggregate in Hk. inv_all.
    apply IH in Hrest as [-> ->]. split; [done|].
    simpl. unfold event_value.
    match goal with H : functions _ !! k = _ |- _ => rewrite H end. simpl.
    by match goal with H : function_events _ !! e = _ |- _ => rewrite H end.
Qed.

(** ** [Profile.integrate] *)

Lemma sum_keys_functions e s s' l acc :
  functions s' = functions s → sum_keys e s' l acc = sum_keys e s l acc.
Proof. intros H. unfold sum_keys, event_value. by rewrite H. Qed.

(** The loop over the cycles. *)
Lemma integrate_cycles_loop inevent ks T (l : list nat) : ∀ s s',
  (∀ s0, functions s0 = functions s → sum_keys inevent s0 ks (null inevent) = T) →
  for_ l (λ cycle,
    total ← for_acc ks (null inevent) (λ total function,
      v ← function_getitem function inevent;
      aggregate inevent total v);
    profile_setitem inevent total) s = Ok tt s' →
  s' = match l with
       | [] => s
       | _ :: _ => set_events (<[inevent := T]> (events s)) s
       end.
Proof.
  induction l as [|cy l IH]; intros s s' HT Hrun; simpl in Hrun.
  - by inv_M.
  - apply bind_Ok in Hrun as ([] & s1 & Hcy & Hrest).
    apply bind_Ok in Hcy as (total & s2 & [-> ->]%aggregate_loop & Hset).
    unfold profile_setitem in Hset. injection Hset as <-.
    rewrite (HT s) in Hrest by done.
    apply IH in Hrest; [|intros s0 Hs0; by apply HT].
    rewrite Hrest. destruct l; [done|]. simpl.
    unfold set_events. simpl. by rewrite insert_insert_eq.
Qed.

Lemma integrate_Ok fuel outevent inevent s s' :
  integrate fuel outevent inevent s = Ok tt s' →
  sanity_ok outevent inevent s ∧
  ∃ s2, erase outevent s2 = erase outevent (cycles_written inevent s) ∧
    s' = set_events (<[outevent := event_total inevent s]> (events s2)) s2.
Proof.
  unfold integrate. intros Hrun.
  apply bind_Ok in Hrun as ([] & s0 & [-> Hsane]%integrate_sanity_Ok & Hrun).
  split; [done|].
  apply bind_Ok in Hrun as (s0 & s1 & [-> ->]%get_Ok & Hrun).
  apply bind_Ok in Hrun as ([] & sc & Hcycles & Hrun).
  assert (∀ k f, functions s !! k = Some f →
                 is_Some (function_events f !! inevent)) as Hdef.
  { intros k f Hf. by destruct Hsane as [_ Hsane];
      destruct (Hsane k f Hf) as (_ & ? & _). }
  apply (integrate_cycles_loop _ _ (event_total inevent s)) in Hcycles.
  2:{ intros s0 Hs0. rewrite (sum_keys_functions _ s) by done.
      by apply sum_keys_event_total. }
  assert (sc = cycles_written inevent s) as ->
    by (rewrite Hcycles; unfold cycles_written; by destruct (cycles s)).
  clear Hcycles.
  apply bind_Ok in Hrun as (total & s2 & Hloop & Hset).
  unfold profile_setitem in Hset. injection Hset as <-.
  exists s2.
  apply (for_acc_inv _ _
           (λ done total s_cur,
              erase outevent s_cur = erase outevent (cycles_written inevent s) ∧
              total = sum_keys inevent s done (null inevent)))
    in Hloop as [He ->]; [| |done].
  - split; [done|]. by rewrite sum_keys_event_total.
  - intros done k total0 s3 total1 s4 [rest Hks] [He ->] Hk.
    assert (is_Some (functions s !! k)) as [f Hf].
    { apply elem_of_keys. rewrite Hks, !elem_of_app, list_elem_of_singleton.
      auto. }
    apply bind_Ok in Hk as (v & s5 & Hv & Hk).
    apply bind_Ok in Hv as (f3 & s6 & [Hf3 ->]%the_function_Ok
                            & [Hv ->]%getitem_Ok).
    apply bind_Ok in Hk as (total2 & s5 & Hagg & Hk).
    unfold aggregate in Hagg. destruct (Event_aggregator inevent); [|done].
    apply ret_Ok in Hagg as [<- <-].
    apply bind_Ok in Hk as (r & s5 & Hint & [<- <-]%ret_Ok).
    apply (proj1 (preserves_integrate_rec outevent inevent fuel)) in Hint
      as Hframe.
    split; [congruence|].
    rewrite sum_keys_app. simpl. f_equal. unfold event_value. rewrite Hf.
    simpl.
    assert (functions (cycles_written inevent s) !! k = Some f) as Hfc.
    { unfold cycles_written. by destruct (cycles s). }
    destruct (erase_function_lookup _ _ _ _ _ He Hfc) as (f' & Hf' & Hef).
    destruct Hsane as [_ Hsane]. destruct (Hsane k f Hf) as (Hout & [w Hin] & _).
    assert (inevent ≠ outevent) as Hne by congruence.
    rewrite <- (erase_function_events _ _ _ _ Hef Hne).
    assert (f' = f3) as -> by congruence. by rewrite Hv.
Qed.

Lemma omap_fmap_events {A} (g : A → A) (h : A → option Q) (l : list A) :
  (∀ x, h (g x) = h x) → omap h (g <$> l) = omap h l.
Proof.
  intros Hg. induction l as [|x l IH]; [done|].
  csimpl. by rewrite Hg, IH.
Qed.

(** The sum of an event other than [e] does not see what [erase e]
    removes. *)
Lemma event_total_erase e x s s' :
  x ≠ e →
  erase_function e <$> functions s' = erase_function e <$> functions s →
  event_total x s' = event_total x s.
Proof.
  intros Hx He.
  assert (∀ s0, event_total x s0 =
    foldl Qplus (null x)
      (omap (λ f, function_events f !! x)
         (map_to_list (erase_function e <$> functions s0)).*2)) as Hs.
  { intros s0. unfold event_total. f_equal.
    rewrite map_to_list_fmap, <- list_fmap_compose.
    change (snd ∘ prod_map Datatypes.id (erase_function e))
      with (erase_function e ∘ (snd : nat * Function → Function)).
    rewrite list_fmap_compose. symmetry. apply omap_fmap_events.
    intros f. simpl. by rewrite lookup_delete_ne. }
  by rewrite (Hs s'), (Hs s), He.
Qed.

(** C1: when [integrate] returns, the output event of the profile is the
    sum of the input event over all functions, which [integrate] has not
    changed. *)
Theorem integrate_total (fuel : nat) (outevent inevent : Event)
    (s s' : Profile) :
  integrate fuel outevent inevent s = Ok tt s' →
  events s' !! outevent = Some (event_total inevent s) ∧
  event_total inevent s' = event_total inevent s.
Proof.
  intros ([_ Hsane] & s2 & He & ->)%integrate_Ok. simpl.
  split; [apply lookup_insert_eq|].
  assert (erase_function outevent <$> functions s2 =
          erase_function outevent <$> functions s) as He'.
  { apply (f_equal functions) in He. simpl in He. rewrite He.
    unfold cycles_written. by destruct (cycles s). }
  change (event_total inevent (set_events ?ev s2))
    with (event_total inevent s2).
  destruct (decide (inevent = outevent)) as [->|Hne];
    [|by apply (event_total_erase outevent)].
  (* the two events are the same: the profile has no function *)
  assert (functions s = ∅) as Hempty.
  { apply map_empty. intros k. destruct (functions s !! k) as [f|] eqn:Hf;
      [|done].
    destruct (Hsane k f Hf) as (Hout & [v Hin] & _). congruence. }
  rewrite Hempty, fmap_empty in He'. apply fmap_empty_inv in He'.
  unfold event_total. by rewrite He', Hempty.
Qed.

Lemma integrate_total_witness :
  integrate 10 TOTAL_TIME TIME with_ratios = Ok tt integrated ∧
  events integrated !! TOTAL_TIME = Some (event_total TIME with_ratios) ∧
  event_total TIME integrated = event_total TIME with_ratios.
Proof.
  assert (integrate 10 TOTAL_TIME TIME with_ratios = Ok tt integrated) as Hrun
    by (vm_compute; reflexivity).
  split; [exact Hrun|]. exact (integrate_total _ _ _ _ _ Hrun).
Defined.

(** C10: when [integrate] returns and the profile has cycles, the input
    event of the profile is the sum of the input event over all
    functions; every other event of the profile but the output event is
    as before, and so is the input event when there is no cycle; every
    event that a function or a call had is as before. *)
Theorem integrate_frame (fuel : nat) (outevent inevent : Event)
    (s s' : Profile) :
  integrate fuel outevent inevent s = Ok tt s' →
  (cycles s ≠ [] → events s' !! inevent = Some (event_total inevent s)) ∧
  (∀ e, e ≠ outevent → e ≠ inevent ∨ cycles s = [] →
        events s' !! e = events s !! e) ∧
  (∀ k f, functions s !! k = Some f →
     ∃ f', functions s' !! k = Some f' ∧
       (∀ e v, function_events f !! e = Some v →
               function_events f' !! e = Some v) ∧
       ∀ c call, calls f !! c = Some call →
         ∃ call', calls f' !! c = Some call' ∧
           ∀ e v, call_events call !! e = Some v →
                  call_events call' !! e = Some v).
Proof.
  intros ([_ Hsane] & s2 & He & ->)%integrate_Ok. simpl.
  pose proof (erase_events _ _ _ He) as Hev.
  split_and!.
  - intros Hcy. destruct (decide (inevent = outevent)) as [->|Hne];
      [apply lookup_insert_eq|].
    rewrite lookup_insert_ne, Hev by done. unfold cycles_written.
    destruct (cycles s); [done|]. apply lookup_insert_eq.
  - intros e Hout Hin. rewrite lookup_insert_ne, Hev by done.
    unfold cycles_written. destruct (cycles s) eqn:Hcy; [done|].
    destruct Hin as [Hin|?]; [|done]. simpl. by rewrite lookup_insert_ne.
  - intros k f Hf.
    assert (functions (cycles_written inevent s) !! k = Some f) as Hfc.
    { unfold cycles_written. by destruct (cycles s). }
    destruct (erase_function_lookup _ _ _ _ _ He Hfc) as (f' & Hf' & Hef).
    destruct (Hsane k f Hf) as (Hout & _ & Hcalls).
    exists f'. split_and!; [done| |].
    + intros e v Hv. rewrite (erase_function_events _ _ _ _ Hef); [done|].
      congruence.
    + intros c call Hc.
      destruct (erase_function_call _ _ _ _ _ Hef Hc) as (call' & Hc' & Hec).
      destruct (Hcalls c call Hc) as [Hcout _].
      exists call'. split; [done|].
      intros e v Hv. rewrite (erase_call_events _ _ _ _ Hec); [done|].
      congruence.
Qed.

Lemma integrate_frame_witness :
  integrate 10 TOTAL_TIME TIME with_ratios = Ok tt integrated ∧
  cycles with_ratios ≠ [] ∧
  events with_ratios !! TIME = None ∧
  events integrated !! TIME = Some (event_total TIME with_ratios) ∧
  (∀ e, e ≠ TOTAL_TIME → e ≠ TIME ∨ cycles with_ratios = [] →
        events integrated !! e = events with_ratios !! e) ∧
  (∀ k f, functions with_ratios !! k = Some f →
     ∃ f', functions integrated !! k = Some f' ∧
       (∀ e v, function_events f !! e = Some v →
               function_events f' !! e = Some v) ∧
       ∀ c call, calls f !! c = Some call →
         ∃ call', calls f' !! c = Some call' ∧
           ∀ e v, call_events call !! e = Some v →
                  call_events call' !! e = Some v).
Proof.
  assert (integrate 10 TOTAL_TIME TIME with_ratios = Ok tt integrated) as Hrun
    by (vm_compute; reflexivity).
  destruct (integrate_frame _ _ _ _ _ Hrun) as (Hin & Hev & Hfs).
  split; [exact Hrun|]. split; [discriminate|]. split; [reflexivity|].
  split; [apply Hin; discriminate|]. split; [exact Hev|exact Hfs].
Defined.

(** ** Two runs that differ in the calls of functions to themselves *)

Lemma keys_fmap {A B} (g : A → B) (m : gmap nat A) : keys (g <$> m) = keys m.
Proof.
  unfold keys. rewrite map_to_list_fmap, <- list_fmap_compose.
  apply list_fmap_ext. by intros ? [] ?.
Qed.

Section sim.
Context (blank : Call → Call) (K : Profile).
Hypothesis blank_callee_id : ∀ c, callee_id (blank c) = callee_id c.
Hypothesis K_functions_keyed : functions_keyed K.
Hypothesis K_calls_keyed : calls_keyed K.

Lemma mask_call_callee_id k c : callee_id (mask_call blank k c) = callee_id c.
Proof. unfold mask_call. by case_decide. Qed.

Lemma sim_ret {A} (a : A) : sim blank K (mret a : M A) (mret a).
Proof. intros s1 s2 b s1' HK Hm [<- <-]%ret_Ok. by exists s2. Qed.

Lemma sim_raise {A} e (m2 : M A) : sim blank K (raise e) m2.
Proof. by intros s1 s2 b s1' HK Hm H. Qed.

Lemma sim_bind {A B} (m1 m2 : M A) (k1 k2 : A → M B) :
  sim blank K m1 m2 → (∀ a, sim blank K (k1 a) (k2 a)) →
  sim blank K (m1 ≫= k1) (m2 ≫= k2).
Proof.
  intros Hm Hk s1 s2 b s1' HK Hmask (a & s3 & H1 & H2)%bind_Ok.
  destruct (Hm _ _ _ _ HK Hmask H1) as (s4 & H1' & HK' & Hmask').
  destruct (Hk a _ _ _ _ HK' Hmask' H2) as (s2' & H2' & ? & ?).
  exists s2'. split; [|done]. by rewrite (bind_run_Ok _ _ _ _ _ H1').
Qed.

Lemma sim_for {A} (l : list A) (b1 b2 : A → M unit) :
  (∀ x, x ∈ l → sim blank K (b1 x) (b2 x)) →
  sim blank K (for_ l b1) (for_ l b2).
Proof.
  induction l as [|x l IH]; intros Hb; simpl; [apply sim_ret|].
  apply sim_bind; [apply Hb; left|]. intros _. apply IH.
  intros y Hy. apply Hb. by right.
Qed.

Lemma sim_for_acc {A B} (l : list A) (acc : B) (b1 b2 : B → A → M B) :
  (∀ acc x, x ∈ l → sim blank K (b1 acc x) (b2 acc x)) →
  sim blank K (for_acc l acc b1) (for_acc l acc b2).
Proof.
  revert acc. induction l as [|x l IH]; intros acc Hb; simpl;
    [apply sim_ret|].
  apply sim_bind; [apply Hb; left|]. intros acc'. apply IH.
  intros acc0 y Hy. apply Hb. by right.
Qed.

(** A computation that neither reads nor writes the state. *)
Lemma sim_pure {A} (m : M A) :
  (∀ s a s', m s = Ok a s' → s' = s ∧ ∀ s2, m s2 = Ok a s2) →
  sim blank K m m.
Proof.
  intros Hm s1 s2 a s1' HK Hmask H. destruct (Hm _ _ _ H) as [-> H2].
  by exists s2.
Qed.

Lemma sim_assert b : sim blank K (assert b) (assert b).
Proof. destruct b; [apply sim_ret|apply sim_raise]. Qed.

Lemma sim_dict_getitem {A} (d : gmap nat A) k :
  sim blank K (dict_getitem d k) (dict_getitem d k).
Proof.
  unfold dict_getitem. destruct (d !! k); [apply sim_ret|apply sim_raise].
Qed.

Lemma sim_getitem e ev : sim blank K (getitem e ev) (getitem e ev).
Proof.
  unfold getitem. destruct (ev !! e); [apply sim_ret|apply sim_raise].
Qed.

Lemma sim_number o : sim blank K (number o) (number o).
Proof. destruct o; [apply sim_ret|apply sim_raise]. Qed.

Lemma sim_aggregate e a b : sim blank K (aggregate e a b) (aggregate e a b).
Proof.
  unfold aggregate. destruct (Event_aggregator e);
    [apply sim_ret|apply sim_raise].
Qed.

Lemma mask_functions s1 s2 :
  mask blank s1 = mask blank s2 →
  mask_function blank <$> functions s1 = mask_function blank <$> functions s2.
Proof. intros H. by apply (f_equal functions) in H. Qed.

Lemma mask_set_functions s1 s2 fs1 fs2 :
  mask blank s1 = mask blank s2 →
  mask_function blank <$> fs1 = mask_function blank <$> fs2 →
  mask blank (set_functions fs1 s1) = mask blank (set_functions fs2 s2).
Proof.
  intros H Hfs. unfold mask, set_functions in *. simpl in *.
  rewrite Hfs. by injection H as -> _ -> -> ->.
Qed.

Lemma sim_get {A} (k1 k2 : Profile → M A) :
  (∀ s1 s2, skel s1 = K → mask blank s1 = mask blank s2 →
            sim blank K (k1 s1) (k2 s2)) →
  sim blank K (get ≫= k1) (get ≫= k2).
Proof.
  intros Hk s1 s2 b s1' HK Hmask (a & s3 & [-> ->]%get_Ok & H2)%bind_Ok.
  destruct (Hk _ _ HK Hmask _ _ _ _ HK Hmask H2) as (s2' & ? & ? & ?).
  exists s2'. split; [|done]. by rewrite (bind_run_Ok _ _ s2 s2 s2).
Qed.

Lemma skel_function_lookup s k f :
  skel s = K → functions s !! k = Some f →
  functions K !! k = Some (skel_function f).
Proof. intros <- Hf. simpl. by rewrite lookup_fmap, Hf. Qed.

Lemma mask_function_lookup s1 s2 k f1 :
  mask blank s1 = mask blank s2 → functions s1 !! k = Some f1 →
  ∃ f2, functions s2 !! k = Some f2 ∧
        mask_function blank f1 = mask_function blank f2.
Proof.
  intros Hm%mask_functions Hf.
  assert (mask_function blank <$> functions s1 !! k =
          mask_function blank <$> functions s2 !! k) as Hk
    by (by rewrite <- !lookup_fmap, Hm).
  rewrite Hf in Hk. destruct (functions s2 !! k) as [f2|]; [|done].
  exists f2. split; [done|]. simpl in Hk. congruence.
Qed.

Lemma sim_the_function {A} k (k1 k2 : Function → M A) :
  (∀ f1 f2, related_functions blank K k f1 f2 → sim blank K (k1 f1) (k2 f2)) →
  sim blank K (the_function k ≫= k1) (the_function k ≫= k2).
Proof.
  intros Hk s1 s2 b s1' HK Hmask
    (f1 & s3 & [Hf1 ->]%the_function_Ok & H2)%bind_Ok.
  destruct (mask_function_lookup _ _ _ _ Hmask Hf1) as (f2 & Hf2 & Hff).
  assert (related_functions blank K k f1 f2) as Hrel
    by (split; [by eapply skel_function_lookup|done]).
  destruct (Hk _ _ Hrel _ _ _ _ HK Hmask H2) as (s2' & ? & ? & ?).
  exists s2'. split; [|done].
  rewrite (bind_run_Ok _ _ s2 f2 s2); [done|by apply the_function_Ok].
Qed.

Lemma related_functions_id k f1 f2 :
  related_functions blank K k f1 f2 → id f1 = k ∧ id f2 = k.
Proof.
  intros [HK Hm]. pose proof (K_functions_keyed _ _ HK) as Hid. simpl in Hid.
  split; [done|]. apply (f_equal id) in Hm. simpl in Hm. congruence.
Qed.

Lemma related_functions_fields k f1 f2 :
  related_functions blank K k f1 f2 →
  cycle f2 = cycle f1 ∧ name f2 = name f1 ∧
  function_events f2 = function_events f1 ∧
  keys (calls f2) = keys (calls f1).
Proof.
  intros [HK Hm]. split_and!.
  - by apply (f_equal cycle) in Hm.
  - by apply (f_equal name) in Hm.
  - by apply (f_equal function_events) in Hm.
  - apply (f_equal calls) in Hm. simpl in Hm.
    by rewrite <- (keys_fmap (mask_call blank (id f2))), <- Hm, keys_fmap.
Qed.

Lemma sim_the_call {A} k c (k1 k2 : Call → M A) :
  (∀ c1 c2, related_calls blank K k c c1 c2 → sim blank K (k1 c1) (k2 c2)) →
  sim blank K (the_call k c ≫= k1) (the_call k c ≫= k2).
Proof.
  intros Hk s1 s2 b s1' HK Hmask
    (c1 & s3 & [(f1 & Hf1 & Hc1) ->]%the_call_Ok & H2)%bind_Ok.
  destruct (mask_function_lookup _ _ _ _ Hmask Hf1) as (f2 & Hf2 & Hff).
  assert (related_functions blank K k f1 f2) as Hrel
    by (split; [by eapply skel_function_lookup|done]).
  destruct (related_functions_id _ _ _ Hrel) as [Hid1 Hid2].
  assert (mask_call blank k <$> calls f1 !! c =
          mask_call blank k <$> calls f2 !! c) as Hcc.
  { apply (f_equal calls) in Hff. simpl in Hff. rewrite Hid1, Hid2 in Hff.
    by rewrite <- !lookup_fmap, Hff. }
  rewrite Hc1 in Hcc. destruct (calls f2 !! c) as [c2|] eqn:Hc2; [|done].
  simpl in Hcc. injection Hcc as Hcc.
  assert (related_calls blank K k c c1 c2) as Hrc.
  { split; [|done]. exists (skel_function f1).
    split; [by eapply skel_function_lookup|]. simpl.
    by rewrite lookup_fmap, Hc1. }
  destruct (Hk _ _ Hrc _ _ _ _ HK Hmask H2) as (s2' & ? & ? & ?).
  exists s2'. split; [|done].
  rewrite (bind_run_Ok _ _ s2 c2 s2); [done|]. apply the_call_Ok. eauto.
Qed.

Lemma related_calls_callee_id k c c1 c2 :
  related_calls blank K k c c1 c2 → callee_id c1 = c ∧ callee_id c2 = c.
Proof.
  intros [(f & Hf & Hc) Hm]. pose proof (K_calls_keyed _ _ _ _ Hf Hc) as Hid.
  simpl in Hid. split; [done|].
  apply (f_equal callee_id) in Hm. rewrite !mask_call_callee_id in Hm.
  congruence.
Qed.

Lemma related_calls_eq k c c1 c2 :
  related_calls blank K k c c1 c2 → c ≠ k → c2 = c1.
Proof.
  intros Hrel Hne. destruct (related_calls_callee_id _ _ _ _ Hrel) as [H1 H2].
  destruct Hrel as [_ Hm]. unfold mask_call in Hm.
  rewrite H1, H2 in Hm. by rewrite !decide_False in Hm.
Qed.

Lemma related_calls_blank k c1 c2 :
  related_calls blank K k k c1 c2 → blank c2 = blank c1.
Proof.
  intros Hrel. destruct (related_calls_callee_id _ _ _ _ Hrel) as [H1 H2].
  destruct Hrel as [_ Hm]. unfold mask_call in Hm.
  rewrite H1, H2 in Hm. by rewrite !decide_True in Hm.
Qed.

Lemma sim_the_cycle {A} cy (k1 k2 : Cycle → M A) :
  (∀ c, cycle_store K !! cy = Some (skel_cycle c) →
        sim blank K (k1 c) (k2 c)) →
  sim blank K (the_cycle cy ≫= k1) (the_cycle cy ≫= k2).
Proof.
  intros Hk s1 s2 b s1' HK Hmask
    (c & s3 & [Hc ->]%the_cycle_Ok & H2)%bind_Ok.
  assert (cycle_store K !! cy = Some (skel_cycle c)) as HKc.
  { rewrite <- HK. simpl. by rewrite lookup_fmap, Hc. }
  destruct (Hk _ HKc _ _ _ _ HK Hmask H2) as (s2' & ? & ? & ?).
  exists s2'. split; [|done].
  rewrite (bind_run_Ok _ _ s2 c s2); [done|]. apply the_cycle_Ok.
  split; [|done]. apply (f_equal cycle_store) in Hmask. simpl in Hmask.
  congruence.
Qed.

(** [functions_getitem k] returns [k] when it returns. *)
Lemma sim_functions_getitem {A} k (k1 k2 : nat → M A) :
  sim blank K (k1 k) (k2 k) →
  sim blank K (functions_getitem k ≫= k1) (functions_getitem k ≫= k2).
Proof.
  intros Hk s1 s2 a s1' HK Hmask
    (r & s3 & ([f1 Hf1] & -> & ->)%functions_getitem_Ok & H2)%bind_Ok.
  destruct (mask_function_lookup _ _ _ _ Hmask Hf1) as (f2 & Hf2 & _).
  destruct (Hk _ _ _ _ HK Hmask H2) as (s2' & ? & ? & ?).
  exists s2'. split; [|done].
  rewrite (bind_run_Ok _ _ s2 k s2); [done|].
  apply functions_getitem_Ok. eauto.
Qed.

Lemma mask_fields s1 s2 :
  mask blank s1 = mask blank s2 →
  keys (functions s2) = keys (functions s1) ∧ cycles s2 = cycles s1 ∧
  events s2 = events s1.
Proof.
  intros Hm. split_and!.
  - apply mask_functions in Hm.
    by rewrite <- (keys_fmap (mask_function blank)), <- Hm, keys_fmap.
  - by apply (f_equal cycles) in Hm.
  - by apply (f_equal events) in Hm.
Qed.

(** Two reads of the function stored under one key agree on what no pass
    changes. *)
Lemma related_functions_cycle k f1 f2 g1 g2 :
  related_functions blank K k f1 f2 → related_functions blank K k g1 g2 →
  cycle g1 = cycle f1.
Proof.
  intros [Hf _] [Hg _].
  assert (skel_function g1 = skel_function f1) as H by congruence.
  by apply (f_equal cycle) in H.
Qed.

Lemma sim_write_stderr w : sim blank K (write_stderr w) (write_stderr w).
Proof.
  intros s1 s2 a s1' HK Hmask ->%write_stderr_Ok.
  exists (set_stderr (stderr s2 ++ [w]) s2). split; [by destruct a|].
  split; [done|]. unfold mask, set_functions, set_stderr in *. simpl in *.
  by injection Hmask as -> -> -> -> ->.
Qed.

Lemma sim_ratio n d : sim blank K (ratio n d) (ratio n d).
Proof.
  unfold ratio. destruct (Qeq_bool d 0); [apply sim_ret|]. cbv zeta.
  destruct (Qltb (n / d) 0).
  { apply sim_bind; [|intros; apply sim_ret].
    destruct (Qltb (n / d) (- tol)); [apply sim_write_stderr|apply sim_ret]. }
  destruct (Qltb 1 (n / d)); [|apply sim_ret].
  apply sim_bind; [|intros; apply sim_ret].
  destruct (Qltb (1 + tol) (n / d)); [apply sim_write_stderr|apply sim_ret].
Qed.

Lemma skel_set_functions s fs :
  skel_function <$> fs = skel_function <$> functions s →
  skel (set_functions fs s) = skel s.
Proof. intros H. unfold skel. simpl. by rewrite H. Qed.

Lemma sim_update_function k g :
  (∀ f, skel_function (g f) = skel_function f) →
  (∀ f1 f2, mask_function blank f1 = mask_function blank f2 →
            mask_function blank (g f1) = mask_function blank (g f2)) →
  sim blank K (update_function k g) (update_function k g).
Proof.
  intros Hskel Hg s1 s2 a s1' HK Hmask (f1 & Hf1 & ->)%update_function_Ok.
  destruct (mask_function_lookup _ _ _ _ Hmask Hf1) as (f2 & Hf2 & Hff).
  exists (set_functions (<[k := g f2]> (functions s2)) s2). split_and!.
  - apply update_function_Ok. eauto.
  - rewrite skel_set_functions; [done|].
    rewrite fmap_insert, Hskel. apply insert_id. by rewrite lookup_fmap, Hf1.
  - apply mask_set_functions; [done|].
    rewrite !fmap_insert, (Hg _ _ Hff). f_equal. by apply mask_functions.
Qed.

Lemma sim_update_call k c g :
  c ≠ k → (∀ call, skel_call (g call) = skel_call call) →
  sim blank K (update_call k c g) (update_call k c g).
Proof.
  intros Hne Hskel s1 s2 a s1' HK Hmask
    (f1 & c1 & Hf1 & Hc1 & ->)%update_call_Ok.
  destruct (mask_function_lookup _ _ _ _ Hmask Hf1) as (f2 & Hf2 & Hff).
  assert (related_functions blank K k f1 f2) as Hrel
    by (split; [by eapply skel_function_lookup|done]).
  destruct (related_functions_id _ _ _ Hrel) as [Hid1 Hid2].
  assert (mask_call blank k <$> calls f1 = mask_call blank k <$> calls f2)
    as Hcalls.
  { apply (f_equal calls) in Hff. simpl in Hff. by rewrite Hid1, Hid2 in Hff. }
  assert (callee_id c1 = c) as Hc1id.
  { apply (K_calls_keyed k (skel_function f1) c (skel_call c1));
      [by eapply skel_function_lookup|]. simpl. by rewrite lookup_fmap, Hc1. }
  assert (calls f2 !! c = Some c1) as Hc2.
  { assert (mask_call blank k <$> calls f1 !! c =
            mask_call blank k <$> calls f2 !! c) as Hcc
      by (by rewrite <- !lookup_fmap, Hcalls).
    rewrite Hc1 in Hcc. destruct (calls f2 !! c) as [c2|]; [|done].
    simpl in Hcc. injection Hcc as Hcc.
    pose proof (f_equal callee_id Hcc) as Hid'.
    rewrite !mask_call_callee_id in Hid'. unfold mask_call in Hcc.
    rewrite !decide_False in Hcc by congruence. congruence. }
  exists (set_functions
            (<[k := set_calls (<[c := g c1]> (calls f2)) f2]> (functions s2)) s2).
  split_and!.
  - apply update_call_Ok. eauto 10.
  - rewrite skel_set_functions; [done|].
    rewrite fmap_insert. apply insert_id. rewrite lookup_fmap, Hf1. simpl.
    f_equal. unfold skel_function. simpl. f_equal.
    rewrite fmap_insert, Hskel. symmetry. apply insert_id.
    by rewrite lookup_fmap, Hc1.
  - apply mask_set_functions; [done|].
    rewrite !fmap_insert. f_equal; [|by apply mask_functions].
    unfold mask_function in *. simpl. rewrite Hid1, Hid2 in *.
    rewrite !fmap_insert, Hcalls.
    by destruct f1, f2; simpl in *; simplify_eq.
Qed.

Lemma sim_update_cycle cy g :
  (∀ c, skel_cycle (g c) = skel_cycle c) →
  sim blank K (update_cycle cy g) (update_cycle cy g).
Proof.
  intros Hskel s1 s2 a s1' HK Hmask (c & Hc & ->)%update_cycle_Ok.
  assert (cycle_store s2 = cycle_store s1) as Hcs
    by (by apply (f_equal cycle_store) in Hmask).
  exists (set_cycle_store (<[cy := g c]> (cycle_store s2)) s2). split_and!.
  - apply update_cycle_Ok. exists c. by rewrite Hcs.
  - rewrite <- HK. unfold skel. simpl. f_equal.
    rewrite fmap_insert, Hskel. apply insert_id. by rewrite lookup_fmap, Hc.
  - unfold mask, set_functions, set_cycle_store in *. simpl in *.
    rewrite Hcs. by injection Hmask as -> -> -> _ ->.
Qed.

Lemma sim_profile_setitem e v :
  sim blank K (profile_setitem e v) (profile_setitem e v).
Proof.
  intros s1 s2 a s1' HK Hmask [= <- <-].
  exists (set_events (setitem e (Some v) (events s2)) s2). split_and!; [done..|].
  unfold mask, set_functions, set_events in *. simpl in *.
  by injection Hmask as -> -> -> -> ->.
Qed.

Lemma sim_function_getitem k e :
  sim blank K (function_getitem k e) (function_getitem k e).
Proof.
  apply sim_the_function. intros f1 f2 Hf.
  destruct (related_functions_fields _ _ _ Hf) as (_ & _ & -> & _).
  apply sim_getitem.
Qed.

Lemma sim_cycle_getitem cy e :
  sim blank K (cycle_getitem cy e) (cycle_getitem cy e).
Proof. apply sim_the_cycle. intros c _. apply sim_getitem. Qed.


Lemma sim_call_getitem k c e :
  c ≠ k → sim blank K (call_getitem k c e) (call_getitem k c e).
Proof.
  intros Hne. apply sim_the_call. intros c1 c2 Hc.
  rewrite (related_calls_eq _ _ _ _ Hc Hne). apply sim_getitem.
Qed.

Lemma mask_function_set_events ev1 ev2 f1 f2 :
  mask_function blank f1 = mask_function blank f2 → ev1 = ev2 →
  mask_function blank (set_function_events ev1 f1) =
  mask_function blank (set_function_events ev2 f2).
Proof.
  intros Hm ->. destruct f1, f2.
  unfold mask_function, set_function_events, set_calls in *.
  simpl in *. injection Hm as ? ? ? ? Hc ? ? ? ? ?. subst. by rewrite Hc.
Qed.

Lemma sim_function_setitem k e v :
  sim blank K (function_setitem k e v) (function_setitem k e v).
Proof.
  apply sim_update_function; [done|]. intros f1 f2 Hm.
  apply mask_function_set_events; [done|].
  apply (f_equal function_events) in Hm. simpl in Hm. by rewrite Hm.
Qed.

Lemma sim_function_iadd k e v :
  sim blank K
    (update_function k
       (λ f, set_function_events (iadd e v (function_events f)) f))
    (update_function k
       (λ f, set_function_events (iadd e v (function_events f)) f)).
Proof.
  apply sim_update_function; [done|]. intros f1 f2 Hm.
  apply mask_function_set_events; [done|].
  apply (f_equal function_events) in Hm. simpl in Hm. by rewrite Hm.
Qed.

Lemma sim_call_setitem k c e v :
  c ≠ k → sim blank K (call_setitem k c e v) (call_setitem k c e v).
Proof. intros Hne. by apply sim_update_call. Qed.

Lemma sim_call_iadd k c e v :
  c ≠ k →
  sim blank K
    (update_call k c (λ c, set_call_events (iadd e v (call_events c)) c))
    (update_call k c (λ c, set_call_events (iadd e v (call_events c)) c)).
Proof. intros Hne. by apply sim_update_call. Qed.

Lemma sim_set_call_ratio k c r :
  c ≠ k →
  sim blank K (update_call k c (set_call_ratio r))
              (update_call k c (set_call_ratio r)).
Proof. intros Hne. by apply sim_update_call. Qed.

Lemma sim_cycle_setitem cy e v :
  sim blank K (cycle_setitem cy e v) (cycle_setitem cy e v).
Proof. by apply sim_update_cycle. Qed.

Create HintDb sim.

#[local] Hint Resolve sim_ret sim_raise sim_assert sim_dict_getitem
  sim_getitem sim_number sim_aggregate sim_write_stderr sim_ratio
  sim_function_getitem sim_cycle_getitem sim_call_getitem
  sim_function_setitem sim_function_iadd sim_call_setitem sim_call_iadd
  sim_set_call_ratio sim_cycle_setitem sim_profile_setitem : sim.

(** The calls read in the two runs are the same call once it is known
    not to be a call of the function to itself. *)
Ltac sim_same_calls :=
  repeat match goal with
  | H : related_calls _ _ ?k ?c ?c1 ?c2, Hne : ?c ≠ ?k |- _ =>
      pose proof (related_calls_eq _ _ _ _ H Hne); subst c2; clear H
  end.

Ltac sim_intro_function :=
  let f1 := fresh "f" in
  let f2 := fresh "f" in
  let H := fresh "Hf" in
  intros f1 f2 H;
  let Hid1 := fresh "Hid" in
  let Hid2 := fresh "Hid" in
  let Hc := fresh "Hcycle" in
  let Hn := fresh "Hname" in
  let He := fresh "Hev" in
  let Hk := fresh "Hkeys" in
  destruct (related_functions_id _ _ _ H) as [Hid1 Hid2];
  destruct (related_functions_fields _ _ _ H) as (Hc & Hn & He & Hk);
  rewrite ?Hid1, ?Hid2, ?Hc, ?Hn, ?He, ?Hk;
  clear Hid2 Hc Hn He Hk.

Ltac sim_intro_call :=
  let c1 := fresh "call" in
  let c2 := fresh "call" in
  let H := fresh "Hcall" in
  intros c1 c2 H;
  let H1 := fresh "Hcid" in
  let H2 := fresh "Hcid" in
  destruct (related_calls_callee_id _ _ _ _ H) as [H1 H2];
  rewrite ?H1, ?H2; clear H2; sim_same_calls.

Ltac sim_intro_state :=
  let s1 := fresh "s" in
  let s2 := fresh "s" in
  let HK := fresh "HK" in
  let Hm := fresh "Hmask" in
  intros s1 s2 HK Hm;
  let H1 := fresh in
  let H2 := fresh in
  let H3 := fresh in
  destruct (mask_fields _ _ Hm) as (H1 & H2 & H3);
  rewrite ?H1, ?H2, ?H3; clear H1 H2 H3.

Ltac sim_step :=
  match goal with
  | |- sim _ _ ?m ?m => solve [auto with sim]
  | |- sim _ _ (get ≫= _) (get ≫= _) => apply sim_get; sim_intro_state
  | |- sim _ _ (the_function ?k ≫= _) (the_function ?k ≫= _) =>
      apply sim_the_function; sim_intro_function
  | |- sim _ _ (the_call ?k ?c ≫= _) (the_call ?k ?c ≫= _) =>
      apply sim_the_call; sim_intro_call
  | |- sim _ _ (the_cycle ?c ≫= _) (the_cycle ?c ≫= _) =>
      apply sim_the_cycle; intros ? ?
  | |- sim _ _ (functions_getitem ?k ≫= _) (functions_getitem ?k ≫= _) =>
      apply sim_functions_getitem
  | |- sim _ _ (_ ≫= _) (_ ≫= _) => apply sim_bind; [|intros ?]
  | |- sim _ _ (for_ ?l _) (for_ ?l _) => apply sim_for; intros ? ?
  | |- sim _ _ (for_acc ?l ?a _) (for_acc ?l ?a _) =>
      apply sim_for_acc; intros ? ? ?
  | |- sim _ _ (if bool_decide ?P then _ else _)
               (if bool_decide ?P then _ else _) =>
      case_bool_decide; sim_same_calls
  | |- sim _ _ (if ?b then _ else _) (if ?b then _ else _) => destruct b eqn:?
  | |- sim _ _ (match ?x with _ => _ end) (match ?x with _ => _ end) =>
      destruct x eqn:?
  | |- sim _ _ ((match ?x with _ => _ end) _) ((match ?x with _ => _ end) _) =>
      destruct x; cbv beta
  end.

Ltac sim_tac := repeat sim_step.

Lemma sim_decrease_key Q old new :
  sim blank K (decrease_key Q old new) (decrease_key Q old new).
Proof. unfold decrease_key. sim_tac. Qed.

Lemma sim_callees_add callees callee r :
  sim blank K (callees_add callees callee r) (callees_add callees callee r).
Proof. unfold callees_add. sim_tac. Qed.

Lemma sim_check_partials partial partials call_ratio total :
  sim blank K (check_partials partial partials call_ratio total)
              (check_partials partial partials call_ratio total).
Proof. unfold check_partials. sim_tac. Qed.

Lemma sim_rank_loop fuel : ∀ cy visited st,
  sim blank K (rank_loop fuel cy visited st) (rank_loop fuel cy visited st).
Proof.
  induction fuel as [|fuel IH]; intros cy visited st; simpl;
    [apply sim_raise|].
  sim_tac; try apply IH; try apply sim_decrease_key.
Qed.

Lemma sim_rank_cycle_function fuel cy function ranks :
  sim blank K (_rank_cycle_function fuel cy function ranks)
              (_rank_cycle_function fuel cy function ranks).
Proof. unfold _rank_cycle_function. sim_tac. apply sim_rank_loop. Qed.

Lemma sim_call_ratios_cycle fuel : ∀ cy function ranks st,
  sim blank K (_call_ratios_cycle fuel cy function ranks st)
              (_call_ratios_cycle fuel cy function ranks st).
Proof.
  induction fuel as [|fuel IH]; intros cy function ranks st; simpl;
    [apply sim_raise|].
  sim_tac; try apply IH.
Qed.

Lemma sim_integrate_cycle_function fuel :
  ∀ cy function partial_ratio partials ranks call_ratios outevent inevent,
  sim blank K
    (_integrate_cycle_function fuel cy function partial_ratio partials ranks
       call_ratios outevent inevent)
    (_integrate_cycle_function fuel cy function partial_ratio partials ranks
       call_ratios outevent inevent).
Proof.
  induction fuel as [|fuel IH]; intros; simpl; [apply sim_raise|].
  sim_tac; try apply IH.
Qed.

Hypothesis K_cycles_consistent : cycles_consistent K.

Lemma sim_cycle_callees cy :
  sim blank K (cycle_callees cy) (cycle_callees cy).
Proof.
  unfold cycle_callees. sim_tac.
  (* the caller is outside the cycle and the callee inside: the call is
     not a call of the function to itself *)
  match goal with
  | Hcall : related_calls _ _ ?x ?x0 _ _,
    Hf : related_functions _ _ ?x ?f _,
    Hf0 : related_functions _ _ ?x0 ?f1 _ |- _ =>
      assert (x0 ≠ x) as Hne
        by (intros ->; pose proof (related_functions_cycle _ _ _ _ _ Hf Hf0);
            congruence)
  end.
  sim_same_calls. apply sim_callees_add.
Qed.

(** A member of a cycle that a function refers to is in that cycle. *)
Lemma member_cycle cy c x f1 f2 :
  (∃ k f, functions K !! k = Some f ∧ cycle f = Some cy) →
  cycle_store K !! cy = Some (skel_cycle c) →
  x ∈ elements (cycle_functions c) →
  related_functions blank K x f1 f2 →
  cycle f1 = Some cy.
Proof.
  intros (k & f & Hf & Hcy) Hc Hx%elem_of_elements [Hf1 _].
  apply (K_cycles_consistent k f cy (skel_cycle c) x (skel_function f1));
    done.
Qed.

Lemma sim_integrate_rec outevent inevent fuel :
  (∀ function,
     sim blank K (_integrate_function fuel function outevent inevent)
                 (_integrate_function fuel function outevent inevent)) ∧
  (∀ function c, c ≠ function →
     sim blank K (_integrate_call fuel function c outevent inevent)
                 (_integrate_call fuel function c outevent inevent)) ∧
  (∀ cy, (∃ k f, functions K !! k = Some f ∧ cycle f = Some cy) →
     sim blank K (_integrate_cycle fuel cy outevent inevent)
                 (_integrate_cycle fuel cy outevent inevent)).
Proof.
  induction fuel as [|fuel (IHf & IHc & IHy)]; simpl.
  - split_and!; intros; apply sim_raise.
  - split_and!.
    + intros function. sim_tac.
      apply IHy. destruct Hf as [Hf _]. eauto.
    + intros function c Hne. sim_tac.
    + intros cy Href. sim_tac;
        auto using sim_cycle_callees, sim_rank_cycle_function,
          sim_call_ratios_cycle, sim_integrate_cycle_function,
          sim_check_partials.
      (* a call that leaves the cycle is not a call of a member to itself *)
      apply IHc. intros ->.
      match goal with
      | Hx : _ ∈ elements (cycle_functions ?c),
        Hf0 : related_functions _ _ _ ?f1 _, Hn : cycle ?f1 ≠ Some _ |- _ =>
          apply Hn; by eapply (member_cycle cy c)
      end.
Qed.

Lemma sim_integrate_sanity outevent inevent :
  (∀ c1 c2, blank c2 = blank c1 →
            call_events c2 !! outevent = call_events c1 !! outevent) →
  sim blank K (integrate_sanity outevent inevent)
              (integrate_sanity outevent inevent).
Proof.
  intros Hout. unfold integrate_sanity. sim_tac.
  (* the check reads the output event of a call that may be a call of the
     function to itself *)
  match goal with
  | Hcall : related_calls _ _ ?x ?x0 _ _ |- _ =>
      destruct (decide (x0 = x)) as [->|Hne];
        [rewrite (Hout _ _ (related_calls_blank _ _ _ Hcall))
        |rewrite (related_calls_eq _ _ _ _ Hcall Hne)]
  end; apply sim_assert.
Qed.

Lemma sim_integrate fuel outevent inevent :
  (∀ c1 c2, blank c2 = blank c1 →
            call_events c2 !! outevent = call_events c1 !! outevent) →
  sim blank K (integrate fuel outevent inevent)
              (integrate fuel outevent inevent).
Proof.
  intros Hout. unfold integrate. sim_tac.
  - by apply sim_integrate_sanity.
  - apply sim_integrate_rec.
Qed.

Lemma sim_call_ratios_pass1 event totals :
  sim blank K (call_ratios_pass1 event totals)
              (call_ratios_pass1 event totals).
Proof. unfold call_ratios_pass1, entered_cycle. sim_tac. Qed.

Lemma sim_call_ratios_pass2 event function_totals cycle_totals :
  (∀ c1 c2, blank c2 = blank c1 → call_ratio c2 = call_ratio c1) →
  sim blank K (call_ratios_pass2 event function_totals cycle_totals)
              (call_ratios_pass2 event function_totals cycle_totals).
Proof.
  intros Hratio. unfold call_ratios_pass2, entered_cycle. sim_tac.
  (* the check reads the ratio of a call that may be a call of the
     function to itself *)
  match goal with
  | Hcall : related_calls _ _ ?x ?x0 _ _ |- _ =>
      destruct (decide (x0 = x)) as [->|Hne];
        [rewrite (Hratio _ _ (related_calls_blank _ _ _ Hcall))
        |rewrite (related_calls_eq _ _ _ _ Hcall Hne)]
  end; apply sim_assert.
Qed.

Lemma sim_call_ratios event :
  (∀ c1 c2, blank c2 = blank c1 → call_ratio c2 = call_ratio c1) →
  sim blank K (call_ratios event) (call_ratios event).
Proof.
  intros Hratio. unfold call_ratios. sim_tac.
  - apply sim_call_ratios_pass1.
  - by apply sim_call_ratios_pass2.
Qed.
End sim.

(** ** Calls of a function to itself take no part in the ratios and in
    the integration *)

Lemma skel_functions_keyed s : functions_keyed s → functions_keyed (skel s).
Proof.
  intros H k f. simpl. rewrite lookup_fmap.
  destruct (functions s !! k) as [f0|] eqn:Hf; [|done].
  intros [= <-]. simpl. eauto.
Qed.

Lemma skel_calls_keyed s : calls_keyed s → calls_keyed (skel s).
Proof.
  intros H k f c call. simpl. rewrite lookup_fmap.
  destruct (functions s !! k) as [f0|] eqn:Hf; [|done].
  intros [= <-]. simpl. rewrite lookup_fmap.
  destruct (calls f0 !! c) as [call0|] eqn:Hc; [|done].
  intros [= <-]. simpl. eauto.
Qed.

Lemma skel_cycles_consistent s :
  cycles_consistent s → cycles_consistent (skel s).
Proof.
  intros H k f cy c m fm. simpl. rewrite !lookup_fmap.
  destruct (functions s !! k) as [f0|] eqn:Hf; [|done].
  intros [= <-]. simpl. intros Hcy.
  destruct (cycle_store s !! cy) as [c0|] eqn:Hc; [|done].
  intros [= <-]. simpl. intros Hm.
  destruct (functions s !! m) as [fm0|] eqn:Hfm; [|done].
  intros [= <-]. simpl. eauto.
Qed.

Lemma blank_ratio_out outevent c1 c2 :
  blank_ratio outevent c2 = blank_ratio outevent c1 →
  call_events c2 !! outevent = call_events c1 !! outevent.
Proof.
  intros H. apply (f_equal call_events) in H. simpl in H.
  apply (f_equal (λ m : gmap Event Q, m !! outevent)) in H. simpl in H.
  rewrite !map_lookup_filter in H.
  by destruct (call_events c2 !! outevent), (call_events c1 !! outevent);
    simpl in H; rewrite ?option_guard_True in H by done.
Qed.

Lemma blank_weights_ratio c1 c2 :
  blank_weights c2 = blank_weights c1 → call_ratio c2 = call_ratio c1.
Proof. intros H. by apply (f_equal call_ratio) in H. Qed.

Lemma mask_function_events blank s1 s2 k :
  mask blank s1 = mask blank s2 →
  function_events <$> functions s1 !! k =
  function_events <$> functions s2 !! k.
Proof.
  intros Hm. apply (f_equal functions) in Hm. simpl in Hm.
  assert (mask_function blank <$> functions s1 !! k =
          mask_function blank <$> functions s2 !! k) as Hk
    by (by rewrite <- !lookup_fmap, Hm).
  destruct (functions s1 !! k) as [f1|], (functions s2 !! k) as [f2|];
    try done.
  simpl in *. f_equal.
  assert (mask_function blank f1 = mask_function blank f2) as Hff
    by congruence.
  by apply (f_equal function_events) in Hff.
Qed.

Lemma well_formed_check_sound s : well_formed_check s → well_formed s.
Proof.
  intros H. split_and!.
  - intros k f Hf. by destruct (H k f Hf) as (? & _).
  - intros k f c call Hf Hc. destruct (H k f Hf) as (_ & Hcalls & _).
    by apply (Hcalls c call).
  - intros k f cy c m fm Hf Hcy Hc Hm Hfm.
    destruct (H k f Hf) as (_ & _ & Hcons).
    rewrite Hcy, Hc in Hcons. specialize (Hcons m Hm). simpl in Hcons.
    by rewrite Hfm in Hcons.
Qed.

(** C5: on a well-formed profile, a call of a function to itself (callee
    id equal to the id of its owner) takes no part in the ratios and in
    the integration.  [call_ratios] leaves such a call without a ratio,
    and the totals of its first pass, like its whole result, are the same
    on a profile [s2] that differs from [s1] only in the events and
    weight of such calls.  [integrate] returns the same events for every
    function on a profile [s2] that differs from [s1] only in the ratio,
    the weight and the events other than the output event of such
    calls. *)
Theorem self_calls_excluded (fuel : nat) (event outevent inevent : Event)
    (s1 s2 : Profile) :
  well_formed s1 →
  (∀ s1', call_ratios event s1 = Ok tt s1' →
     (∀ k f c call, functions s1' !! k = Some f → calls f !! c = Some call →
        callee_id call = id f → call_ratio call = None) ∧
     (mask blank_weights s1 = mask blank_weights s2 →
      ∃ s2', call_ratios event s2 = Ok tt s2' ∧
             mask blank_weights s1' = mask blank_weights s2')) ∧
  (∀ totals totals' s1',
     mask blank_weights s1 = mask blank_weights s2 →
     call_ratios_pass1 event totals s1 = Ok totals' s1' →
     ∃ s2', call_ratios_pass1 event totals s2 = Ok totals' s2') ∧
  (∀ s1',
     mask (blank_ratio outevent) s1 = mask (blank_ratio outevent) s2 →
     integrate fuel outevent inevent s1 = Ok tt s1' →
     ∃ s2', integrate fuel outevent inevent s2 = Ok tt s2' ∧
       mask (blank_ratio outevent) s1' = mask (blank_ratio outevent) s2' ∧
       ∀ k, function_events <$> functions s1' !! k =
            function_events <$> functions s2' !! k).
Proof.
  intros (Hfk & Hck & Hcc).
  pose proof (skel_functions_keyed _ Hfk) as HKf.
  pose proof (skel_calls_keyed _ Hck) as HKc.
  pose proof (skel_cycles_consistent _ Hcc) as HKy.
  split_and!.
  - intros s1' Hrun. split.
    + unfold call_ratios in Hrun.
      apply bind_Ok in Hrun as (s0 & s3 & [-> ->]%get_Ok & Hrun).
      apply bind_Ok in Hrun as ([ft ct] & s3 & _ & Hrun).
      intros k f c call Hf Hc.
      by destruct (call_ratios_pass2_Ok _ _ _ _ _ Hrun k f c call Hf Hc).
    + intros Hmask.
      destruct (sim_call_ratios blank_weights (skel s1) (λ _, eq_refl)
                  HKf HKc event blank_weights_ratio
                  s1 s2 tt s1' eq_refl Hmask Hrun) as (s2' & ? & _ & ?).
      eauto.
  - intros totals totals' s1' Hmask Hrun.
    destruct (sim_call_ratios_pass1 blank_weights (skel s1) (λ _, eq_refl)
                HKf HKc event totals
                s1 s2 totals' s1' eq_refl Hmask Hrun) as (s2' & ? & _).
    eauto.
  - intros s1' Hmask Hrun.
    destruct (sim_integrate (blank_ratio outevent) (skel s1) (λ _, eq_refl)
                HKf HKc HKy fuel outevent inevent
                (blank_ratio_out outevent)
                s1 s2 tt s1' eq_refl Hmask Hrun) as (s2' & ? & _ & Hm).
    exists s2'. split_and!; [done..|].
    intros k. by apply (mask_function_events (blank_ratio outevent)).
Qed.

Lemma self_calls_excluded_witness :
  well_formed validated ∧
  mask blank_weights validated = mask blank_weights self_call_changed ∧
  call_ratios CALLS validated = Ok tt with_ratios ∧
  (∃ s2', call_ratios CALLS self_call_changed = Ok tt s2' ∧
          mask blank_weights with_ratios = mask blank_weights s2') ∧
  well_formed with_ratios ∧
  mask (blank_ratio TOTAL_TIME) with_ratios =
    mask (blank_ratio TOTAL_TIME) self_ratio_changed ∧
  integrate 10 TOTAL_TIME TIME with_ratios = Ok tt integrated ∧
  (∃ s2', integrate 10 TOTAL_TIME TIME self_ratio_changed = Ok tt s2' ∧
     ∀ k, function_events <$> functions integrated !! k =
          function_events <$> functions s2' !! k).
Proof.
  assert (well_formed validated) as Hwf1.
  { apply well_formed_check_sound, (bool_decide_unpack _).
    vm_compute. exact I. }
  assert (well_formed with_ratios) as Hwf2.
  { apply well_formed_check_sound, (bool_decide_unpack _).
    vm_compute. exact I. }
  assert (mask blank_weights validated
          = mask blank_weights self_call_changed) as Hm1
    by (vm_compute; reflexivity).
  assert (mask (blank_ratio TOTAL_TIME) with_ratios
          = mask (blank_ratio TOTAL_TIME) self_ratio_changed) as Hm2
    by (vm_compute; reflexivity).
  assert (call_ratios CALLS validated = Ok tt with_ratios) as Hrun1
    by (vm_compute; reflexivity).
  assert (integrate 10 TOTAL_TIME TIME with_ratios = Ok tt integrated) as Hrun2
    by (vm_compute; reflexivity).
  destruct (self_calls_excluded 10 CALLS TOTAL_TIME TIME
              validated self_call_changed Hwf1) as (Hcr & _ & _).
  destruct (Hcr _ Hrun1) as [_ Hcr2].
  destruct (self_calls_excluded 10 CALLS TOTAL_TIME TIME
              with_ratios self_ratio_changed Hwf2) as (_ & _ & Hint).
  destruct (Hint _ Hm2 Hrun2) as (s2' & Hrun2' & _ & Hev).
  split_and!; try done; [by apply Hcr2 | by exists s2'].
Defined.

(** ** [Function.get_call] *)

Lemma calls_keyed_insert k c f call s :
  functions s !! k = Some f → callee_id call = c → calls_keyed s →
  calls_keyed (set_functions (<[k := set_calls (<[c := call]> (calls f)) f]>
                                (functions s)) s).
Proof.
  intros Hf Hid Hkeyed k' f' c' call' Hf' Hc'. simpl in Hf'.
  destruct (decide (k' = k)) as [->|Hne].
  - rewrite lookup_insert_eq in Hf'. simplify_eq. simpl in Hc'.
    destruct (decide (c' = callee_id call)) as [->|Hnc].
    + rewrite lookup_insert_eq in Hc'. by simplify_eq.
    + rewrite lookup_insert_ne in Hc' by done. eauto.
  - rewrite lookup_insert_ne in Hf' by done. eauto.
Qed.

(** X1: [get_call] returns the call stored under the callee id.  When
    there is one it is returned and nothing changes; otherwise the call
    is new, with its callee id, zero samples and calls and no ratio, and
    no other call changes.  Asking again returns the same call and
    changes nothing, and calls remain stored under their callee ids. *)
Theorem get_call_spec (k c : nat) (s : Profile) (f : Function) :
  functions s !! k = Some f →
  ∃ call s',
    get_call k c s = Ok call s' ∧
    get_call k c s' = Ok call s' ∧
    (∃ f', functions s' !! k = Some f' ∧ calls f' !! c = Some call ∧
           ∀ c', c' ≠ c → calls f' !! c' = calls f !! c') ∧
    (∀ k', k' ≠ k → functions s' !! k' = functions s !! k') ∧
    (∀ old, calls f !! c = Some old → call = old ∧ s' = s) ∧
    (calls f !! c = None →
     callee_id call = c ∧ call_ratio call = None ∧ call_weight call = None ∧
     call_events call !! SAMPLES = Some 0 ∧
     call_events call !! SAMPLES2 = Some 0 ∧
     call_events call !! CALLS = Some 0) ∧
    (calls_keyed s → calls_keyed s').
Proof.
  intros Hf. unfold get_call.
  destruct (calls f !! c) as [old|] eqn:Hc.
  - exists old, s.
    assert (get_call k c s = Ok old s) as Hrun.
    { unfold get_call.
      rewrite (bind_run_Ok _ _ s f s) by (by apply the_function_Ok).
      rewrite Hc, bool_decide_eq_false_2 by done.
      rewrite (bind_run_Ok _ _ s tt s) by done.
      apply the_call_Ok. eauto. }
    unfold get_call in Hrun. rewrite Hrun.
    split_and!; try done.
    + exists f. by split_and!.
    + by intros old' [= ->].
  - set (call := set_call_events _ _).
    set (f' := set_calls (<[c := call]> (calls f)) f).
    set (s' := set_functions (<[k := f']> (functions s)) s).
    exists call, s'.
    assert (functions s' !! k = Some f') as Hf' by apply lookup_insert_eq.
    assert (calls f' !! c = Some call) as Hc' by apply lookup_insert_eq.
    split_and!.
    + rewrite (bind_run_Ok _ _ s f s) by (by apply the_function_Ok).
      rewrite bool_decide_eq_true_2 by done.
      rewrite (bind_run_Ok _ _ s tt s')
        by (apply update_function_Ok; eauto).
      apply the_call_Ok. eauto.
    + rewrite (bind_run_Ok _ _ s' f' s') by (by apply the_function_Ok).
      rewrite Hc', bool_decide_eq_false_2 by done.
      rewrite (bind_run_Ok _ _ s' tt s') by done.
      apply the_call_Ok. eauto.
    + exists f'. split_and!; [done..|].
      intros c' Hne. simpl. by rewrite lookup_insert_ne.
    + intros k' Hne. simpl. by rewrite lookup_insert_ne.
    + done.
    + intros _. by split_and!.
    + by apply calls_keyed_insert.
Qed.

Lemma get_call_spec_witness :
  ∃ call s',
    get_call 2 0 chain_input = Ok call s' ∧
    get_call 2 0 s' = Ok call s' ∧
    callee_id call = 0%nat ∧ call_events call !! CALLS = Some 0.
Proof.
  destruct (get_call_spec 2 0 chain_input (example_function 2 {[TIME := 3]} ∅ None))
    as (call & s' & Hrun & Hagain & _ & _ & _ & Hnew & _); [reflexivity|].
  exists call, s'. split; [exact Hrun|]. split; [exact Hagain|].
  destruct Hnew as (Hid & _ & _ & _ & _ & Hcalls); [reflexivity|].
  split; [exact Hid | exact Hcalls].
Defined.

(** ** [Profile.getFunctionId] *)

Lemma getFunctionId_loop_run funcName l : ∀ s,
  (∀ k, k ∈ l → is_Some (functions s !! k)) →
  ∃ r, getFunctionId_loop funcName l s = Ok r s ∧
    match r with
    | Some k => k ∈ l ∧ ∃ f, functions s !! k = Some f ∧ name f = funcName
    | None => ∀ k f, k ∈ l → functions s !! k = Some f → name f ≠ funcName
    end.
Proof.
  induction l as [|x l IH]; intros s Hl; simpl.
  - exists None. split; [done|]. intros k f Hk. by apply elem_of_nil in Hk.
  - destruct (Hl x ltac:(left)) as [f Hf].
    rewrite (bind_run_Ok _ _ s x s)
      by (apply functions_getitem_Ok; eauto).
    rewrite (bind_run_Ok _ _ s f s) by (by apply the_function_Ok).
    case_bool_decide as Hname.
    + exists (Some x). split; [done|]. split; [left|]. eauto.
    + destruct (IH s) as (r & Hrun & Hr).
      { intros k Hk. apply Hl. by right. }
      exists r. split; [done|]. destruct r as [k|].
      * destruct Hr as [Hk Hr]. split; [by right|done].
      * intros k g [->|Hk]%elem_of_cons Hg; [congruence|eauto].
Qed.

(** X2: [getFunctionId] changes nothing; it returns the key of a
    function with the given name when there is one, and [False] (here
    [None]) exactly when no function has the name. *)
Theorem getFunctionId_spec (funcName : string) (s : Profile) :
  ∃ r, getFunctionId funcName s = Ok r s ∧
    match r with
    | Some k => ∃ f, functions s !! k = Some f ∧ name f = funcName
    | None => ∀ k f, functions s !! k = Some f → name f ≠ funcName
    end.
Proof.
  unfold getFunctionId. rewrite (bind_run_Ok _ _ s s s) by done.
  destruct (getFunctionId_loop_run funcName (keys (functions s)) s)
    as (r & Hrun & Hr).
  { intros k. by rewrite elem_of_keys. }
  exists r. split; [done|]. destruct r as [k|]; [apply Hr|].
  intros k f Hf. apply (Hr k f); [|done]. apply elem_of_keys. eauto.
Qed.

(** ** [Profile.aggregate] *)

(** The functions that do not all define the event: the loop leaves
    through its [return]. *)
Lemma Profile_aggregate_loop_undefined event l : ∀ acc s s' r,
  Profile_aggregate_loop event l acc s = Ok r s' →
  s' = s ∧
  match r with
  | Some total =>
    total = sum_keys event s l acc ∧
    (∀ k f, k ∈ l → functions s !! k = Some f →
            is_Some (function_events f !! event)) ∧
    (l ≠ [] → Event_aggregator event = add)
  | None =>
    ∃ k f, k ∈ l ∧ functions s !! k = Some f ∧
           function_events f !! event = None
  end.
Proof.
  induction l as [|x l IH]; intros acc s s' r Hrun; simpl in Hrun.
  - apply ret_Ok in Hrun as [<- <-]. split; [done|]. split_and!; try done.
    intros k f Hk. by apply elem_of_nil in Hk.
  - apply bind_Ok in Hrun as (f & s1 & [Hf ->]%the_function_Ok & Hrun).
    destruct (function_events f !! event) as [v|] eqn:Hv.
    + apply bind_Ok in Hrun as (total & s1 & Hagg & Hrun).
      unfold aggregate in Hagg.
      destruct (Event_aggregator event) eqn:Hadd; [|done].
      apply ret_Ok in Hagg as [<- <-].
      apply IH in Hrun as [-> Hr]. split; [done|].
      destruct r as [total|].
      * destruct Hr as (-> & Hdef & _). split_and!; [|  |done].
        -- simpl. unfold event_value. by rewrite Hf; simpl; rewrite Hv.
        -- intros k g [->|Hk]%elem_of_cons Hg; [|eauto].
           assert (g = f) as -> by congruence. eauto.
      * destruct Hr as (k & g & Hk & Hg & Hnone).
        exists k, g. split; [by right|done].
    + apply ret_Ok in Hrun as [<- <-]. split; [done|].
      exists x, f. split; [left|done].
Qed.

(** X3: when [Profile.aggregate] returns, either every function defines
    the event and the profile gets their sum as the value of the event,
    or some function lacks the event and nothing at all has changed.  A
    sum is only written for an event that can be added, unless the
    profile has no function. *)
Theorem Profile_aggregate_spec (event : Event) (s s' : Profile) :
  Profile_aggregate event s = Ok tt s' →
  ((∀ k f, functions s !! k = Some f →
           is_Some (function_events f !! event)) ∧
   s' = set_events (<[event := event_total event s]> (events s)) s ∧
   (Event_aggregator event = add ∨ functions s = ∅)) ∨
  ((∃ k f, functions s !! k = Some f ∧ function_events f !! event = None) ∧
   s' = s).
Proof.
  unfold Profile_aggregate. intros Hrun.
  apply bind_Ok in Hrun as (s0 & s1 & [-> ->]%get_Ok & Hrun).
  apply bind_Ok in Hrun as (r & s1 & [-> Hr]%Profile_aggregate_loop_undefined
                            & Hrun).
  destruct r as [total|].
  - left. destruct Hr as (-> & Hdef & Hadd).
    assert (∀ k f, functions s !! k = Some f →
                   is_Some (function_events f !! event)) as Hdef'.
    { intros k f Hf. apply (Hdef k f); [|done]. apply elem_of_keys. eauto. }
    split_and!; [done| |].
    + unfold profile_setitem in Hrun. injection Hrun as <-.
      by rewrite sum_keys_event_total.
    + destruct (keys (functions s)) as [|k l] eqn:Hkeys; [right|left; by apply Hadd].
      apply map_empty. intros k. apply eq_None_not_Some.
      rewrite <- elem_of_keys, Hkeys. apply not_elem_of_nil.
  - right. destruct Hr as (k & f & _ & Hf & Hnone).
    apply ret_Ok in Hrun as [_ <-]. eauto.
Qed.

Lemma Profile_aggregate_spec_witness :
  Profile_aggregate TIME chain_input =
    Ok tt (set_events {[TIME := 6]} chain_input) ∧
  (∀ k f, functions chain_input !! k = Some f →
          is_Some (function_events f !! TIME)) ∧
  Profile_aggregate CALLS chain_input = Ok tt chain_input.
Proof.
  assert (Profile_aggregate TIME chain_input =
            Ok tt (set_events {[TIME := 6]} chain_input)) as Hrun
    by (vm_compute; reflexivity).
  assert (Profile_aggregate CALLS chain_input = Ok tt chain_input) as Hrun'
    by (vm_compute; reflexivity).
  split; [exact Hrun|]. split; [|exact Hrun'].
  destruct (Profile_aggregate_spec _ _ _ Hrun) as [(Hdef & _)|[(k & f & Hf & Hnone) Heq]].
  - exact Hdef.
  - discriminate Heq.
Defined.




(** ** [Profile.ratio] *)

Lemma ratio_value_range n d : 0 <= ratio_value n d <= 1.
Proof.
  unfold ratio_value. destruct (Qeq_bool d 0); [|apply clamp01_range].
  split; discriminate.
Qed.

Lemma ratio_value_Ok n d r s s' :
  ratio n d s = Ok r s' →
  r = ratio_value n d ∧ ∃ w, s' = set_stderr (stderr s ++ w) s.
Proof.
  intros Hrun. unfold ratio_value. destruct (Qeq_bool d 0) eqn:Hd.
  - unfold ratio in Hrun. rewrite Hd in Hrun. apply ret_Ok in Hrun as [<- <-].
    split; [done|]. exists []. by rewrite set_stderr_nil.
  - destruct (ratio_nonzero n d s Hd) as (w & Hrun' & _).
    rewrite Hrun' in Hrun. injection Hrun as <- <-. eauto.
Qed.

Lemma set_calls_id f : set_calls (calls f) f = f.
Proof. by destruct f. Qed.

(** The inner loop, over the calls of the function stored under [k]. *)
Lemma ratio_calls_run outevent inevent total k l : ∀ s s' f,
  inevent ≠ outevent → events s !! inevent = Some total →
  functions s !! k = Some f → NoDup l →
  for_ l (λ c,
    call ← the_call k c;
    assert (bool_decide (call_events call !! outevent = None)) ;;
    if bool_decide (is_Some (call_events call !! inevent)) then
      n ← call_getitem k c inevent;
      d ← profile_getitem inevent;
      r ← ratio n d;
      call_setitem k c outevent r
    else mret tt) s = Ok tt s' →
  functions s' =
    <[k := set_calls
             (map_imap (λ c call,
                Some (if bool_decide (c ∈ l)
                      then ratio_call total outevent inevent call else call))
                (calls f)) f]> (functions s) ∧
  (∀ c call, c ∈ l → calls f !! c = Some call →
             call_events call !! outevent = None) ∧
  events s' = events s ∧ cycles s' = cycles s ∧
  cycle_store s' = cycle_store s.
Proof.
  induction l as [|x l IH]; intros s s' f Hne Htotal Hf Hnd Hrun;
    simpl in Hrun.
  - apply ret_Ok in Hrun as [_ <-]. split_and!; try done.
    + assert (map_imap (λ c call,
                Some (if bool_decide (c ∈ @nil nat)
                      then ratio_call total outevent inevent call else call))
                (calls f) = calls f) as ->.
      { apply map_eq. intros c. rewrite map_lookup_imap.
        by destruct (calls f !! c). }
      by rewrite set_calls_id, insert_id.
    + intros c call Hc. by apply elem_of_nil in Hc.
  - apply NoDup_cons in Hnd as [Hx Hnd].
    apply bind_Ok in Hrun as ([] & s1 & Hstep & Hrest).
    apply bind_Ok in Hstep as (call & s2 & [(f0 & Hf0 & Hcall) ->]%the_call_Ok
                                & Hstep).
    assert (f0 = f) as -> by congruence. clear Hf0.
    apply bind_Ok in Hstep as ([] & s2 & [Hout <-]%assert_Ok & Hstep).
    apply bool_decide_eq_true_1 in Hout.
    assert (∃ f1, functions s1 !! k = Some f1 ∧
              f1 = set_calls (<[x := ratio_call total outevent inevent call]>
                                (calls f)) f ∧
              functions s1 = <[k := f1]> (functions s) ∧
              events s1 = events s ∧ cycles s1 = cycles s ∧
              cycle_store s1 = cycle_store s) as (f1 & Hf1 & Hf1eq & Hfs1 & Hev1 & Hcy1 & Hcs1).
    { unfold ratio_call. case_bool_decide as Hin.
      - destruct Hin as [n Hn]. rewrite Hn.
        unfold call_getitem, profile_getitem, call_setitem in Hstep.
        inv_M.
        match goal with H : ratio _ _ _ = Ok _ _ |- _ =>
          apply ratio_value_Ok in H as [-> [w ->]] end.
        simpl in *. simplify_eq.
        eexists. split; [apply lookup_insert_eq|]. split_and!; try done.
      - apply ret_Ok in Hstep as [_ <-].
        assert (call_events call !! inevent = None) as ->
          by (by apply eq_None_not_Some).
        rewrite (insert_id (calls f)), set_calls_id by done.
        exists f. split; [done|]. split_and!; try done.
        by rewrite insert_id. }
    assert (events s1 !! inevent = Some total) as Htotal1 by congruence.
    destruct (IH s1 s' f1 Hne Htotal1 Hf1 Hnd Hrest)
      as (Hfs & Houts & Hev & Hcy & Hcs).
    split_and!; try congruence.
    + rewrite Hfs, Hfs1, insert_insert_eq. f_equal. rewrite Hf1eq.
      unfold set_calls. simpl. f_equal.
      apply map_eq. intros c. rewrite !map_lookup_imap.
      destruct (decide (c = x)) as [->|Hnc].
      * rewrite lookup_insert_eq, Hcall. simpl.
        rewrite bool_decide_eq_false_2 by done.
        by rewrite bool_decide_eq_true_2 by left.
      * rewrite lookup_insert_ne by done.
        destruct (calls f !! c); [simpl|done].
        rewrite (bool_decide_ext (c ∈ x :: l) (c ∈ l)); [done|].
        rewrite elem_of_cons. naive_solver.
    + intros c call' [->|Hc]%elem_of_cons Hcc; [congruence|].
      apply (Houts c call' Hc). rewrite Hf1eq. simpl.
      rewrite lookup_insert_ne; [done|]. by intros ->.
Qed.

Lemma ratio_call_fmap total outevent inevent (cs : gmap nat Call) :
  map_imap (λ c call,
     Some (if bool_decide (c ∈ keys cs)
           then ratio_call total outevent inevent call else call)) cs =
  ratio_call total outevent inevent <$> cs.
Proof.
  apply map_eq. intros c. rewrite map_lookup_imap, lookup_fmap.
  destruct (cs !! c) eqn:Hc; [simpl|done].
  rewrite bool_decide_eq_true_2; [done|]. apply elem_of_keys. eauto.
Qed.

(** The outer loop, over the functions. *)
Lemma ratio_functions_run outevent inevent total l : ∀ s s',
  inevent ≠ outevent → events s !! inevent = Some total → NoDup l →
  for_ l (λ function,
    f ← the_function function;
    assert (bool_decide (function_events f !! outevent = None)) ;;
    assert (bool_decide (is_Some (function_events f !! inevent))) ;;
    n ← function_getitem function inevent;
    d ← profile_getitem inevent;
    r ← ratio n d;
    function_setitem function outevent r ;;
    for_ (keys (calls f)) (λ c,
      call ← the_call function c;
      assert (bool_decide (call_events call !! outevent = None)) ;;
      if bool_decide (is_Some (call_events call !! inevent)) then
        n ← call_getitem function c inevent;
        d ← profile_getitem inevent;
        r ← ratio n d;
        call_setitem function c outevent r
      else mret tt)) s = Ok tt s' →
  (∀ k, functions s' !! k =
        (λ f, if bool_decide (k ∈ l)
              then ratio_function total outevent inevent f else f)
          <$> functions s !! k) ∧
  (∀ k f, k ∈ l → functions s !! k = Some f →
     function_events f !! outevent = None ∧
     is_Some (function_events f !! inevent) ∧
     ∀ c call, calls f !! c = Some call →
               call_events call !! outevent = None) ∧
  events s' = events s ∧ cycles s' = cycles s ∧
  cycle_store s' = cycle_store s.
Proof.
  induction l as [|x l IH]; intros s s' Hne Htotal Hnd Hrun; simpl in Hrun.
  - apply ret_Ok in Hrun as [_ <-]. split_and!; try done.
    + intros k. rewrite bool_decide_eq_false_2 by apply not_elem_of_nil.
      by destruct (functions s !! k).
    + intros k f Hk. by apply elem_of_nil in Hk.
  - apply NoDup_cons in Hnd as [Hx Hnd].
    apply bind_Ok in Hrun as ([] & s1 & Hstep & Hrest).
    apply bind_Ok in Hstep as (f & s2 & [Hf ->]%the_function_Ok & Hstep).
    apply bind_Ok in Hstep as ([] & s2 & [Hout <-]%assert_Ok & Hstep).
    apply bind_Ok in Hstep as ([] & s2 & [Hin <-]%assert_Ok & Hstep).
    apply bool_decide_eq_true_1 in Hout, Hin. destruct Hin as [n Hn].
    apply bind_Ok in Hstep as (n' & s2 & Hget & Hstep).
    unfold function_getitem in Hget.
    apply bind_Ok in Hget as (f0 & s3 & [Hf0 ->]%the_function_Ok
                              & [Hn' ->]%getitem_Ok).
    assert (f0 = f) as -> by congruence. clear Hf0.
    assert (n' = n) as -> by congruence. clear Hn'.
    apply bind_Ok in Hstep as (d & s2 & Hget & Hstep).
    unfold profile_getitem in Hget.
    apply bind_Ok in Hget as (s0 & s3 & [-> ->]%get_Ok & [Hd ->]%getitem_Ok).
    assert (d = total) as -> by congruence. clear Hd.
    apply bind_Ok in Hstep as (r & s2 & [-> [w ->]]%ratio_value_Ok & Hstep).
    apply bind_Ok in Hstep as ([] & s2 & Hset & Hstep).
    unfold function_setitem in Hset.
    apply update_function_Ok in Hset as (f0 & Hf0 & ->).
    simpl in Hf0. assert (f0 = f) as -> by congruence. clear Hf0.
    set (f1 := set_function_events _ f) in Hstep.
    apply (ratio_calls_run _ _ total _ _ _ _ f1) in Hstep
      as (Hfs1 & Houts & Hev1 & Hcy1 & Hcs1);
      [|done|done|simpl; apply lookup_insert_eq|apply NoDup_keys].
    simpl in *.
    change (calls f1) with (calls f) in Hfs1.
    rewrite ratio_call_fmap, insert_insert_eq in Hfs1.
    apply IH in Hrest as (Hfs & Hpre & Hev & Hcy & Hcs);
      [|done|congruence|done].
    split_and!; try congruence.
    + intros k. rewrite Hfs, Hfs1.
      destruct (decide (k = x)) as [->|Hnk].
      * rewrite lookup_insert_eq, Hf. simpl.
        rewrite bool_decide_eq_false_2 by done.
        rewrite bool_decide_eq_true_2 by left.
        unfold ratio_function. by rewrite Hn.
      * rewrite lookup_insert_ne by done.
        destruct (functions s !! k); [simpl|done].
        rewrite (bool_decide_ext (k ∈ x :: l) (k ∈ l)); [done|].
        rewrite elem_of_cons. naive_solver.
    + intros k g [->|Hk]%elem_of_cons Hg.
      * assert (g = f) as -> by congruence. split_and!; [done|eauto|].
        intros c call Hc. apply (Houts c call); [|done].
        apply elem_of_keys. eauto.
      * apply (Hpre k g Hk). rewrite Hfs1, lookup_insert_ne; [done|].
        by intros ->.
Qed.

(** What a run of [Profile.ratio] that returns has done. *)
Lemma Profile_ratio_Ok (outevent inevent : Event) (s s' : Profile) :
  Profile_ratio outevent inevent s = Ok tt s' →
  ∃ total,
    events s !! inevent = Some total ∧
    events s' = <[outevent := 1]> (events s) ∧
    (∀ k, functions s' !! k =
          ratio_function total outevent inevent <$> functions s !! k) ∧
    (∀ k f', functions s' !! k = Some f' →
       (∃ r, function_events f' !! outevent = Some r ∧ 0 <= r <= 1) ∧
       ∀ c call', calls f' !! c = Some call' →
         match call_events call' !! inevent with
         | Some _ => ∃ r, call_events call' !! outevent = Some r ∧ 0 <= r <= 1
         | None => call_events call' !! outevent = None
         end) ∧
    cycles s' = cycles s ∧ cycle_store s' = cycle_store s.
Proof.
  unfold Profile_ratio. intros Hrun.
  apply bind_Ok in Hrun as (s0 & s1 & [-> ->]%get_Ok & Hrun).
  apply bind_Ok in Hrun as ([] & s1 & [Hout <-]%assert_Ok & Hrun).
  apply bind_Ok in Hrun as ([] & s1 & [Hin <-]%assert_Ok & Hrun).
  apply bool_decide_eq_true_1 in Hout, Hin. destruct Hin as [total Htotal].
  assert (inevent ≠ outevent) as Hne by congruence.
  apply bind_Ok in Hrun as ([] & s1 & Hloop & Hset).
  apply (ratio_functions_run _ _ total) in Hloop
    as (Hfs & Hpre & Hev & Hcy & Hcs); [|done|done|apply NoDup_keys].
  unfold profile_setitem in Hset. injection Hset as <-. simpl.
  assert (∀ k, functions s1 !! k =
               ratio_function total outevent inevent <$> functions s !! k)
    as Hfs'.
  { intros k. rewrite Hfs. destruct (functions s !! k) eqn:Hk; [simpl|done].
    rewrite bool_decide_eq_true_2; [done|]. apply elem_of_keys. eauto. }
  exists total. split_and!; try done; [by rewrite Hev|].
  intros k f' Hf'. rewrite Hfs' in Hf'.
  destruct (functions s !! k) as [f|] eqn:Hf; [|done].
  simpl in Hf'. injection Hf' as <-.
  destruct (Hpre k f) as (Hfout & [n Hn] & Hcalls); [|done|].
  { apply elem_of_keys. eauto. }
  unfold ratio_function. rewrite Hn. simpl. split.
  - eexists. rewrite lookup_insert_eq. split; [done|apply ratio_value_range].
  - intros c call'. rewrite lookup_fmap.
    destruct (calls f !! c) as [call|] eqn:Hc; [|done].
    simpl. intros [= <-]. unfold ratio_call.
    destruct (call_events call !! inevent) as [m|] eqn:Hm; simpl.
    + rewrite lookup_insert_ne, Hm by done. eexists.
      rewrite lookup_insert_eq. split; [done|apply ratio_value_range].
    + rewrite Hm. eauto.
Qed.


(** ** The loop over the frontier of [prune_root] and [prune_leaf] *)

Lemma reach_within_mono E roots n m k :
  (n ≤ m)%nat → reach_within E roots n k → reach_within E roots m k.
Proof.
  intros Hle Hreach. revert m Hle.
  induction Hreach as [n r Hr|n k c Hk IH Hedge]; intros m Hle.
  - by apply reach_root.
  - destruct m as [|m]; [lia|]. apply (reach_step _ _ m k c); [|done].
    apply IH. lia.
Qed.

Section frontier.
Context (pop : gset (nat * Z) → option (nat * Z)) (next : nat → M (gset nat)).
Context (E : nat → nat → Prop) (s : Profile).
Hypothesis pop_elem : ∀ X x, pop X = Some x → x ∈ X.
Hypothesis next_Ok : ∀ node nodes s',
  next node s = Ok nodes s' → s' = s ∧ ∀ c, c ∈ nodes ↔ E node c.

(** An invariant of the loop holds of the set it returns, the frontier
    being empty by then. *)
Lemma frontier_loop_inv (I : gset nat → gset (nat * Z) → Prop) fuel :
  (∀ visited frontier node d,
     I visited frontier → (node, d) ∈ frontier → d = 0%Z →
     I ({[node]} ∪ visited) (frontier ∖ {[(node, d)]})) →
  (∀ visited frontier node d nodes,
     I visited frontier → (node, d) ∈ frontier → d ≠ 0%Z →
     (∀ c, c ∈ nodes ↔ E node c) →
     I ({[node]} ∪ visited)
       (frontier ∖ {[(node, d)]} ∪
        set_map (λ new_node, (new_node, (d - 1)%Z))
                (nodes ∖ ({[node]} ∪ visited)))) →
  ∀ visited frontier V s',
    I visited frontier →
    frontier_loop pop next fuel visited frontier s = Ok V s' →
    s' = s ∧ I V ∅.
Proof.
  intros Hzero Hstep.
  induction fuel as [|fuel IH]; intros visited frontier V s' HI Hrun;
    simpl in Hrun; [done|].
  case_bool_decide as Hsize.
  - apply bind_Ok in Hrun as ([node d] & s1 & Hpop & Hrun).
    unfold set_pop in Hpop. destruct (pop frontier) as [x|] eqn:Hx; [|done].
    apply ret_Ok in Hpop as [-> <-]. apply pop_elem in Hx.
    case_bool_decide as Hd.
    + apply IH in Hrun; [done|]. by apply Hzero.
    + apply bind_Ok in Hrun as (nodes & s1 & [-> Hnodes]%next_Ok & Hrun).
      apply IH in Hrun; [done|]. by apply Hstep.
  - apply ret_Ok in Hrun as [<- <-]. split; [done|].
    assert (frontier = ∅) as ->; [|done].
    apply leibniz_equiv, size_empty_inv. lia.
Qed.

Context (roots : list nat) (depth : Z).

Lemma elem_of_frontier0 n d :
  (n, d) ∈ frontier0 roots depth ↔ n ∈ roots ∧ d = depth.
Proof.
  unfold frontier0. rewrite elem_of_list_to_set, list_elem_of_fmap. split.
  - by intros (r & [= -> ->] & Hr).
  - intros [Hr ->]. eauto.
Qed.

(** Every root is kept, and with it, unless the depth is 0, what it
    has an edge to. *)
Lemma frontier_loop_roots fuel V s' :
  frontier_loop pop next fuel ∅ (frontier0 roots depth) s = Ok V s' →
  ∀ r, r ∈ roots →
    r ∈ V ∧ (depth ≠ 0%Z → ∀ c, E r c → c ∈ V).
Proof.
  intros Hrun.
  apply (frontier_loop_inv (λ visited frontier,
           ∀ r, r ∈ roots →
             (r, depth) ∈ frontier ∨
             (r ∈ visited ∧
              (depth ≠ 0%Z → ∀ c, E r c →
                 c ∈ visited ∨ ∃ d, (c, d) ∈ frontier)))) in Hrun
    as [_ HI].
  - intros r Hr. destruct (HI r Hr) as [Hin|[Hin Hcov]]; [set_solver|].
    split; [done|]. intros Hd c Hc.
    destruct (Hcov Hd c Hc) as [?|[d ?]]; [done|set_solver].
  - intros visited frontier node d HI Hin -> r Hr.
    destruct (HI r Hr) as [Hf|[Hv Hcov]].
    + destruct (decide (r = node ∧ depth = 0%Z)) as [[-> ->]|Hne].
      * right. split; [set_solver|done].
      * left. apply elem_of_difference. split; [done|].
        rewrite elem_of_singleton. naive_solver.
    + right. split; [set_solver|]. intros Hd c Hc.
      destruct (Hcov Hd c Hc) as [?|[d Hcd]]; [left; set_solver|].
      destruct (decide (c = node)) as [->|Hne]; [left; set_solver|].
      right. exists d. apply elem_of_difference. split; [done|].
      rewrite elem_of_singleton. naive_solver.
  - intros visited frontier node d nodes HI Hin Hd Hnodes r Hr.
    destruct (HI r Hr) as [Hf|[Hv Hcov]].
    + destruct (decide (r = node ∧ depth = d)) as [[-> ->]|Hne].
      * right. split; [set_solver|]. intros _ c Hc.
        destruct (decide (c ∈ {[node]} ∪ visited)) as [?|Hnew]; [by left|].
        right. exists (d - 1)%Z. apply elem_of_union. right.
        apply elem_of_map. exists c. split; [done|].
        apply elem_of_difference. split; [by apply Hnodes|done].
      * left. apply elem_of_union. left.
        apply elem_of_difference. split; [done|].
        rewrite elem_of_singleton. naive_solver.
    + right. split; [set_solver|]. intros Hd' c Hc.
      destruct (Hcov Hd' c Hc) as [?|[d' Hcd]]; [left; set_solver|].
      destruct (decide (c = node)) as [->|Hne]; [left; set_solver|].
      right. exists d'. apply elem_of_union. left.
      apply elem_of_difference. split; [done|].
      rewrite elem_of_singleton. naive_solver.
  - intros r Hr. left. by apply elem_of_frontier0.
Qed.

(** With a depth that is not negative, what is kept is within that many
    steps of a root. *)
Lemma frontier_loop_bounded fuel V s' :
  (0 ≤ depth)%Z →
  frontier_loop pop next fuel ∅ (frontier0 roots depth) s = Ok V s' →
  ∀ k, k ∈ V → reach_within E roots (Z.to_nat depth) k.
Proof.
  intros Hdepth Hrun.
  apply (frontier_loop_inv (λ visited frontier,
           (∀ n d, (n, d) ∈ frontier →
              (0 ≤ d ≤ depth)%Z ∧
              reach_within E roots (Z.to_nat (depth - d)) n) ∧
           ∀ n, n ∈ visited → reach_within E roots (Z.to_nat depth) n))
    in Hrun as [_ [_ HV]]; [done|..].
  - intros visited frontier node d [HF HV] Hin ->. split.
    + intros n d Hnd. apply HF. set_solver.
    + intros n [->%elem_of_singleton|Hn]%elem_of_union; [|by apply HV].
      destruct (HF _ _ Hin) as [_ Hreach].
      eapply reach_within_mono; [|exact Hreach]. lia.
  - intros visited frontier node d nodes [HF HV] Hin Hd Hnodes. split.
    + intros n d' [Hnd|Hnd]%elem_of_union; [apply HF; set_solver|].
      apply elem_of_map in Hnd as (c & [= -> ->] & [Hc _]%elem_of_difference).
      destruct (HF _ _ Hin) as [Hrange Hreach]. split; [lia|].
      replace (Z.to_nat (depth - (d - 1))) with (S (Z.to_nat (depth - d)))
        by lia.
      apply (reach_step _ _ _ node); [done|by apply Hnodes].
    + intros n [->%elem_of_singleton|Hn]%elem_of_union; [|by apply HV].
      destruct (HF _ _ Hin) as [Hrange Hreach].
      eapply reach_within_mono; [|exact Hreach]. lia.
  - split; [|set_solver].
    intros n d [Hn ->]%elem_of_frontier0. split; [lia|]. by apply reach_root.
Qed.

(** With a negative depth, what is kept is what the roots reach. *)
Lemma frontier_loop_unbounded fuel V s' :
  (depth < 0)%Z →
  frontier_loop pop next fuel ∅ (frontier0 roots depth) s = Ok V s' →
  ∀ k, k ∈ V ↔ ∃ n, reach_within E roots n k.
Proof.
  intros Hdepth Hrun.
  pose proof (frontier_loop_roots _ _ _ Hrun) as Hroots.
  apply (frontier_loop_inv (λ visited frontier,
           (∀ n d, (n, d) ∈ frontier →
              (d < 0)%Z ∧ ∃ m, reach_within E roots m n) ∧
           ∀ n, n ∈ visited →
             (∃ m, reach_within E roots m n) ∧
             ∀ c, E n c → c ∈ visited ∨ ∃ d, (c, d) ∈ frontier))
    in Hrun as [_ [_ HV]].
  - intros k. split; [intros Hk; by apply HV|].
    intros [n Hreach]. induction Hreach as [n r Hr|n k c Hk IH Hedge].
    + by apply Hroots.
    + destruct (HV k IH) as [_ Hcov].
      destruct (Hcov c Hedge) as [?|[d ?]]; [done|set_solver].
  - intros visited frontier node d [HF HV] Hin ->.
    destruct (HF _ _ Hin) as [? _]. lia.
  - intros visited frontier node d nodes [HF HV] Hin Hd Hnodes. split.
    + intros n d' [Hnd|Hnd]%elem_of_union; [apply HF; set_solver|].
      apply elem_of_map in Hnd as (c & [= -> ->] & [Hc _]%elem_of_difference).
      destruct (HF _ _ Hin) as [Hneg [m Hreach]]. split; [lia|].
      exists (S m). apply (reach_step _ _ _ node); [done|by apply Hnodes].
    + assert (∀ c, c ∈ visited ∨ (∃ d', (c, d') ∈ frontier) →
                c ∈ {[node]} ∪ visited ∨
                ∃ d', (c, d') ∈ frontier ∖ {[(node, d)]} ∪
                        set_map (λ new_node, (new_node, (d - 1)%Z))
                                (nodes ∖ ({[node]} ∪ visited))) as Hcov'.
      { intros c [?|[d' Hcd]]; [left; set_solver|].
        destruct (decide (c = node)) as [->|Hne]; [left; set_solver|].
        right. exists d'. apply elem_of_union. left.
        apply elem_of_difference. split; [done|].
        rewrite elem_of_singleton. naive_solver. }
      intros n [->%elem_of_singleton|Hn]%elem_of_union.
      * split; [by apply (HF _ _ Hin)|]. intros c Hc.
        destruct (decide (c ∈ {[node]} ∪ visited)) as [?|Hnew]; [by left|].
        right. exists (d - 1)%Z. apply elem_of_union. right.
        apply elem_of_map. exists c. split; [done|].
        apply elem_of_difference. split; [by apply Hnodes|done].
      * destruct (HV n Hn) as [Hreach Hcov]. split; [done|].
        intros c Hc. by apply Hcov', Hcov.
  - split; [|set_solver].
    intros n d [Hn ->]%elem_of_frontier0. split; [done|].
    exists 0%nat. by apply reach_root.
Qed.

End frontier.

(** ** The functions and calls that [prune_root] and [prune_leaf] keep *)

Lemma newCalls_loop_lookup (kept : gset nat) (cs : gmap nat Call) l :
  ∀ (acc : gmap nat Call) c,
  foldl (λ newCalls c,
           if bool_decide (c ∈ kept) then
             match cs !! c with
             | Some call => <[c := call]> newCalls
             | None => newCalls
             end
           else newCalls) acc l !! c =
  if bool_decide (c ∈ l ∧ c ∈ kept ∧ is_Some (cs !! c))
  then cs !! c else acc !! c.
Proof.
  induction l as [|x l IH]; intros acc c; cbn [foldl].
  - rewrite bool_decide_eq_false_2; [done|]. intros [H%elem_of_nil _]. done.
  - rewrite IH. case_bool_decide as Hl.
    + rewrite bool_decide_eq_true_2; [done|].
      destruct Hl as (? & ? & ?). split_and!; [by right|done..].
    + destruct (decide (c = x ∧ c ∈ kept ∧ is_Some (cs !! c)))
        as [(-> & Hk & [call Hc])|Hx].
      * rewrite (bool_decide_eq_true_2 (x ∈ x :: l ∧ _))
          by (split_and!; [left|done|eauto]).
        rewrite (bool_decide_eq_true_2 (x ∈ kept)), Hc by done.
        apply lookup_insert_eq.
      * rewrite (bool_decide_eq_false_2 (c ∈ x :: l ∧ _)).
        2:{ rewrite elem_of_cons. naive_solver. }
        case_bool_decide as Hk; [|done].
        destruct (cs !! x) as [call|] eqn:Hcx; [|done].
        rewrite lookup_insert_ne; [done|]. intros ->. apply Hx. eauto.
Qed.

Lemma newCalls_filter kept cs :
  newCalls kept cs = filter (λ kv, kv.1 ∈ kept) cs.
Proof.
  apply map_eq. intros c. unfold newCalls.
  etrans; [apply newCalls_loop_lookup|].
  rewrite map_lookup_filter, lookup_empty.
  destruct (cs !! c) as [call|] eqn:Hc; simpl.
  - case_bool_decide as H.
    + rewrite option_guard_True; [done|]. by destruct H as (_ & ? & _).
    + rewrite option_guard_False; [done|]. simpl. intros Hk. apply H.
      split_and!; [apply elem_of_keys|..]; eauto.
  - by case_bool_decide.
Qed.

Lemma set_functions_id s : set_functions (functions s) s = s.
Proof. by destruct s. Qed.

(** The loop of [keep_functions]: it raises [KeyError] at a node that is
    not a function, and otherwise restricts the calls of every node. *)
Lemma keep_functions_loop kept l : ∀ (acc : gmap nat nat) s, NoDup l →
  for_acc l acc (λ subtreeFunctions n,
    f ← functions_getitem n;
    fn ← the_function f;
    update_function f (set_calls (newCalls kept (calls fn))) ;;
    mret (<[n := f]> subtreeFunctions)) s =
  if decide (Forall (λ n, is_Some (functions s !! n)) l)
  then Ok (foldl (λ acc n, <[n := n]> acc) acc l)
          (set_functions
             (map_imap (λ k f, Some (if bool_decide (k ∈ l)
                                     then restrict_calls kept f else f))
                       (functions s)) s)
  else Raise KeyError.
Proof.
  induction l as [|x l IH]; intros acc s Hnd; cbn [for_acc].
  - rewrite decide_True by done. unfold mret, M_ret. f_equal.
    rewrite <- (set_functions_id s) at 1. f_equal.
    apply map_eq. intros k. rewrite map_lookup_imap.
    by destruct (functions s !! k).
  - apply NoDup_cons in Hnd as [Hx Hnd].
    destruct (functions s !! x) as [f|] eqn:Hf.
    + erewrite bind_run_Ok.
      2:{ rewrite (bind_run_Ok _ _ s x s)
            by (apply functions_getitem_Ok; eauto).
          rewrite (bind_run_Ok _ _ s f s) by (by apply the_function_Ok).
          erewrite (bind_run_Ok _ _ s tt)
            by (apply update_function_Ok; eauto).
          reflexivity. }
      rewrite IH by done. cbn [foldl functions set_functions].
      assert (∀ n, is_Some ((<[x := set_calls (newCalls kept (calls f)) f]>
                               (functions s)) !! n)
                   ↔ is_Some (functions s !! n)) as Hdom.
      { intros n. rewrite lookup_insert_is_Some'.
        split; [intros [->|?]; eauto | eauto]. }
      destruct (decide (Forall _ l)) as [Hl|Hl];
        destruct (decide (Forall _ (x :: l))) as [Hxl|Hxl].
      * f_equal. unfold set_functions. simpl. f_equal.
        apply map_eq. intros k. rewrite !map_lookup_imap.
        destruct (decide (k = x)) as [->|Hne].
        -- rewrite lookup_insert_eq, Hf. simpl.
           rewrite bool_decide_eq_false_2 by done.
           rewrite bool_decide_eq_true_2 by left.
           by rewrite newCalls_filter.
        -- rewrite lookup_insert_ne by done.
           destruct (functions s !! k); [simpl|done].
           rewrite (bool_decide_ext (k ∈ x :: l) (k ∈ l)); [done|].
           rewrite elem_of_cons. naive_solver.
      * exfalso. apply Hxl. constructor; [eauto|].
        eapply Forall_impl; [exact Hl|]. intros n. by rewrite Hdom.
      * exfalso. apply Hl. apply Forall_cons in Hxl as [_ Hxl].
        eapply Forall_impl; [exact Hxl|]. intros n. by rewrite Hdom.
      * done.
    + rewrite decide_False.
      2:{ intros [[? ?] _]%Forall_cons. congruence. }
      apply bind_run_Raise. apply bind_run_Raise.
      unfold functions_getitem. by rewrite Hf.
Qed.

Lemma keep_functions_acc l : ∀ (acc : gmap nat nat) k,
  foldl (λ acc n, <[n := n]> acc) acc l !! k =
  if bool_decide (k ∈ l) then Some k else acc !! k.
Proof.
  induction l as [|x l IH]; intros acc k; cbn [foldl].
  - by rewrite bool_decide_eq_false_2 by apply not_elem_of_nil.
  - rewrite IH. case_bool_decide as Hl.
    + by rewrite bool_decide_eq_true_2 by (by right).
    + destruct (decide (k = x)) as [->|Hne].
      * rewrite lookup_insert_eq. by rewrite bool_decide_eq_true_2 by left.
      * rewrite lookup_insert_ne by done.
        rewrite bool_decide_eq_false_2; [done|].
        rewrite elem_of_cons. naive_solver.
Qed.

Lemma restrict_functions_lookup kept fs k :
  restrict_functions kept fs !! k =
  if bool_decide (k ∈ kept) then restrict_calls kept <$> fs !! k else None.
Proof.
  unfold restrict_functions. rewrite lookup_fmap, map_lookup_filter.
  destruct (fs !! k) as [f|]; simpl; [|by case_bool_decide].
  case_bool_decide.
  - by rewrite option_guard_True.
  - by rewrite option_guard_False.
Qed.

(** [keep_functions] raises [KeyError] when a node to keep is not a
    function; otherwise it leaves the functions to keep, each with its
    calls to functions that are kept. *)
Lemma keep_functions_run kept s :
  keep_functions kept s =
  if decide (set_Forall (λ n, is_Some (functions s !! n)) kept)
  then Ok tt (set_functions (restrict_functions kept (functions s)) s)
  else Raise KeyError.
Proof.
  unfold keep_functions.
  pose proof (keep_functions_loop kept (elements kept) ∅ s
                (NoDup_elements kept)) as Hloop.
  destruct (decide (Forall _ (elements kept))) as [Hl|Hl].
  - rewrite (bind_run_Ok _ _ _ _ _ Hloop).
    unfold mbind, M_bind, get, put. cbv beta iota.
    rewrite decide_True.
    2:{ intros n Hn. rewrite Forall_forall in Hl. apply Hl.
        by apply elem_of_elements. }
    unfold put. f_equal. unfold set_functions. simpl. f_equal.
    apply map_eq. intros k.
    rewrite lookup_omap, keep_functions_acc, restrict_functions_lookup.
    rewrite (bool_decide_ext (k ∈ elements kept) (k ∈ kept))
      by apply elem_of_elements.
    case_bool_decide as Hk; [simpl|done].
    rewrite map_lookup_imap. destruct (functions s !! k); [simpl|done].
    by rewrite bool_decide_eq_true_2 by (by apply elem_of_elements).
  - rewrite (bind_run_Raise _ _ _ _ Hloop).
    rewrite decide_False; [done|]. intros Hall. apply Hl.
    apply Forall_forall. intros n Hn. by apply Hall, elem_of_elements.
Qed.

Lemma next_root_Ok s node nodes s' :
  (f ← functions_getitem node;
   fn ← the_function f;
   mret (list_to_set (keys (calls fn)) : gset nat)) s = Ok nodes s' →
  s' = s ∧ ∀ c, c ∈ nodes ↔ edge s node c.
Proof.
  intros Hrun. inv_M. split; [done|]. intros c.
  rewrite elem_of_list_to_set, elem_of_keys. unfold edge. split.
  - eauto.
  - intros (f & Hf & Hc). by simplify_eq.
Qed.

(** What a run of [prune_root] that returns has done, [V] being the set
    that the loop over the frontier has visited. *)
Lemma prune_root_Ok pop fuel roots depth s s' :
  (∀ X x, pop X = Some x → x ∈ X) →
  prune_root pop fuel roots depth s = Ok tt s' →
  ∃ V : gset nat,
    frontier_loop pop
      (λ node,
        f ← functions_getitem node;
        fn ← the_function f;
        mret (list_to_set (keys (calls fn))))
      fuel ∅ (frontier0 roots depth) s = Ok V s ∧
    (∀ n, n ∈ V ↔ is_Some (functions s' !! n)) ∧
    (∀ n, n ∈ V → is_Some (functions s !! n)) ∧
    s' = set_functions (restrict_functions V (functions s)) s.
Proof.
  intros Hpop Hrun. unfold prune_root in Hrun.
  apply bind_Ok in Hrun as (V & s1 & Hloop & Hkeep).
  assert (s1 = s) as ->.
  { by apply (frontier_loop_inv pop _ (edge s) s Hpop (next_root_Ok s)
                (λ _ _, True)) in Hloop as [-> _]. }
  rewrite keep_functions_run in Hkeep. case_decide as Hall; [|done].
  injection Hkeep as <-. exists V. split_and!; [done| |done..].
  intros n. simpl. rewrite restrict_functions_lookup.
  case_bool_decide as Hn.
  - rewrite fmap_is_Some. split; [intros _; by apply Hall|done].
  - split; [done|]. by intros [? ?].
Qed.

Lemma restrict_functions_calls V s k f' :
  (∀ n, n ∈ V ↔ is_Some (restrict_functions V (functions s) !! n)) →
  restrict_functions V (functions s) !! k = Some f' →
  ∃ f, functions s !! k = Some f ∧
    f' = set_calls
           (filter (λ kv, is_Some (restrict_functions V (functions s) !! kv.1))
                   (calls f)) f.
Proof.
  intros HV Hf'. rewrite restrict_functions_lookup in Hf'.
  case_bool_decide; [|done].
  destruct (functions s !! k) as [f|]; [|done]. simpl in Hf'.
  injection Hf' as <-. exists f. split; [done|].
  unfold restrict_calls. f_equal. apply map_filter_ext.
  intros c call _. simpl. apply HV.
Qed.

(** X6: when [prune_root] returns, whichever element [pop] takes from
    the frontier, the roots are among the functions left, and so is,
    unless the depth is 0, every function that a root calls; a function
    left is one the profile had, with those of its calls that go to a
    function left, so no call leads out of the profile; nothing else
    has changed. *)
Theorem prune_root_spec (pop : gset (nat * Z) → option (nat * Z))
    (fuel : nat) (roots : list nat) (depth : Z) (s s' : Profile) :
  (∀ X x, pop X = Some x → x ∈ X) →
  prune_root pop fuel roots depth s = Ok tt s' →
  (∀ r, r ∈ roots → is_Some (functions s' !! r)) ∧
  (depth ≠ 0%Z → ∀ r c, r ∈ roots → edge s r c → is_Some (functions s' !! c)) ∧
  (∀ k f', functions s' !! k = Some f' →
     ∃ f, functions s !! k = Some f ∧
       f' = set_calls (filter (λ kv, is_Some (functions s' !! kv.1)) (calls f)) f) ∧
  (∀ k f' c call, functions s' !! k = Some f' → calls f' !! c = Some call →
     is_Some (functions s' !! c)) ∧
  events s' = events s ∧ cycles s' = cycles s ∧
  cycle_store s' = cycle_store s ∧ stderr s' = stderr s.
Proof.
  intros Hpop Hrun.
  destruct (prune_root_Ok _ _ _ _ _ _ Hpop Hrun) as (V & Hloop & HV & Hdom & Hs').
  pose proof (frontier_loop_roots pop _ (edge s) s Hpop (next_root_Ok s)
                _ _ _ _ _ Hloop) as Hroots.
  assert (∀ k f', functions s' !! k = Some f' →
     ∃ f, functions s !! k = Some f ∧
       f' = set_calls (filter (λ kv, is_Some (functions s' !! kv.1)) (calls f)) f)
    as Hleft.
  { rewrite Hs'. simpl. intros k f'. apply restrict_functions_calls.
    intros n. rewrite HV, Hs'. done. }
  split_and!; try (by rewrite Hs').
  - intros r Hr. apply HV. by apply Hroots.
  - intros Hd r c Hr Hc. apply HV. by apply (Hroots r Hr).
  - done.
  - intros k f' c call Hf' Hc. destruct (Hleft k f' Hf') as (f & _ & ->).
    simpl in Hc. by apply map_lookup_filter_Some in Hc as [_ ?].
Qed.

Lemma pop_first_elem X x : pop_first X = Some x → x ∈ X.
Proof.
  unfold pop_first. intros Hx. apply elem_of_elements.
  destruct (elements X) as [|y l]; [done|]. injection Hx as ->. left.
Qed.

Lemma prune_root_spec_witness :
  prune_root pop_first 10 [1%nat] (-1) graph_input = Ok tt prune_root_output ∧
  is_Some (functions prune_root_output !! 1%nat) ∧
  is_Some (functions prune_root_output !! 2%nat) ∧
  functions prune_root_output !! 0%nat = None.
Proof.
  assert (prune_root pop_first 10 [1%nat] (-1) graph_input =
            Ok tt prune_root_output) as Hrun by (vm_compute; reflexivity).
  destruct (prune_root_spec _ _ _ _ _ _ pop_first_elem Hrun)
    as (Hroots & Hcallees & _).
  split; [exact Hrun|]. split; [apply Hroots; left|].
  split; [|reflexivity].
  apply (Hcallees ltac:(lia) 1%nat 2%nat); [left|].
  eexists. split; [reflexivity|]. by eexists.
Defined.



(** X8: with a depth that is not negative, every function that
    [prune_root] leaves is within that many calls of a root; with depth
    0 the functions left are the roots. *)
Theorem prune_root_depth (pop : gset (nat * Z) → option (nat * Z))
    (fuel : nat) (roots : list nat) (depth : Z) (s s' : Profile) :
  (∀ X x, pop X = Some x → x ∈ X) → (0 ≤ depth)%Z →
  prune_root pop fuel roots depth s = Ok tt s' →
  (∀ k, is_Some (functions s' !! k) →
        reach_within (edge s) roots (Z.to_nat depth) k) ∧
  (depth = 0%Z → ∀ k, is_Some (functions s' !! k) ↔ k ∈ roots).
Proof.
  intros Hpop Hdepth Hrun.
  destruct (prune_root_Ok _ _ _ _ _ _ Hpop Hrun) as (V & Hloop & HV & Hdom & Hs').
  pose proof (frontier_loop_bounded pop _ (edge s) s Hpop (next_root_Ok s)
                _ _ _ _ _ Hdepth Hloop) as Hreach.
  pose proof (frontier_loop_roots pop _ (edge s) s Hpop (next_root_Ok s)
                _ _ _ _ _ Hloop) as Hroots.
  split.
  - intros k Hk. by apply Hreach, HV.
  - intros -> k. rewrite <- HV. split; [|by apply Hroots].
    intros Hk%Hreach. by inversion Hk.
Qed.

Lemma prune_root_depth_witness :
  prune_root pop_first 10 [0%nat] 1 graph_input = Ok tt prune_root_output1 ∧
  (∀ k, is_Some (functions prune_root_output1 !! k) →
        reach_within (edge graph_input) [0%nat] 1 k) ∧
  functions prune_root_output1 !! 2%nat = None.
Proof.
  assert (prune_root pop_first 10 [0%nat] 1 graph_input =
            Ok tt prune_root_output1) as Hrun by (vm_compute; reflexivity).
  destruct (prune_root_depth pop_first 10 [0%nat] 1 _ _ pop_first_elem
              ltac:(lia) Hrun)
    as [Hreach _].
  split; [exact Hrun|]. split; [exact Hreach|reflexivity].
Defined.

(** ** [Profile.prune_leaf] *)

Lemma edgesUp_loop_lookup (f : nat) l : ∀ (edgesUp : gmap nat (gset nat)) n g,
  g ∈ default ∅ (foldl (λ edgesUp n, edgesUp_add edgesUp n f) edgesUp l !! n)
  ↔ g ∈ default ∅ (edgesUp !! n) ∨ (g = f ∧ n ∈ l).
Proof.
  induction l as [|x l IH]; intros edgesUp n g; cbn [foldl].
  - rewrite elem_of_nil. naive_solver.
  - rewrite IH. unfold edgesUp_add. rewrite elem_of_cons.
    destruct (decide (n = x)) as [->|Hne].
    + rewrite lookup_insert_eq. simpl. rewrite elem_of_union, elem_of_singleton.
      naive_solver.
    + rewrite lookup_insert_ne by done. naive_solver.
Qed.

(** The dict of the callers of every function. *)
Lemma edgesUp_run s edgesUp s' :
  for_acc (keys (functions s)) (∅ : gmap nat (gset nat))
    (λ edgesUp f,
      function ← functions_getitem f;
      fn ← the_function function;
      mret (foldl (λ edgesUp n, edgesUp_add edgesUp n f) edgesUp
                  (keys (calls fn)))) s = Ok edgesUp s' →
  s' = s ∧ ∀ n f, f ∈ default ∅ (edgesUp !! n) ↔ edge s f n.
Proof.
  intros Hrun.
  apply (for_acc_inv _ _
           (λ done edgesUp s1,
              s1 = s ∧
              ∀ n f, f ∈ default ∅ (edgesUp !! n) ↔ f ∈ done ∧ edge s f n))
    in Hrun as [-> Hup].
  - split; [done|]. intros n f. rewrite Hup, elem_of_keys.
    unfold edge. naive_solver.
  - intros done x acc s1 acc' s2 _ [-> Hacc] Hx. inv_M. split; [done|].
    intros n f. rewrite edgesUp_loop_lookup, Hacc, elem_of_app,
      list_elem_of_singleton, elem_of_keys.
    unfold edge. split.
    + intros [[? ?] | [-> ?]]; [tauto|]. split; [by right|]. eauto.
    + intros [[? | ->] Hedge]; [tauto|]. right. split; [done|].
      destruct Hedge as (f' & Hf' & Hc). by simplify_eq.
  - split; [done|]. intros n f. rewrite lookup_empty. simpl.
    rewrite elem_of_nil. set_solver.
Qed.

(** X9: when [prune_leaf] returns, whichever element [pop] takes from
    the frontier, every leaf that is a function of the profile is left;
    a function left is one the profile had, with those of its calls that
    go to a function left; with a negative depth, the default, the
    functions left are those from which calls lead to a leaf, and with a
    depth that is not negative they do so in at most that many calls. *)
Theorem prune_leaf_spec (pop : gset (nat * Z) → option (nat * Z))
    (fuel : nat) (leafs : list nat) (depth : Z) (s s' : Profile) :
  (∀ X x, pop X = Some x → x ∈ X) →
  prune_leaf pop fuel leafs depth s = Ok tt s' →
  (∀ l, l ∈ leafs → is_Some (functions s !! l) → is_Some (functions s' !! l)) ∧
  (∀ k f', functions s' !! k = Some f' →
     ∃ f, functions s !! k = Some f ∧
       f' = set_calls (filter (λ kv, is_Some (functions s' !! kv.1)) (calls f)) f) ∧
  ((depth < 0)%Z → ∀ k,
     is_Some (functions s' !! k) ↔
     is_Some (functions s !! k) ∧
     ∃ n, reach_within (λ c k, edge s k c) leafs n k) ∧
  ((0 ≤ depth)%Z → ∀ k, is_Some (functions s' !! k) →
     reach_within (λ c k, edge s k c) leafs (Z.to_nat depth) k) ∧
  events s' = events s ∧ cycles s' = cycles s ∧
  cycle_store s' = cycle_store s ∧ stderr s' = stderr s.
Proof.
  intros Hpop Hrun. unfold prune_leaf in Hrun.
  apply bind_Ok in Hrun as (s0 & s1 & [-> ->]%get_Ok & Hrun).
  apply bind_Ok in Hrun as (edgesUp & s1 & [-> Hup]%edgesUp_run & Hrun).
  apply bind_Ok in Hrun as (V & s1 & Hloop & Hrun).
  assert (∀ node nodes s2,
            (mret (default ∅ (edgesUp !! node)) : M (gset nat)) s = Ok nodes s2 →
            s2 = s ∧ ∀ c, c ∈ nodes ↔ (λ c k, edge s k c) node c) as Hnext.
  { intros node nodes s2 [<- <-]%ret_Ok. split; [done|]. intros c. apply Hup. }
  assert (s1 = s) as ->.
  { by apply (frontier_loop_inv pop _ _ s Hpop Hnext (λ _ _, True))
      in Hloop as [-> _]. }
  apply bind_Ok in Hrun as (s0 & s1 & [-> ->]%get_Ok & Hkeep).
  rewrite keep_functions_run in Hkeep. case_decide as Hall; [|done].
  injection Hkeep as <-. simpl.
  set (P := list_to_set (keys (functions s)) ∩ V) in *.
  assert (∀ n, n ∈ P ↔ is_Some (functions s !! n) ∧ n ∈ V) as HP.
  { intros n. subst P. by rewrite elem_of_intersection, elem_of_list_to_set,
      elem_of_keys. }
  assert (∀ n, n ∈ P ↔ is_Some (restrict_functions P (functions s) !! n))
    as Hleft.
  { intros n. rewrite restrict_functions_lookup. case_bool_decide as Hn.
    - rewrite fmap_is_Some. split; [intros _; by apply HP|done].
    - split; [done|]. by intros [? ?]. }
  pose proof (frontier_loop_roots pop _ _ s Hpop Hnext _ _ _ _ _ Hloop)
    as Hroots.
  split_and!; try done.
  - intros l Hl Hfun. apply Hleft, HP. split; [done|]. by apply Hroots.
  - intros k f'. by apply restrict_functions_calls.
  - intros Hdepth k. rewrite <- Hleft, HP.
    by rewrite (frontier_loop_unbounded pop _ _ s Hpop Hnext _ _ _ _ _
                  Hdepth Hloop).
  - intros Hdepth k [_ Hk]%Hleft%HP.
    by apply (frontier_loop_bounded pop _ _ s Hpop Hnext _ _ _ _ _
                Hdepth Hloop).
Qed.

Lemma prune_leaf_spec_witness :
  prune_leaf pop_first 10 [0%nat] (-1) graph_input = Ok tt prune_leaf_output ∧
  is_Some (functions prune_leaf_output !! 0%nat) ∧
  is_Some (functions prune_leaf_output !! 3%nat) ∧
  functions prune_leaf_output !! 1%nat = None.
Proof.
  assert (prune_leaf pop_first 10 [0%nat] (-1) graph_input =
            Ok tt prune_leaf_output) as Hrun by (vm_compute; reflexivity).
  destruct (prune_leaf_spec _ _ _ _ _ _ pop_first_elem Hrun)
    as (Hleafs & _ & Hneg & _).
  split; [exact Hrun|]. split; [apply Hleafs; [left|by eexists]|].
  split; [|reflexivity].
  apply (Hneg ltac:(lia)). split; [by eexists|].
  exists 1%nat. apply (reach_step _ _ _ 0%nat); [apply reach_root; left|].
  eexists. split; [reflexivity|]. by eexists.
Defined.


(** ** Running a pass twice *)

(** X10: [integrate] cannot be run twice for the same output event:
    once it has returned, a second run raises [AssertionError] at its
    first check, whatever its input event. *)
Theorem integrate_twice (fuel fuel' : nat) (outevent inevent inevent' : Event)
    (s s' : Profile) :
  integrate fuel outevent inevent s = Ok tt s' →
  integrate fuel' outevent inevent' s' = Raise AssertionError.
Proof.
  intros (_ & s2 & _ & ->)%integrate_Ok.
  unfold integrate. apply bind_run_Raise.
  destruct (integrate_sanity_cases outevent inevent'
              (set_events (<[outevent := event_total inevent s]> (events s2)) s2))
    as [Hok|Hraise]; [|done].
  apply integrate_sanity_Ok in Hok as [_ [Hout _]].
  simpl in Hout. by rewrite lookup_insert_eq in Hout.
Qed.

Lemma integrate_twice_witness :
  integrate 10 TOTAL_TIME TIME with_ratios = Ok tt integrated ∧
  integrate 10 TOTAL_TIME TIME integrated = Raise AssertionError.
Proof.
  assert (integrate 10 TOTAL_TIME TIME with_ratios = Ok tt integrated) as Hrun
    by (vm_compute; reflexivity).
  split; [exact Hrun|]. exact (integrate_twice _ 10 _ _ TIME _ _ Hrun).
Defined.

(** ** [Cycle.add_function], in general *)

(** X11: [Cycle.add_function] raises [AssertionError] for a function
    that is already a member of the cycle.  Otherwise it returns,
    whatever the cycle the function belonged to: the function becomes a
    member and points to the cycle, and nothing else changes; the
    members of its former cycle stay where they were. *)
Theorem Cycle_add_function_spec (fuel self function : nat) (s : Profile)
    (c : Cycle) (f : Function) :
  cycle_store s !! self = Some c →
  functions s !! function = Some f →
  (∀ old, cycle f = Some old → old ≠ self → is_Some (cycle_store s !! old)) →
  (function ∈ cycle_functions c →
   Cycle_add_function (S fuel) self function s = Raise AssertionError) ∧
  (function ∉ cycle_functions c →
   Cycle_add_function (S fuel) self function s =
   Ok tt (set_functions (<[function := set_cycle (Some self) f]> (functions s))
           (set_cycle_store
              (<[self := set_cycle_functions
                           ({[function]} ∪ cycle_functions c) c]>
                 (cycle_store s)) s))).
Proof.
  intros Hc Hf Hold. split.
  - intros Hin. cbn [Cycle_add_function].
    rewrite (bind_run_Ok _ _ s c s) by (by apply the_cycle_Ok).
    apply bind_run_Raise. by rewrite bool_decide_eq_false_2 by (by intros ?).
  - intros Hnin. by apply Cycle_add_function_run.
Qed.

Lemma Cycle_add_function_spec_witness :
  Cycle_add_function 2 1 1 merge_input =
    Ok tt (set_functions
             (<[1%nat := set_cycle (Some 1%nat)
                           (example_function 1 ∅ ∅ (Some 0%nat))]>
                (functions merge_input))
             (set_cycle_store
                (<[1%nat := set_cycle_functions ({[1%nat]} ∪ ∅) (mkCycle ∅ ∅)]>
                   (cycle_store merge_input)) merge_input)) ∧
  Cycle_add_function 2 0 1 merge_input = Raise AssertionError.
Proof.
  destruct (Cycle_add_function_spec 1 1 1 merge_input (mkCycle ∅ ∅)
              (example_function 1 ∅ ∅ (Some 0%nat))) as [_ Hadd];
    [reflexivity|reflexivity|intros old [= <-] _; by eexists|].
  destruct (Cycle_add_function_spec 1 0 1 merge_input
              (mkCycle ∅ {[1%nat; 2%nat]})
              (example_function 1 ∅ ∅ (Some 0%nat))) as [Hmember _];
    [reflexivity|reflexivity|by intros old [= <-] Hne|].
  split.
  - apply Hadd. simpl. set_solver.
  - apply Hmember. simpl. set_solver.
Defined.

(** ** [Profile.validate]: when it returns, and running it again *)

(** A loop whose turns all return without changing the state. *)
Lemma for_skip {A} (l : list A) (body : A → M unit) s :
  (∀ x, x ∈ l → body x s = Ok tt s) → for_ l body s = Ok tt s.
Proof.
  induction l as [|x l IH]; intros Hbody; simpl; [done|].
  rewrite (bind_run_Ok _ _ _ _ _ (Hbody x ltac:(left))).
  apply IH. intros y Hy. apply Hbody. by right.
Qed.

Lemma validate_calls_total k l : ∀ s f,
  NoDup l → functions s !! k = Some f →
  (∀ c, c ∈ l → ∃ call, calls f !! c = Some call ∧ callee_id call = c) →
  ∃ s', for_ l (validate_call k) s = Ok tt s'.
Proof.
  induction l as [|x l IH]; intros s f Hnd Hf Hl; simpl; [by eexists|].
  apply NoDup_cons in Hnd as [Hx Hnd].
  destruct (Hl x ltac:(left)) as (call & Hcall & Hid).
  assert (∃ s1 f1, validate_call k x s = Ok tt s1 ∧
            functions s1 !! k = Some f1 ∧
            ∀ c, c ≠ x → calls f1 !! c = calls f !! c) as (s1 & f1 & Hstep & Hf1 & Hc1).
  { unfold validate_call.
    rewrite (bind_run_Ok _ _ s call s) by (apply the_call_Ok; eauto).
    rewrite bool_decide_eq_true_2 by done.
    rewrite (bind_run_Ok _ _ s tt s) by done.
    rewrite (bind_run_Ok _ _ s s s) by done.
    case_bool_decide as Hreg.
    - rewrite (bind_run_Ok _ _ s f s) by (by apply the_function_Ok).
      rewrite (bind_run_Ok _ _ s tt
                 (set_stderr (stderr s ++ [UndefinedFunction x (name f)]) s))
        by (by apply write_stderr_Ok).
      exists (set_functions
                (<[k := set_calls (delete x (calls f)) f]> (functions s))
                (set_stderr (stderr s ++ [UndefinedFunction x (name f)]) s)),
             (set_calls (delete x (calls f)) f).
      split; [apply update_function_Ok; exists f; by split|].
      simpl. rewrite lookup_insert_eq. split; [done|].
      intros c Hne. by rewrite lookup_delete_ne.
    - eexists s, f. eauto. }
  rewrite (bind_run_Ok _ _ _ _ _ Hstep).
  apply (IH s1 f1 Hnd Hf1). intros c Hc.
  rewrite Hc1 by (by intros ->). apply Hl. by right.
Qed.

Lemma validate_functions_total (fs0 : gmap nat Function) l : ∀ s,
  NoDup l → calls_keyed s →
  (∀ c, is_Some (functions s !! c) ↔ is_Some (fs0 !! c)) →
  (∀ k, k ∈ l → is_Some (functions s !! k)) →
  ∃ s', for_ l validate_function s = Ok tt s'.
Proof.
  induction l as [|x l IH]; intros s Hnd Hkeyed Hdom Hl; simpl; [by eexists|].
  apply NoDup_cons in Hnd as [Hx Hnd].
  destruct (Hl x ltac:(left)) as [f Hf].
  destruct (validate_calls_total x (keys (calls f)) s f) as [s1 Hstep];
    [apply NoDup_keys|done| |].
  { intros c [call Hc]%elem_of_keys. exists call. split; [done|].
    by apply (Hkeyed x f). }
  assert (validate_function x s = Ok tt s1) as Hx1.
  { unfold validate_function.
    by rewrite (bind_run_Ok _ _ s f s) by (by apply the_function_Ok). }
  rewrite (bind_run_Ok _ _ _ _ _ Hx1).
  apply (validate_function_Ok fs0) in Hx1
    as (f0 & Hf0 & Hfs & _); [|done].
  assert (f0 = f) as -> by congruence.
  apply IH; [done| | |].
  - intros k' f' c call. rewrite Hfs. intros Hf' Hc.
    destruct (decide (k' = x)) as [->|Hne].
    + rewrite lookup_insert_eq in Hf'. injection Hf' as <-. simpl in Hc.
      rewrite registered_calls_lookup in Hc. case_decide; [|done].
      by apply (Hkeyed x f).
    + rewrite lookup_insert_ne in Hf' by done. by apply (Hkeyed k' f').
  - intros c. rewrite Hfs, lookup_insert_is_Some', <- Hdom.
    split; [intros [->|?]; eauto | eauto].
  - intros k Hk. rewrite Hfs, lookup_insert_is_Some'. right. apply Hl.
    by right.
Qed.

(** On a profile whose calls are stored under their callee ids and go
    to functions of the profile, [validate] changes nothing. *)
Lemma validate_clean s :
  (∀ k f c call, functions s !! k = Some f → calls f !! c = Some call →
     callee_id call = c ∧ is_Some (functions s !! c)) →
  validate s = Ok tt s.
Proof.
  intros Hclean. unfold validate. rewrite (bind_run_Ok _ _ s s s) by done.
  apply for_skip. intros k [f Hf]%elem_of_keys. unfold validate_function.
  rewrite (bind_run_Ok _ _ s f s) by (by apply the_function_Ok).
  apply for_skip. intros c [call Hc]%elem_of_keys.
  destruct (Hclean k f c call Hf Hc) as [Hid Hreg].
  unfold validate_call.
  rewrite (bind_run_Ok _ _ s call s) by (apply the_call_Ok; eauto).
  rewrite bool_decide_eq_true_2 by done.
  rewrite (bind_run_Ok _ _ s tt s) by done.
  rewrite (bind_run_Ok _ _ s s s) by done.
  rewrite bool_decide_eq_false_2; [done|].
  destruct Hreg as [? Hreg]. by rewrite Hreg.
Qed.

(** X12: [validate] returns exactly on the profiles whose calls are
    all stored under their callee ids, that is those a parser builds
    with [Function.add_call]; what it returns is each function with its
    calls to functions of the profile; and once it has returned, running
    it again changes nothing and writes no warning. *)
Theorem validate_returns (s : Profile) :
  (calls_keyed s ↔ ∃ s', validate s = Ok tt s') ∧
  ∀ s', validate s = Ok tt s' →
    (∀ k, functions s' !! k =
          (λ f, set_calls (registered_calls (functions s) (calls f)) f)
            <$> functions s !! k) ∧
    validate s' = Ok tt s'.
Proof.
  assert (∀ s', validate s = Ok tt s' →
    calls_keyed s ∧
    ∀ k, functions s' !! k =
         (λ f, set_calls (registered_calls (functions s) (calls f)) f)
           <$> functions s !! k) as Hinv.
  { intros s' Hrun. unfold validate in Hrun.
    apply bind_Ok in Hrun as (s0 & s1 & [-> ->]%get_Ok & Hrun).
    apply (validate_functions_run (functions s)) in Hrun
      as (Hfs & Hids & _); [|apply NoDup_keys|done].
    split.
    - intros k f c call Hf Hc. apply (Hids k f c call); [|done..].
      apply elem_of_keys. eauto.
    - intros k. rewrite Hfs. destruct (functions s !! k) eqn:Hk; [simpl|done].
      rewrite bool_decide_eq_true_2; [done|]. apply elem_of_keys. eauto. }
  split; [split|].
  - intros Hkeyed. unfold validate. rewrite (bind_run_Ok _ _ s s s) by done.
    apply (validate_functions_total (functions s));
      [apply NoDup_keys|done|done|].
    intros k. by rewrite elem_of_keys.
  - intros [s' Hrun]. by apply Hinv in Hrun as [? _].
  - intros s' Hrun. destruct (Hinv s' Hrun) as [Hkeyed Hfs].
    split; [done|]. apply validate_clean.
    intros k f' c call. rewrite Hfs.
    destruct (functions s !! k) as [f|] eqn:Hf; [|done].
    simpl. intros [= <-]. simpl. rewrite registered_calls_lookup.
    case_decide as Hreg; [|done]. intros Hc.
    split; [by apply (Hkeyed k f)|].
    rewrite Hfs. by rewrite fmap_is_Some.
Qed.

Lemma validate_returns_witness :
  validate raw_input = Ok tt validated ∧
  validate validated = Ok tt validated ∧
  calls_keyed raw_input.
Proof.
  assert (validate raw_input = Ok tt validated) as Hrun
    by (vm_compute; reflexivity).
  destruct (validate_returns raw_input) as [Hiff Hagain].
  split; [exact Hrun|]. split; [by apply Hagain|].
  apply Hiff. by eexists.
Defined.

(** ** [Profile.prune]: the functions it removes *)

Lemma same_node_refl f : same_node f f.
Proof. by repeat split. Qed.

Lemma same_node_trans f1 f2 f3 :
  same_node f1 f2 → same_node f2 f3 → same_node f1 f3.
Proof. unfold same_node. intros ? ?. split_and!; naive_solver congruence. Qed.

Lemma same_node_set_calls cs f : same_node f (set_calls cs f).
Proof. by repeat split. Qed.

Lemma same_node_set_weight w f : same_node f (set_weight w f).
Proof. by repeat split. Qed.

Lemma nodes_kept_refl s : nodes_kept s s.
Proof. intros k f Hf. eauto using same_node_refl. Qed.

Lemma nodes_kept_trans s1 s2 s3 :
  nodes_kept s1 s2 → nodes_kept s2 s3 → nodes_kept s1 s3.
Proof.
  intros H12 H23 k f3 Hf3.
  destruct (H23 k f3 Hf3) as (f2 & Hf2 & ?).
  destruct (H12 k f2 Hf2) as (f1 & Hf1 & ?).
  eauto using same_node_trans.
Qed.

Lemma nodes_kept_update_function k f g s :
  functions s !! k = Some f → same_node f (g f) →
  nodes_kept s (set_functions (<[k := g f]> (functions s)) s).
Proof.
  intros Hf Hg k' f'. simpl. destruct (decide (k' = k)) as [->|Hne].
  - rewrite lookup_insert_eq. intros [= <-]. eauto.
  - rewrite lookup_insert_ne by done. eauto using same_node_refl.
Qed.

Lemma nodes_kept_delete k s :
  nodes_kept s (set_functions (delete k (functions s)) s).
Proof.
  intros k' f'. simpl. intros [_ Hf']%lookup_delete_Some.
  eauto using same_node_refl.
Qed.

Lemma prune_weight_same f f' :
  same_node f f' → weight f' = weight f ∨ weight f' = prune_weight f →
  prune_weight f' = prune_weight f.
Proof.
  intros (_ & _ & _ & _ & _ & _ & _ & Hev) Hw. unfold prune_weight in *.
  rewrite Hev. destruct (function_events f !! TOTAL_TIME_RATIO); [done|].
  by destruct Hw.
Qed.

Lemma weights_set_refl s : weights_set s s.
Proof.
  intros k. destruct (functions s !! k); [|done].
  split; [apply same_node_refl|by left].
Qed.

Lemma weights_set_trans s1 s2 s3 :
  weights_set s1 s2 → weights_set s2 s3 → weights_set s1 s3.
Proof.
  intros H12 H23 k. specialize (H12 k). specialize (H23 k).
  destruct (functions s1 !! k) as [f1|], (functions s2 !! k) as [f2|],
    (functions s3 !! k) as [f3|]; try done.
  destruct H12 as [Hn12 Hw12], H23 as [Hn23 Hw23].
  split; [by eapply same_node_trans|].
  rewrite (prune_weight_same _ _ Hn12 Hw12) in Hw23.
  destruct Hw23 as [-> | ->]; [done|by right].
Qed.

Lemma weights_set_update_function k f g s :
  functions s !! k = Some f → same_node f (g f) →
  weight (g f) = weight f ∨ weight (g f) = prune_weight f →
  weights_set s (set_functions (<[k := g f]> (functions s)) s).
Proof.
  intros Hf Hn Hw k'. simpl. destruct (decide (k' = k)) as [->|Hne].
  - by rewrite lookup_insert_eq, Hf.
  - rewrite lookup_insert_ne by done. apply weights_set_refl.
Qed.

Lemma weighed_mono k s s' : weights_set s s' → weighed k s → weighed k s'.
Proof.
  intros Hs Hk f' v Hf' Hv. specialize (Hs k). rewrite Hf' in Hs.
  destruct (functions s !! k) as [f|] eqn:Hf; [|done].
  destruct Hs as [Hn Hw].
  assert (function_events f !! TOTAL_TIME_RATIO = Some v) as Hv'
    by (by destruct Hn as (_ & _ & _ & _ & _ & _ & _ & <-)).
  destruct Hw as [-> | ->]; [by apply (Hk f)|].
  unfold prune_weight. by rewrite Hv'.
Qed.

Lemma prune_weights_Ok s s' :
  prune_weights s = Ok tt s' →
  ∀ k, match functions s !! k, functions s' !! k with
       | Some f, Some f' => same_node f f' ∧ weight f' = prune_weight f
       | None, None => True
       | _, _ => False
       end.
Proof.
  unfold prune_weights. intros Hrun.
  apply bind_Ok in Hrun as (s0 & s1 & [-> ->]%get_Ok & Hrun).
  apply (for_establish weights_set weighed) in Hrun as [Hset Hweighed];
    [|apply weights_set_refl|apply weights_set_trans|
     intros x s1 s2; apply weighed_mono|].
  - intros k. specialize (Hset k).
    destruct (functions s !! k) as [f|] eqn:Hf,
      (functions s' !! k) as [f'|] eqn:Hf'; try done.
    destruct Hset as [Hn Hw]. split; [done|].
    assert (k ∈ keys (functions s)) as Hk by (apply elem_of_keys; eauto).
    specialize (Hweighed k Hk f').
    unfold prune_weight in *.
    destruct Hn as (_ & _ & _ & _ & _ & _ & _ & Hev). rewrite Hev in Hweighed.
    destruct (function_events f !! TOTAL_TIME_RATIO) as [v|]; [eauto|].
    by destruct Hw.
  - intros k s1 s3 _ Hk.
    apply bind_Ok in Hk as (f & s2 & [Hf ->]%the_function_Ok & Hk).
    apply bind_Ok in Hk as ([] & s2 & Hw & Hk).
    assert (weights_set s1 s2 ∧ weighed k s2) as [Hs2 Hk2].
    { destruct (function_events f !! TOTAL_TIME_RATIO) as [v|] eqn:Hv.
      - apply update_function_Ok in Hw as (f0 & Hf0 & ->).
        assert (f0 = f) as -> by congruence. split.
        + apply (weights_set_update_function k f (set_weight (Some v)));
            [done|apply same_node_set_weight|].
          right. unfold prune_weight. by rewrite Hv.
        + intros f' v'. simpl. rewrite lookup_insert_eq. intros [= <-].
          simpl. congruence.
      - apply ret_Ok in Hw as [_ <-]. split; [apply weights_set_refl|].
        intros f' v' Hf' Hv'. congruence. }
    apply bind_Ok in Hk as (f2 & s4 & [Hf2 ->]%the_function_Ok & Hk).
    revert Hk.
    apply (for_preserves (λ s4, weights_set s1 s4 ∧ weighed k s4)); [|done].
    intros c s4 s5 _ [Hs4 Hk4] Hc.
    assert (weights_set s4 s5) as Hs45.
    { inv_all; try apply weights_set_refl;
        by apply (weights_set_update_function _ _ (set_calls _));
          [|apply same_node_set_calls|left]. }
    split; [by eapply weights_set_trans|by eapply weighed_mono].
Qed.

(** [prune_nodes] deletes the functions whose weight is below the
    threshold, and only those. *)
Lemma prune_nodes_Ok node_thres s s' :
  prune_nodes node_thres s = Ok tt s' →
  ∀ k, functions s' !! k =
       match functions s !! k with
       | Some f =>
         match weight f with
         | Some w => if Qltb w node_thres then None else Some f
         | None => Some f
         end
       | None => None
       end.
Proof.
  unfold prune_nodes. intros Hrun.
  apply bind_Ok in Hrun as (s0 & s1 & [-> ->]%get_Ok & Hrun).
  assert (∀ k, functions s' !! k =
            if bool_decide (k ∈ keys (functions s)) then
              match functions s !! k with
              | Some f =>
                match weight f with
                | Some w => if Qltb w node_thres then None else Some f
                | None => Some f
                end
              | None => None
              end
            else functions s !! k) as Hfinal.
  2:{ intros k. rewrite Hfinal. case_bool_decide as Hk; [done|].
      destruct (functions s !! k) eqn:Hf; [|done].
      exfalso. apply Hk, elem_of_keys. eauto. }
  refine (for_inv (keys (functions s)) _
           (λ (done : list nat) s1, ∀ k, functions s1 !! k =
              if bool_decide (k ∈ done) then
                match functions s !! k with
                | Some f =>
                  match weight f with
                  | Some w => if Qltb w node_thres then None else Some f
                  | None => Some f
                  end
                | None => None
                end
              else functions s !! k) _ s s' _ Hrun).
  - intros done x s1 s2 [rest Hl] HI Hx k.
    assert (x ∉ done) as Hnew.
    { pose proof (NoDup_keys (functions s)) as Hnd. rewrite Hl in Hnd.
      rewrite <- app_assoc in Hnd. apply NoDup_app in Hnd as (_ & Hnd & _).
      intros Hin. apply (Hnd x Hin). left. }
    assert (functions s1 !! x = functions s !! x) as Hsame.
    { rewrite HI. by rewrite bool_decide_eq_false_2. }
    apply bind_Ok in Hx as (x' & s3 & (_ & -> & ->)%functions_getitem_Ok & Hx).
    apply bind_Ok in Hx as (f & s3 & [Hf ->]%the_function_Ok & Hx).
    rewrite Hsame in Hf.
    assert (functions s2 !! k =
            if bool_decide (k = x) then
              match weight f with
              | Some w => if Qltb w node_thres then None else Some f
              | None => Some f
              end
            else functions s1 !! k) as ->.
    { case_bool_decide as Hkx.
      - subst k. destruct (weight f) as [w|];
          [destruct (Qltb w node_thres)|].
        + injection Hx as <-. simpl. apply lookup_delete_eq.
        + apply ret_Ok in Hx as [_ <-]. congruence.
        + apply ret_Ok in Hx as [_ <-]. congruence.
      - destruct (weight f) as [w|];
          [destruct (Qltb w node_thres)|].
        + injection Hx as <-. simpl. by apply lookup_delete_ne.
        + by apply ret_Ok in Hx as [_ <-].
        + by apply ret_Ok in Hx as [_ <-]. }
    rewrite HI. case_bool_decide as Hkx.
    + subst k. rewrite bool_decide_eq_true_2
        by (rewrite elem_of_app, list_elem_of_singleton; auto).
      by rewrite Hf.
    + apply (f_equal (λ b : bool, if b then _ else _)).
      apply bool_decide_ext.
      rewrite elem_of_app, list_elem_of_singleton. naive_solver.
  - intros k. by rewrite bool_decide_eq_false_2 by apply not_elem_of_nil.
Qed.

Lemma prune_paths_nodes_kept paths s s' :
  prune_paths paths s = Ok tt s' →
  nodes_kept s s' ∧ (paths = [] → s' = s).
Proof.
  unfold prune_paths. intros Hrun.
  apply bind_Ok in Hrun as (s0 & s1 & [-> ->]%get_Ok & Hrun). split.
  - revert Hrun. apply for_preserves; [|apply nodes_kept_refl].
    intros k s1 s2 _ Hs1 Hk. inv_all; try done;
      unfold delete_function in *; simplify_eq;
      (eapply nodes_kept_trans; [done|]); apply nodes_kept_delete.
  - intros ->.
    by apply (for_pure (λ _, True)) in Hrun as [-> _];
      [|intros k s2 _ Hk; simpl in Hk; by inv_M].
Qed.

Lemma prune_edges_nodes_kept t s s' :
  prune_edges t s = Ok tt s' → nodes_kept s s'.
Proof.
  unfold prune_edges. intros Hrun.
  apply bind_Ok in Hrun as (s0 & s1 & [-> ->]%get_Ok & Hrun).
  revert Hrun. apply for_preserves; [|apply nodes_kept_refl].
  intros k s1 s2 _ Hs1 Hk.
  apply bind_Ok in Hk as (f & s3 & [Hf ->]%the_function_Ok & Hk).
  revert Hk. apply for_preserves; [|done].
  intros c s3 s4 _ Hs3 Hc. unfold prune_edge in Hc. inv_all; [|done].
  eapply nodes_kept_trans; [done|].
  by apply (nodes_kept_update_function _ _ (λ f, set_calls _ f));
    [|apply same_node_set_calls].
Qed.

Lemma prune_recolor_nodes_kept s s' :
  prune_recolor s = Ok tt s' → nodes_kept s s'.
Proof.
  unfold prune_recolor. intros Hrun.
  apply bind_Ok in Hrun as (s0 & s1 & [-> ->]%get_Ok & Hrun).
  apply bind_Ok in Hrun as (weights & s1 & Hw & Hrun).
  assert (nodes_kept s s1) as Hs1.
  { revert Hw. apply for_acc_preserves; [|apply nodes_kept_refl].
    intros k acc s2 acc' s3 _ Hs2 Hk. by inv_all. }
  revert Hrun. apply for_preserves; [|done].
  intros k s2 s3 _ Hs2 Hk. inv_all; try done.
  eapply nodes_kept_trans; [done|].
  by apply (nodes_kept_update_function _ _ (set_weight _));
    [|apply same_node_set_weight].
Qed.

(** X13: a function that [prune] leaves is one the profile had, with
    its events, name, module and file name, and it does not weigh less
    than the node threshold, its weight being its [TOTAL_TIME_RATIO], or
    the weight it had when it has none.  When no paths are given, these
    are all the functions left: exactly the functions below the
    threshold are removed. *)
Theorem prune_nodes_spec (node_thres edge_thres : Q) (paths : list string)
    (color_nodes_by_selftime : bool) (s s' : Profile) :
  prune node_thres edge_thres paths color_nodes_by_selftime s = Ok tt s' →
  (∀ k f', functions s' !! k = Some f' →
     ∃ f, functions s !! k = Some f ∧ same_node f f' ∧ ¬ below node_thres f) ∧
  (paths = [] → ∀ k f, functions s !! k = Some f → ¬ below node_thres f →
     is_Some (functions s' !! k)).
Proof.
  unfold prune. intros Hrun.
  apply bind_Ok in Hrun as ([] & s1 & H1 & Hrun).
  pose proof (prune_weights_Ok _ _ H1) as H1'. clear H1. rename H1' into H1.
  apply bind_Ok in Hrun as ([] & s2 & H2 & Hrun).
  pose proof (prune_nodes_Ok _ _ _ H2) as H2'. clear H2. rename H2' into H2.
  apply bind_Ok in Hrun as ([] & s3 & [H3 H3']%prune_paths_nodes_kept & Hrun).
  apply bind_Ok in Hrun as ([] & s4 & H4 & Hrun).
  pose proof (prune_edges_nodes_kept _ _ _ H4) as H4n.
  apply prune_edges_Ok in H4 as [[H4d _] _].
  assert (nodes_kept s4 s' ∧
          ∀ k, is_Some (functions s' !! k) ↔ is_Some (functions s4 !! k))
    as [H5 H5d].
  { destruct color_nodes_by_selftime.
    - split; [by apply prune_recolor_nodes_kept|].
      intros k. by apply same_calls_is_Some, prune_recolor_same_calls.
    - apply ret_Ok in Hrun as [_ <-]. split; [apply nodes_kept_refl|done]. }
  split.
  - intros k f' Hf'.
    destruct (nodes_kept_trans _ _ _ H3 (nodes_kept_trans _ _ _ H4n H5) k f' Hf')
      as (f2 & Hf2 & Hn2).
    rewrite H2 in Hf2. specialize (H1 k).
    destruct (functions s !! k) as [f|] eqn:Hf,
      (functions s1 !! k) as [f1|] eqn:Hf1; try done.
    destruct H1 as [Hn1 Hw1]. exists f. split; [done|].
    assert (f2 = f1 ∧ ¬ below node_thres f) as [-> Hnb].
    { unfold below. rewrite <- Hw1.
      destruct (weight f1) as [w|] eqn:Hw;
        [destruct (Qltb w node_thres) eqn:Hlt|]; simplify_eq.
      - split; [done|]. intros (w' & [= <-] & Hlt').
        apply Qltb_ge in Hlt. lra.
      - split; [done|]. by intros (w' & ? & _). }
    split; [by eapply same_node_trans|done].
  - intros -> k f Hf Hnb. rewrite H5d, H4d, (H3' eq_refl), H2.
    specialize (H1 k). rewrite Hf in H1.
    destruct (functions s1 !! k) as [f1|] eqn:Hf1; [|done].
    destruct H1 as [_ Hw1].
    destruct (weight f1) as [w|] eqn:Hw; [|done].
    destruct (Qltb w node_thres) eqn:Hlt; [|done].
    exfalso. apply Hnb. exists w. split; [congruence|by apply Qltb_lt].
Qed.

Lemma prune_nodes_spec_witness :
  prune (5 # 1000) (1 # 1000) [] false prune_input = Ok tt prune_output ∧
  is_Some (functions prune_output !! 1%nat) ∧
  functions prune_output !! 2%nat = None.
Proof.
  assert (prune (5 # 1000) (1 # 1000) [] false prune_input = Ok tt prune_output)
    as Hrun by (vm_compute; reflexivity).
  destruct (prune_nodes_spec _ _ _ _ _ _ Hrun) as [_ Hleft].
  split; [exact Hrun|]. split; [|reflexivity].
  apply (Hleft eq_refl 1%nat (example_function 1 {[TOTAL_TIME_RATIO := 6 # 10]} ∅ None));
    [reflexivity|].
  intros (w & [= <-] & Hlt). vm_compute in Hlt. discriminate Hlt.
Defined.

(** ** From [Profile.ratio] and [call_ratios] to [integrate] *)

Lemma events_kept_refl s : events_kept s s.
Proof.
  split; [done|]. intros k f Hf. exists f. split_and!; [done..|].
  intros c call Hc. eauto.
Qed.

Lemma events_kept_trans s1 s2 s3 :
  events_kept s1 s2 → events_kept s2 s3 → events_kept s1 s3.
Proof.
  intros [He12 H12] [He23 H23]. split; [congruence|].
  intros k f3 Hf3.
  destruct (H23 k f3 Hf3) as (f2 & Hf2 & Hid2 & Hev2 & Hc2).
  destruct (H12 k f2 Hf2) as (f1 & Hf1 & Hid1 & Hev1 & Hc1).
  exists f1. split_and!; [done|congruence..|].
  intros c call3 Hcall3.
  destruct (Hc2 c call3 Hcall3) as (call2 & Hcall2 & ? & ?).
  destruct (Hc1 c call2 Hcall2) as (call1 & Hcall1 & ? & ?).
  exists call1. split_and!; [done|congruence..].
Qed.

Lemma events_kept_stderr w s : events_kept s (set_stderr w s).
Proof. destruct (events_kept_refl s) as [? H]. split; [done|exact H]. Qed.

Lemma events_kept_update_call k c f call g s :
  functions s !! k = Some f → calls f !! c = Some call →
  callee_id (g call) = callee_id call →
  call_events (g call) = call_events call →
  events_kept s
    (set_functions
       (<[k := set_calls (<[c := g call]> (calls f)) f]> (functions s)) s).
Proof.
  intros Hf Hc Hid Hev. split; [done|]. intros k' f'. simpl.
  destruct (decide (k' = k)) as [->|Hne].
  - rewrite lookup_insert_eq. intros [= <-]. exists f.
    split_and!; [done..|]. intros c' call'. simpl.
    destruct (decide (c' = c)) as [->|Hnc].
    + rewrite lookup_insert_eq. intros [= <-]. eauto.
    + rewrite lookup_insert_ne by done. eauto.
  - rewrite lookup_insert_ne by done. intros Hf'.
    by apply (events_kept_refl s).
Qed.

Lemma call_ratios_events_kept event s s' :
  call_ratios event s = Ok tt s' → events_kept s s'.
Proof.
  unfold call_ratios. intros Hrun.
  apply bind_Ok in Hrun as (s0 & s1 & [-> ->]%get_Ok & Hrun).
  apply bind_Ok in Hrun as ([ft ct] & s1 & Hpass1 & Hrun).
  assert (events_kept s s1) as Hs1.
  { unfold call_ratios_pass1 in Hpass1.
    apply bind_Ok in Hpass1 as (s0 & s2 & [-> ->]%get_Ok & Hpass1).
    revert Hpass1. apply for_acc_preserves; [|apply events_kept_refl].
    intros k acc s2 acc' s3 _ Hs2 Hk.
    apply bind_Ok in Hk as (f & s4 & [Hf ->]%the_function_Ok & Hk).
    revert Hk. apply for_acc_preserves; [|done].
    intros c [ft' ct'] s4 acc4 s5 _ Hs4 Hc. by inv_all. }
  unfold call_ratios_pass2 in Hrun.
  apply bind_Ok in Hrun as (s0 & s2 & [-> ->]%get_Ok & Hrun).
  revert Hrun. apply for_preserves; [|done].
  intros k s2 s3 _ Hs2 Hk.
  apply bind_Ok in Hk as (f & s4 & [Hf ->]%the_function_Ok & Hk).
  revert Hk. apply for_preserves; [|done].
  intros c s4 s5 _ Hs4 Hc.
  apply bind_Ok in Hc as (call & s6 & [(f4 & Hf4 & Hcall) ->]%the_call_Ok & Hc).
  apply bind_Ok in Hc as (f5 & s6 & [Hf5 ->]%the_function_Ok & Hc).
  apply bind_Ok in Hc as ([] & s6 & [_ <-]%assert_Ok & Hc).
  case_bool_decide; [|by apply ret_Ok in Hc as [_ <-]].
  apply bind_Ok in Hc as (callee & s6 & (_ & -> & ->)%functions_getitem_Ok & Hc).
  apply bind_Ok in Hc as (cf & s6 & [_ ->]%the_function_Ok & Hc).
  eapply events_kept_trans; [done|].
  destruct (call_events call !! event) as [v|].
  - apply bind_Ok in Hc as (total & s6 & Htotal & Hc).
    assert (s6 = s4) as ->.
    { destruct (entered_cycle f5 cf);
        by apply dict_getitem_Ok in Htotal as [_ ->]. }
    apply bind_Ok in Hc as (r & s6 & [_ [w ->]]%ratio_Ok & Hc).
    apply update_call_Ok in Hc as (f6 & call6 & Hf6 & Hc6 & ->).
    eapply events_kept_trans; [apply (events_kept_stderr (stderr s4 ++ w))|].
    by apply (events_kept_update_call _ _ _ _ (set_call_ratio _)).
  - apply update_call_Ok in Hc as (f6 & call6 & Hf6 & Hc6 & ->).
    by apply (events_kept_update_call _ _ _ _ (set_call_ratio _)).
Qed.

(** [integrate]'s checks pass on a profile that meets them. *)
Lemma integrate_sanity_run outevent inevent s :
  sanity_ok outevent inevent s →
  integrate_sanity outevent inevent s = Ok tt s.
Proof.
  intros [Hp Hfs]. unfold integrate_sanity.
  rewrite (bind_run_Ok _ _ s s s) by done.
  rewrite (bool_decide_eq_true_2 (events s !! outevent = None)) by done.
  rewrite (bind_run_Ok _ _ s tt s) by done.
  apply for_skip. intros k [f Hf]%elem_of_keys.
  destruct (Hfs k f Hf) as (Hout & Hin & Hcalls).
  rewrite (bind_run_Ok _ _ s f s) by (by apply the_function_Ok).
  rewrite (bool_decide_eq_true_2 (function_events f !! outevent = None))
    by done.
  rewrite (bind_run_Ok _ _ s tt s) by done.
  rewrite (bool_decide_eq_true_2 (is_Some (function_events f !! inevent)))
    by done.
  rewrite (bind_run_Ok _ _ s tt s) by done.
  apply for_skip. intros c [call Hc]%elem_of_keys.
  destruct (Hcalls c call Hc) as [Hcout Hratio].
  rewrite (bind_run_Ok _ _ s call s) by (apply the_call_Ok; eauto).
  rewrite (bool_decide_eq_true_2 (call_events call !! outevent = None))
    by done.
  rewrite (bind_run_Ok _ _ s tt s) by done.
  case_bool_decide as Hself; [|done].
  by rewrite bool_decide_eq_true_2 by auto.
Qed.

Lemma ratio_function_other total outevent inevent e f :
  e ≠ outevent →
  function_events (ratio_function total outevent inevent f) !! e =
  function_events f !! e.
Proof.
  intros He. unfold ratio_function.
  destruct (function_events f !! inevent); [simpl|done].
  by rewrite lookup_insert_ne.
Qed.

Lemma ratio_function_calls_other total outevent inevent e f c call' :
  e ≠ outevent →
  calls (ratio_function total outevent inevent f) !! c = Some call' →
  ∃ call, calls f !! c = Some call ∧
    call_events call' !! e = call_events call !! e.
Proof.
  intros He. unfold ratio_function.
  destruct (function_events f !! inevent); [simpl|eauto].
  rewrite lookup_fmap. destruct (calls f !! c) as [call|]; [|done].
  simpl. intros [= <-]. exists call. split; [done|].
  unfold ratio_call. destruct (call_events call !! inevent); [simpl|done].
  by rewrite lookup_insert_ne.
Qed.

(** X14: the passes fit together as the parsers chain them.  Once
    [Profile.ratio] has computed the input event of [integrate] and
    [call_ratios] has returned, all the checks that [integrate] starts
    with pass, provided the output event is defined nowhere: the ratio
    gives every function the input event, and [call_ratios] gives every
    call to another function a ratio. *)
Theorem ratio_call_ratios_sanity (outevent inevent e1 e2 : Event)
    (s s1 s2 : Profile) :
  Profile_ratio inevent e1 s = Ok tt s1 →
  call_ratios e2 s1 = Ok tt s2 →
  outevent ≠ inevent →
  events s !! outevent = None →
  (∀ k f, functions s !! k = Some f →
     function_events f !! outevent = None ∧
     ∀ c call, calls f !! c = Some call →
               call_events call !! outevent = None) →
  sanity_ok outevent inevent s2 ∧
  integrate_sanity outevent inevent s2 = Ok tt s2.
Proof.
  intros Hratio Hcr Hne Hp Hfs.
  apply Profile_ratio_Ok in Hratio as (total & _ & Hev1 & Hfs1 & Hrange & _).
  pose proof (call_ratios_events_kept _ _ _ Hcr) as [Hev2 Hkept].
  assert (sanity_ok outevent inevent s2) as Hsane;
    [|by split; [|apply integrate_sanity_run]].
  split.
  - by rewrite Hev2, Hev1, lookup_insert_ne.
  - intros k f2 Hf2.
    destruct (Hkept k f2 Hf2) as (f1 & Hf1 & Hid & Hfev & Hcalls).
    destruct (Hrange k f1 Hf1) as [(r & Hr & _) _].
    rewrite Hfs1 in Hf1.
    destruct (functions s !! k) as [f|] eqn:Hf; [|done].
    simpl in Hf1. injection Hf1 as <-.
    destruct (Hfs k f Hf) as [Hfout Hcout].
    rewrite Hfev. split_and!.
    + by rewrite ratio_function_other.
    + eauto.
    + intros c call2 Hc2.
      destruct (Hcalls c call2 Hc2) as (call1 & Hc1 & Hcid & Hcev).
      destruct (ratio_function_calls_other _ _ _ outevent _ _ _ Hne Hc1)
        as (call & Hc & Hout).
      split; [rewrite Hcev, Hout; eauto|].
      intros Hself.
      unfold call_ratios in Hcr.
      apply bind_Ok in Hcr as (s0 & s3 & [-> ->]%get_Ok & Hcr).
      apply bind_Ok in Hcr as ([ft ct] & s3 & _ & Hcr).
      destruct (call_ratios_pass2_Ok _ _ _ _ _ Hcr k f2 c call2 Hf2 Hc2)
        as [Hgood _].
      destruct (Hgood Hself) as (r' & -> & _). eauto.
Qed.

Lemma ratio_call_ratios_sanity_witness :
  Profile_ratio TIME_RATIO TIME pipeline_input = Ok tt pipeline_ratio ∧
  call_ratios CALLS pipeline_ratio = Ok tt pipeline_call_ratios ∧
  integrate_sanity TOTAL_TIME_RATIO TIME_RATIO pipeline_call_ratios =
    Ok tt pipeline_call_ratios.
Proof.
  assert (Profile_ratio TIME_RATIO TIME pipeline_input = Ok tt pipeline_ratio)
    as Hratio by (vm_compute; reflexivity).
  assert (call_ratios CALLS pipeline_ratio = Ok tt pipeline_call_ratios)
    as Hcr by (vm_compute; reflexivity).
  split; [exact Hratio|]. split; [exact Hcr|].
  apply (ratio_call_ratios_sanity TOTAL_TIME_RATIO _ _ _ _ _ _ Hratio Hcr);
    [done|reflexivity|].
  apply (bool_decide_unpack _). vm_compute. exact I.
Defined.


(** ** [integrate] on a call graph without cycles *)




Lemma integrated_total_app T f acc l1 l2 :
  integrated_total T f acc (l1 ++ l2) =
  integrated_total T f (integrated_total T f acc l1) l2.
Proof. apply foldl_app. Qed.





Section dag.
Context (outevent inevent : Event) (s0 : Profile) (rank : nat → nat).
Hypothesis Hsane : sanity_ok outevent inevent s0.
Hypothesis Hacyclic : ∀ k f, functions s0 !! k = Some f → cycle f = None.
Hypothesis Hdag : dag rank s0.






















End dag.



(** ** [find_cycles] on a call graph without cycles *)

Section tarjan_dag.
Context (rank : nat → nat) (s : Profile).
Hypothesis Hkeyed : functions_keyed s.
Hypothesis Hdag : dag rank s.

(** The loop of [_tarjan] over the calls of the function [k], which is
    on top of the stack. *)
Lemma tarjan_calls_dag fuel k f o stack :
  tarjan_contract rank s fuel →
  functions s !! k = Some f → (rank k ≤ fuel)%nat →
  (∀ j, j ∈ stack → (rank k < rank j)%nat) →
  ∀ l order' data,
    (∀ c, c ∈ l → is_Some (calls f !! c)) →
    (o < order')%nat →
    data !! id f = Some (mkTarjanData o o true) →
    tarjan_settled (stack ++ [k]) data →
    ∃ order'' data',
      for_acc l (order', stack ++ [k], data)
        (λ '(order', stack, data) c,
           call ← the_call k c;
           match data !! callee_id call with
           | Some callee_data =>
             if onstack callee_data then
               func_data ← the_data data (id f);
               mret (order', stack,
                     <[id f := set_lowlink (Nat.min (lowlink func_data)
                                              (order callee_data))
                                 func_data]> data)
             else mret (order', stack, data)
           | None =>
             callee ← functions_getitem (callee_id call);
             '(order', stack, data) ←
               _tarjan fuel callee order' stack data;
             callee_data ← dict_getitem data (callee_id call);
             func_data ← the_data data (id f);
             mret (order', stack,
                   <[id f := set_lowlink (Nat.min (lowlink func_data)
                                            (lowlink callee_data))
                               func_data]> data)
           end) s = Ok (order'', stack ++ [k], data') s ∧
      (order' ≤ order'')%nat ∧
      data' !! id f = Some (mkTarjanData o o true) ∧
      tarjan_settled (stack ++ [k]) data' ∧
      data ⊆ data'.
Proof.
  intros HT Hf Hfuel Hstack. pose proof (Hkeyed k f Hf) as Hid.
  induction l as [|c l IH]; intros order' data Hl Ho Hk Hdata.
  { exists order', data. by split_and!. }
  destruct (Hl c ltac:(left)) as [call Hc].
  (* one turn of the loop *)
  assert (∃ order1 data1,
    (call ← the_call k c;
     match data !! callee_id call with
     | Some callee_data =>
       if onstack callee_data then
         func_data ← the_data data (id f);
         mret (order', stack ++ [k],
               <[id f := set_lowlink (Nat.min (lowlink func_data)
                                        (order callee_data))
                           func_data]> data)
       else mret (order', stack ++ [k], data)
     | None =>
       callee ← functions_getitem (callee_id call);
       '(order', stack, data) ←
         _tarjan fuel callee order' (stack ++ [k]) data;
       callee_data ← dict_getitem data (callee_id call);
       func_data ← the_data data (id f);
       mret (order', stack,
             <[id f := set_lowlink (Nat.min (lowlink func_data)
                                      (lowlink callee_data))
                         func_data]> data)
     end) s = Ok (order1, stack ++ [k], data1) s ∧
    (order' ≤ order1)%nat ∧
    data1 !! id f = Some (mkTarjanData o o true) ∧
    tarjan_settled (stack ++ [k]) data1 ∧
    data ⊆ data1) as (order1 & data1 & Hturn & Ho1 & Hk1 & Hdata1 & Hsub1).
  { rewrite (bind_run_Ok _ _ s call s) by (apply the_call_Ok; eauto).
    destruct (data !! callee_id call) as [callee_data|] eqn:Hcallee.
    - destruct (onstack callee_data) eqn:Hon;
        [|exists order', data; by split_and!].
      (* on the stack: the call is of the function to itself *)
      assert (callee_id call = id f) as Hself.
      { destruct (decide (callee_id call = id f)) as [|Hne]; [done|].
        destruct (Hdag k f Hf c call Hc Hne) as [_ Hrank].
        destruct (Hdata _ _ Hcallee) as [_ Hin].
        apply Hin, elem_of_app in Hon as [Hin'|Hin'%list_elem_of_singleton].
        - apply Hstack in Hin'. lia.
        - congruence. }
      rewrite Hself, Hk in Hcallee. injection Hcallee as <-.
      unfold the_data. rewrite Hk.
      exists order', data. split_and!; [|done..].
      unfold mbind, M_bind, mret, M_ret. cbn [lowlink order].
      rewrite Nat.min_id. unfold set_lowlink. cbn [lowlink order onstack].
      by rewrite insert_id.
    - (* no entry: the call is to another function, of lower rank *)
      assert (callee_id call ≠ id f) as Hne by congruence.
      destruct (Hdag k f Hf c call Hc Hne) as [[fc Hfc] Hrank].
      rewrite (bind_run_Ok _ _ s (callee_id call) s)
        by (apply functions_getitem_Ok; eauto).
      destruct (HT (callee_id call) fc order' (stack ++ [k]) data Hfc
                  ltac:(lia)) as (order1 & data1 & Hrun & Ho1 & Hdata1 &
                                  Hsub & dc & Hdc & Hnew); [|done|].
      { intros j [Hj|Hj%list_elem_of_singleton]%elem_of_app.
        - apply Hstack in Hj. lia.
        - by rewrite Hj. }
      rewrite (bind_run_Ok _ _ _ _ _ Hrun). cbv beta iota.
      rewrite (bind_run_Ok _ _ s dc s)
        by (unfold dict_getitem; by rewrite Hdc).
      assert (data1 !! id f = Some (mkTarjanData o o true)) as Hk1
        by (by apply (lookup_weaken data)).
      unfold the_data. rewrite Hk1.
      exists order1, data1. split_and!; [|done..].
      unfold mbind, M_bind, mret, M_ret. cbn [lowlink order].
      destruct (Hdata1 _ _ Hdc) as [Hlow _]. specialize (Hnew Hcallee).
      rewrite Nat.min_l by lia. unfold set_lowlink.
      cbn [lowlink order onstack]. by rewrite insert_id. }
  destruct (IH order1 data1) as (order2 & data2 & Hrun & Ho2 & Hk2 & Hdata2 &
                                 Hsub2); [|lia|done..|].
  { intros c' Hc'. apply Hl. by right. }
  exists order2, data2. split_and!; [|lia|done..|by etrans].
  cbn [for_acc]. erewrite bind_run_Ok; [exact Hrun|]. exact Hturn.
Qed.

Lemma tarjan_settled_off stack k d data :
  tarjan_settled (stack ++ [k]) data → data !! k = Some d →
  lowlink d = order d →
  tarjan_settled stack (<[k := set_onstack false d]> data).
Proof.
  intros Hdata Hk Hlow j d'. destruct (decide (j = k)) as [->|Hj].
  - rewrite lookup_insert_eq. intros [= <-]. by split.
  - rewrite lookup_insert_ne by done. intros Hd'.
    destruct (Hdata j d' Hd') as [? Hin]. split; [done|]. intros Hon.
    apply Hin, elem_of_app in Hon as [?|?%list_elem_of_singleton]; done.
Qed.

(** [_tarjan], from [_tarjan] with less fuel. *)
Lemma tarjan_dag_step fuel :
  tarjan_contract rank s fuel → tarjan_contract rank s (S fuel).
Proof.
  intros HT k f order' stack data Hf Hfuel Hstack Hdata.
  pose proof (Hkeyed k f Hf) as Hid. cbn [_tarjan].
  rewrite (bind_run_Ok _ _ s f s) by (by apply the_function_Ok).
  destruct (data !! id f) as [d|] eqn:Hd.
  { exists order', data. split_and!; [done..|].
    exists d. rewrite <- Hid. split; [done|congruence]. }
  cbv zeta.
  rewrite (bind_run_Ok _ _ s (mkTarjanData order' order' false) s)
    by (unfold the_data; by rewrite lookup_insert_eq).
  rewrite insert_insert_eq. unfold set_onstack. cbn [order lowlink].
  destruct (tarjan_calls_dag fuel k f order' stack HT Hf ltac:(lia) Hstack
              (keys (calls f)) (S order')
              (<[id f := mkTarjanData order' order' true]> data))
    as (order1 & data1 & Hrun & Ho1 & Hk1 & Hdata1 & Hsub).
  - intros c. by rewrite elem_of_keys.
  - lia.
  - by rewrite lookup_insert_eq.
  - intros j d. destruct (decide (j = id f)) as [->|Hj].
    + rewrite lookup_insert_eq. intros [= <-]. split; [done|]. intros _.
      rewrite Hid. set_solver.
    + rewrite lookup_insert_ne by done. intros Hj'.
      destruct (Hdata j d Hj') as [? Hin]. split; [done|]. set_solver.
  - rewrite (bind_run_Ok _ _ _ _ _ Hrun). cbv beta iota.
    rewrite (bind_run_Ok _ _ s (mkTarjanData order' order' true) s)
      by (unfold the_data; by rewrite Hk1).
    cbn [lowlink order]. rewrite Nat.eqb_refl.
    rewrite drop_app_length, take_app_length. cbn [length].
    change (1 <? 1)%nat with false. cbv iota.
    assert (for_acc [k] data1 off_stack s =
            Ok (<[id f := mkTarjanData order' order' false]> data1) s)
      as Hoff.
    { cbn [for_acc]. erewrite bind_run_Ok; [reflexivity|].
      unfold off_stack.
      rewrite (bind_run_Ok _ _ s f s) by (by apply the_function_Ok).
      rewrite (bind_run_Ok _ _ s (mkTarjanData order' order' true) s)
        by (unfold dict_getitem; by rewrite Hk1).
      done. }
    rewrite (bind_run_Ok _ _ _ _ _ Hoff).
    eexists order1, _. split; [reflexivity|]. split_and!.
    + lia.
    + rewrite Hid in *.
      by apply (tarjan_settled_off stack k (mkTarjanData order' order' true)).
    + apply map_subseteq_spec. intros j d Hj.
      assert (j ≠ id f) as Hne by congruence.
      rewrite lookup_insert_ne by done.
      apply (lookup_weaken (<[id f := mkTarjanData order' order' true]> data));
        [|done].
      by rewrite lookup_insert_ne.
    + eexists. rewrite <- Hid at 1. rewrite lookup_insert_eq.
      split; [done|]. intros _. simpl. lia.
Qed.

Lemma tarjan_dag fuel : tarjan_contract rank s fuel.
Proof.
  induction fuel as [|fuel IH]; [|by apply tarjan_dag_step].
  intros k f order' stack data _ ?. lia.
Qed.

(** The first loop of [find_cycles]. *)
Lemma find_cycles_loop_dag fuel l : ∀ order' data,
  (∀ k, k ∈ l → is_Some (functions s !! k) ∧ (rank k < fuel)%nat) →
  tarjan_settled [] data →
  ∃ order'' data',
    for_acc l (order', [], data)
      (λ '(order', stack, data) function,
         _tarjan fuel function order' stack data) s =
      Ok (order'', [], data') s.
Proof.
  induction l as [|k l IH]; intros order' data Hl Hdata; [by eexists _, _|].
  destruct (Hl k ltac:(left)) as [[f Hf] Hfuel].
  destruct (tarjan_dag fuel k f order' [] data Hf Hfuel)
    as (order1 & data1 & Hrun & _ & Hdata1 & _); [set_solver|done|].
  destruct (IH order1 data1) as (order2 & data2 & Hloop); [|done|].
  { intros k' Hk'. apply Hl. by right. }
  exists order2, data2. cbn [for_acc].
  by rewrite (bind_run_Ok _ _ _ _ _ Hrun).
Qed.

End tarjan_dag.

(** The second loop of [find_cycles] on functions that are in no cycle. *)
Lemma find_cycles_none l s :
  (∀ k, k ∈ l → ∃ f, functions s !! k = Some f ∧ cycle f = None) →
  for_acc l [] (λ cycles function,
    f ← the_function function;
    match cycle f with
    | Some cy =>
      if bool_decide (cy ∉ cycles) then mret (cycles ++ [cy])
      else mret cycles
    | None => mret cycles
    end) s = Ok [] s.
Proof.
  induction l as [|k l IH]; intros Hl; [done|].
  destruct (Hl k ltac:(left)) as (f & Hf & Hcy). cbn [for_acc].
  rewrite (bind_run_Ok _ _ s [] s).
  - apply IH. intros k' Hk'. apply Hl. by right.
  - rewrite (bind_run_Ok _ _ s f s) by (by apply the_function_Ok).
    by rewrite Hcy.
Qed.

(** X16: on a profile whose functions are stored under their ids and
    are in no cycle yet, and whose calls to other functions go to
    functions of the profile, down along a rank, [find_cycles] returns
    with enough fuel for the ranks, finds no cycle and changes nothing:
    a function that calls itself does not make a cycle. *)
Theorem find_cycles_dag (fuel : nat) (rank : nat → nat) (s : Profile) :
  functions_keyed s → dag rank s →
  (∀ k f, functions s !! k = Some f → cycle f = None) →
  (∀ k f, functions s !! k = Some f → (rank k < fuel)%nat) →
  find_cycles fuel s = Ok tt (set_cycles [] s).
Proof.
  intros Hkeyed Hdag Hacyclic Hfuel. unfold find_cycles.
  rewrite (bind_run_Ok _ _ s s s) by done.
  destruct (find_cycles_loop_dag rank s Hkeyed Hdag fuel (keys (functions s))
              0%nat ∅) as (order' & data & Hloop).
  { intros k [f Hf]%elem_of_keys. split; [eauto|]. by apply (Hfuel k f). }
  { intros j d. by rewrite lookup_empty. }
  rewrite (bind_run_Ok _ _ _ _ _ Hloop).
  rewrite (bind_run_Ok _ _ s s s) by done.
  rewrite (bind_run_Ok _ _ s [] s).
  - by rewrite (bind_run_Ok _ _ s s s) by done.
  - apply find_cycles_none. intros k [f Hf]%elem_of_keys. eauto.
Qed.

Lemma find_cycles_dag_witness :
  find_cycles 10 diamond_input = Ok tt (set_cycles [] diamond_input).
Proof.
  apply (find_cycles_dag 10 diamond_rank diamond_input).
  - apply (bool_decide_unpack _). vm_compute. exact I.
  - apply (bool_decide_unpack _). vm_compute. exact I.
  - apply (bool_decide_unpack _). vm_compute. exact I.
  - apply (bool_decide_unpack _). vm_compute. exact I.
Defined.

(** ** [find_cycles]: the list of cycles *)

(** X17: when [find_cycles] returns, the list of cycles of the profile
    holds no cycle twice, and it holds exactly the cycles that the
    functions of the profile are in. *)
Theorem find_cycles_list (fuel : nat) (s s' : Profile) :
  find_cycles fuel s = Ok tt s' →
  NoDup (cycles s') ∧
  ∀ cy, cy ∈ cycles s' ↔
        ∃ k f, functions s' !! k = Some f ∧ cycle f = Some cy.
Proof.
  unfold find_cycles. intros Hrun.
  apply bind_Ok in Hrun as (s0 & s1 & [-> ->]%get_Ok & Hrun).
  apply bind_Ok in Hrun as (r & s1 & _ & Hrun).
  apply bind_Ok in Hrun as (s0 & s2 & [-> ->]%get_Ok & Hrun).
  apply bind_Ok in Hrun as (cs & s2 & Hloop & Hrun).
  apply bind_Ok in Hrun as (s0 & s3 & [-> ->]%get_Ok & Hrun).
  injection Hrun as <-. simpl.
  apply (for_acc_inv _ _ (λ (done : list nat) (cycles : list nat) st,
           st = s1 ∧ NoDup cycles ∧
           ∀ cy, cy ∈ cycles ↔
             ∃ k f, k ∈ done ∧ functions s1 !! k = Some f ∧
                    cycle f = Some cy)) in Hloop
    as (-> & Hnd & Hcs).
  - split; [done|]. intros cy. rewrite Hcs. split.
    + intros (k & f & _ & ? & ?). eauto.
    + intros (k & f & Hf & ?). exists k, f. split; [|done].
      apply elem_of_keys. eauto.
  - intros done k cycles st cycles' st' _ (-> & Hnd & Hcs) Hk.
    apply bind_Ok in Hk as (f & s0 & [Hf ->]%the_function_Ok & Hk).
    assert (∀ cy, (∃ k' f', k' ∈ done ++ [k] ∧ functions s1 !! k' = Some f' ∧
                            cycle f' = Some cy) ↔
                  cy ∈ cycles ∨ cycle f = Some cy) as Hsnoc.
    { intros cy. rewrite Hcs. split.
      - intros (k' & f' & [Hk'|Hk'%list_elem_of_singleton]%elem_of_app &
                Hf' & Hcy); [left; eauto|].
        right. congruence.
      - intros [(k' & f' & ? & ? & ?)|Hcy].
        + exists k', f'. split; [set_solver|done].
        + exists k, f. split; [set_solver|done]. }
    destruct (cycle f) as [cy|] eqn:Hcy.
    + case_bool_decide as Hnew; apply ret_Ok in Hk as [<- <-].
      * split; [done|]. split.
        -- apply NoDup_app. split; [done|]. split; [|apply NoDup_singleton].
           intros x Hx ->%list_elem_of_singleton. done.
        -- intros cy'. rewrite Hsnoc, elem_of_app, list_elem_of_singleton.
           split; intros [?|?]; auto; right; congruence.
      * split; [done|]. split; [done|]. intros cy'. rewrite Hsnoc.
        split; [auto|]. intros [?|[= <-]]; [done|].
        by destruct (decide (cy ∈ cycles)).
    + apply ret_Ok in Hk as [<- <-]. split; [done|]. split; [done|].
      intros cy'. rewrite Hsnoc. naive_solver.
  - split; [done|]. split; [apply NoDup_nil_2|]. intros cy. split.
    + by intros ?%elem_of_nil.
    + by intros (k & f & ?%elem_of_nil & _).
Qed.

Lemma find_cycles_list_witness :
  find_cycles 10 loop_input = Ok tt loop_output ∧
  NoDup (cycles loop_output) ∧
  ∀ cy, cy ∈ cycles loop_output ↔
        ∃ k f, functions loop_output !! k = Some f ∧ cycle f = Some cy.
Proof.
  assert (find_cycles 10 loop_input = Ok tt loop_output) as Hrun
    by (vm_compute; reflexivity).
  split; [exact Hrun|]. exact (find_cycles_list _ _ _ Hrun).
Defined.

(** ** [find_cycles]: the members of the cycles *)

Lemma off_stack_Ok data member data' s s' :
  off_stack data member s = Ok data' s' →
  ∃ f d, functions s !! member = Some f ∧ data !! id f = Some d ∧
         data' = <[id f := set_onstack false d]> data ∧ s' = s.
Proof.
  unfold off_stack. intros Hrun.
  apply bind_Ok in Hrun as (f & s0 & [Hf ->]%the_function_Ok & Hrun).
  apply bind_Ok in Hrun as (d & s0 & [Hd ->]%dict_getitem_Ok & Hrun).
  apply ret_Ok in Hrun as [<- <-]. eauto 10.
Qed.

Lemma the_data_Ok data key d s s' :
  the_data data key s = Ok d s' → data !! key = Some d ∧ s' = s.
Proof.
  unfold the_data. destruct (data !! key); [|done]. by intros [= -> ->].
Qed.

Lemma new_cycle_Ok cy s s' :
  new_cycle s = Ok cy s' →
  cycle_store s !! cy = None ∧
  s' = set_cycle_store (<[cy := mkCycle ∅ ∅]> (cycle_store s)) s.
Proof.
  unfold new_cycle. intros [= <- <-]. split; [|done].
  apply not_elem_of_dom, is_fresh.
Qed.

(** [Cycle.add_function] on a function that is in no cycle. *)
Lemma Cycle_add_function_None_Ok fuel self function f s s' :
  functions s !! function = Some f → cycle f = None →
  Cycle_add_function fuel self function s = Ok tt s' →
  ∃ c, cycle_store s !! self = Some c ∧ (function ∉ cycle_functions c) ∧
    s' = set_functions
           (<[function := set_cycle (Some self) f]> (functions s))
           (set_cycle_store
              (<[self := set_cycle_functions
                           ({[function]} ∪ cycle_functions c) c]>
                 (cycle_store s)) s).
Proof.
  intros Hf Hcy Hrun. destruct fuel as [|fuel]; [done|].
  assert (∃ c, cycle_store s !! self = Some c ∧
               function ∉ cycle_functions c) as (c & Hc & Hnin).
  { cbn [Cycle_add_function] in Hrun.
    apply bind_Ok in Hrun as (c & s0 & [Hc ->]%the_cycle_Ok & Hrun).
    apply bind_Ok in Hrun as ([] & s0 & [Hnin _]%assert_Ok & _).
    exists c. split; [done|]. by apply bool_decide_eq_true in Hnin. }
  rewrite (Cycle_add_function_run fuel self function s c f Hc Hnin Hf)
    in Hrun by (intros old; congruence).
  injection Hrun as <-. eauto.
Qed.

Lemma tarjan_inv_insert s stack data key d :
  tarjan_inv s stack data → tarjan_inv s stack (<[key := d]> data).
Proof.
  intros (Hexact & Hnd & Hstack & Hnone). split_and!; [done..| |].
  - intros m Hm. destruct (Hstack m Hm) as (f & Hf & Hcy & Hd).
    exists f. split_and!; [done..|]. rewrite lookup_insert_is_Some'. auto.
  - intros k f Hf [Hd _]%lookup_insert_None. by apply (Hnone k f).
Qed.

Lemma tarjan_inv_take s stack members data :
  tarjan_inv s (stack ++ members) data → tarjan_inv s stack data.
Proof.
  intros (Hexact & Hnd & Hstack & Hnone). split_and!; [done| | |done].
  - by apply NoDup_app in Hnd as (? & _).
  - intros m Hm. apply Hstack. set_solver.
Qed.

Lemma tarjan_inv_push s stack data k f d :
  functions s !! k = Some f → data !! id f = None →
  tarjan_inv s stack data →
  tarjan_inv s (stack ++ [k]) (<[id f := d]> data).
Proof.
  intros Hf Hd (Hexact & Hnd & Hstack & Hnone). split_and!; [done| | |].
  - apply NoDup_app. split; [done|]. split; [|apply NoDup_singleton].
    intros m Hm ->%list_elem_of_singleton.
    destruct (Hstack k Hm) as (f' & Hf' & _ & [? Hd']).
    assert (f' = f) as -> by congruence. congruence.
  - intros m [Hm|Hm%list_elem_of_singleton]%elem_of_app.
    + destruct (Hstack m Hm) as (f' & Hf' & Hcy & Hd').
      exists f'. split_and!; [done..|]. rewrite lookup_insert_is_Some'. auto.
    + subst m. exists f. split_and!; [done|by apply (Hnone k)|].
      rewrite lookup_insert_eq. eauto.
  - intros k' f' Hf' [Hd' _]%lookup_insert_None. by apply (Hnone k' f').
Qed.

Lemma tarjan_inv_new_cycle s stack data cy :
  cycle_store s !! cy = None → tarjan_inv s stack data →
  tarjan_inv (set_cycle_store (<[cy := mkCycle ∅ ∅]> (cycle_store s)) s)
    stack data.
Proof.
  intros Hcy ([Hin Hexact] & Hnd & Hstack & Hnone).
  split_and!; [split| done..].
  - intros k f cy' Hf Hcy'. simpl. rewrite lookup_insert_is_Some'. right.
    by apply (Hin k f).
  - intros cy' c. simpl. destruct (decide (cy' = cy)) as [->|Hne].
    + rewrite lookup_insert_eq. intros [= <-] m. simpl. split; [set_solver|].
      intros (f & Hf & Hpoints). destruct (Hin m f cy Hf Hpoints) as [? ?].
      congruence.
    + rewrite lookup_insert_ne by done. apply Hexact.
Qed.

(** One turn of the loop of [_tarjan] over the members of a new cycle:
    the member on top of what is left of the stack goes into the cycle. *)
Lemma tarjan_inv_add fuel cy s stack m rest data data' s' :
  tarjan_inv s (stack ++ m :: rest) data →
  (Cycle_add_function fuel cy m ;; off_stack data m) s = Ok data' s' →
  tarjan_inv s' (stack ++ rest) data'.
Proof.
  intros ([Hin Hexact] & Hnd & Hstack & Hnone) Hrun.
  destruct (Hstack m ltac:(set_solver)) as (f & Hf & Hcy & Hd).
  apply bind_Ok in Hrun as ([] & s1 & Hadd & Hoff).
  apply (Cycle_add_function_None_Ok _ _ _ f) in Hadd
    as (c & Hc & Hnin & ->); [|done..].
  apply off_stack_Ok in Hoff as (f' & d & Hf' & Hd' & -> & ->).
  simpl in Hf'. rewrite lookup_insert_eq in Hf'. injection Hf' as <-.
  simpl in Hd'. apply tarjan_inv_insert.
  assert (m ∉ stack ++ rest) as Hm.
  { apply NoDup_app in Hnd as (_ & Hnd1 & Hnd2).
    apply NoDup_cons in Hnd2 as [? _].
    intros [?|?]%elem_of_app; [|done]. apply (Hnd1 m); [done|left]. }
  split_and!; [split| | |].
  - intros k f' cy'. simpl. destruct (decide (k = m)) as [->|Hne].
    + rewrite lookup_insert_eq. intros [= <-] [= <-].
      by rewrite lookup_insert_eq.
    + rewrite lookup_insert_ne by done. intros Hf' Hcy'.
      rewrite lookup_insert_is_Some'. right. by apply (Hin k f').
  - intros cy' c'. simpl. destruct (decide (cy' = cy)) as [->|Hne].
    + rewrite lookup_insert_eq. intros [= <-] m'. simpl.
      destruct (decide (m' = m)) as [->|Hne'].
      * rewrite lookup_insert_eq. split; [eauto|set_solver].
      * rewrite lookup_insert_ne by done. rewrite <- (Hexact cy c Hc).
        set_solver.
    + rewrite lookup_insert_ne by done. intros Hc' m'.
      rewrite (Hexact cy' c' Hc'). destruct (decide (m' = m)) as [->|Hne'].
      * rewrite lookup_insert_eq. split.
        -- intros (f' & ? & ?). congruence.
        -- intros (f' & [= <-] & [= ?]). done.
      * by rewrite lookup_insert_ne.
  - apply NoDup_app in Hnd as (Hnd0 & Hnd1 & Hnd2).
    apply NoDup_cons in Hnd2 as [? ?]. apply NoDup_app. split; [done|].
    split; [|done]. intros x Hx Hx'. apply (Hnd1 x Hx). by right.
  - intros m' Hm'. simpl. rewrite lookup_insert_ne by (by intros ->).
    apply Hstack. set_solver.
  - intros k f'. simpl. destruct (decide (k = m)) as [->|Hne].
    + rewrite lookup_insert_eq. intros [= <-]. simpl. intros Hnone'.
      destruct Hd as [? Hd]. congruence.
    + rewrite lookup_insert_ne by done. apply Hnone.
Qed.

Lemma tarjan_inv_members fuel cy members : ∀ s stack data data' s',
  tarjan_inv s (stack ++ members) data →
  for_acc members data (λ data member,
    Cycle_add_function fuel cy member ;; off_stack data member) s =
    Ok data' s' →
  tarjan_inv s' stack data'.
Proof.
  induction members as [|m members IH]; intros s stack data data' s' Hinv Hrun.
  - apply ret_Ok in Hrun as [<- <-]. by rewrite app_nil_r in Hinv.
  - cbn [for_acc] in Hrun.
    apply bind_Ok in Hrun as (data1 & s1 & Hm & Hrun).
    apply (IH s1 stack data1); [|done].
    by apply (tarjan_inv_add fuel cy s stack m members data).
Qed.

Lemma tarjan_inv_off members : ∀ s stack data data' s',
  tarjan_inv s stack data →
  for_acc members data off_stack s = Ok data' s' →
  tarjan_inv s' stack data'.
Proof.
  induction members as [|m members IH]; intros s stack data data' s' Hinv Hrun.
  - by apply ret_Ok in Hrun as [<- <-].
  - cbn [for_acc] in Hrun.
    apply bind_Ok in Hrun as (data1 & s1 & Hm & Hrun).
    apply off_stack_Ok in Hm as (f & d & _ & _ & -> & ->).
    apply (IH s _ _ _ _ (tarjan_inv_insert _ _ _ _ _ Hinv) Hrun).
Qed.

(** [_tarjan] keeps the invariant. *)
Lemma tarjan_inv_rec fuel : ∀ k order' stack data s order'' stack' data' s',
  tarjan_inv s stack data →
  _tarjan fuel k order' stack data s = Ok (order'', stack', data') s' →
  tarjan_inv s' stack' data'.
Proof.
  induction fuel as [|fuel IH];
    intros k order' stack data s order'' stack' data' s' Hinv Hrun; [done|].
  cbn [_tarjan] in Hrun.
  apply bind_Ok in Hrun as (f & s0 & [Hf ->]%the_function_Ok & Hrun).
  destruct (data !! id f) as [d|] eqn:Hd.
  { by apply ret_Ok in Hrun as [[= <- <- <-] <-]. }
  cbv zeta in Hrun.
  apply bind_Ok in Hrun as (fd & s0 & [_ ->]%the_data_Ok & Hrun).
  rewrite insert_insert_eq in Hrun.
  apply bind_Ok in Hrun as ([[order1 stack1] data1] & s1 & Hloop & Hrun).
  assert (tarjan_inv s1 stack1 data1) as Hinv1.
  { revert Hloop.
    apply (for_acc_inv _ _
             (λ _ (acc : nat * list nat * gmap nat TarjanData) st,
                tarjan_inv st acc.1.2 acc.2)).
    - intros _ c [[o st] d] s2 [[o' st'] d'] s3 _ Hinv2 Hc. simpl in *.
      apply bind_Ok in Hc as (call & s0 & [_ ->]%the_call_Ok & Hc).
      destruct (d !! callee_id call) as [callee_data|].
      + destruct (onstack callee_data).
        * apply bind_Ok in Hc as (fd' & s0 & [_ ->]%the_data_Ok & Hc).
          apply ret_Ok in Hc as [[= <- <- <-] <-].
          by apply tarjan_inv_insert.
        * by apply ret_Ok in Hc as [[= <- <- <-] <-].
      + apply bind_Ok in Hc
          as (callee & s0 & (_ & -> & ->)%functions_getitem_Ok & Hc).
        apply bind_Ok in Hc as ([[o1 st1] d1] & s4 & Hrec & Hc).
        apply IH in Hrec; [|done].
        apply bind_Ok in Hc as (cd & s0 & [_ ->]%dict_getitem_Ok & Hc).
        apply bind_Ok in Hc as (fd' & s0 & [_ ->]%the_data_Ok & Hc).
        apply ret_Ok in Hc as [[= <- <- <-] <-].
        by apply tarjan_inv_insert.
    - simpl. by apply tarjan_inv_push. }
  cbv beta iota in Hrun.
  apply bind_Ok in Hrun as (fd1 & s0 & [_ ->]%the_data_Ok & Hrun).
  destruct (lowlink fd1 =? order fd1)%nat;
    [|by apply ret_Ok in Hrun as [[= <- <- <-] <-]].
  rewrite <- (take_drop (length stack) stack1) in Hinv1.
  destruct (1 <? length (drop (length stack) stack1))%nat.
  - apply bind_Ok in Hrun as (cy & s2 & [Hfresh ->]%new_cycle_Ok & Hrun).
    apply bind_Ok in Hrun as (data2 & s3 & Hmembers & Hrun).
    apply ret_Ok in Hrun as [[= <- <- <-] <-].
    apply (tarjan_inv_members _ _ _ _ _ _ _ _
             (tarjan_inv_new_cycle _ _ _ _ Hfresh Hinv1) Hmembers).
  - apply bind_Ok in Hrun as (data2 & s3 & Hmembers & Hrun).
    apply ret_Ok in Hrun as [[= <- <- <-] <-].
    apply (tarjan_inv_off _ _ _ _ _ _ (tarjan_inv_take _ _ _ _ Hinv1)
             Hmembers).
Qed.

(** X18: on a profile whose functions are in no cycle yet, and whose
    cycles, if it has any, have no members, what [find_cycles] returns
    is consistent: every function that is in a cycle points to a cycle
    of the profile, and a cycle holds exactly the functions that point
    to it, so that no function is in two cycles. *)
Theorem find_cycles_exact (fuel : nat) (s s' : Profile) :
  cycles_exact s →
  (∀ k f, functions s !! k = Some f → cycle f = None) →
  find_cycles fuel s = Ok tt s' →
  cycles_exact s' ∧ cycles_consistent s'.
Proof.
  intros Hexact Hnone Hrun.
  assert (cycles_exact s') as Hexact'.
  2:{ split; [done|]. destruct Hexact' as [_ Hmembers].
      intros k f cy c m fm Hf Hcy Hc Hm Hfm.
      apply (Hmembers cy c Hc) in Hm as (fm' & ? & ?). congruence. }
  unfold find_cycles in Hrun.
  apply bind_Ok in Hrun as (s0 & s1 & [-> ->]%get_Ok & Hrun).
  apply bind_Ok in Hrun as ([[order' stack] data] & s1 & Hloop & Hrun).
  assert (tarjan_inv s1 stack data) as (Hexact1 & _).
  { revert Hloop.
    apply (for_acc_inv _ _
             (λ _ (acc : nat * list nat * gmap nat TarjanData) st,
                tarjan_inv st acc.1.2 acc.2)).
    - intros _ k [[o st] d] s2 [[o' st'] d'] s3 _ Hinv Hk. simpl in *.
      by apply (tarjan_inv_rec fuel k o st d s2 o').
    - simpl. split_and!; [done|apply NoDup_nil_2| |].
      + by intros m ?%elem_of_nil.
      + intros k f Hf _. by apply (Hnone k). }
  apply bind_Ok in Hrun as (s0 & s2 & [-> ->]%get_Ok & Hrun).
  apply bind_Ok in Hrun as (cs & s2 & Hcs & Hrun).
  assert (s2 = s1) as ->.
  { revert Hcs. apply (for_acc_preserves (λ st, st = s1)); [|done].
    intros k acc s3 acc' s4 _ -> Hk.
    apply bind_Ok in Hk as (f & s0 & [_ ->]%the_function_Ok & Hk).
    destruct (cycle f); [case_bool_decide|];
      by apply ret_Ok in Hk as [_ <-]. }
  apply bind_Ok in Hrun as (s0 & s3 & [-> ->]%get_Ok & Hrun).
  injection Hrun as <-. exact Hexact1.
Qed.

Lemma find_cycles_exact_witness :
  find_cycles 10 loop_input = Ok tt loop_output ∧
  cycles_exact loop_output ∧ cycles_consistent loop_output.
Proof.
  assert (find_cycles 10 loop_input = Ok tt loop_output) as Hrun
    by (vm_compute; reflexivity).
  split; [exact Hrun|].
  apply (find_cycles_exact 10 loop_input loop_output); [| |exact Hrun].
  - split; [|by intros cy c ?]. intros k f cy Hf Hcy.
    assert (cycle f = None) as Hnone; [|congruence].
    clear Hcy. revert k f Hf. apply (bool_decide_unpack _). vm_compute.
    exact I.
  - apply (bool_decide_unpack _). vm_compute. exact I.
Defined.

(** * Properties of the passes on Python's numbers *)

(** From here on the names are those of [Binary64]. *)

Import SpecFloat PrimFloat FloatOps FloatAxioms.
Import Binary64.

(** ** Floats *)

Lemma SFcompare_antisym x y :
  SFcompare y x = option_map CompOpp (SFcompare x y).
Proof.
  destruct x as [[]|[]| |[] m1 e1], y as [[]|[]| |[] m2 e2]; try reflexivity;
    simpl; rewrite (Z.compare_antisym e2 e1);
    destruct (e2 ?= e1)%Z; simpl; try reflexivity;
    change (PosDef.Pos.compare_cont Eq m2 m1) with (Pos.compare_cont Eq m2 m1);
    change (PosDef.Pos.compare_cont Eq m1 m2) with (Pos.compare_cont Eq m1 m2);
    rewrite (Pos.compare_cont_antisym m1 m2 Eq); simpl;
    by rewrite ?CompOpp_involutive.
Qed.

Lemma SFcompare_refl x : x ≠ S754_nan → SFcompare x x = Some Eq.
Proof.
  destruct x as [[]|[]| |[] m e]; try done; intros _; simpl;
    rewrite Z.compare_refl;
    change (PosDef.Pos.compare_cont Eq m m) with (Pos.compare m m);
    by rewrite Pos.compare_refl.
Qed.

Lemma SFcompare_None x y :
  SFcompare x y = None ↔ x = S754_nan ∨ y = S754_nan.
Proof.
  destruct x as [[]|[]| |[] m1 e1], y as [[]|[]| |[] m2 e2]; simpl;
    split; try done; try tauto; intros [?|?]; done.
Qed.

Lemma is_nan_spec x : is_nan x = true ↔ Prim2SF x = S754_nan.
Proof.
  unfold is_nan. rewrite negb_true_iff, eqb_spec. unfold SFeqb. split.
  - intros H. destruct (Prim2SF x) as [[]|[]| |[] m e] eqn:Hx; try done;
      by rewrite SFcompare_refl in H.
  - by intros ->.
Qed.

Lemma is_nan_false x : is_nan x = false ↔ Prim2SF x ≠ S754_nan.
Proof. by rewrite <- is_nan_spec, not_true_iff_false. Qed.

Lemma is_nan_eq x : is_nan x = true → x = nan.
Proof. intros H%is_nan_spec. by apply Prim2SF_inj. Qed.

(** Of two floats that are not NaN, one is less than the other or the
    other is at most the one. *)
Lemma ltb_false_leb x y :
  is_nan x = false → is_nan y = false →
  (x <? y)%float = false → (y <=? x)%float = true.
Proof.
  rewrite !is_nan_false, ltb_spec, leb_spec. unfold SFltb, SFleb.
  intros Hx Hy. rewrite (SFcompare_antisym (Prim2SF x) (Prim2SF y)).
  destruct (SFcompare (Prim2SF x) (Prim2SF y)) as [[]|] eqn:Hc; try done.
  apply SFcompare_None in Hc. tauto.
Qed.

Lemma ltb_nan_l x y : is_nan x = true → (x <? y)%float = false.
Proof. intros ->%is_nan_eq. by rewrite ltb_spec. Qed.

Lemma ltb_nan_r x y : is_nan y = true → (x <? y)%float = false.
Proof.
  intros ->%is_nan_eq. rewrite ltb_spec. unfold SFltb.
  replace (SFcompare (Prim2SF x) (Prim2SF nan)) with (@None comparison); [done|].
  symmetry. apply SFcompare_None. by right.
Qed.

(** The tests of [ratio], in the order of their constants. *)
Lemma ltb_neg_tol q : (q <? - tol)%float = true → (q <? 0)%float = true.
Proof.
  rewrite !ltb_spec. unfold SFltb.
  change (Prim2SF (- tol)) with (S754_finite true 4503599627370496 (-75)).
  change (Prim2SF 0) with (S754_zero false).
  by destruct (Prim2SF q) as [[]|[]| |[] m e].
Qed.

Lemma ltb_one_tol q : (1 + tol <? q)%float = true → (1 <? q)%float = true.
Proof.
  rewrite !ltb_spec. unfold SFltb.
  change (Prim2SF (1 + tol)) with (S754_finite false 4503600164241408 (-52)).
  change (Prim2SF 1) with (S754_finite false 4503599627370496 (-52)).
  destruct (Prim2SF q) as [[]|[]| |[] m e]; try done. cbv [SFcompare].
  destruct (-52 ?= e)%Z; try done.
  change (PosDef.Pos.compare_cont Eq ?a ?b) with (Pos.compare a b).
  destruct (4503600164241408 ?= m)%positive eqn:Hm; [done| |done]. intros _.
  pose proof (proj1 (Pos.compare_lt_iff _ _) Hm) as Hlt.
  assert (4503599627370496 < m)%positive as ->%Pos.compare_lt_iff by lia. done.
Qed.

Lemma ltb_one_zero q : (1 <? q)%float = true → (q <? 0)%float = false.
Proof.
  rewrite !ltb_spec. unfold SFltb.
  change (Prim2SF 1) with (S754_finite false 4503599627370496 (-52)).
  change (Prim2SF 0) with (S754_zero false).
  by destruct (Prim2SF q) as [[]|[]| |[] m e].
Qed.

Lemma b64_clamp01_range q :
  is_nan q = false →
  (0 <=? clamp01 q)%float = true ∧ (clamp01 q <=? 1)%float = true.
Proof.
  intros Hq. unfold clamp01. destruct (q <? 0)%float eqn:H0; [done|].
  destruct (1 <? q)%float eqn:H1; [done|].
  split; by apply ltb_false_leb.
Qed.

Lemma b64_clamp01_nan q : is_nan q = true → clamp01 q = nan.
Proof.
  intros Hq. unfold clamp01. rewrite (ltb_nan_l _ _ Hq), (ltb_nan_r _ _ Hq).
  by apply is_nan_eq.
Qed.

(** ** Running a computation on Python's numbers *)

Lemma b64_bind_Ok {A B} (m : M A) (k : A → M B) s b s' :
  (m ≫= k) s = Ok b s' ↔ ∃ a s1, m s = Ok a s1 ∧ k a s1 = Ok b s'.
Proof.
  unfold mbind, M_bind. destruct (m s) as [a s1|e]; split.
  - eauto.
  - by intros (? & ? & [= -> ->] & ?).
  - discriminate.
  - by intros (? & ? & ? & ?).
Qed.

Lemma b64_ret_Ok {A} (a b : A) s s' :
  (mret a : M A) s = Ok b s' ↔ a = b ∧ s = s'.
Proof. unfold mret, M_ret. split; [by intros [= -> ->] | by intros [-> ->]]. Qed.

Lemma b64_assert_Ok b u s s' : assert b s = Ok u s' ↔ b = true ∧ s = s'.
Proof.
  destruct b, u; simpl; [rewrite b64_ret_Ok|]; split; try done.
  - by intros [_ ->].
  - by intros [_ ->].
  - by intros [? _].
Qed.

Lemma b64_get_Ok s0 s s' : get s = Ok s0 s' ↔ s0 = s ∧ s' = s.
Proof. unfold get. split; [by intros [= -> ->] | by intros [-> ->]]. Qed.

Lemma b64_the_function_Ok k f s s' :
  the_function k s = Ok f s' ↔ functions s !! k = Some f ∧ s' = s.
Proof.
  unfold the_function. destruct (functions s !! k); split;
    try done; try (by intros [= -> ->]); by intros [[= ->] ->].
Qed.


Lemma b64_the_call_Ok k c call s s' :
  the_call k c s = Ok call s' ↔
  (∃ f, functions s !! k = Some f ∧ calls f !! c = Some call) ∧ s' = s.
Proof.
  unfold the_call. rewrite b64_bind_Ok. split.
  - intros (f & s1 & [Hf ->]%b64_the_function_Ok & H).
    destruct (calls f !! c) eqn:Hc; [|done].
    apply b64_ret_Ok in H as [-> ->]. eauto.
  - intros [(f & Hf & Hc) ->]. exists f, s. rewrite b64_the_function_Ok, Hc. done.
Qed.

Lemma b64_functions_getitem_Ok k r s s' :
  functions_getitem k s = Ok r s' ↔
  is_Some (functions s !! k) ∧ r = k ∧ s' = s.
Proof.
  unfold functions_getitem. destruct (functions s !! k); split.
  - by intros [= -> ->].
  - by intros (_ & -> & ->).
  - done.
  - by intros ([? ?] & _).
Qed.

Lemma b64_dict_getitem_Ok {A} (d : gmap nat A) k v s s' :
  dict_getitem d k s = Ok v s' ↔ d !! k = Some v ∧ s' = s.
Proof.
  unfold dict_getitem. destruct (d !! k); split;
    try done; try (by intros [= -> ->]); by intros [[= ->] ->].
Qed.

Lemma b64_getitem_Ok e ev v s s' :
  getitem e ev s = Ok v s' ↔ ev !! e = Some v ∧ s' = s.
Proof.
  unfold getitem. destruct (ev !! e); split;
    try done; try (by intros [= -> ->]); by intros [[= ->] ->].
Qed.


Lemma b64_update_function_Ok k g u s s' :
  update_function k g s = Ok u s' ↔
  ∃ f, functions s !! k = Some f ∧
       s' = set_functions (<[k := g f]> (functions s)) s.
Proof.
  unfold update_function. destruct (functions s !! k) as [f|]; split.
  - intros [= <-]. eauto.
  - intros (? & [= <-] & ->). by destruct u.
  - done.
  - by intros (? & ? & ?).
Qed.

Lemma b64_update_call_Ok k c g u s s' :
  update_call k c g s = Ok u s' ↔
  ∃ f call, functions s !! k = Some f ∧ calls f !! c = Some call ∧
    s' = set_functions
           (<[k := set_calls (<[c := g call]> (calls f)) f]> (functions s)) s.
Proof.
  unfold update_call. rewrite b64_bind_Ok. split.
  - intros (f & s1 & [Hf ->]%b64_the_function_Ok & H).
    destruct (calls f !! c) as [call|] eqn:Hc; [|done].
    apply b64_update_function_Ok in H as (f' & Hf' & ->).
    exists f, call. by simplify_eq.
  - intros (f & call & Hf & Hc & ->). exists f, s.
    rewrite b64_the_function_Ok, Hc, b64_update_function_Ok. eauto.
Qed.


Lemma b64_write_stderr_Ok w u s s' :
  write_stderr w s = Ok u s' ↔ s' = set_stderr (stderr s ++ [w]) s.
Proof.
  unfold write_stderr. destruct u. split; [by intros [= <-] | by intros ->].
Qed.

(** Symbolic execution of a successful run, one statement at a time. *)
Ltac b64_inv_step :=
  match goal with
  | H : (_ ≫= _) _ = Ok _ _ |- _ =>
      apply b64_bind_Ok in H as (? & ? & ? & H)
  | H : @mret M _ _ _ _ = Ok _ _ |- _ => apply b64_ret_Ok in H as [? ?]
  | H : raise _ _ = Ok _ _ |- _ => discriminate H
  | H : Raise _ = Ok _ _ |- _ => discriminate H
  | H : get _ = Ok _ _ |- _ => apply b64_get_Ok in H as [? ?]
  | H : assert _ _ = Ok _ _ |- _ => apply b64_assert_Ok in H as [? ?]
  | H : the_function _ _ = Ok _ _ |- _ => apply b64_the_function_Ok in H as [? ?]
  | H : the_call _ _ _ = Ok _ _ |- _ =>
      apply b64_the_call_Ok in H as [(? & ? & ?) ?]
  | H : functions_getitem _ _ = Ok _ _ |- _ =>
      apply b64_functions_getitem_Ok in H as (? & ? & ?)
  | H : dict_getitem _ _ _ = Ok _ _ |- _ =>
      apply b64_dict_getitem_Ok in H as [? ?]
  | H : getitem _ _ _ = Ok _ _ |- _ => apply b64_getitem_Ok in H as [? ?]
  | H : update_function _ _ _ = Ok _ _ |- _ =>
      apply b64_update_function_Ok in H as (? & ? & ?)
  | H : update_call _ _ _ _ = Ok _ _ |- _ =>
      apply b64_update_call_Ok in H as (? & ? & ? & ? & ?)
  | H : write_stderr _ _ = Ok _ _ |- _ => apply b64_write_stderr_Ok in H
  | H : bool_decide _ = true |- _ => apply bool_decide_eq_true_1 in H
  | H : bool_decide _ = false |- _ => apply bool_decide_eq_false_1 in H
  end.

Ltac b64_inv_M := repeat (b64_inv_step; simplify_eq/=).

(** ** Loops *)

(** A loop invariant indexed by the elements already visited. *)
Lemma b64_for_inv {A} (l : list A) (body : A → M unit)
    (I : list A → Profile → Prop) :
  (∀ done x s s', (done ++ [x]) `prefix_of` l →
     I done s → body x s = Ok tt s' → I (done ++ [x]) s') →
  ∀ s s', I [] s → for_ l body s = Ok tt s' → I l s'.
Proof.
  intros Hbody.
  cut (∀ rest done s s', done ++ rest = l → I done s →
         for_ rest body s = Ok tt s' → I l s').
  { intros H s s'. by apply (H l []). }
  induction rest as [|x rest IH]; intros done s s' Hl HI Hrun; simpl in Hrun.
  - apply b64_ret_Ok in Hrun as [_ <-]. by rewrite app_nil_r in Hl; subst.
  - apply b64_bind_Ok in Hrun as ([] & s1 & Hx & Hrest).
    apply (IH (done ++ [x]) s1 s'); [by rewrite <- app_assoc | | done].
    apply (Hbody done x s s1); [|done..].
    exists rest. by rewrite <- app_assoc.
Qed.

Lemma b64_for_acc_inv {A B} (l : list A) (body : B → A → M B)
    (I : list A → B → Profile → Prop) :
  (∀ done x acc s acc' s', (done ++ [x]) `prefix_of` l →
     I done acc s → body acc x s = Ok acc' s' → I (done ++ [x]) acc' s') →
  ∀ acc s acc' s', I [] acc s → for_acc l acc body s = Ok acc' s' →
    I l acc' s'.
Proof.
  intros Hbody.
  cut (∀ rest done acc s acc' s', done ++ rest = l → I done acc s →
         for_acc rest acc body s = Ok acc' s' → I l acc' s').
  { intros H acc s acc' s'. by apply (H l []). }
  induction rest as [|x rest IH]; intros done acc s acc' s' Hl HI Hrun;
    simpl in Hrun.
  - apply b64_ret_Ok in Hrun as [<- <-]. by rewrite app_nil_r in Hl; subst.
  - apply b64_bind_Ok in Hrun as (acc1 & s1 & Hx & Hrest).
    apply (IH (done ++ [x]) acc1 s1 acc' s'); [by rewrite <- app_assoc | | done].
    apply (Hbody done x acc s acc1 s1); [|done..].
    exists rest. by rewrite <- app_assoc.
Qed.

Lemma b64_set_stderr_nil s : set_stderr (stderr s ++ []) s = s.
Proof. destruct s. unfold set_stderr. simpl. by rewrite app_nil_r. Qed.

(** ** Loops that keep a property of the state *)

Lemma b64_for_preserves {A} (P : Profile → Prop) (l : list A) (body : A → M unit) :
  (∀ x s s', x ∈ l → P s → body x s = Ok tt s' → P s') →
  ∀ s s', P s → for_ l body s = Ok tt s' → P s'.
Proof.
  intros Hbody s s' HP Hrun.
  apply (b64_for_inv l body (λ _, P)) in Hrun; [done| |done].
  intros done x s1 s2 [rest ->] HP1 Hx. apply (Hbody x s1 s2); [|done..].
  rewrite !elem_of_app, list_elem_of_singleton. auto.
Qed.

Lemma b64_for_acc_preserves {A B} (P : Profile → Prop) (l : list A)
    (body : B → A → M B) :
  (∀ x acc s acc' s', x ∈ l → P s → body acc x s = Ok acc' s' → P s') →
  ∀ acc s acc' s', P s → for_acc l acc body s = Ok acc' s' → P s'.
Proof.
  intros Hbody acc s acc' s' HP Hrun.
  apply (b64_for_acc_inv l body (λ _ _, P)) in Hrun; [done| |done].
  intros done x a1 s1 a2 s2 [rest ->] HP1 Hx.
  apply (Hbody x a1 s1 a2 s2); [|done..].
  rewrite !elem_of_app, list_elem_of_singleton. auto.
Qed.

Ltac b64_inv_case :=
  match goal with
  | H : (if ?b then _ else _) _ = Ok _ _ |- _ => destruct b eqn:?
  | H : (match ?x with _ => _ end) _ = Ok _ _ |- _ => destruct x eqn:?
  end.

Ltac b64_inv_all := repeat (b64_inv_M; try b64_inv_case).

(** A loop whose turns each establish a property of their element, under
    a relation between states that keeps the property. *)
Lemma b64_for_establish {A} (R : Profile → Profile → Prop)
    (G : A → Profile → Prop) (l : list A) (body : A → M unit) :
  (∀ s, R s s) → (∀ s1 s2 s3, R s1 s2 → R s2 s3 → R s1 s3) →
  (∀ x s s', R s s' → G x s → G x s') →
  (∀ x s s', x ∈ l → body x s = Ok tt s' → R s s' ∧ G x s') →
  ∀ s s', for_ l body s = Ok tt s' → R s s' ∧ ∀ x, x ∈ l → G x s'.
Proof.
  intros Hrefl Htrans Hmono. induction l as [|x l IH]; intros Hbody s s' Hrun;
    simpl in Hrun.
  - apply b64_ret_Ok in Hrun as [_ <-]. split; [done|].
    intros x Hx. by apply elem_of_nil in Hx.
  - apply b64_bind_Ok in Hrun as ([] & s1 & Hx & Hrest).
    apply Hbody in Hx as [HR HG]; [|left].
    apply IH in Hrest as [HR' HG'].
    + split; [eauto|]. intros y [->|Hy]%elem_of_cons; eauto.
    + intros y s2 s3 Hy. apply Hbody. by right.
Qed.

(** ** [ratio] on Python's numbers *)

Lemma b64_float_Ok x y s s' :
  float x s = Ok y s' ↔ to_float x = Some y ∧ s' = s.
Proof.
  unfold float. destruct (to_float x); split;
    try done; try (by intros [= -> ->]); by intros [[= ->] ->].
Qed.


Lemma b64_ratio_overflow n d s :
  to_float n = None ∨ to_float d = None → ratio n d s = Raise OverflowError.
Proof.
  unfold ratio, float. intros [->| ->]; [done|]. by destruct (to_float n).
Qed.

(** What [ratio] returns and writes, for a denominator other than zero. *)
Lemma b64_ratio_nonzero n d x y s :
  to_float n = Some x → to_float d = Some y → (y =? 0)%float = false →
  ∃ w, ratio n d s =
         Ok (Float (clamp01 (x / y))) (set_stderr (stderr s ++ w) s) ∧
       (w ≠ [] ↔
        (x / y <? - tol)%float = true ∨ (1 + tol <? x / y)%float = true).
Proof.
  intros Hx Hy Hd. unfold ratio, float, clamp01, mbind, M_bind.
  rewrite Hx, Hy. unfold mret, M_ret. cbv beta iota.
  rewrite Hd. destruct (x / y <? 0)%float eqn:H0.
  - destruct (x / y <? - tol)%float eqn:H1.
    + eexists [_]. split; [done|]. split; [auto|done].
    + exists []. rewrite b64_set_stderr_nil. split; [done|].
      split; [done|]. intros [?|H2]; [done|].
      apply ltb_one_tol, ltb_one_zero in H2. congruence.
  - destruct (1 <? x / y)%float eqn:H1.
    + destruct (1 + tol <? x / y)%float eqn:H2.
      * eexists [_]. split; [done|]. split; [auto|done].
      * exists []. rewrite b64_set_stderr_nil. split; [done|].
        split; [done|]. intros [H3%ltb_neg_tol|?]; congruence.
    + exists []. rewrite b64_set_stderr_nil. split; [done|].
      split; [done|].
      intros [H3%ltb_neg_tol|H3%ltb_one_tol]; congruence.
Qed.




(** ** [Profile.prune] on Python's numbers *)

Lemma b64_shrinks_refl s : shrinks s s.
Proof. intros k f c call Hf Hc. eauto. Qed.

Lemma b64_shrinks_trans s1 s2 s3 : shrinks s1 s2 → shrinks s2 s3 → shrinks s1 s3.
Proof.
  intros H12 H23 k f3 c call3 Hf3 Hc3.
  destruct (H23 k f3 c call3 Hf3 Hc3) as (f2 & call2 & Hf2 & Hc2 & Hid).
  destruct (H12 k f2 c call2 Hf2 Hc2) as (f1 & call1 & Hf1 & Hc1 & Hid').
  exists f1, call1. split_and!; [done..|congruence].
Qed.

Lemma b64_shrinks_keyed s s' : shrinks s s' → calls_keyed s → calls_keyed s'.
Proof.
  intros Hsh Hk k f' c call' Hf' Hc'.
  destruct (Hsh k f' c call' Hf' Hc') as (f & call & Hf & Hc & ->). eauto.
Qed.

Lemma b64_shrinks_set_stderr w s : shrinks s (set_stderr w s).
Proof. intros k f c call Hf Hc. simpl in *. eauto. Qed.

Lemma b64_shrinks_update_function k f g s :
  functions s !! k = Some f →
  (∀ c call', calls (g f) !! c = Some call' →
     ∃ call, calls f !! c = Some call ∧ callee_id call' = callee_id call) →
  shrinks s (set_functions (<[k := g f]> (functions s)) s).
Proof.
  intros Hf Hg k' f' c call'. simpl.
  destruct (decide (k' = k)) as [->|Hne].
  - rewrite lookup_insert_eq. intros [= <-] Hc.
    destruct (Hg c call' Hc) as (call & ? & ?). eauto.
  - rewrite lookup_insert_ne by done. eauto.
Qed.

Lemma b64_shrinks_delete_function k s :
  shrinks s (set_functions (delete k (functions s)) s).
Proof.
  intros k' f' c call'. simpl. intros Hf%lookup_delete_Some. naive_solver.
Qed.

Lemma b64_shrinks_update_call k c f call g s :
  functions s !! k = Some f → calls f !! c = Some call →
  callee_id (g call) = callee_id call →
  shrinks s (set_functions
               (<[k := set_calls (<[c := g call]> (calls f)) f]> (functions s)) s).
Proof.
  intros Hf Hc Hg. apply (b64_shrinks_update_function k f (set_calls _)); [done|].
  intros c' call'. simpl. destruct (decide (c' = c)) as [->|Hne].
  - rewrite lookup_insert_eq. intros [= <-]. eauto.
  - rewrite lookup_insert_ne by done. eauto.
Qed.

Lemma b64_shrinks_delete_call k c f s :
  functions s !! k = Some f →
  shrinks s (set_functions
               (<[k := set_calls (delete c (calls f)) f]> (functions s)) s).
Proof.
  intros Hf. apply (b64_shrinks_update_function k f (λ f, set_calls _ f)); [done|].
  intros c' call'. simpl. intros Hc%lookup_delete_Some. naive_solver.
Qed.

Lemma b64_prune_weights_shrinks s s' : prune_weights s = Ok tt s' → shrinks s s'.
Proof.
  unfold prune_weights. intros Hrun.
  apply b64_bind_Ok in Hrun as (s0 & s1 & [-> ->]%b64_get_Ok & Hrun).
  revert Hrun. apply b64_for_preserves; [|apply b64_shrinks_refl].
  intros k s1 s2 _ Hs1 Hrun. b64_inv_M.
  match goal with H : for_ _ _ ?s3 = Ok _ _ |- _ =>
    assert (shrinks s s3) as Hs3; [|revert H; apply b64_for_preserves; [|done]] end.
  - b64_inv_all; [|done]. eapply b64_shrinks_trans; [done|].
    by apply (b64_shrinks_update_function _ _ (set_weight _)); eauto.
  - intros c s4 s5 _ Hs4 Hrun. b64_inv_all; try done;
      (eapply b64_shrinks_trans; [done|]);
      by apply (b64_shrinks_update_call _ _ _ _ (set_call_weight _)).
Qed.

Lemma b64_prune_nodes_shrinks t s s' : prune_nodes t s = Ok tt s' → shrinks s s'.
Proof.
  unfold prune_nodes. intros Hrun.
  apply b64_bind_Ok in Hrun as (s0 & s1 & [-> ->]%b64_get_Ok & Hrun).
  revert Hrun. apply b64_for_preserves; [|apply b64_shrinks_refl].
  intros k s1 s2 _ Hs1 Hrun. b64_inv_all; try done.
  unfold delete_function in *. simplify_eq.
  eapply b64_shrinks_trans; [done|]. apply b64_shrinks_delete_function.
Qed.

Lemma b64_prune_paths_shrinks p s s' : prune_paths p s = Ok tt s' → shrinks s s'.
Proof.
  unfold prune_paths. intros Hrun.
  apply b64_bind_Ok in Hrun as (s0 & s1 & [-> ->]%b64_get_Ok & Hrun).
  revert Hrun. apply b64_for_preserves; [|apply b64_shrinks_refl].
  intros k s1 s2 _ Hs1 Hrun. b64_inv_all; try done;
  unfold delete_function in *; simplify_eq;
  (eapply b64_shrinks_trans; [done|]); apply b64_shrinks_delete_function.
Qed.

Lemma b64_calls_removed_refl s : calls_removed s s.
Proof. split; [done|]. intros k f c call Hf Hc. eauto. Qed.

Lemma b64_calls_removed_trans s1 s2 s3 :
  calls_removed s1 s2 → calls_removed s2 s3 → calls_removed s1 s3.
Proof.
  intros [Hd12 H12] [Hd23 H23]. split.
  - intros k. by rewrite Hd23.
  - intros k f3 c call Hf3 Hc3.
    destruct (H23 k f3 c call Hf3 Hc3) as (f2 & Hf2 & Hc2). eauto.
Qed.

Lemma b64_calls_removed_shrinks s s' : calls_removed s s' → shrinks s s'.
Proof.
  intros [_ H] k f' c call Hf' Hc'.
  destruct (H k f' c call Hf' Hc') as (f & Hf & Hc). eauto.
Qed.

Lemma b64_prune_edge_Ok t k c s s' :
  prune_edge t k c s = Ok tt s' →
  calls_removed s s' ∧
  ∀ f' call, functions s' !! k = Some f' → calls f' !! c = Some call →
             edge_kept t s' c call.
Proof.
  unfold prune_edge. intros Hrun. b64_inv_all.
  - split.
    + split.
      * intros k'. simpl. rewrite lookup_insert_is_Some'.
        split; [intros [->|?]; eauto | eauto].
      * intros k' f' c' call'. simpl.
        destruct (decide (k' = k)) as [->|Hne].
        -- rewrite lookup_insert_eq. intros [= <-]. simpl.
           intros Hc%lookup_delete_Some. naive_solver.
        -- rewrite lookup_insert_ne by done. eauto.
    + intros f' call'. simpl. rewrite lookup_insert_eq. intros [= <-]. simpl.
      by rewrite lookup_delete_eq.
  - split; [apply b64_calls_removed_refl|].
    intros f' call' Hf' Hc'. simplify_eq.
    match goal with H : _ || _ = false |- _ =>
      apply orb_false_iff in H as [Hreg Hw] end.
    apply bool_decide_eq_false_1 in Hreg. split.
    + by apply not_eq_None_Some.
    + intros w Hcw. by rewrite Hcw in Hw.
Qed.

Lemma b64_edge_kept_mono t k c s s' :
  calls_removed s s' →
  (∀ f call, functions s !! k = Some f → calls f !! c = Some call →
             edge_kept t s c call) →
  (∀ f call, functions s' !! k = Some f → calls f !! c = Some call →
             edge_kept t s' c call).
Proof.
  intros [Hdom Hrm] Hgood f' call Hf' Hc'.
  destruct (Hrm k f' c call Hf' Hc') as (f & Hf & Hc).
  destruct (Hgood f call Hf Hc) as [Hreg Hw]. split; [by apply Hdom|done].
Qed.

Lemma b64_prune_edges_Ok t s s' :
  prune_edges t s = Ok tt s' →
  calls_removed s s' ∧
  ∀ k f c call, functions s' !! k = Some f → calls f !! c = Some call →
                edge_kept t s' c call.
Proof.
  unfold prune_edges. intros Hrun.
  apply b64_bind_Ok in Hrun as (s0 & s1 & [-> ->]%b64_get_Ok & Hrun).
  apply (b64_for_establish calls_removed
           (λ k s, ∀ f c call, functions s !! k = Some f →
                     calls f !! c = Some call → edge_kept t s c call))
    in Hrun as [Hrm Hgood].
  - split; [done|]. intros k f c call Hf Hc.
    refine (Hgood k _ f c call Hf Hc). apply elem_of_keys, Hrm. eauto.
  - apply b64_calls_removed_refl.
  - apply b64_calls_removed_trans.
  - intros k s1 s2 Hrm Hgood f c call. by apply (b64_edge_kept_mono t k c s1 s2); eauto.
  - intros k s1 s2 _ Hk.
    apply b64_bind_Ok in Hk as (f & s3 & [Hf ->]%b64_the_function_Ok & Hk).
    apply (b64_for_establish calls_removed
             (λ c s, ∀ f call, functions s !! k = Some f →
                       calls f !! c = Some call → edge_kept t s c call))
      in Hk as [Hrm Hgood].
    + split; [done|]. intros f' c call Hf' Hc'.
      refine (Hgood c _ f' call Hf' Hc').
      destruct Hrm as [_ Hrm].
      destruct (Hrm k f' c call Hf' Hc') as (f0 & Hf0 & Hc0).
      apply elem_of_keys. assert (f0 = f) as -> by congruence. eauto.
    + apply b64_calls_removed_refl.
    + apply b64_calls_removed_trans.
    + intros c s3 s4 Hrm. by apply (b64_edge_kept_mono t k c s3 s4).
    + intros c s3 s4 _. apply b64_prune_edge_Ok.
Qed.

Lemma b64_same_calls_refl s : same_calls s s.
Proof. done. Qed.

Lemma b64_same_calls_trans s1 s2 s3 :
  same_calls s1 s2 → same_calls s2 s3 → same_calls s1 s3.
Proof. intros H12 H23 k. by rewrite H23. Qed.

Lemma b64_same_calls_lookup s s' k f' :
  same_calls s s' → functions s' !! k = Some f' →
  ∃ f, functions s !! k = Some f ∧ calls f' = calls f.
Proof.
  intros H Hf'. specialize (H k). rewrite Hf' in H.
  destruct (functions s !! k) as [f|]; [|done]. simpl in H.
  exists f. split; [done|congruence].
Qed.

Lemma b64_same_calls_is_Some s s' k :
  same_calls s s' → is_Some (functions s' !! k) ↔ is_Some (functions s !! k).
Proof. intros H. by rewrite <- !(fmap_is_Some calls), H. Qed.

Lemma b64_truediv_Ok a b q s s' : truediv a b s = Ok q s' → s' = s.
Proof.
  unfold truediv, float, mbind, M_bind, mret, M_ret, raise.
  destruct a as [x|x], b as [y|y]; simpl;
    repeat (case_match; simpl; try done); intros ?; by simplify_eq.
Qed.

Lemma b64_prune_recolor_same_calls s s' :
  prune_recolor s = Ok tt s' → same_calls s s'.
Proof.
  unfold prune_recolor. intros Hrun.
  apply b64_bind_Ok in Hrun as (s0 & s1 & [-> ->]%b64_get_Ok & Hrun).
  apply b64_bind_Ok in Hrun as (weights & s1 & Hw & Hrun).
  assert (same_calls s s1) as Hs1.
  { revert Hw. apply b64_for_acc_preserves; [|done].
    intros k acc s2 acc' s3 _ Hs2 Hk. by b64_inv_all. }
  revert Hrun. apply b64_for_preserves; [|done].
  intros k s2 s3 _ Hs2 Hk. b64_inv_all; try done.
  all: match goal with H : truediv _ _ _ = Ok _ _ |- _ =>
         apply b64_truediv_Ok in H as -> end.
  2: done.
  eapply b64_same_calls_trans; [done|]. intros k'. simpl.
  destruct (decide (k' = k)) as [->|Hne].
  - rewrite lookup_insert_eq. by match goal with H : functions _ !! k = _ |- _ =>
      rewrite H end.
  - by rewrite lookup_insert_ne.
Qed.

(** Of two numbers that are not NaN, one is less than the other or the
    other is at most the one. *)
Lemma lt_false_le a b :
  isnan a = false → isnan b = false → lt a b = false → le b a = true.
Proof.
  destruct a as [x|x], b as [y|y]; simpl.
  - intros _ _. rewrite Z.ltb_ge. apply Z.leb_le.
  - intros _ Hy. unfold compare_int_float.
    apply is_nan_false in Hy.
    destruct (Prim2SF y) as [[]|[]| |[] m e]; try done;
      cbv beta iota zeta; repeat (case_match; try done).
  - intros Hx _. unfold compare_int_float.
    apply is_nan_false in Hx.
    destruct (Prim2SF x) as [[]|[]| |[] m e]; try done;
      cbv beta iota zeta; repeat (case_match; try done).
  - apply ltb_false_leb.
Qed.

(** C8: when [prune] returns, every call of every surviving function is
    stored under the key of a surviving function, its callee id is such a
    key when the calls were stored under their callee ids, and its weight,
    when defined, is not below [edge_thres]: it is at least [edge_thres]
    unless one of the two is NaN. *)
Theorem prune_spec (node_thres edge_thres : number) (paths : list string)
    (color_nodes_by_selftime : bool) (s s' : Profile) :
  prune node_thres edge_thres paths color_nodes_by_selftime s = Ok tt s' →
  ∀ k f c call, functions s' !! k = Some f → calls f !! c = Some call →
    is_Some (functions s' !! c) ∧
    (calls_keyed s → is_Some (functions s' !! callee_id call)) ∧
    (∀ w, call_weight call = Some w →
       lt w edge_thres = false ∧
       (isnan w = false → isnan edge_thres = false →
        le edge_thres w = true)).
Proof.
  unfold prune. intros Hrun.
  apply b64_bind_Ok in Hrun as ([] & s1 & H1%b64_prune_weights_shrinks & Hrun).
  apply b64_bind_Ok in Hrun as ([] & s2 & H2%b64_prune_nodes_shrinks & Hrun).
  apply b64_bind_Ok in Hrun as ([] & s3 & H3%b64_prune_paths_shrinks & Hrun).
  apply b64_bind_Ok in Hrun as ([] & s4 & [H4 Hkept]%b64_prune_edges_Ok & Hrun).
  assert (same_calls s4 s') as H5.
  { destruct color_nodes_by_selftime.
    - by apply b64_prune_recolor_same_calls.
    - apply b64_ret_Ok in Hrun as [_ <-]. apply b64_same_calls_refl. }
  intros k f c call Hf Hc.
  destruct (b64_same_calls_lookup _ _ _ _ H5 Hf) as (f4 & Hf4 & Hcalls).
  rewrite Hcalls in Hc.
  destruct (Hkept k f4 c call Hf4 Hc) as [Hreg Hw].
  assert (is_Some (functions s' !! c)) as Hreg'
    by (by apply (b64_same_calls_is_Some s4)).
  split_and!; [done| |].
  - intros Hkeyed.
    assert (calls_keyed s4) as Hk4.
    { eapply b64_shrinks_keyed; [|done].
      eauto using b64_shrinks_trans, b64_calls_removed_shrinks. }
    by rewrite (Hk4 k f4 c call Hf4 Hc).
  - intros w Hcw. split; [by apply Hw|].
    intros Hnw Hne. apply lt_false_le; [done..|by apply Hw].
Qed.

Lemma prune_spec_witness :
  prune (Float 0.0078125) (Float 0.0009765625) [] false prune_input =
    Ok tt prune_output ∧
  functions prune_output !! 2%nat = None ∧
  ∃ f call, functions prune_output !! 0%nat = Some f ∧
    calls f = {[1%nat := call]} ∧
    is_Some (functions prune_output !! 1%nat) ∧
    (calls_keyed prune_input →
     is_Some (functions prune_output !! callee_id call)) ∧
    (∀ w, call_weight call = Some w →
       lt w (Float 0.0009765625) = false ∧
       (isnan w = false → isnan (Float 0.0009765625) = false →
        le (Float 0.0009765625) w = true)).
Proof.
  assert (prune (Float 0.0078125) (Float 0.0009765625) [] false prune_input
          = Ok tt prune_output) as Hrun by (vm_compute; reflexivity).
  split; [exact Hrun|]. split; [reflexivity|].
  eexists _, _. split; [reflexivity|]. split; [reflexivity|].
  exact (prune_spec _ _ _ _ _ _ Hrun 0%nat _ 1%nat _ eq_refl eq_refl).
Defined.

(** C8, as the claim words it, fails: the call to function 1 has the
    weight NaN, which is not below the threshold, so the call survives,
    and NaN is not at least the threshold. *)
Lemma prune_nan :
  prune (Float 0.0078125) (Float 0.0009765625) [] false prune_input =
    Ok tt prune_output ∧
  (call_weight <$> (functions prune_output !! 0%nat ≫= λ f, calls f !! 1%nat)) =
    Some (Some (Float nan)) ∧
  le (Float 0.0009765625) (Float nan) = false.
Proof. repeat split; vm_compute; reflexivity. Qed.

(** ** Sums and quotients that are not NaN *)

(** A float that is neither NaN nor infinite. *)
Lemma is_finite_spec x :
  is_finite x = true ↔
  match Prim2SF x with
  | S754_zero _ | S754_finite _ _ _ => True
  | _ => False
  end.
Proof.
  unfold is_finite, is_infinity, is_nan.
  rewrite !eqb_spec, abs_spec. unfold SFeqb.
  change (Prim2SF infinity) with (S754_infinity false).
  destruct (Prim2SF x) as [[]|[]| |[] m e] eqn:Hx; try done;
    rewrite ?SFcompare_refl by done; try done.
Qed.

Lemma is_finite_not_nan x : is_finite x = true → is_nan x = false.
Proof.
  intros Hx%is_finite_spec. apply is_nan_false. intros Hn.
  by rewrite Hn in Hx.
Qed.

Section rounding.
Variables prec emax : Z.

Lemma shr_1_nonneg mrs : (0 ≤ shr_m mrs)%Z → (0 ≤ shr_m (shr_1 mrs))%Z.
Proof. destruct mrs as [[|[]|[]] r s]; simpl; lia. Qed.

Lemma iter_pos_shr_1_nonneg p : ∀ mrs,
  (0 ≤ shr_m mrs)%Z → (0 ≤ shr_m (iter_pos shr_1 p mrs))%Z.
Proof.
  induction p as [p IH|p IH|]; intros mrs Hm; simpl;
    auto using shr_1_nonneg.
Qed.

Lemma shr_fexp_nonneg m e l :
  (0 ≤ m)%Z → (0 ≤ shr_m (shr_fexp prec emax m e l).1)%Z.
Proof.
  intros Hm. unfold shr_fexp, shr.
  assert (0 ≤ shr_m (shr_record_of_loc m l))%Z by (by destruct l as [|[]]).
  destruct (_ - e)%Z; simpl; [done| |done].
  by apply iter_pos_shr_1_nonneg.
Qed.

Lemma round_nearest_even_nonneg m l :
  (0 ≤ m)%Z → (0 ≤ round_nearest_even m l)%Z.
Proof.
  intros Hm. destruct l as [|[]]; simpl; try lia. destruct (Z.even m); lia.
Qed.

Lemma binary_round_aux_not_nan sx mx ex lx :
  (0 ≤ mx)%Z → binary_round_aux prec emax sx mx ex lx ≠ S754_nan.
Proof.
  intros Hm. unfold binary_round_aux.
  pose proof (shr_fexp_nonneg mx ex lx Hm) as H1.
  destruct (shr_fexp prec emax mx ex lx) as [mrs' e']. simpl in H1.
  pose proof (shr_fexp_nonneg _ e' loc_Exact
                (round_nearest_even_nonneg _ (loc_of_shr_record mrs') H1)) as H2.
  destruct (shr_fexp prec emax _ e' loc_Exact) as [mrs'' e'']. simpl in H2.
  destruct (shr_m mrs''); [done| |lia]. by destruct (_ <=? _)%Z.
Qed.

Lemma binary_normalize_not_nan m e szero :
  binary_normalize prec emax m e szero ≠ S754_nan.
Proof.
  destruct m; simpl; [done|..]; unfold binary_round;
    destruct (shl_align _ _ _); by apply binary_round_aux_not_nan.
Qed.

Lemma SFadd_not_nan x y :
  x ≠ S754_nan →
  match y with S754_zero _ | S754_finite _ _ _ => True | _ => False end →
  SFadd prec emax x y ≠ S754_nan.
Proof.
  destruct x as [[]|[]| |sx mx ex], y as [[]|[]| |sy my ey]; try done.
  intros _ _. apply binary_normalize_not_nan.
Qed.

Lemma SFdiv_not_nan x y :
  match x with S754_zero _ | S754_finite _ _ _ => True | _ => False end →
  match y with S754_zero _ | S754_nan => False | _ => True end →
  SFdiv prec emax x y ≠ S754_nan.
Proof.
  destruct x as [[]|[]| |sx mx ex], y as [[]|[]| |sy my ey]; try done.
  intros _ _. simpl. unfold SFdiv_core_binary.
  destruct (Z.div_eucl _ _) as [q r] eqn:Hq.
  apply binary_round_aux_not_nan.
  assert (q = fst (Z.div_eucl
    match (ex - ey - Z.min (fexp prec emax (Zdigits2 (Z.pos mx) + ex -
             (Zdigits2 (Z.pos my) + ey))) (ex - ey))%Z with
    | 0%Z => Z.pos mx
    | Z.pos _ => Z.shiftl (Z.pos mx) (ex - ey - Z.min (fexp prec emax
             (Zdigits2 (Z.pos mx) + ex - (Zdigits2 (Z.pos my) + ey))) (ex - ey))
    | Z.neg _ => 0%Z
    end (Z.pos my))) as -> by (by rewrite Hq).
  apply Z.div_pos; [|done].
  destruct (_ - _ - _)%Z eqn:Hs; [done| |done].
  apply Z.shiftl_nonneg. done.
Qed.
End rounding.

Lemma add_not_nan t x :
  is_nan t = false → is_finite x = true → is_nan (t + x) = false.
Proof.
  rewrite !is_nan_false, is_finite_spec, add_spec.
  apply SFadd_not_nan.
Qed.

Lemma div_not_nan x t :
  is_finite x = true → is_nan t = false → (t =? 0)%float = false →
  is_nan (x / t) = false.
Proof.
  rewrite !is_nan_false, is_finite_spec, div_spec, eqb_spec.
  intros Hx Ht H0. apply SFdiv_not_nan; [done|].
  destruct (Prim2SF t) as [[]|[]| |[] m e]; done.
Qed.

Lemma b64_clamp01_not_nan q : is_nan q = false → is_nan (clamp01 q) = false.
Proof. intros Hq. unfold clamp01. by repeat case_match. Qed.

(** ** [Profile.call_ratios] on Python's numbers *)

Lemma b64_finite_float v x :
  finite v = true → to_float v = Some x → is_finite x = true.
Proof. unfold finite. intros H Hx. by rewrite Hx in H. Qed.

Lemma b64_add_Ok a b r s s' :
  add a b s = Ok r s' →
  s' = s ∧
  ∀ x, a = Float x → ∃ y, to_float b = Some y ∧ r = Float (x + y).
Proof.
  unfold add, float, mbind, M_bind, mret, M_ret, raise.
  destruct a as [x|x], b as [y|y]; simpl;
    repeat (case_match; simpl; try done); intros ?; simplify_eq;
    (split; [done|]); intros ? ?; simplify_eq; eauto.
Qed.

Lemma b64_ratio_Ok n d r s s' :
  ratio n d s = Ok r s' →
  ∃ x y q, to_float n = Some x ∧ to_float d = Some y ∧ r = Float q ∧
    (is_nan q = false → (0 <=? q)%float = true ∧ (q <=? 1)%float = true) ∧
    (is_finite x = true → is_nan y = false → is_nan q = false) ∧
    ∃ w, s' = set_stderr (stderr s ++ w) s.
Proof.
  intros Hrun.
  destruct (to_float n) as [x|] eqn:Hx.
  2:{ rewrite b64_ratio_overflow in Hrun by auto. done. }
  destruct (to_float d) as [y|] eqn:Hy.
  2:{ rewrite b64_ratio_overflow in Hrun by auto. done. }
  exists x, y. destruct (y =? 0)%float eqn:Hd.
  - unfold ratio, float, mbind, M_bind in Hrun. rewrite Hx, Hy in Hrun.
    unfold mret, M_ret in Hrun. cbv beta iota in Hrun. rewrite Hd in Hrun.
    injection Hrun as <- <-. exists 1%float. split_and!; try done.
    exists []. by rewrite b64_set_stderr_nil.
  - destruct (b64_ratio_nonzero n d x y s Hx Hy Hd) as (w & Hw & _).
    rewrite Hw in Hrun. injection Hrun as <- <-.
    exists (clamp01 (x / y)). split_and!; try done.
    + intros Hq. apply b64_clamp01_range.
      destruct (is_nan (x / y)) eqn:Hn; [|done].
      by rewrite (b64_clamp01_nan _ Hn) in Hq.
    + intros Hfx Hny. by apply b64_clamp01_not_nan, div_not_nan.
    + eauto.
Qed.

Lemma b64_ratios_set_refl P event s : ratios_set P event s s.
Proof. intros k f c call Hf Hc. exists f, call. split_and!; auto. Qed.

Lemma b64_ratios_set_trans P event s1 s2 s3 :
  ratios_set P event s1 s2 → ratios_set P event s2 s3 →
  ratios_set P event s1 s3.
Proof.
  intros H12 H23 k f3 c call3 Hf3 Hc3.
  destruct (H23 k f3 c call3 Hf3 Hc3)
    as (f2 & call2 & Hf2 & Hc2 & Hid2 & Hcid2 & Hev2 & Hr2).
  destruct (H12 k f2 c call2 Hf2 Hc2)
    as (f1 & call1 & Hf1 & Hc1 & Hid1 & Hcid1 & Hev1 & Hr1).
  exists f1, call1. split_and!; try congruence.
  destruct Hr2 as [Hr2|[? ?]]; [|right; split; [congruence|done]].
  destruct Hr1 as [Hr1|(? & r & Hr & Hrange & Hnan & Hnone)];
    [left; congruence|].
  right. split; [done|].
  exists r. split_and!; [congruence|apply Hrange|done|by rewrite Hev2].
Qed.

Lemma b64_ratios_set_stderr P event w s :
  ratios_set P event s (set_stderr w s).
Proof. intros k f c call Hf Hc. exists f, call. split_and!; auto. Qed.

Lemma b64_ratios_set_update P event k c f call r s :
  functions s !! k = Some f → calls f !! c = Some call →
  callee_id call ≠ id f →
  good_ratio P event (set_call_ratio (Some r) call) →
  ratios_set P event s
    (set_functions
       (<[k := set_calls (<[c := set_call_ratio (Some r) call]> (calls f)) f]>
          (functions s)) s).
Proof.
  intros Hf Hc Hself Hgood k' f' c' call'. simpl.
  destruct (decide (k' = k)) as [->|Hk].
  - rewrite lookup_insert_eq. intros [= <-]. simpl.
    destruct (decide (c' = c)) as [->|Hne].
    + rewrite lookup_insert_eq. intros [= <-].
      exists f, call. split_and!; auto.
    + rewrite lookup_insert_ne by done. intros Hc'.
      exists f, call'. split_and!; auto.
  - rewrite lookup_insert_ne by done. intros Hf' Hc'.
    exists f', call'. split_and!; auto.
Qed.

(** A good ratio stays good. *)
Lemma b64_good_ratio_mono P event k c s s' :
  ratios_set P event s s' →
  (∀ f call, functions s !! k = Some f → calls f !! c = Some call →
             callee_id call ≠ id f → good_ratio P event call) →
  (∀ f call, functions s' !! k = Some f → calls f !! c = Some call →
             callee_id call ≠ id f → good_ratio P event call).
Proof.
  intros Hset Hgood f' call' Hf' Hc' Hne.
  destruct (Hset k f' c call' Hf' Hc')
    as (f & call & Hf & Hc & Hid & Hcid & Hev & [Hr|[_ ?]]); [|done].
  destruct (Hgood f call Hf Hc) as (r & Hrr & Hrange & Hnan & Hnone);
    [congruence|].
  exists r. split_and!; [congruence|apply Hrange|done|by rewrite Hev].
Qed.

(** A call of a function to itself keeps its ratio. *)
Lemma b64_self_ratio_mono P event k c s s' :
  ratios_set P event s s' →
  (∀ f call, functions s !! k = Some f → calls f !! c = Some call →
             callee_id call = id f → call_ratio call = None) →
  (∀ f call, functions s' !! k = Some f → calls f !! c = Some call →
             callee_id call = id f → call_ratio call = None).
Proof.
  intros Hset Hnone f' call' Hf' Hc' Heq.
  destruct (Hset k f' c call' Hf' Hc')
    as (f & call & Hf & Hc & Hid & Hcid & Hev & [Hr|[Hne _]]);
    [|congruence].
  rewrite Hr. apply (Hnone f call Hf Hc). congruence.
Qed.

Lemma b64_ratios_set_finite P event s s' :
  ratios_set P event s s' → finite_events event s → finite_events event s'.
Proof.
  intros Hset Hfin k f' Hf' c call' Hc'.
  destruct (Hset k f' c call' Hf' Hc')
    as (f & call & Hf & Hc & _ & _ & Hev & _).
  rewrite Hev. eauto.
Qed.

(** A loop whose turns each establish a property of their element, under
    a relation between states that keeps the property and an invariant. *)
Lemma b64_for_establish_inv {A} (R : Profile → Profile → Prop)
    (I : Profile → Prop) (G : A → Profile → Prop) (l : list A)
    (body : A → M unit) :
  (∀ s, R s s) → (∀ s1 s2 s3, R s1 s2 → R s2 s3 → R s1 s3) →
  (∀ x s s', R s s' → G x s → G x s') →
  (∀ s s', R s s' → I s → I s') →
  (∀ x s s', x ∈ l → I s → body x s = Ok tt s' → R s s' ∧ G x s') →
  ∀ s s', I s → for_ l body s = Ok tt s' → R s s' ∧ ∀ x, x ∈ l → G x s'.
Proof.
  intros Hrefl Htrans Hmono Hinv.
  induction l as [|x l IH]; intros Hbody s s' HI Hrun; simpl in Hrun.
  - apply b64_ret_Ok in Hrun as [_ <-]. split; [done|].
    intros x Hx. by apply elem_of_nil in Hx.
  - apply b64_bind_Ok in Hrun as ([] & s1 & Hx & Hrest).
    apply Hbody in Hx as [HR HG]; [|left|done].
    apply IH in Hrest as [HR' HG']; [| |by eapply Hinv].
    + split; [eauto|]. intros y [->|Hy]%elem_of_cons; eauto.
    + intros y s2 s3 Hy. apply Hbody. by right.
Qed.

Lemma b64_totals_init (l : list nat) : ∀ d,
  totals_not_nan d →
  totals_not_nan (foldl (λ d k, <[k := Float 0]> d) d l).
Proof.
  induction l as [|k l IH]; intros d Hd; [done|]. apply IH.
  intros k' t. destruct (decide (k' = k)) as [->|Hne].
  - rewrite lookup_insert_eq. intros [= <-]. by exists 0%float.
  - rewrite lookup_insert_ne by done. apply Hd.
Qed.

Lemma b64_totals_insert d k x :
  totals_not_nan d → is_nan x = false →
  totals_not_nan (<[k := Float x]> d).
Proof.
  intros Hd Hx k' t. destruct (decide (k' = k)) as [->|Hne].
  - rewrite lookup_insert_eq. intros [= <-]. eauto.
  - rewrite lookup_insert_ne by done. apply Hd.
Qed.

(** Pass 1 changes no function, and no total becomes NaN when the events
    are finite. *)
Lemma b64_call_ratios_pass1_Ok event totals totals' s s' :
  call_ratios_pass1 event totals s = Ok totals' s' →
  functions s' = functions s ∧
  (finite_events event s →
   totals_not_nan totals.1 → totals_not_nan totals.2 →
   totals_not_nan totals'.1 ∧ totals_not_nan totals'.2).
Proof.
  unfold call_ratios_pass1. intros Hrun.
  apply b64_bind_Ok in Hrun as (s0 & s1 & [-> ->]%b64_get_Ok & Hrun).
  apply (b64_for_acc_inv _ _
           (λ _ acc s1, functions s1 = functions s ∧
              (finite_events event s →
               totals_not_nan totals.1 → totals_not_nan totals.2 →
               totals_not_nan acc.1 ∧ totals_not_nan acc.2))) in Hrun;
    [done| |by auto].
  clear Hrun. intros _ k acc s1 acc' s2 _ [Hs1 Hacc] Hk.
  apply b64_bind_Ok in Hk as (f & s3 & [Hf ->]%b64_the_function_Ok & Hk).
  apply (b64_for_acc_inv _ _
           (λ _ acc s1, functions s1 = functions s ∧
              (finite_events event s →
               totals_not_nan totals.1 → totals_not_nan totals.2 →
               totals_not_nan acc.1 ∧ totals_not_nan acc.2))) in Hk;
    [done| |done].
  clear Hk Hacc. intros _ c [ft ct] s3 [ft' ct'] s4 _ [Hs3 Hacc] Hc.
  apply b64_bind_Ok in Hc
    as (call & s0 & [(f0 & Hf0 & Hcall) ->]%b64_the_call_Ok & Hc).
  apply b64_bind_Ok in Hc as (f1 & s0 & [Hf1 ->]%b64_the_function_Ok & Hc).
  case_bool_decide as Hself;
    [|by apply b64_ret_Ok in Hc as [[= <- <-] <-]].
  apply b64_bind_Ok in Hc
    as (callee & s0 & (_ & -> & ->)%b64_functions_getitem_Ok & Hc).
  apply b64_bind_Ok in Hc as (cf & s0 & [Hcf ->]%b64_the_function_Ok & Hc).
  destruct (call_events call !! event) as [v|] eqn:Hv.
  2:{ apply b64_bind_Ok in Hc as ([] & s0 & ->%b64_write_stderr_Ok & Hc).
      by apply b64_ret_Ok in Hc as [[= <- <-] <-]. }
  apply b64_bind_Ok in Hc as (t & s0 & [Ht ->]%b64_dict_getitem_Ok & Hc).
  apply b64_bind_Ok in Hc as (t' & s0 & [-> Hadd]%b64_add_Ok & Hc).
  assert (finite_events event s →
          totals_not_nan totals.1 → totals_not_nan totals.2 →
          totals_not_nan (<[callee_id call := t']> ft)) as Hft.
  { intros Hfin H1 H2. destruct (Hacc Hfin H1 H2) as [Hnft _].
    destruct (Hnft _ _ Ht) as (x & -> & Hx).
    destruct (Hadd x eq_refl) as (y & Hy & ->).
    apply b64_totals_insert; [done|]. apply add_not_nan; [done|].
    rewrite Hs3 in Hf0. apply (b64_finite_float v); [|done].
    specialize (Hfin _ _ Hf0 _ _ Hcall). by rewrite Hv in Hfin. }
  destruct (entered_cycle f1 cf) as [cy|].
  - apply b64_bind_Ok in Hc as (u & s0 & [Hu ->]%b64_dict_getitem_Ok & Hc).
    apply b64_bind_Ok in Hc as (u' & s0 & [-> Hadd']%b64_add_Ok & Hc).
    apply b64_ret_Ok in Hc as [[= <- <-] <-]. split; [done|].
    intros Hfin H1 H2. split; [by apply Hft|].
    destruct (Hacc Hfin H1 H2) as [_ Hnct].
    destruct (Hnct _ _ Hu) as (x & -> & Hx).
    destruct (Hadd' x eq_refl) as (y & Hy & ->).
    apply b64_totals_insert; [done|]. apply add_not_nan; [done|].
    rewrite Hs3 in Hf0. apply (b64_finite_float v); [|done].
    specialize (Hfin _ _ Hf0 _ _ Hcall). by rewrite Hv in Hfin.
  - apply b64_ret_Ok in Hc as [[= <- <-] <-]. split; [done|].
    intros Hfin H1 H2. split; [by apply Hft|]. by apply Hacc.
Qed.

Lemma b64_call_ratios_pass2_Ok P event function_totals cycle_totals s s' :
  (P → finite_events event s ∧ totals_not_nan function_totals ∧
       totals_not_nan cycle_totals) →
  call_ratios_pass2 event function_totals cycle_totals s = Ok tt s' →
  ∀ k f c call, functions s' !! k = Some f → calls f !! c = Some call →
    (callee_id call ≠ id f → good_ratio P event call) ∧
    (callee_id call = id f → call_ratio call = None).
Proof.
  unfold call_ratios_pass2. intros HP Hrun.
  apply b64_bind_Ok in Hrun as (s0 & s1 & [-> ->]%b64_get_Ok & Hrun).
  apply (b64_for_establish_inv (ratios_set P event)
           (λ s, P → finite_events event s)
           (λ k s, ∀ f c call, functions s !! k = Some f →
              calls f !! c = Some call →
              (callee_id call ≠ id f → good_ratio P event call) ∧
              (callee_id call = id f → call_ratio call = None)))
    in Hrun as [Hset Hgood].
  - intros k f c call Hf Hc. eapply (Hgood k); [|done..].
    destruct (Hset k f c call Hf Hc) as (f0 & ? & Hf0 & _).
    apply elem_of_keys. eauto.
  - apply b64_ratios_set_refl.
  - apply b64_ratios_set_trans.
  - intros k s1 s2 Hset Hgood f c call Hf Hc. split.
    + apply (b64_good_ratio_mono P event k c s1 s2 Hset); [|done..].
      intros f0 call0 Hf0 Hc0. by apply (Hgood f0 c call0).
    + apply (b64_self_ratio_mono P event k c s1 s2 Hset); [|done..].
      intros f0 call0 Hf0 Hc0. by apply (Hgood f0 c call0).
  - intros s1 s2 Hset Hfin Hp. eapply b64_ratios_set_finite; eauto.
  - intros k s1 s2 _ Hfin1 Hk.
    apply b64_bind_Ok in Hk as (f & s3 & [Hf ->]%b64_the_function_Ok & Hk).
    apply (b64_for_establish_inv (ratios_set P event)
             (λ s, P → finite_events event s)
             (λ c s, ∀ f call, functions s !! k = Some f →
                calls f !! c = Some call →
                (callee_id call ≠ id f → good_ratio P event call) ∧
                (callee_id call = id f → call_ratio call = None)))
      in Hk as [Hset Hgood].
    + split; [done|]. intros f' c call Hf' Hc'. eapply (Hgood c); [|done..].
      destruct (Hset k f' c call Hf' Hc') as (f0 & ? & Hf0 & Hc0 & _).
      apply elem_of_keys. assert (f0 = f) as -> by congruence. eauto.
    + apply b64_ratios_set_refl.
    + apply b64_ratios_set_trans.
    + intros c s3 s4 Hset Hgood f0 call Hf0 Hc0. split.
      * apply (b64_good_ratio_mono P event k c s3 s4 Hset); [|done..].
        intros f1 call1 Hf1 Hc1. by apply (Hgood f1 call1).
      * apply (b64_self_ratio_mono P event k c s3 s4 Hset); [|done..].
        intros f1 call1 Hf1 Hc1. by apply (Hgood f1 call1).
    + intros s3 s4 Hset Hfin Hp. eapply b64_ratios_set_finite; eauto.
    + intros c s3 s4 _ Hfin3 Hc. clear Hrun Hk Hf Hfin1.
      apply b64_bind_Ok in Hc
        as (call & s0 & [(f0 & Hf0 & Hcall) ->]%b64_the_call_Ok & Hc).
      apply b64_bind_Ok in Hc as (f1 & s0 & [Hf1 ->]%b64_the_function_Ok & Hc).
      assert (f1 = f0) as -> by congruence.
      apply b64_bind_Ok in Hc as ([] & s0 & [Hnone <-]%b64_assert_Ok & Hc).
      apply bool_decide_eq_true_1 in Hnone.
      case_bool_decide as Hself.
      2:{ (* a call of the function to itself *)
          apply b64_ret_Ok in Hc as [_ <-].
          split; [apply b64_ratios_set_refl|].
          intros f' call' Hf' Hc'. simplify_eq. split; [tauto|done]. }
      apply b64_bind_Ok in Hc
        as (callee & s0 & (_ & -> & ->)%b64_functions_getitem_Ok & Hc).
      apply b64_bind_Ok in Hc as (cf & s0 & [Hcf ->]%b64_the_function_Ok & Hc).
      assert (∀ r s5 w, good_ratio P event (set_call_ratio (Some (Float r)) call) →
                s5 = set_stderr (stderr s3 ++ w) s3 →
                update_call k c (set_call_ratio (Some (Float r))) s5 = Ok tt s4 →
                ratios_set P event s3 s4 ∧
                ∀ f call, functions s4 !! k = Some f →
                  calls f !! c = Some call →
                  (callee_id call ≠ id f → good_ratio P event call) ∧
                  (callee_id call = id f → call_ratio call = None)) as Hupd.
      { intros r s5 w Hgood -> Hu.
        apply b64_update_call_Ok in Hu as (f2 & call2 & Hf2 & Hc2 & ->).
        simpl in Hf2. simplify_eq. split.
        - eapply b64_ratios_set_trans;
            [apply (b64_ratios_set_stderr _ _ (stderr s3 ++ w))|].
          by apply (b64_ratios_set_update P event k c _ _ _ (set_stderr _ s3)).
        - intros f' call'. simpl. rewrite lookup_insert_eq. intros [= <-].
          simpl. rewrite lookup_insert_eq. intros [= <-]. by split. }
      destruct (call_events call !! event) as [v|] eqn:Hv.
      * (* the call has the event *)
        apply b64_bind_Ok in Hc as (total & s0 & Htotal & Hc).
        assert (s0 = s3 ∧ (P → ∃ t, total = Float t ∧ is_nan t = false))
          as [-> Hnt].
        { destruct (entered_cycle f0 cf);
            apply b64_dict_getitem_Ok in Htotal as [Ht ->];
            (split; [done|]); intros Hp;
            destruct (HP Hp) as (_ & Hft & Hct); eauto. }
        apply b64_bind_Ok in Hc as (r & s0 & Hr & Hc).
        apply b64_ratio_Ok in Hr
          as (x & y & q & Hx & Hy & -> & Hrange & Hnan & w & ->).
        apply (Hupd q (set_stderr (stderr s3 ++ w) s3) w); [|done..].
        exists q. split_and!; [done|done| |simpl; congruence].
        intros Hp. destruct (Hnt Hp) as (t & -> & Ht).
        simpl in Hy. injection Hy as <-. apply Hnan; [|done].
        apply (b64_finite_float v); [|done].
        specialize (Hfin3 Hp _ _ Hf0 _ _ Hcall). by rewrite Hv in Hfin3.
      * (* the call lacks the event *)
        apply (Hupd 0%float s3 []);
          [|by rewrite b64_set_stderr_nil|done].
        exists 0%float. split_and!; done.
    + done.
  - intros Hp. by destruct (HP Hp).
Qed.

(** C4: when [call_ratios] returns, every call whose callee id differs
    from the id of its caller has a ratio, a float; the ratio lies in
    [0,1] unless it is NaN, it is not NaN when the value of the event of
    every call is, as a float, neither NaN nor infinite, and it is 0.0
    when the call lacks the event. *)
Theorem call_ratios_spec (event : Event) (s s' : Profile) :
  call_ratios event s = Ok tt s' →
  ∀ k f c call, functions s' !! k = Some f → calls f !! c = Some call →
    callee_id call ≠ id f →
    ∃ r, call_ratio call = Some (Float r) ∧
         (is_nan r = false →
          (0 <=? r)%float = true ∧ (r <=? 1)%float = true) ∧
         (finite_events event s → is_nan r = false) ∧
         (call_events call !! event = None → r = 0%float).
Proof.
  unfold call_ratios. intros Hrun.
  apply b64_bind_Ok in Hrun as (s0 & s1 & [-> ->]%b64_get_Ok & Hrun).
  apply b64_bind_Ok in Hrun as ([ft ct] & s1 & Hpass1 & Hrun).
  apply b64_call_ratios_pass1_Ok in Hpass1 as [Hfs Htotals].
  intros k f c call Hf Hc.
  refine (proj1 (b64_call_ratios_pass2_Ok (finite_events event s)
                   _ _ _ _ _ _ Hrun k f c call Hf Hc)).
  intros Hfin. split.
  - intros k' f' Hf'. rewrite Hfs in Hf'. exact (Hfin k' f' Hf').
  - apply Htotals; [done|..]; by apply b64_totals_init.
Qed.

Lemma call_ratios_spec_witness :
  call_ratios CALLS validated = Ok tt with_ratios ∧
  finite_events CALLS validated ∧
  ∀ k f c call, functions with_ratios !! k = Some f →
    calls f !! c = Some call → callee_id call ≠ id f →
    ∃ r, call_ratio call = Some (Float r) ∧
         (0 <=? r)%float = true ∧ (r <=? 1)%float = true ∧
         (call_events call !! CALLS = None → r = 0%float).
Proof.
  assert (call_ratios CALLS validated = Ok tt with_ratios) as Hrun
    by (vm_compute; reflexivity).
  assert (finite_events CALLS validated) as Hfin.
  { apply (bool_decide_unpack _). vm_compute. exact I. }
  split; [exact Hrun|]. split; [exact Hfin|].
  intros k f c call Hf Hc Hne.
  destruct (call_ratios_spec _ _ _ Hrun k f c call Hf Hc Hne)
    as (r & Hr & Hrange & Hnan & Hnone).
  exists r. split; [exact Hr|].
  destruct (Hrange (Hnan Hfin)) as [H0 H1]. auto.
Defined.

(** C4, as the claim words it, fails: a call whose sample count is NaN
    gets the ratio NaN, and so does a call whose sample count is
    infinite; NaN is not in [0,1]. *)
Lemma call_ratios_nan :
  call_ratios SAMPLES2 nan_input = Ok tt nan_output ∧
  (call_ratio <$> (functions nan_output !! 0%nat ≫= λ f, calls f !! 1%nat)) =
    Some (Some (Float nan)) ∧
  (call_ratio <$> (functions nan_output !! 0%nat ≫= λ f, calls f !! 2%nat)) =
    Some (Some (Float nan)) ∧
  (0 <=? nan)%float = false ∧ (nan <=? 1)%float = false.
Proof. repeat split; vm_compute; reflexivity. Qed.

(** ** [Profile.ratio] on Python's numbers *)

Lemma b64_ratio_value_Ok n d r s s' :
  ratio n d s = Ok r s' →
  ratio_value n d = Some r ∧ ∃ w, s' = set_stderr (stderr s ++ w) s.
Proof.
  intros Hrun. unfold ratio_value.
  destruct (to_float n) as [x|] eqn:Hx;
    [|by rewrite b64_ratio_overflow in Hrun by auto].
  destruct (to_float d) as [y|] eqn:Hy;
    [|by rewrite b64_ratio_overflow in Hrun by auto].
  simpl. destruct (y =? 0)%float eqn:Hd.
  - unfold ratio, float, mbind, M_bind in Hrun. rewrite Hx, Hy in Hrun.
    unfold mret, M_ret in Hrun. cbv beta iota in Hrun. rewrite Hd in Hrun.
    injection Hrun as <- <-. split; [done|].
    exists []. by rewrite b64_set_stderr_nil.
  - destruct (b64_ratio_nonzero n d x y s Hx Hy Hd) as (w & Hrun' & _).
    rewrite Hrun' in Hrun. injection Hrun as <- <-. eauto.
Qed.

Lemma b64_ratio_value_range n d r :
  ratio_value n d = Some r →
  ∃ q, r = Float q ∧
       (is_nan q = false → (0 <=? q)%float = true ∧ (q <=? 1)%float = true).
Proof.
  unfold ratio_value. destruct (to_float n) as [x|]; [simpl|done].
  destruct (to_float d) as [y|]; [simpl|done]. intros [= <-].
  eexists. split; [done|]. destruct (y =? 0)%float; [done|].
  intros Hq. apply b64_clamp01_range.
  destruct (is_nan (x / y)) eqn:Hn; [|done].
  by rewrite (b64_clamp01_nan _ Hn) in Hq.
Qed.

Lemma b64_set_calls_id f : set_calls (calls f) f = f.
Proof. by destruct f. Qed.

(** The inner loop, over the calls of the function stored under [k]. *)
Lemma b64_ratio_calls_run outevent inevent total k l : ∀ s s' f,
  inevent ≠ outevent → events s !! inevent = Some total →
  functions s !! k = Some f → NoDup l →
  for_ l (λ c,
    call ← the_call k c;
    assert (bool_decide (call_events call !! outevent = None)) ;;
    if bool_decide (is_Some (call_events call !! inevent)) then
      n ← call_getitem k c inevent;
      d ← profile_getitem inevent;
      r ← ratio n d;
      call_setitem k c outevent r
    else mret tt) s = Ok tt s' →
  functions s' =
    <[k := set_calls
             (map_imap (λ c call,
                Some (if bool_decide (c ∈ l)
                      then ratio_call total outevent inevent call else call))
                (calls f)) f]> (functions s) ∧
  (∀ c call, c ∈ l → calls f !! c = Some call →
             call_events call !! outevent = None ∧
             ratio_defined total inevent (call_events call)) ∧
  events s' = events s ∧ cycles s' = cycles s ∧
  cycle_store s' = cycle_store s.
Proof.
  induction l as [|x l IH]; intros s s' f Hne Htotal Hf Hnd Hrun;
    simpl in Hrun.
  - apply b64_ret_Ok in Hrun as [_ <-]. split_and!; try done.
    + assert (map_imap (λ c call,
                Some (if bool_decide (c ∈ @nil nat)
                      then ratio_call total outevent inevent call else call))
                (calls f) = calls f) as ->.
      { apply map_eq. intros c. rewrite map_lookup_imap.
        by destruct (calls f !! c). }
      by rewrite b64_set_calls_id, insert_id.
    + intros c call Hc. by apply elem_of_nil in Hc.
  - apply NoDup_cons in Hnd as [Hx Hnd].
    apply b64_bind_Ok in Hrun as ([] & s1 & Hstep & Hrest).
    apply b64_bind_Ok in Hstep as (call & s2 & [(f0 & Hf0 & Hcall) ->]%b64_the_call_Ok
                                & Hstep).
    assert (f0 = f) as -> by congruence. clear Hf0.
    apply b64_bind_Ok in Hstep as ([] & s2 & [Hout <-]%b64_assert_Ok & Hstep).
    apply bool_decide_eq_true_1 in Hout.
    assert (∃ f1, functions s1 !! k = Some f1 ∧
              f1 = set_calls (<[x := ratio_call total outevent inevent call]>
                                (calls f)) f ∧
              functions s1 = <[k := f1]> (functions s) ∧
              events s1 = events s ∧ cycles s1 = cycles s ∧
              cycle_store s1 = cycle_store s ∧
              ratio_defined total inevent (call_events call))
      as (f1 & Hf1 & Hf1eq & Hfs1 & Hev1 & Hcy1 & Hcs1 & Hdef).
    { unfold ratio_call, ratio_defined. case_bool_decide as Hin.
      - destruct Hin as [n Hn]. rewrite Hn.
        unfold call_getitem, profile_getitem, call_setitem in Hstep.
        b64_inv_M.
        match goal with H : ratio _ _ _ = Ok _ _ |- _ =>
          apply b64_ratio_value_Ok in H as [Hrv [w ->]] end.
        simpl in *. simplify_eq. rewrite Hrv.
        eexists. split; [apply lookup_insert_eq|]. split_and!; try done.
        intros n' [= <-]. by rewrite Hrv.
      - apply b64_ret_Ok in Hstep as [_ <-].
        assert (call_events call !! inevent = None) as Hnone
          by (by apply eq_None_not_Some).
        rewrite Hnone.
        rewrite (insert_id (calls f)), b64_set_calls_id by done.
        exists f. split; [done|]. split_and!; try done.
        by rewrite insert_id. }
    assert (events s1 !! inevent = Some total) as Htotal1 by congruence.
    destruct (IH s1 s' f1 Hne Htotal1 Hf1 Hnd Hrest)
      as (Hfs & Houts & Hev & Hcy & Hcs).
    split_and!; try congruence.
    + rewrite Hfs, Hfs1, insert_insert_eq. f_equal. rewrite Hf1eq.
      unfold set_calls. simpl. f_equal.
      apply map_eq. intros c. rewrite !map_lookup_imap.
      destruct (decide (c = x)) as [->|Hnc].
      * rewrite lookup_insert_eq, Hcall. simpl.
        rewrite bool_decide_eq_false_2 by done.
        by rewrite bool_decide_eq_true_2 by left.
      * rewrite lookup_insert_ne by done.
        destruct (calls f !! c); [simpl|done].
        rewrite (bool_decide_ext (c ∈ x :: l) (c ∈ l)); [done|].
        rewrite elem_of_cons. naive_solver.
    + intros c call' [->|Hc]%elem_of_cons Hcc;
        [assert (call' = call) as -> by congruence; done|].
      apply (Houts c call' Hc). rewrite Hf1eq. simpl.
      rewrite lookup_insert_ne; [done|]. by intros ->.
Qed.

Lemma b64_ratio_call_fmap total outevent inevent (cs : gmap nat Call) :
  map_imap (λ c call,
     Some (if bool_decide (c ∈ keys cs)
           then ratio_call total outevent inevent call else call)) cs =
  ratio_call total outevent inevent <$> cs.
Proof.
  apply map_eq. intros c. rewrite map_lookup_imap, lookup_fmap.
  destruct (cs !! c) eqn:Hc; [simpl|done].
  rewrite bool_decide_eq_true_2; [done|]. apply elem_of_keys. eauto.
Qed.

(** The outer loop, over the functions. *)
Lemma b64_ratio_functions_run outevent inevent total l : ∀ s s',
  inevent ≠ outevent → events s !! inevent = Some total → NoDup l →
  for_ l (λ function,
    f ← the_function function;
    assert (bool_decide (function_events f !! outevent = None)) ;;
    assert (bool_decide (is_Some (function_events f !! inevent))) ;;
    n ← function_getitem function inevent;
    d ← profile_getitem inevent;
    r ← ratio n d;
    function_setitem function outevent r ;;
    for_ (keys (calls f)) (λ c,
      call ← the_call function c;
      assert (bool_decide (call_events call !! outevent = None)) ;;
      if bool_decide (is_Some (call_events call !! inevent)) then
        n ← call_getitem function c inevent;
        d ← profile_getitem inevent;
        r ← ratio n d;
        call_setitem function c outevent r
      else mret tt)) s = Ok tt s' →
  (∀ k, functions s' !! k =
        (λ f, if bool_decide (k ∈ l)
              then ratio_function total outevent inevent f else f)
          <$> functions s !! k) ∧
  (∀ k f, k ∈ l → functions s !! k = Some f →
     function_events f !! outevent = None ∧
     is_Some (function_events f !! inevent) ∧
     ratio_defined total inevent (function_events f) ∧
     ∀ c call, calls f !! c = Some call →
               call_events call !! outevent = None ∧
               ratio_defined total inevent (call_events call)) ∧
  events s' = events s ∧ cycles s' = cycles s ∧
  cycle_store s' = cycle_store s.
Proof.
  induction l as [|x l IH]; intros s s' Hne Htotal Hnd Hrun; simpl in Hrun.
  - apply b64_ret_Ok in Hrun as [_ <-]. split_and!; try done.
    + intros k. rewrite bool_decide_eq_false_2 by apply not_elem_of_nil.
      by destruct (functions s !! k).
    + intros k f Hk. by apply elem_of_nil in Hk.
  - apply NoDup_cons in Hnd as [Hx Hnd].
    apply b64_bind_Ok in Hrun as ([] & s1 & Hstep & Hrest).
    apply b64_bind_Ok in Hstep as (f & s2 & [Hf ->]%b64_the_function_Ok & Hstep).
    apply b64_bind_Ok in Hstep as ([] & s2 & [Hout <-]%b64_assert_Ok & Hstep).
    apply b64_bind_Ok in Hstep as ([] & s2 & [Hin <-]%b64_assert_Ok & Hstep).
    apply bool_decide_eq_true_1 in Hout, Hin. destruct Hin as [n Hn].
    apply b64_bind_Ok in Hstep as (n' & s2 & Hget & Hstep).
    unfold function_getitem in Hget.
    apply b64_bind_Ok in Hget as (f0 & s3 & [Hf0 ->]%b64_the_function_Ok
                              & [Hn' ->]%b64_getitem_Ok).
    assert (f0 = f) as -> by congruence. clear Hf0.
    assert (n' = n) as -> by congruence. clear Hn'.
    apply b64_bind_Ok in Hstep as (d & s2 & Hget & Hstep).
    unfold profile_getitem in Hget.
    apply b64_bind_Ok in Hget as (s0 & s3 & [-> ->]%b64_get_Ok & [Hd ->]%b64_getitem_Ok).
    assert (d = total) as -> by congruence. clear Hd.
    apply b64_bind_Ok in Hstep as (r & s2 & [Hrv [w ->]]%b64_ratio_value_Ok & Hstep).
    apply b64_bind_Ok in Hstep as ([] & s2 & Hset & Hstep).
    unfold function_setitem in Hset.
    apply b64_update_function_Ok in Hset as (f0 & Hf0 & ->).
    simpl in Hf0. assert (f0 = f) as -> by congruence. clear Hf0.
    set (f1 := set_function_events _ f) in Hstep.
    apply (b64_ratio_calls_run _ _ total _ _ _ _ f1) in Hstep
      as (Hfs1 & Houts & Hev1 & Hcy1 & Hcs1);
      [|done|done|simpl; apply lookup_insert_eq|apply NoDup_keys].
    simpl in *.
    change (calls f1) with (calls f) in Hfs1.
    rewrite b64_ratio_call_fmap, insert_insert_eq in Hfs1.
    apply IH in Hrest as (Hfs & Hpre & Hev & Hcy & Hcs);
      [|done|congruence|done].
    split_and!; try congruence.
    + intros k. rewrite Hfs, Hfs1.
      destruct (decide (k = x)) as [->|Hnk].
      * rewrite lookup_insert_eq, Hf. simpl.
        rewrite bool_decide_eq_false_2 by done.
        rewrite bool_decide_eq_true_2 by left.
        unfold ratio_function. rewrite Hn. simpl. by rewrite Hrv.
      * rewrite lookup_insert_ne by done.
        destruct (functions s !! k); [simpl|done].
        rewrite (bool_decide_ext (k ∈ x :: l) (k ∈ l)); [done|].
        rewrite elem_of_cons. naive_solver.
    + intros k g [->|Hk]%elem_of_cons Hg.
      * assert (g = f) as -> by congruence. split_and!; [done|eauto| |].
        -- intros n' Hn'. assert (n' = n) as -> by congruence.
           by rewrite Hrv.
        -- intros c call Hc. apply (Houts c call); [|done].
           apply elem_of_keys. eauto.
      * apply (Hpre k g Hk). rewrite Hfs1, lookup_insert_ne; [done|].
        by intros ->.
Qed.

(** X5: when [Profile.ratio] returns, the input event was defined on
    the profile and on every function, and the output event nowhere;
    every function has got as output event the value of [ratio] for its
    input event and the one of the profile: their quotient as floats,
    clamped, 1.0 when the profile's is zero; so has every call that has
    the input event, and a call without it has got no output event.  Such
    a value lies in [0,1] unless it is NaN.  The output event of the
    profile is 1.0; nothing else has changed but [stderr]. *)
Theorem Profile_ratio_spec (outevent inevent : Event) (s s' : Profile) :
  Profile_ratio outevent inevent s = Ok tt s' →
  ∃ total,
    events s !! inevent = Some total ∧
    events s !! outevent = None ∧
    events s' = <[outevent := Float 1]> (events s) ∧
    (∀ k, functions s' !! k =
          ratio_function total outevent inevent <$> functions s !! k) ∧
    (∀ k f, functions s !! k = Some f →
       function_events f !! outevent = None ∧
       (∃ n r, function_events f !! inevent = Some n ∧
               ratio_value n total = Some (Float r) ∧
               (is_nan r = false →
                (0 <=? r)%float = true ∧ (r <=? 1)%float = true)) ∧
       ∀ c call, calls f !! c = Some call →
         call_events call !! outevent = None ∧
         ∀ m, call_events call !! inevent = Some m →
           ∃ r, ratio_value m total = Some (Float r) ∧
                (is_nan r = false →
                 (0 <=? r)%float = true ∧ (r <=? 1)%float = true)) ∧
    cycles s' = cycles s ∧ cycle_store s' = cycle_store s.
Proof.
  unfold Profile_ratio. intros Hrun.
  apply b64_bind_Ok in Hrun as (s0 & s1 & [-> ->]%b64_get_Ok & Hrun).
  apply b64_bind_Ok in Hrun as ([] & s1 & [Hout <-]%b64_assert_Ok & Hrun).
  apply b64_bind_Ok in Hrun as ([] & s1 & [Hin <-]%b64_assert_Ok & Hrun).
  apply bool_decide_eq_true_1 in Hout, Hin. destruct Hin as [total Htotal].
  assert (inevent ≠ outevent) as Hne by congruence.
  apply b64_bind_Ok in Hrun as ([] & s1 & Hloop & Hset).
  apply (b64_ratio_functions_run _ _ total) in Hloop
    as (Hfs & Hpre & Hev & Hcy & Hcs); [|done|done|apply NoDup_keys].
  unfold profile_setitem in Hset. injection Hset as <-. simpl.
  exists total. split_and!; try done; [by rewrite Hev| |].
  - intros k. rewrite Hfs. destruct (functions s !! k) eqn:Hk; [simpl|done].
    rewrite bool_decide_eq_true_2; [done|]. apply elem_of_keys. eauto.
  - intros k f Hf.
    destruct (Hpre k f) as (Hfout & [n Hn] & Hdef & Hcalls); [|done|].
    { apply elem_of_keys. eauto. }
    split_and!; [done| |].
    + destruct (Hdef n Hn) as [r Hr].
      destruct (b64_ratio_value_range _ _ _ Hr) as (q & -> & Hq). eauto.
    + intros c call Hc. destruct (Hcalls c call Hc) as [Hcout Hcdef].
      split; [done|]. intros m Hm. destruct (Hcdef m Hm) as [r Hr].
      destruct (b64_ratio_value_range _ _ _ Hr) as (q & -> & Hq). eauto.
Qed.

Lemma Profile_ratio_spec_witness :
  Profile_ratio TIME_RATIO TIME chain_input = Ok tt ratio_output ∧
  events ratio_output !! TIME_RATIO = Some (Float 1) ∧
  function_events <$> functions ratio_output !! 2%nat =
    Some {[TIME := Int 3; TIME_RATIO := Float 0.5]} ∧
  (call_events <$> (functions ratio_output !! 0%nat ≫= λ f, calls f !! 1%nat)) =
    Some {[TIME := Float nan; TIME_RATIO := Float nan]}.
Proof.
  assert (Profile_ratio TIME_RATIO TIME chain_input = Ok tt ratio_output)
    as Hrun by (vm_compute; reflexivity).
  destruct (Profile_ratio_spec _ _ _ _ Hrun) as (total & Htotal & _ & Hev & _).
  split; [exact Hrun|]. split; [by rewrite Hev|].
  split; vm_compute; reflexivity.
Defined.
